(** * Transportation solver (stepping-stone / MODI): model of [src/utils/solver.ts]

    The development embeds the functions of [solver.ts] and the step logic of
    the application component ([handleNextStep]) as Rocq functions and proves
    the properties of the specification about them.

    Modelling conventions.
    - A JavaScript number is an integer ([Z]) wherever the code only copies or
      compares input data (costs, supplies, coordinates).  Values the code
      computes from [Infinity] (the pivot quantity, the minimum opportunity
      cost, allocations after a pivot, totals) live in [num], the integers
      extended with [Infinity], [-Infinity] and [NaN]; integer arithmetic is
      exact (the safe-integer range is not modelled, nor is the sign of zero).
    - Arrays are lists; [arr[i]] is [zget arr i], which is [None] where
      JavaScript yields [undefined].  Reading a property of [undefined] throws
      a [TypeError]; functions that can do so on well-typed arguments return
      [res], whose constructor [TypeError] records it.
    - The [while] loop of [calculatePotentials] and the recursion of
      [findLoop] carry an explicit bound; [OutOfFuel] is proved unreachable.
    - Presentation-only text fields ([message], [stepDescription]) and the
      log are left out of [SolverState]. *)

From stdpp Require Import prelude gmap sorting.
From Stdlib Require Import ZArith Lia.

Local Open Scope Z_scope.

(** ** Numbers *)

Inductive num : Type :=
| Fin (z : Z)
| PInf
| NInf
| NaN.

Definition nneg (a : num) : num :=
  match a with
  | Fin z => Fin (- z)
  | PInf => NInf
  | NInf => PInf
  | NaN => NaN
  end.

Definition nadd (a b : num) : num :=
  match a, b with
  | NaN, _ | _, NaN => NaN
  | Fin x, Fin y => Fin (x + y)
  | PInf, NInf | NInf, PInf => NaN
  | PInf, _ | _, PInf => PInf
  | NInf, _ | _, NInf => NInf
  end.

Definition nsub (a b : num) : num := nadd a (nneg b).

Definition nsign (a : num) : Z :=
  match a with
  | Fin z => Z.sgn z
  | PInf => 1
  | NInf => -1
  | NaN => 0
  end.

Definition nmul (a b : num) : num :=
  match a, b with
  | NaN, _ | _, NaN => NaN
  | Fin x, Fin y => Fin (x * y)
  | _, _ =>
      match nsign a * nsign b with
      | 0 => NaN
      | Zpos _ => PInf
      | Zneg _ => NInf
      end
  end.

(** [a < b] *)
Definition nlt (a b : num) : bool :=
  match a, b with
  | NaN, _ | _, NaN => false
  | Fin x, Fin y => x <? y
  | NInf, NInf | PInf, _ | _, NInf => false
  | _, _ => true
  end.

(** [a >= b] *)
Definition nge (a b : num) : bool :=
  match a, b with
  | NaN, _ | _, NaN => false
  | Fin x, Fin y => y <=? x
  | PInf, _ | _, NInf => true
  | _, _ => false
  end.

(** Truthiness of a number: [0] and [NaN] are falsy. *)
Definition truthy (a : num) : bool :=
  match a with
  | Fin z => negb (z =? 0)
  | PInf | NInf => true
  | NaN => false
  end.

(** ** Results of computations that may throw *)

Inductive res (A : Type) : Type :=
| Ok (a : A)
| TypeError
| OutOfFuel.
Arguments Ok {A} a.
Arguments TypeError {A}.
Arguments OutOfFuel {A}.

Definition rbind {A B} (m : res A) (k : A → res B) : res B :=
  match m with
  | Ok a => k a
  | TypeError => TypeError
  | OutOfFuel => OutOfFuel
  end.

Notation "x ←ᵣ m ; k" := (rbind m (λ x, k))
  (at level 20, m at level 100, k at level 200, only parsing).
Notation "' p ←ᵣ m ; k" := (rbind m (λ p, k))
  (at level 20, p pattern, m at level 100, k at level 200, only parsing).

(** ** Data model ([types.ts]) *)

Inductive Highlight := HEntering | HLeaving | HLoopPlus | HLoopMinus | HNone.

Record Cell := mkCell {
  row : Z;
  col : Z;
  cost : Z;
  allocation : option num;          (* [null] is [None] *)
  isBasin : bool;
  highlight : Highlight;
  opportunityCost : option Z        (* [undefined] is [None] *)
}.

Abbreviation Grid := (list (list Cell)).

(** A [LoopNode] [{r, c}]. *)
Abbreviation LoopNode := (Z * Z)%type.

Record ProblemState := mkProblem {
  costs : list (list Z);
  supply : list Z;
  demand : list Z;
  initialSupply : list Z;
  initialDemand : list Z;
  rowCount : Z;
  colCount : Z
}.

Inductive SolverStatus := SInput | SReady | SPotentials | SDeltas | SLoop | SOptimal.

Record SolverState := mkSolver {
  grid : Grid;
  pot_u : list (option Z);
  pot_v : list (option Z);
  totalCost : num;
  status : SolverStatus;
  iteration : Z
}.

Definition set_allocation (a : option num) (cl : Cell) : Cell :=
  mkCell (row cl) (col cl) (cost cl) a (isBasin cl) (highlight cl) (opportunityCost cl).
Definition set_isBasin (b : bool) (cl : Cell) : Cell :=
  mkCell (row cl) (col cl) (cost cl) (allocation cl) b (highlight cl) (opportunityCost cl).
Definition set_highlight (h : Highlight) (cl : Cell) : Cell :=
  mkCell (row cl) (col cl) (cost cl) (allocation cl) (isBasin cl) h (opportunityCost cl).
Definition set_opportunityCost (o : option Z) (cl : Cell) : Cell :=
  mkCell (row cl) (col cl) (cost cl) (allocation cl) (isBasin cl) (highlight cl) o.

(** ** Array access *)

Definition zlen {A} (l : list A) : Z := Z.of_nat (length l).

Definition zget {A} (l : list A) (i : Z) : option A :=
  if decide (0 ≤ i) then l !! Z.to_nat i else None.

(** In-place update of an existing entry (no effect out of range: callers
    that would throw there check with [zget] first). *)
Definition zalter {A} (f : A → A) (i : Z) (l : list A) : list A :=
  if decide (0 ≤ i) then alter f (Z.to_nat i) l else l.

Definition cell_at (g : Grid) (r c : Z) : option Cell :=
  zget g r ≫= λ cells, zget cells c.

Definition upd (g : Grid) (r c : Z) (f : Cell → Cell) : Grid :=
  zalter (zalter f c) r g.

Definition isBasicAt (g : Grid) (r c : Z) : bool :=
  match cell_at g r c with
  | Some cl => isBasin cl
  | None => false
  end.

(** The index pairs visited by [for r < rows { for c < cols { .. } }]. *)
Definition scan (rows cols : Z) : list (Z * Z) :=
  seqZ 0 rows ≫= λ r, (λ c, (r, c)) <$> seqZ 0 cols.

(** ** Helpers of [solver.ts] *)

Definition costAt (cs : list (list Z)) (r c : Z) : Z :=
  default 0 (zget cs r ≫= λ cells, zget cells c).

Definition createEmptyGrid (rows cols : Z) (cs : list (list Z)) : Grid :=
  (λ r, (λ c, mkCell r c (costAt cs r c) None false HNone None) <$> seqZ 0 cols)
    <$> seqZ 0 rows.

Definition addCellCost (sum : num) (cl : Cell) : num :=
  match allocation cl with
  | Some a => if truthy a then nadd sum (nmul a (Fin (cost cl))) else sum
  | None => sum
  end.

Definition calculateTotalCost (g : Grid) : num :=
  foldl (λ sum cells, foldl addCellCost sum cells) (Fin 0) g.

(** ** [solveLeastCost] *)

Record CostEntry := mkEntry { er : Z; ec : Z; ecost : Z }.

(** [Array.prototype.sort] is stable; the comparator orders by cost. *)
Fixpoint insertByCost (x : CostEntry) (l : list CostEntry) : list CostEntry :=
  match l with
  | [] => [x]
  | y :: ys => if ecost x <=? ecost y then x :: y :: ys else y :: insertByCost x ys
  end.

Definition sortByCost (l : list CostEntry) : list CostEntry :=
  foldr insertByCost [] l.

Definition cellsList (p : ProblemState) : list CostEntry :=
  sortByCost ((λ rc, mkEntry rc.1 rc.2 (costAt (costs p) rc.1 rc.2))
                <$> scan (rowCount p) (colCount p)).

Definition allocStep (st : Grid * list Z * list Z * Z) (cell : CostEntry)
  : Grid * list Z * list Z * Z :=
  let '(g, s, d, basicCellsCount) := st in
  let sr := default 0 (zget s (er cell)) in
  let dc := default 0 (zget d (ec cell)) in
  if (0 <? sr) && (0 <? dc) then
    let a := Z.min sr dc in
    (upd g (er cell) (ec cell) (λ cl, set_isBasin true (set_allocation (Some (Fin a)) cl)),
     zalter (λ x, x - a) (er cell) s,
     zalter (λ x, x - a) (ec cell) d,
     basicCellsCount + 1)
  else st.

(** One round of the degeneracy loop; once [needed <= 0] the loop has left
    through [break], so later entries change nothing. *)
Definition fillStep (st : Grid * Z) (cell : CostEntry) : Grid * Z :=
  let '(g, needed) := st in
  if needed <=? 0 then st
  else if negb (isBasicAt g (er cell) (ec cell)) then
    (upd g (er cell) (ec cell) (λ cl, set_allocation (Some (Fin 0)) (set_isBasin true cl)),
     needed - 1)
  else st.

Definition solveLeastCost (p : ProblemState) : Grid :=
  let rows := rowCount p in
  let cols := colCount p in
  let g0 := createEmptyGrid rows cols (costs p) in
  let cl := cellsList p in
  let '(g1, _, _, basicCellsCount) :=
    foldl allocStep (g0, initialSupply p, initialDemand p, 0) cl in
  let requiredBasic := rows + cols - 1 in
  if basicCellsCount <? requiredBasic then
    (foldl fillStep (g1, requiredBasic - basicCellsCount) cl).1
  else g1.

(** ** [calculatePotentials] *)

(** [u[r]] as a known value: [null] (and a missing entry) is [None]. *)
Definition known (u : list (option Z)) (i : Z) : option Z := zget u i ≫= id.

Definition zset {A} (x : A) (i : Z) (l : list A) : list A := zalter (λ _, x) i l.

(** Body of the two nested [for] loops for one pair [(r, c)]. *)
Definition potStep (g : Grid) (st : list (option Z) * list (option Z) * bool) (rc : Z * Z)
  : list (option Z) * list (option Z) * bool :=
  let '(u, v, changed) := st in
  match cell_at g rc.1 rc.2 with
  | Some cl =>
      if isBasin cl then
        match known u rc.1, known v rc.2 with
        | Some ur, None => (u, zset (Some (cost cl - ur)) rc.2 v, true)
        | None, Some vc => (zset (Some (cost cl - vc)) rc.1 u, v, true)
        | _, _ => st
        end
      else st
  | None => st
  end.

(** One execution of the body of [while (changed)]. *)
Definition potPass (g : Grid) (rows cols : Z) (u v : list (option Z))
  : list (option Z) * list (option Z) * bool :=
  foldl (potStep g) (u, v, false) (scan rows cols).

Fixpoint potLoop (fuel : nat) (g : Grid) (rows cols : Z) (u v : list (option Z))
  : res (list (option Z) * list (option Z)) :=
  match fuel with
  | O => OutOfFuel
  | S fuel' =>
      let '(u', v', changed) := potPass g rows cols u v in
      if changed then potLoop fuel' g rows cols u' v' else Ok (u', v')
  end.

(** [new Array(rows).fill(null)] followed by [u[0] = 0] (which creates the
    entry when [rows] is [0]). *)
Definition initialU (rows : Z) : list (option Z) :=
  Some 0 :: replicate (Z.to_nat rows - 1) None.

Definition calculatePotentials (g : Grid) (rows cols : Z)
  : res (list (option Z) * list (option Z)) :=
  potLoop (Z.to_nat rows + Z.to_nat cols + 1) g rows cols
    (initialU rows) (replicate (Z.to_nat cols) None).

(** ** [calculateOpportunityCosts] *)

Definition oppStep (u v : list (option Z)) (st : Grid * num * option LoopNode) (rc : Z * Z)
  : Grid * num * option LoopNode :=
  let '(newGrid, minDelta, enteringCell) := st in
  match cell_at newGrid rc.1 rc.2 with
  | Some cl =>
      match isBasin cl, known u rc.1, known v rc.2 with
      | false, Some ur, Some vc =>
          let delta := cost cl - (ur + vc) in
          let g' := upd newGrid rc.1 rc.2 (set_opportunityCost (Some delta)) in
          if nlt (Fin delta) minDelta then (g', Fin delta, Some rc)
          else (g', minDelta, enteringCell)
      | _, _, _ =>
          (upd newGrid rc.1 rc.2 (set_opportunityCost None), minDelta, enteringCell)
      end
  | None => st
  end.

Definition calculateOpportunityCosts (g : Grid) (u v : list (option Z))
  : Grid * num * option LoopNode :=
  foldl (oppStep u v) (g, PInf, None) (scan (zlen g) (zlen (default [] (head g)))).

(** ** [findLoop] *)

Definition sameNode (a b : LoopNode) : bool := (a.1 =? b.1) && (a.2 =? b.2).

(** The candidates collected in [nextNodes]; reading [isBasin] of a missing
    cell throws. *)
Fixpoint rowCandidates (g : Grid) (start current : LoopNode) (cs : list Z)
  : res (list LoopNode) :=
  match cs with
  | [] => Ok []
  | c :: cs' =>
      if negb (c =? current.2) then
        if (c =? start.2) && (current.1 =? start.1) then
          rest ←ᵣ rowCandidates g start current cs'; Ok ((current.1, c) :: rest)
        else
          match cell_at g current.1 c with
          | None => TypeError
          | Some cl =>
              rest ←ᵣ rowCandidates g start current cs';
              Ok (if isBasin cl then (current.1, c) :: rest else rest)
          end
      else rowCandidates g start current cs'
  end.

Fixpoint colCandidates (g : Grid) (start current : LoopNode) (rs : list Z)
  : res (list LoopNode) :=
  match rs with
  | [] => Ok []
  | r :: rs' =>
      if negb (r =? current.1) then
        if (r =? start.1) && (current.2 =? start.2) then
          rest ←ᵣ colCandidates g start current rs'; Ok ((r, current.2) :: rest)
        else
          match cell_at g r current.2 with
          | None => TypeError
          | Some cl =>
              rest ←ᵣ colCandidates g start current rs';
              Ok (if isBasin cl then (r, current.2) :: rest else rest)
          end
      else colCandidates g start current rs'
  end.

Definition nextNodes (g : Grid) (rows cols : Z) (start current : LoopNode)
    (isHorizontal : bool) : res (list LoopNode) :=
  if isHorizontal then rowCandidates g start current (seqZ 0 cols)
  else colCandidates g start current (seqZ 0 rows).

(** Outcome of one call of the inner function [search], with the shared
    [path] (kept top-first: [path.push] conses) and [visited] set as the
    call leaves them. *)
Inductive SearchOutcome :=
| SFound (path : list LoopNode) (visited : gset LoopNode)   (* returned [true] *)
| SFail (path : list LoopNode) (visited : gset LoopNode)    (* returned [false] *)
| SThrow
| SFuel.

(** [for (const next of nextNodes)] of a call whose node is [current];
    [rec] is the recursive call [search(next, !isHorizontal)]. *)
Fixpoint tryNexts (rec : LoopNode → list LoopNode → gset LoopNode → SearchOutcome)
    (start current : LoopNode) (nexts : list LoopNode)
    (path : list LoopNode) (visited : gset LoopNode) : SearchOutcome :=
  match nexts with
  | [] => SFail (tail path) (visited ∖ {[current]})
  | next :: rest =>
      let isPrev :=
        match path with
        | _ :: prev :: _ => sameNode prev next
        | _ => false
        end in
      if isPrev then tryNexts rec start current rest path visited
      else if negb (bool_decide (next ∈ visited)) || sameNode next start then
        match rec next path visited with
        | SFail path' visited' => tryNexts rec start current rest path' visited'
        | out => out
        end
      else tryNexts rec start current rest path visited
  end.

Fixpoint search (fuel : nat) (g : Grid) (rows cols : Z) (start : LoopNode)
    (current : LoopNode) (isHorizontal : bool)
    (path : list LoopNode) (visited : gset LoopNode) : SearchOutcome :=
  match fuel with
  | O => SFuel
  | S fuel' =>
      let path1 := current :: path in
      let visited1 := {[current]} ∪ visited in
      if (4 <=? zlen path1) && sameNode current start then SFound path1 visited1
      else if (1 <? zlen path1) && sameNode current start then SFail path visited1
      else
        match nextNodes g rows cols start current isHorizontal with
        | Ok nexts =>
            tryNexts (λ next, search fuel' g rows cols start next (negb isHorizontal))
              start current nexts path1 visited1
        | _ => SThrow
        end
  end.

(** Bound on the nesting of [search]: the number of cells, and three more. *)
Definition searchFuel (rows cols : Z) : nat := length (scan rows cols) + 3.

Definition findLoop (start : LoopNode) (g : Grid) : res (option (list LoopNode)) :=
  match g with
  | [] => TypeError                       (* [grid[0].length] *)
  | cells0 :: _ =>
      let rows := zlen g in
      let cols := zlen cells0 in
      match search (searchFuel rows cols) g rows cols start start true [] ∅ with
      | SFound path _ => Ok (Some (reverse path))
      | SFail _ _ =>
          match search (searchFuel rows cols) g rows cols start start false [] ∅ with
          | SFound path _ => Ok (Some (reverse path))
          | SFail _ _ => Ok None
          | SThrow => TypeError
          | SFuel => OutOfFuel
          end
      | SThrow => TypeError
      | SFuel => OutOfFuel
      end
  end.

(** ** [applyPivot] *)

(** The first loop, over the odd positions ([isMinus] tells whether the head
    of [loop] is at an odd position). *)
Fixpoint findTheta (g : Grid) (loop : list LoopNode) (isMinus : bool)
    (theta : num) (leavingNode : option LoopNode) : res (num * option LoopNode) :=
  match loop with
  | [] => Ok (theta, leavingNode)
  | node :: rest =>
      if isMinus then
        match cell_at g node.1 node.2 with
        | None => TypeError
        | Some cl =>
            match allocation cl with
            | Some alloc =>
                if nlt alloc theta then findTheta g rest false alloc (Some node)
                else findTheta g rest false theta leavingNode
            | None => findTheta g rest false theta leavingNode
            end
        end
      else findTheta g rest true theta leavingNode
  end.

(** [{...c, allocation: c.allocation ?? 0}] *)
Definition copyCell (cl : Cell) : Cell :=
  set_allocation (Some (default (Fin 0) (allocation cl))) cl.

Definition plusCell (theta : num) (cl : Cell) : Cell :=
  set_isBasin true (set_allocation (Some (nadd (default (Fin 0) (allocation cl)) theta)) cl).

Definition minusCell (theta : num) (cl : Cell) : Cell :=
  set_allocation (Some (nsub (default (Fin 0) (allocation cl)) theta)) cl.

(** The second loop, over the positions [0 .. loop.length - 2]. *)
Fixpoint applyTheta (theta : num) (g : Grid) (loop : list LoopNode) (isPlus : bool)
  : res Grid :=
  match loop with
  | [] => Ok g
  | node :: rest =>
      match cell_at g node.1 node.2 with
      | None => TypeError
      | Some _ =>
          applyTheta theta
            (upd g node.1 node.2 (if isPlus then plusCell theta else minusCell theta))
            rest (negb isPlus)
      end
  end.

Definition leaveCell (cl : Cell) : Cell := set_allocation None (set_isBasin false cl).

Definition cleanupCell (cl : Cell) : Cell :=
  if isBasin cl then cl else set_allocation None cl.

(** [if (leavingNode) { ... }] *)
Definition leaveGrid (leavingNode : option LoopNode) (newGrid : Grid) : Grid :=
  match leavingNode with
  | Some node => upd newGrid node.1 node.2 leaveCell
  | None => newGrid
  end.

Definition applyPivot (g : Grid) (loop : list LoopNode) : res (Grid * num) :=
  '(theta, leavingNode) ←ᵣ findTheta g loop false PInf None;
  let newGrid := map (map copyCell) g in
  newGrid ←ᵣ applyTheta theta newGrid (take (length loop - 1) loop) true;
  let newGrid := leaveGrid leavingNode newGrid in
  match loop with
  | [] => TypeError                       (* [start] is [undefined] *)
  | start :: _ =>
      match cell_at newGrid start.1 start.2 with
      | None => TypeError
      | Some _ =>
          let newGrid := upd newGrid start.1 start.2 (set_isBasin true) in
          Ok (map (map cleanupCell) newGrid, theta)
      end
  end.

(** ** [performFullIteration] *)

Inductive ErrorMessage := NoEnteringCell | NoClosedLoop.

Inductive IterationResult :=
| IsOptimal (g : Grid) (cost : num)                 (* [{isOptimal: true, grid, cost}] *)
| IsError (message : ErrorMessage)                  (* [{isError: true, message}] *)
| Pivoted (g : Grid) (cost : num) (theta : num).    (* [{isOptimal: false, grid, cost, theta}] *)

Definition cleanCell (cl : Cell) : Cell :=
  set_highlight HNone (set_opportunityCost None cl).

Definition performFullIteration (g : Grid) (rows cols : Z) : res IterationResult :=
  '(u, v) ←ᵣ calculatePotentials g rows cols;
  let '(gridWithDeltas, minDelta, enteringCell) := calculateOpportunityCosts g u v in
  if nge minDelta (Fin 0) then
    Ok (IsOptimal gridWithDeltas (calculateTotalCost gridWithDeltas))
  else
    match enteringCell with
    | None => Ok (IsError NoEnteringCell)
    | Some e =>
        loop ←ᵣ findLoop e gridWithDeltas;
        match loop with
        | None => Ok (IsError NoClosedLoop)
        | Some loop =>
            '(newGrid, theta) ←ᵣ applyPivot gridWithDeltas loop;
            let cleanGrid := map (map cleanCell) newGrid in
            Ok (Pivoted cleanGrid (calculateTotalCost cleanGrid) theta)
        end
    end.

(** ** [handleNextStep] (the updater passed to [setSolver]) *)

(** [grid.forEach(row => row.forEach(c => { if (c.highlight === 'entering')
    node = {r: c.row, c: c.col} }))], starting from [{r: -1, c: -1}]. *)
Definition findEntering (g : Grid) : LoopNode :=
  foldl (λ node cells,
           foldl (λ node cl,
                    match highlight cl with
                    | HEntering => (row cl, col cl)
                    | _ => node
                    end) node cells) (-1, -1) g.

(** [loop.forEach((node, idx) => ...)], [idx] being the position of the head
    of [loop]. *)
Fixpoint markLoop (g : Grid) (loop : list LoopNode) (idx : Z) : res Grid :=
  match loop with
  | [] => Ok g
  | node :: rest =>
      if idx =? 0 then markLoop g rest (idx + 1)
      else
        match cell_at g node.1 node.2 with
        | None => TypeError
        | Some _ =>
            markLoop
              (upd g node.1 node.2
                 (set_highlight (if idx mod 2 =? 0 then HLoopPlus else HLoopMinus)))
              rest (idx + 1)
        end
  end.

Definition handleNextStep (problem : ProblemState) (prev : SolverState) : res SolverState :=
  match status prev with
  | SReady =>
      '(u, v) ←ᵣ calculatePotentials (grid prev) (rowCount problem) (colCount problem);
      Ok (mkSolver (grid prev) u v (totalCost prev) SPotentials (iteration prev))
  | SPotentials =>
      let '(gridWithDeltas, minDelta, enteringCell) :=
        calculateOpportunityCosts (grid prev) (pot_u prev) (pot_v prev) in
      if nge minDelta (Fin 0) then
        Ok (mkSolver gridWithDeltas (pot_u prev) (pot_v prev) (totalCost prev)
              SOptimal (iteration prev))
      else
        let gridWithDeltas :=
          match enteringCell with
          | Some e => upd gridWithDeltas e.1 e.2 (set_highlight HEntering)
          | None => gridWithDeltas
          end in
        Ok (mkSolver gridWithDeltas (pot_u prev) (pot_v prev) (totalCost prev)
              SDeltas (iteration prev))
  | SDeltas =>
      let enteringNode := findEntering (grid prev) in
      loop ←ᵣ findLoop enteringNode (grid prev);
      match loop with
      | Some loop =>
          gridWithLoop ←ᵣ markLoop (grid prev) loop 0;
          Ok (mkSolver gridWithLoop (pot_u prev) (pot_v prev) (totalCost prev)
                SLoop (iteration prev))
      | None => Ok prev
      end
  | SLoop =>
      let eNode := findEntering (grid prev) in
      loopToApply ←ᵣ findLoop eNode (grid prev);
      match loopToApply with
      | Some loopToApply =>
          '(newGrid, theta) ←ᵣ applyPivot (grid prev) loopToApply;
          let newCost := calculateTotalCost newGrid in
          let cleanGrid := map (map cleanCell) newGrid in
          Ok (mkSolver cleanGrid
                (replicate (Z.to_nat (rowCount problem)) None)
                (replicate (Z.to_nat (colCount problem)) None)
                newCost SReady (iteration prev + 1))
      | None => Ok prev
      end
  | _ => Ok prev
  end.


(** * Auxiliary definitions *)

(** A grid with [rows] rows of [cols] cells each. *)
Definition wf_grid (rows cols : Z) (g : Grid) : Prop :=
  zlen g = rows ∧ Forall (λ cells, zlen cells = cols) g.

Definition cells_rel (R : Cell → Cell → Prop) (g g' : Grid) : Prop :=
  ∀ r c, option_Forall2 R (cell_at g r c) (cell_at g' r c).

(** The elements at every other position: from the head on when [fromHead],
    from the second element on otherwise. *)
Fixpoint everyOther {A} (fromHead : bool) (l : list A) : list A :=
  match l with
  | [] => []
  | x :: l' => if fromHead then x :: everyOther false l' else everyOther true l'
  end.

(** The nodes at the odd positions 1, 3, 5, ... of a loop. *)
Definition minusNodes (loop : list LoopNode) : list LoopNode := everyOther false loop.

(** The first loop of [applyPivot] as a scan of the minus nodes. *)
Fixpoint thetaScan (g : Grid) (ns : list LoopNode) (theta : num)
    (leavingNode : option LoopNode) : res (num * option LoopNode) :=
  match ns with
  | [] => Ok (theta, leavingNode)
  | node :: rest =>
      match cell_at g node.1 node.2 with
      | None => TypeError
      | Some cl =>
          match allocation cl with
          | Some alloc =>
              if nlt alloc theta then thetaScan g rest alloc (Some node)
              else thetaScan g rest theta leavingNode
          | None => thetaScan g rest theta leavingNode
          end
      end
  end.

Definition allocAt (g : Grid) (n : LoopNode) : option num :=
  cell_at g n.1 n.2 ≫= allocation.

(** What a pivot never touches in a cell. *)
Definition same_static (a b : Cell) : Prop :=
  row b = row a ∧ col b = col a ∧ cost b = cost a ∧
  highlight b = highlight a ∧ opportunityCost b = opportunityCost a.

(** Every basic cell carries an allocation ([allocation !== null]). *)
Definition basic_allocated (g : Grid) : Prop :=
  ∀ r c cl, cell_at g r c = Some cl → isBasin cl = true → allocation cl ≠ None.

(** The allocation of every cell outside the basis is empty. *)
Definition nonbasic_empty (g : Grid) : Prop :=
  ∀ r c cl, cell_at g r c = Some cl → isBasin cl = false → allocation cl = None.

(** Every node of the loop is a cell of the grid. *)
Definition loop_in_grid (g : Grid) (loop : list LoopNode) : Prop :=
  ∀ n, n ∈ loop → is_Some (cell_at g n.1 n.2).

(** A 2 x 3 tableau with a stale quantity on the non-basic cell (0,2), and the
    cycle of the entering cell (0,0). *)
Definition staleGrid : Grid :=
  [[mkCell 0 0 4 None false HNone None;
    mkCell 0 1 6 (Some (Fin 5)) true HNone None;
    mkCell 0 2 9 (Some (Fin 7)) false HNone None];
   [mkCell 1 0 8 (Some (Fin 3)) true HNone None;
    mkCell 1 1 2 (Some (Fin 4)) true HNone None;
    mkCell 1 2 5 (Some (Fin 6)) true HNone None]].

Definition staleLoop : list LoopNode := [(0, 0); (0, 1); (1, 1); (1, 0); (0, 0)].

(** A degenerate 2 x 2 tableau: the basic cell (1,1) carries a zero
    allocation; (1,0) is the entering cell of [zeroLoop]. *)
Definition zeroGrid : Grid :=
  [[mkCell 0 0 1 (Some (Fin 10)) true HNone None;
    mkCell 0 1 2 (Some (Fin 10)) true HNone None];
   [mkCell 1 0 3 None false HNone None;
    mkCell 1 1 10 (Some (Fin 0)) true HNone None]].

Definition zeroLoop : list LoopNode := [(1, 0); (1, 1); (0, 1); (0, 0); (1, 0)].

(** The opportunity cost [calculateOpportunityCosts] assigns to the cell [cl]
    at [(r, c)]: defined for a non-basic cell whose two potentials are known. *)
Definition deltaOf (u v : list (option Z)) (r c : Z) (cl : Cell) : option Z :=
  if isBasin cl then None
  else match known u r, known v c with
       | Some ur, Some vc => Some (cost cl - (ur + vc))
       | _, _ => None
       end.

Definition deltaAt (u v : list (option Z)) (g : Grid) (rc : Z * Z) : option Z :=
  cell_at g rc.1 rc.2 ≫= deltaOf u v rc.1 rc.2.

(** The cell as [calculateOpportunityCosts] leaves it. *)
Definition annotate (u v : list (option Z)) (r c : Z) (cl : Cell) : Cell :=
  set_opportunityCost (deltaOf u v r c cl) cl.

(** Running minimum with the first key attaining it ([if (d < min) ...]). *)
Definition minStep {K} (δ : K → option Z) (st : num * option K) (k : K) : num * option K :=
  match δ k with
  | Some d => if nlt (Fin d) st.1 then (Fin d, Some k) else st
  | None => st
  end.

(** Potentials for [staleGrid] and [zeroGrid] (first row pinned to 0). *)
Definition staleU : list (option Z) := [Some 0; Some (-4)].
Definition staleV : list (option Z) := [Some 12; Some 6; Some 9].

(** Row-major order of cell coordinates. *)
Definition rowMajorLt (a b : Z * Z) : Prop := a.1 < b.1 ∨ (a.1 = b.1 ∧ a.2 < b.2).

(** A balanced 2 x 2 problem whose least-cost start is not optimal, and the
    ['ready'] state [handleStart] builds for it. *)
Definition stepProblem : ProblemState :=
  mkProblem [[1; 2]; [3; 10]] [10; 10] [5; 15] [10; 10] [5; 15] 2 2.

Definition stepReady : SolverState :=
  let g := solveLeastCost stepProblem in
  mkSolver g (replicate 2 None) (replicate 2 None) (calculateTotalCost g) SReady 1.

(** The loop of the entering cell (1,0) on the least-cost start of
    [stepProblem], without its two ends, and the potentials of that start. *)
Definition stepMid : list LoopNode := [(1, 1); (0, 1); (0, 0)].
Definition stepU : list (option Z) := [Some 0; Some 8].
Definition stepV : list (option Z) := [Some 1; Some 2].

(** The tableau of [stepProblem] after its one pivot: cost 85. *)
Definition optGrid : Grid :=
  [[mkCell 0 0 1 None false HNone None;
    mkCell 0 1 2 (Some (Fin 10)) true HNone None];
   [mkCell 1 0 3 (Some (Fin 5)) true HNone None;
    mkCell 1 1 10 (Some (Fin 5)) true HNone None]].

(** A balanced 3 x 3 problem on which the least-cost start is degenerate:
    three allocations, and two zero cells added by cost. *)
Definition degenProblem : ProblemState :=
  mkProblem [[1; 2; 9]; [2; 9; 9]; [9; 9; 1]] [1; 1; 1] [1; 1; 1] [1; 1; 1] [1; 1; 1] 3 3.

(** [n] successive calls of [handleNextStep]. *)
Fixpoint stepTimes (problem : ProblemState) (n : nat) (s : SolverState) : res SolverState :=
  match n with
  | O => Ok s
  | S n' => rbind (stepTimes problem n' s) (handleNextStep problem)
  end.

(** ** Sums over arrays and grids *)

Fixpoint zsum (l : list Z) : Z :=
  match l with
  | [] => 0
  | x :: l' => x + zsum l'
  end.

(** The sum of [h] over all cells of a grid. *)
Definition gridSum (h : Cell → Z) (g : Grid) : Z :=
  zsum ((λ cells, zsum (h <$> cells)) <$> g).

(** The number of basic cells. *)
Definition count_basic (g : Grid) : Z := gridSum (λ cl, if isBasin cl then 1 else 0) g.

(** The quantity a cell ships: its allocation, an empty one counting as 0. *)
Definition qty (cl : Cell) : Z :=
  match allocation cl with
  | Some (Fin a) => a
  | _ => 0
  end.

(** Every allocation of the grid is empty or a finite quantity. *)
Definition finite_allocations (g : Grid) : Prop :=
  ∀ r c cl, cell_at g r c = Some cl →
            allocation cl = None ∨ ∃ a, allocation cl = Some (Fin a).

Definition rowTotal (g : Grid) (r : Z) : Z := zsum (qty <$> default [] (zget g r)).

Definition colTotal (g : Grid) (c : Z) : Z :=
  zsum ((λ cells, from_option qty 0 (zget cells c)) <$> g).

(** A problem as [generateRandomProblem] builds it: vectors of the stated
    sizes, non-negative quantities, working copies equal to the originals. *)
Record problem_wf (p : ProblemState) : Prop := {
  pwf_rows : 1 ≤ rowCount p;
  pwf_cols : 1 ≤ colCount p;
  pwf_costs_rows : zlen (costs p) = rowCount p;
  pwf_costs_cols : Forall (λ cs, zlen cs = colCount p) (costs p);
  pwf_supply_len : zlen (supply p) = rowCount p;
  pwf_demand_len : zlen (demand p) = colCount p;
  pwf_supply_nonneg : Forall (λ x, 0 ≤ x) (supply p);
  pwf_demand_nonneg : Forall (λ x, 0 ≤ x) (demand p);
  pwf_initialSupply : initialSupply p = supply p;
  pwf_initialDemand : initialDemand p = demand p
}.

Definition balanced (p : ProblemState) : Prop := zsum (supply p) = zsum (demand p).

(** Number of positive entries. *)
Definition npos (l : list Z) : Z := zsum ((λ x, if 0 <? x then 1 else 0) <$> l).

(** Invariant of the allocation loop of [solveLeastCost]: [g], [s], [d] and
    [cnt] are the grid, the remaining supplies and demands and
    [basicCellsCount]; [S0] and [D0] are the supplies and demands it started
    from. *)
Record greedy_inv (rows cols : Z) (S0 D0 : list Z)
    (g : Grid) (s d : list Z) (cnt : Z) : Prop := {
  gi_wf : wf_grid rows cols g;
  gi_slen : zlen s = rows;
  gi_dlen : zlen d = cols;
  gi_snn : ∀ r x, zget s r = Some x → 0 ≤ x;
  gi_dnn : ∀ c x, zget d c = Some x → 0 ≤ x;
  gi_row : ∀ r x, zget s r = Some x → rowTotal g r + x = default 0 (zget S0 r);
  gi_col : ∀ c x, zget d c = Some x → colTotal g c + x = default 0 (zget D0 c);
  gi_bal : zsum s - zsum d = zsum S0 - zsum D0;
  gi_basic_zero : ∀ r c cl, cell_at g r c = Some cl → isBasin cl = true →
                            zget s r = Some 0 ∨ zget d c = Some 0;
  gi_nonbasic : nonbasic_empty g;
  gi_allocated : basic_allocated g;
  gi_fin : finite_allocations g;
  gi_count : cnt = count_basic g;
  gi_pot : cnt + Z.max (npos s + npos d) 1 ≤ rows + cols
}.

(** What the result of [solveLeastCost] satisfies (the basis need not be a
    spanning tree). *)
Record initial_solution (p : ProblemState) (g : Grid) : Prop := {
  is_wf : wf_grid (rowCount p) (colCount p) g;
  is_count : count_basic g = rowCount p + colCount p - 1;
  is_finite : finite_allocations g;
  is_basic_allocated : basic_allocated g;
  is_nonbasic_empty : nonbasic_empty g;
  is_rows : ∀ r, 0 ≤ r < rowCount p → zget (supply p) r = Some (rowTotal g r);
  is_cols : ∀ c, 0 ≤ c < colCount p → zget (demand p) c = Some (colTotal g c)
}.

(** ** The basis as a bipartite graph *)

(** Source nodes (rows) and destination nodes (columns). *)
Inductive node := RowN (r : Z) | ColN (c : Z).

#[global] Instance node_eq_dec : EqDecision node.
Proof. solve_decision. Defined.

Definition node_in (rows cols : Z) (x : node) : Prop :=
  match x with
  | RowN r => 0 ≤ r < rows
  | ColN c => 0 ≤ c < cols
  end.

(** A basic cell [(r, c)] is an edge between row [r] and column [c]. *)
Definition adjacent (g : Grid) (x y : node) : Prop :=
  match x, y with
  | RowN r, ColN c | ColN c, RowN r => isBasicAt g r c = true
  | _, _ => False
  end.

Definition connected (rows cols : Z) (g : Grid) : Prop :=
  ∀ x y, node_in rows cols x → node_in rows cols y → rtc (adjacent g) x y.

(** A row-move stays in the row and changes the column; a column-move stays
    in the column and changes the row.  In an alternating list consecutive
    nodes are joined by a row-move and a column-move in turn, the first move
    being a row-move when [horizontal]. *)
Definition move (horizontal : bool) (a b : LoopNode) : Prop :=
  if horizontal then a.1 = b.1 ∧ a.2 ≠ b.2 else a.2 = b.2 ∧ a.1 ≠ b.1.

Fixpoint alternating (horizontal : bool) (l : list LoopNode) : Prop :=
  match l with
  | a :: l' =>
      match l' with
      | b :: _ => move horizontal a b ∧ alternating (negb horizontal) l'
      | [] => True
      end
  | [] => True
  end.

(** A cycle of the basis graph: distinct basic cells, joined by row-moves and
    column-moves in turn, the last one joined to the first. *)
Definition basis_cycle (g : Grid) (l : list LoopNode) : Prop :=
  l ≠ [] ∧ NoDup l ∧ (∀ n, n ∈ l → isBasicAt g n.1 n.2 = true) ∧
  Nat.Even (length l) ∧ alternating true (l ++ take 1 l).

Definition acyclic (g : Grid) : Prop := ∀ l, ¬ basis_cycle g l.

(** The basis invariant: [rows + cols - 1] basic cells forming a spanning
    tree of the graph on the [rows] row nodes and [cols] column nodes. *)
Record basis_inv (rows cols : Z) (g : Grid) : Prop := {
  bi_wf : wf_grid rows cols g;
  bi_rows : 1 ≤ rows;
  bi_cols : 1 ≤ cols;
  bi_count : count_basic g = rows + cols - 1;
  bi_connected : connected rows cols g;
  bi_acyclic : acyclic g
}.

(** ** Potentials *)

(** Number of known entries of a potential vector. *)
Definition kcount (u : list (option Z)) : Z :=
  zsum ((λ o : option Z, if o is Some _ then 1 else 0) <$> u).

(** The dual equation [u[r] + v[c] = cost] at a cell. *)
Definition dual_eq (g : Grid) (u v : list (option Z)) (rc : Z * Z) : Prop :=
  ∃ cl ur vc, cell_at g rc.1 rc.2 = Some cl ∧ isBasin cl = true ∧
              known u rc.1 = Some ur ∧ known v rc.2 = Some vc ∧ ur + vc = cost cl.

(** Invariant of the propagation: every known potential but [u[0]] was
    derived through a basic cell of its own, at which the dual equation
    holds. *)
Record pot_inv (rows cols : Z) (g : Grid) (u v : list (option Z)) : Prop := {
  pi_ulen : zlen u = rows;
  pi_vlen : zlen v = cols;
  pi_u0 : known u 0 = Some 0;
  pi_used : ∃ used : list (Z * Z),
      NoDup used ∧ (∀ rc, rc ∈ used → dual_eq g u v rc) ∧
      zlen used + 1 = kcount u + kcount v
}.

(** [u'] keeps every known value of [u]. *)
Definition pot_ext (u u' : list (option Z)) : Prop :=
  ∀ i x, known u i = Some x → known u' i = Some x.

(** No basic cell has exactly one known potential. *)
Definition pot_stable (g : Grid) (u v : list (option Z)) (rc : Z * Z) : Prop :=
  isBasicAt g rc.1 rc.2 = true → (is_Some (known u rc.1) ↔ is_Some (known v rc.2)).

(** Alternating sum [f n0 - f n1 + f n2 - ...] along a list of nodes. *)
Fixpoint altsum (f : LoopNode → Z) (l : list LoopNode) : Z :=
  match l with
  | [] => 0
  | n :: l' => f n - altsum f l'
  end.

Definition set_cost (k : Z) (cl : Cell) : Cell :=
  mkCell (row cl) (col cl) k (allocation cl) (isBasin cl) (highlight cl) (opportunityCost cl).

(** ** The loop search *)

Definition in_grid (rows cols : Z) (n : LoopNode) : Prop :=
  0 ≤ n.1 < rows ∧ 0 ≤ n.2 < cols.

(** A way to close the loop from the stack [path1] (top first) whose next
    move is a row-move when [isH]: distinct basic cells [rest], none of them
    on the stack, leading from the top of the stack back to [start] by
    alternating moves, the closed path having at least 4 entries. *)
Definition completion (g : Grid) (start : LoopNode) (path1 : list LoopNode)
    (isH : bool) (rest : list LoopNode) : Prop :=
  ∃ current, head path1 = Some current ∧
    alternating isH (current :: rest ++ [start]) ∧
    NoDup rest ∧
    (∀ m, m ∈ rest → (m ∉ path1) ∧ isBasicAt g m.1 m.2 = true) ∧
    (4 ≤ length path1 + length rest + 1)%nat.

(** State of the search when [search(current, isH)] is entered for a node
    other than the closing [start]: [path] (top first) and [visited] hold the
    same nodes, [start] is at the bottom, the nodes above it are basic cells,
    and the moves along the stack alternate. *)
Record search_inv (g : Grid) (rows cols : Z) (start current : LoopNode) (isH : bool)
    (path : list LoopNode) (visited : gset LoopNode) : Prop := {
  si_visited : ∀ n, n ∈ visited ↔ n ∈ path;
  si_nodup : NoDup (current :: path);
  si_bottom : last (current :: path) = Some start;
  si_basic : ∀ n, n ∈ current :: path → n ≠ start → isBasicAt g n.1 n.2 = true;
  si_grid : ∀ n, n ∈ current :: path → in_grid rows cols n;
  si_alt : alternating (negb isH) (current :: path)
}.

(** The condition under which a node is pushed on [nextNodes]. *)
Definition candidate (g : Grid) (rows cols : Z) (start current : LoopNode) (isH : bool)
    (n : LoopNode) : Prop :=
  move isH current n ∧ in_grid rows cols n ∧ (n = start ∨ isBasicAt g n.1 n.2 = true).

(** The test [rowCandidates] and [colCandidates] apply to an index. *)
Definition rowOk (g : Grid) (start current : LoopNode) (c : Z) : bool :=
  negb (c =? current.2) &&
  (((c =? start.2) && (current.1 =? start.1)) || isBasicAt g current.1 c).

Definition colOk (g : Grid) (start current : LoopNode) (r : Z) : bool :=
  negb (r =? current.1) &&
  (((r =? start.1) && (current.2 =? start.2)) || isBasicAt g r current.2).

(** What a call of [search] that pushes [current] on [path] returns: either
    the closed path, or [false] with [path] and [visited] as they were on
    entry, when the loop cannot be closed from there. *)
Definition search_post (g : Grid) (start : LoopNode) (path1 path : list LoopNode)
    (visited : gset LoopNode) (isH : bool) (out : SearchOutcome) : Prop :=
  match out with
  | SFound p v =>
      ∃ rest, p = start :: reverse rest ++ path1 ∧ completion g start path1 isH rest
  | SFail p v =>
      p = path ∧ v = visited ∧ ∀ rest, ¬ completion g start path1 isH rest
  | _ => False
  end.

(** The same for the loop over the candidates [nexts]: after a failure no
    completion goes through one of them. *)
Definition try_post (g : Grid) (start : LoopNode) (path1 path : list LoopNode)
    (visited : gset LoopNode) (isH : bool) (nexts : list LoopNode)
    (out : SearchOutcome) : Prop :=
  match out with
  | SFound p v =>
      ∃ rest, p = start :: reverse rest ++ path1 ∧ completion g start path1 isH rest
  | SFail p v =>
      p = path ∧ v = visited ∧
      ∀ rest n, completion g start path1 isH rest →
                head (rest ++ [start]) = Some n → n ∉ nexts
  | _ => False
  end.

(** ** Walks of the basis graph *)

(** Consecutive nodes of the list are related. *)
Fixpoint linked (R : node → node → Prop) (l : list node) : Prop :=
  match l with
  | x :: l' =>
      match l' with
      | y :: _ => R x y ∧ linked R l'
      | [] => True
      end
  | [] => True
  end.

Definition is_col (x : node) : bool := if x is ColN _ then true else false.

(** The cell of an edge, and the cells along a walk that starts at [x]. *)
Definition edge (x y : node) : LoopNode :=
  match x, y with
  | RowN r, ColN c | ColN c, RowN r => (r, c)
  | _, _ => (0, 0)
  end.

Fixpoint cells_of (x : node) (l : list node) : list LoopNode :=
  match l with
  | [] => []
  | y :: l' => edge x y :: cells_of y l'
  end.

(** ** The cost of a pivot *)

(** What a cell adds to the total cost, and the same counting basic cells
    only. *)
Definition shipCost (cl : Cell) : Z := qty cl * cost cl.

Definition basicShipCost (cl : Cell) : Z := if isBasin cl then shipCost cl else 0.

Definition cellCost (g : Grid) (n : LoopNode) : Z := from_option cost 0 (cell_at g n.1 n.2).

(** The change of the sum of [h] over the grid made by the second loop of
    [applyPivot] along [loop]. *)
Fixpoint thetaDelta (h : Cell → Z) (theta : num) (g : Grid) (loop : list LoopNode)
    (isPlus : bool) : Z :=
  match loop with
  | [] => 0
  | node :: rest =>
      from_option
        (λ cl, h ((if isPlus then plusCell theta else minusCell theta) cl) - h cl) 0
        (cell_at g node.1 node.2)
      + thetaDelta h theta g rest (negb isPlus)
  end.

(** The sum [u[r] + v[c]] of the potentials at a cell, unknown ones counting
    as 0. *)
Definition potAt (u v : list (option Z)) (n : LoopNode) : Z :=
  default 0 (known u n.1) + default 0 (known v n.2).

(** The loop [e :: mid ++ [e]] is ready for a pivot: the entering cell [e]
    is a non-basic cell of the grid, the loop repeats no cell, [mid] has an
    odd number of cells, all basic and carrying a finite allocation. *)
Record pivot_ready (g : Grid) (e : LoopNode) (mid : list LoopNode) : Prop := {
  pr_entering : ∃ cl, cell_at g e.1 e.2 = Some cl ∧ isBasin cl = false;
  pr_nodup : NoDup (e :: mid);
  pr_odd : Nat.Odd (length mid);
  pr_mid : ∀ n, n ∈ mid →
      ∃ cl a, cell_at g n.1 n.2 = Some cl ∧ isBasin cl = true ∧
              allocation cl = Some (Fin a)
}.

(** The node along which a move from cell [a] goes: its row for a row-move,
    its column for a column-move. *)
Definition lineOf (horizontal : bool) (a : LoopNode) : node :=
  if horizontal then RowN a.1 else ColN a.2.

(** The direction of the move after [n] moves, the first one being
    [horizontal]. *)
Definition flipDir (horizontal : bool) (n : nat) : bool :=
  if Nat.even n then horizontal else negb horizontal.

(** ** The greedy pass of [solveLeastCost] *)

(** The first loop of [solveLeastCost]: the grid, what is left of the
    supplies and demands, and [basicCellsCount]. *)
Definition greedyPass (p : ProblemState) : Grid * list Z * list Z * Z :=
  foldl allocStep
    (createEmptyGrid (rowCount p) (colCount p) (costs p),
     initialSupply p, initialDemand p, 0)
    (cellsList p).

(** A row with supply left, a column with demand left. *)
Definition live (s d : list Z) (x : node) : Prop :=
  match x with
  | RowN r => ∃ q, zget s r = Some q ∧ 0 < q
  | ColN c => ∃ q, zget d c = Some q ∧ 0 < q
  end.

(** Invariant of the greedy pass on the basis graph.  As long as every
    allocation has exhausted one line only, every node is joined to a live
    one; an allocation exhausting the last two live lines makes the graph
    connected; any other allocation exhausting two lines at once loses a
    basic cell for good. *)
Definition tree_inv (rows cols : Z) (g : Grid) (s d : list Z) (cnt : Z) : Prop :=
  (cnt + (npos s + npos d) = rows + cols ∧
   ∀ x, node_in rows cols x → ∃ y, live s d y ∧ rtc (adjacent g) x y) ∨
  (npos s + npos d = 0 ∧ connected rows cols g) ∨
  (cnt + (npos s + npos d) ≤ rows + cols - 1 ∧ 0 < npos s + npos d) ∨
  (cnt + (npos s + npos d) ≤ rows + cols - 2).

(** Every known potential belongs to a node joined to row 0 by basic cells. *)
Definition reach_inv (g : Grid) (u v : list (option Z)) : Prop :=
  (∀ r, is_Some (known u r) → rtc (adjacent g) (RowN 0) (RowN r)) ∧
  (∀ c, is_Some (known v c) → rtc (adjacent g) (RowN 0) (ColN c)).

(** ** Sums along a row and along a column *)

Definition rowSum (h : Cell → Z) (g : Grid) (r : Z) : Z :=
  zsum (h <$> default [] (zget g r)).

Definition colSum (h : Cell → Z) (g : Grid) (c : Z) : Z :=
  zsum ((λ cells, from_option h 0 (zget cells c)) <$> g).

(** The quantity of a cell, counted for basic cells only. *)
Definition basicQty (cl : Cell) : Z := if isBasin cl then qty cl else 0.

(** The change made by the second loop of [applyPivot] to the sum of [h]
    over the nodes of [loop] weighted by [w]. *)
Fixpoint weightedDelta (w : LoopNode → Z) (h : Cell → Z) (theta : num) (g : Grid)
    (loop : list LoopNode) (isPlus : bool) : Z :=
  match loop with
  | [] => 0
  | node :: rest =>
      w node *
      from_option
        (λ cl, h ((if isPlus then plusCell theta else minusCell theta) cl) - h cl) 0
        (cell_at g node.1 node.2)
      + weightedDelta w h theta g rest (negb isPlus)
  end.

Definition inRow (r : Z) (n : LoopNode) : Z := if decide (n.1 = r) then 1 else 0.
Definition inCol (c : Z) (n : LoopNode) : Z := if decide (n.2 = c) then 1 else 0.

(** No cell ships a negative quantity. *)
Definition nonneg_allocations (g : Grid) : Prop :=
  ∀ r c cl a, cell_at g r c = Some cl → allocation cl = Some (Fin a) → 0 ≤ a.

(** ** Valid tableaux *)

(** Two cells with the same basis mark, allocation and cost; two grids that
    agree in this on every cell. *)
Definition same_plan_cell (a b : Cell) : Prop :=
  isBasin b = isBasin a ∧ allocation b = allocation a ∧ cost b = cost a.

Definition same_plan (g g' : Grid) : Prop := cells_rel same_plan_cell g g'.

(** A valid tableau: the basis is a spanning tree, the basic cells carry
    finite non-negative allocations and the other cells none. *)
Record tableau_ok (rows cols : Z) (g : Grid) : Prop := {
  tb_basis : basis_inv rows cols g;
  tb_empty : nonbasic_empty g;
  tb_finite : finite_allocations g;
  tb_alloc : basic_allocated g;
  tb_nonneg : nonneg_allocations g
}.

(** ** [generateRandomProblem] *)

(** The integers the generator draws.  [Math.floor(Math.random() * n)] is an
    integer of [0, n) (0 for [n = 0]); the calls are independent, so each draw
    is a parameter of its own: one per cost, one per supply, one per demand,
    and one for the entry that takes the difference, drawn below the length
    [n] of the array it indexes. *)
Record Draws := mkDraws {
  costDraw : Z → Z → Z;       (* [Math.floor(Math.random() * 14)] for the cell [(r, c)] *)
  supplyDraw : Z → Z;         (* [Math.floor(Math.random() * 50)] for the row [r] *)
  demandDraw : Z → Z;         (* [Math.floor(Math.random() * 50)] for the column [c] *)
  indexDraw : Z → Z           (* [Math.floor(Math.random() * n)] *)
}.

(** [arr.reduce((a, b) => a + b, 0)] *)
Definition sumOf (l : list Z) : Z := foldl Z.add 0 l.

(** [arr[i] += diff].  At an index outside the array JavaScript stores
    [undefined + diff], which is [NaN]: no array of integers, [None]. *)
Definition addAt (diff i : Z) (l : list Z) : option (list Z) :=
  if decide (0 ≤ i < zlen l) then Some (zalter (λ x, x + diff) i l) else None.

Definition generateRandomProblem (dr : Draws) (rows cols : Z) : option ProblemState :=
  let costs := (λ r, (λ c, costDraw dr r c + 2) <$> seqZ 0 cols) <$> seqZ 0 rows in
  let supply := (λ r, supplyDraw dr r + 20) <$> seqZ 0 rows in
  let demand := (λ c, demandDraw dr c + 20) <$> seqZ 0 cols in
  let totalSupply := sumOf supply in
  let totalDemand := sumOf demand in
  if totalDemand <? totalSupply then
    demand' ← addAt (totalSupply - totalDemand) (indexDraw dr cols) demand;
    Some (mkProblem costs supply demand' supply demand' rows cols)
  else if totalSupply <? totalDemand then
    supply' ← addAt (totalDemand - totalSupply) (indexDraw dr rows) supply;
    Some (mkProblem costs supply' demand supply' demand rows cols)
  else Some (mkProblem costs supply demand supply demand rows cols).

(** The draws are what [Math.floor(Math.random() * n)] can return. *)
Record draws_ok (dr : Draws) : Prop := {
  dok_cost : ∀ r c, 0 ≤ costDraw dr r c < 14;
  dok_supply : ∀ r, 0 ≤ supplyDraw dr r < 50;
  dok_demand : ∀ c, 0 ≤ demandDraw dr c < 50;
  dok_index : ∀ n, 1 ≤ n → 0 ≤ indexDraw dr n < n
}.


(** ** [handleStart] and [handleNextIteration] (the handlers of [App]) *)

(** The state [handleStart] installs for [problem]. *)
Definition handleStart (problem : ProblemState) : SolverState :=
  let initialGrid := solveLeastCost problem in
  let cost := calculateTotalCost initialGrid in
  mkSolver initialGrid
    (replicate (Z.to_nat (rowCount problem)) None)
    (replicate (Z.to_nat (colCount problem)) None)
    cost SReady 1.

(** A run of an asynchronous handler: the states it has installed with
    [setSolver], in order, and how it ended ([Ok ()] when it returned, the
    error when it threw). *)
Abbreviation Run := (list SolverState * res unit)%type.

(** [setSolver(prev => s)], then the rest of the handler. *)
Definition install (s : SolverState) (rest : Run) : Run := (s :: rest.1, rest.2).

(** A call that may throw, then the rest of the handler. *)
Definition andThen {A} (m : res A) (k : A → Run) : Run :=
  match m with
  | Ok a => k a
  | TypeError => ([], TypeError)
  | OutOfFuel => ([], OutOfFuel)
  end.

(** The block [// Identify Loop]: [gridWithLoop] and [loopToDisplay].  The
    entering highlight is written into [gridWithDeltas] itself, which
    [gridWithLoop] still names when no loop is found. *)
Definition identifyLoop (gridWithDeltas : Grid) (enteringCell : option LoopNode)
  : res (Grid * option (list LoopNode)) :=
  match enteringCell with
  | None => Ok (gridWithDeltas, None)
  | Some e =>
      match cell_at gridWithDeltas e.1 e.2 with
      | None => TypeError
      | Some _ =>
          let gridWithDeltas := upd gridWithDeltas e.1 e.2 (set_highlight HEntering) in
          loopToDisplay ←ᵣ findLoop e gridWithDeltas;
          match loopToDisplay with
          | Some loop =>
              gridWithLoop ←ᵣ markLoop gridWithDeltas loop 0;
              Ok (gridWithLoop, Some loop)
          | None => Ok (gridWithDeltas, None)
          end
      end
  end.

(** [handleNextIteration] called in the state [solver].  No other update of
    the solver state arrives during its two delays, so that the [prev] of each
    [setSolver] is the state installed just before. *)
Definition handleNextIteration (problem : ProblemState) (solver : SolverState) : Run :=
  let currentGrid := grid solver in
  let currentIteration := iteration solver in
  andThen (calculatePotentials currentGrid (rowCount problem) (colCount problem))
    (λ '(u, v),
      let s1 := mkSolver (grid solver) u v (totalCost solver) SPotentials
                  (iteration solver) in
      install s1
        (let '(gridWithDeltas, minDelta, enteringCell) :=
           calculateOpportunityCosts currentGrid u v in
         if nge minDelta (Fin 0) then
           install
             (mkSolver gridWithDeltas (pot_u s1) (pot_v s1)
                (calculateTotalCost gridWithDeltas) SOptimal (iteration s1))
             ([], Ok ())
         else
           andThen (identifyLoop gridWithDeltas enteringCell)
             (λ '(gridWithLoop, loopToDisplay),
               let s2 := mkSolver gridWithLoop (pot_u s1) (pot_v s1) (totalCost s1)
                           SLoop (iteration s1) in
               install s2
                 match loopToDisplay with
                 | Some loop =>
                     andThen (applyPivot gridWithLoop loop)
                       (λ '(newGrid, theta),
                         let cleanGrid := map (map cleanCell) newGrid in
                         let newCost := calculateTotalCost cleanGrid in
                         install
                           (mkSolver cleanGrid
                              (replicate (Z.to_nat (rowCount problem)) None)
                              (replicate (Z.to_nat (colCount problem)) None)
                              newCost SReady (currentIteration + 1))
                           ([], Ok ()))
                 | None => ([], Ok ())
                 end))).

(** ** Auxiliary definitions for the handlers *)

(** A grid as [solveLeastCost] and a completed pivot leave it: every cell
    carries its own coordinates, no highlight and no opportunity cost. *)
Definition fresh_grid (g : Grid) : Prop :=
  ∀ r c cl, cell_at g r c = Some cl →
    row cl = r ∧ col cl = c ∧ highlight cl = HNone ∧ opportunityCost cl = None.

(** One pivot of the full iteration. *)
Definition pivots (rows cols : Z) (g g' : Grid) : Prop :=
  ∃ cost theta, performFullIteration g rows cols = Ok (Pivoted g' cost theta).

(** A feasible plan for [p]: a grid of the shape and unit costs of [p], with
    finite non-negative quantities, in which every row ships its supply and
    every column receives its demand. *)
Record feasible_plan (p : ProblemState) (plan : Grid) : Prop := {
  fp_wf : wf_grid (rowCount p) (colCount p) plan;
  fp_costs : ∀ r c cl, cell_at plan r c = Some cl → cost cl = costAt (costs p) r c;
  fp_finite : finite_allocations plan;
  fp_nonneg : nonneg_allocations plan;
  fp_rows : ∀ r, 0 ≤ r < rowCount p → zget (supply p) r = Some (rowTotal plan r);
  fp_cols : ∀ c, 0 ≤ c < colCount p → zget (demand p) c = Some (colTotal plan c)
}.

(** A run of [handleNextIteration] that returns, and the state it leaves. *)
Definition nextIteration (p : ProblemState) (s s' : SolverState) : Prop :=
  ∃ states, handleNextIteration p s = (states, Ok ()) ∧ last states = Some s'.

(** ** Two problems the generator can draw *)

(** A 3 x 4 problem, with the draws that produce it (total demand 174
    against 113 drawn as supply; the difference goes to supply 1).  The
    greedy pass of [solveLeastCost] allocates five cells, and the zero cell
    added for the degeneracy is the cheapest empty one, (0,1). *)
Definition falseOptDraws : Draws :=
  mkDraws (costAt [[12; 3; 12; 13]; [4; 4; 9; 2]; [4; 1; 5; 3]])
    (λ r, default 0 (zget [21; 20; 12] r))
    (λ c, default 0 (zget [48; 7; 26; 13] c))
    (λ n, if n =? 3 then 1 else 0).

Definition falseOptProblem : ProblemState :=
  mkProblem [[14; 5; 14; 15]; [6; 6; 11; 4]; [6; 3; 7; 5]]
    [41; 101; 32] [68; 27; 46; 33] [41; 101; 32] [68; 27; 46; 33] 3 4.

(** A plan for [falseOptProblem] that costs 1095. *)
Definition cheaperPlan : Grid :=
  [[mkCell 0 0 14 None false HNone None;
    mkCell 0 1 5 (Some (Fin 27)) true HNone None;
    mkCell 0 2 14 (Some (Fin 14)) true HNone None;
    mkCell 0 3 15 None false HNone None];
   [mkCell 1 0 6 (Some (Fin 68)) true HNone None;
    mkCell 1 1 6 None false HNone None;
    mkCell 1 2 11 None false HNone None;
    mkCell 1 3 4 (Some (Fin 33)) true HNone None];
   [mkCell 2 0 6 None false HNone None;
    mkCell 2 1 3 None false HNone None;
    mkCell 2 2 7 (Some (Fin 32)) true HNone None;
    mkCell 2 3 5 None false HNone None]].

(** Another 3 x 4 problem with its draws (total supply 143 against 142
    drawn as demand; the difference goes to demand 2).  Again the greedy pass
    allocates five cells, and the zero cell added is (0,0). *)
Definition badPivotDraws : Draws :=
  mkDraws (costAt [[2; 8; 3; 12]; [11; 7; 13; 13]; [0; 9; 1; 7]])
    (λ r, default 0 (zget [26; 30; 27] r))
    (λ c, default 0 (zget [8; 30; 9; 15] c))
    (λ n, if n =? 4 then 2 else 0).

Definition badPivotProblem : ProblemState :=
  mkProblem [[4; 10; 5; 14]; [13; 9; 15; 15]; [2; 11; 3; 9]]
    [46; 50; 47] [28; 50; 30; 35] [46; 50; 47] [28; 50; 30; 35] 3 4.
(** * Properties *)

(** ** Arrays and grids *)

Section arrays.
Context {A : Type}.
Implicit Types (l : list A) (i j : Z).

Lemma zget_Some l i x : zget l i = Some x → 0 ≤ i < zlen l.
Proof.
  unfold zget, zlen. case_decide; [|done].
  intros Hx%lookup_lt_Some. lia.
Qed.

Lemma zget_is_Some l i : is_Some (zget l i) ↔ 0 ≤ i < zlen l.
Proof.
  split.
  - intros [x Hx]. by eapply zget_Some.
  - intros [H0 Hlt]. unfold zget, zlen in *. rewrite decide_True by done.
    apply lookup_lt_is_Some. lia.
Qed.

Lemma zget_None l i : zget l i = None ↔ ¬ (0 ≤ i < zlen l).
Proof. rewrite eq_None_not_Some, zget_is_Some. done. Qed.

Lemma zlen_zalter f i l : zlen (zalter f i l) = zlen l.
Proof. unfold zlen, zalter. case_decide; [|done]. by rewrite length_alter. Qed.

Lemma zget_zalter f i j l :
  zget (zalter f i l) j = if decide (i = j) then f <$> zget l j else zget l j.
Proof.
  unfold zget, zalter. destruct (decide (i = j)) as [->|Hne].
  - case_decide; [|done]. apply list_lookup_alter_eq.
  - destruct (decide (0 ≤ i)); [|done]. case_decide; [|done].
    apply list_lookup_alter_ne. lia.
Qed.

Lemma zget_zalter_eq f i l : zget (zalter f i l) i = f <$> zget l i.
Proof. rewrite zget_zalter. by rewrite decide_True. Qed.

Lemma zget_zalter_ne f i j l : i ≠ j → zget (zalter f i l) j = zget l j.
Proof. intros. rewrite zget_zalter. by rewrite decide_False. Qed.

Lemma zget_ext l1 l2 : (∀ i, zget l1 i = zget l2 i) → l1 = l2.
Proof.
  intros H. apply list_eq. intros n. specialize (H (Z.of_nat n)).
  unfold zget in H. rewrite !decide_True, Nat2Z.id in H by lia. done.
Qed.

Lemma zget_elem_of l i x : zget l i = Some x → x ∈ l.
Proof.
  unfold zget. case_decide; [|done]. apply list_elem_of_lookup_2.
Qed.

Lemma elem_of_zget l x : x ∈ l → ∃ i, zget l i = Some x.
Proof.
  intros [n Hn]%list_elem_of_lookup_1. exists (Z.of_nat n).
  unfold zget. rewrite decide_True, Nat2Z.id by lia. done.
Qed.
End arrays.

Lemma zget_fmap {A B} (f : A → B) (l : list A) i : zget (f <$> l) i = f <$> zget l i.
Proof. unfold zget. case_decide; [|done]. apply list_lookup_fmap. Qed.

Lemma zlen_fmap {A B} (f : A → B) (l : list A) : zlen (f <$> l) = zlen l.
Proof. unfold zlen. by rewrite length_fmap. Qed.

Lemma zget_seqZ n i : zget (seqZ 0 n) i = if decide (0 ≤ i < n) then Some i else None.
Proof.
  unfold zget. case_decide as H0.
  - destruct (decide (i < n)).
    + rewrite decide_True by lia. rewrite lookup_seqZ_lt by lia. f_equal. lia.
    + rewrite decide_False by lia. apply lookup_seqZ_ge. lia.
  - by rewrite decide_False by lia.
Qed.

Lemma cell_at_Some g r c cl :
  cell_at g r c = Some cl → ∃ cells, zget g r = Some cells ∧ zget cells c = Some cl.
Proof.
  unfold cell_at. destruct (zget g r) as [cells|]; [|done]. simpl. eauto.
Qed.

Lemma cell_at_range rows cols g r c :
  wf_grid rows cols g → (is_Some (cell_at g r c) ↔ 0 ≤ r < rows ∧ 0 ≤ c < cols).
Proof.
  intros [Hlen Hall]. split.
  - intros [cl (cells & Hr & Hc)%cell_at_Some].
    pose proof (zget_Some _ _ _ Hr). pose proof (zget_Some _ _ _ Hc).
    apply zget_elem_of in Hr. rewrite Forall_forall in Hall.
    apply Hall in Hr. lia.
  - intros [Hr Hc]. unfold cell_at.
    destruct (zget g r) as [cells|] eqn:E.
    + simpl. apply zget_is_Some. apply zget_elem_of in E.
      rewrite Forall_forall in Hall. apply Hall in E. lia.
    + apply zget_None in E. lia.
Qed.

Lemma cell_at_upd g r c f r' c' :
  cell_at (upd g r c f) r' c' =
  if decide ((r, c) = (r', c')) then f <$> cell_at g r' c' else cell_at g r' c'.
Proof.
  unfold cell_at, upd. rewrite zget_zalter.
  destruct (decide (r = r')) as [->|Hr].
  - destruct (zget g r') as [cells|]; simpl.
    + rewrite zget_zalter. destruct (decide (c = c')) as [->|Hc].
      * by rewrite decide_True.
      * rewrite decide_False by congruence. done.
    + by case_decide.
  - rewrite decide_False by congruence. done.
Qed.

Lemma cell_at_upd_eq g r c f : cell_at (upd g r c f) r c = f <$> cell_at g r c.
Proof. rewrite cell_at_upd. by rewrite decide_True. Qed.

Lemma cell_at_upd_ne g r c f r' c' :
  (r, c) ≠ (r', c') → cell_at (upd g r c f) r' c' = cell_at g r' c'.
Proof. intros. rewrite cell_at_upd. by rewrite decide_False. Qed.

Lemma cell_at_map f (g : Grid) r c : cell_at (map (map f) g) r c = f <$> cell_at g r c.
Proof.
  unfold cell_at. change (map (map f) g) with (fmap (M:=list) (fmap (M:=list) f) g).
  rewrite zget_fmap. destruct (zget g r) as [cells|]; simpl; [|done].
  apply zget_fmap.
Qed.

Lemma wf_grid_upd rows cols g r c f : wf_grid rows cols g → wf_grid rows cols (upd g r c f).
Proof.
  intros [Hlen Hall]. split.
  - unfold upd. by rewrite zlen_zalter.
  - unfold upd, zalter. case_decide; [|done].
    apply Forall_alter; [done|]. intros cells _ Hcells. simpl in *.
    case_decide; [|done]. unfold zlen in *. by rewrite length_alter.
Qed.

Lemma wf_grid_map rows cols g f : wf_grid rows cols g → wf_grid rows cols (map (map f) g).
Proof.
  intros [Hlen Hall]. split.
  - unfold zlen in *. by rewrite length_map.
  - apply Forall_fmap. eapply Forall_impl; [done|]. intros cells Hc. simpl.
    unfold zlen in *. by rewrite length_map.
Qed.

Lemma grid_ext rows cols g1 g2 :
  wf_grid rows cols g1 → wf_grid rows cols g2 →
  (∀ r c, cell_at g1 r c = cell_at g2 r c) → g1 = g2.
Proof.
  intros Hw1 Hw2 H. apply zget_ext. intros r.
  destruct (decide (0 ≤ r < rows)) as [Hr|Hr].
  - destruct Hw1 as [Hl1 Ha1], Hw2 as [Hl2 Ha2].
    destruct (zget g1 r) as [cells1|] eqn:E1; [|apply zget_None in E1; lia].
    destruct (zget g2 r) as [cells2|] eqn:E2; [|apply zget_None in E2; lia].
    f_equal. apply zget_ext. intros c. specialize (H r c).
    unfold cell_at in H. by rewrite E1, E2 in H.
  - destruct Hw1 as [Hl1 _], Hw2 as [Hl2 _].
    assert (zget g1 r = None) as -> by (apply zget_None; lia).
    symmetry. apply zget_None. lia.
Qed.

Lemma elem_of_scan rows cols r c :
  (r, c) ∈ scan rows cols ↔ 0 ≤ r < rows ∧ 0 ≤ c < cols.
Proof.
  unfold scan. rewrite list_elem_of_bind. split.
  - intros (r' & Hin & Hr). apply list_elem_of_fmap in Hin as (c' & [= -> ->] & Hc).
    apply elem_of_seqZ in Hr, Hc. lia.
  - intros [Hr Hc]. exists r. split.
    + apply list_elem_of_fmap. exists c. split; [done|]. apply elem_of_seqZ. lia.
    + apply elem_of_seqZ. lia.
Qed.

Lemma NoDup_scan rows cols : NoDup (scan rows cols).
Proof.
  unfold scan. apply NoDup_bind.
  - intros r1 r2 rc _ _ H1 H2.
    apply list_elem_of_fmap in H1 as (? & -> & _).
    apply list_elem_of_fmap in H2 as (? & [= -> _] & _). done.
  - intros r _. apply NoDup_fmap_2; [|apply NoDup_seqZ]. by intros ?? [=].
  - apply NoDup_seqZ.
Qed.

(** ** Cell-wise relations between grids *)

Lemma cells_rel_refl R g : (∀ cl, R cl cl) → cells_rel R g g.
Proof. intros HR r c. destruct (cell_at g r c); by constructor. Qed.

Lemma cells_rel_trans R g1 g2 g3 :
  (∀ a b c, R a b → R b c → R a c) →
  cells_rel R g1 g2 → cells_rel R g2 g3 → cells_rel R g1 g3.
Proof.
  intros HR H12 H23 r c. specialize (H12 r c). specialize (H23 r c).
  destruct H12; inversion H23; subst; constructor; eauto.
Qed.

Lemma cells_rel_upd R g r c f :
  (∀ cl, R cl cl) → (∀ cl, R cl (f cl)) → cells_rel R g (upd g r c f).
Proof.
  intros Hrefl Hf r' c'. rewrite cell_at_upd.
  destruct (cell_at g r' c'); case_decide; simpl; constructor; eauto.
Qed.

Lemma cells_rel_map R g f : (∀ cl, R cl (f cl)) → cells_rel R g (map (map f) g).
Proof.
  intros Hf r c. rewrite cell_at_map. destruct (cell_at g r c); constructor; eauto.
Qed.

Lemma cells_rel_is_Some R g g' r c :
  cells_rel R g g' → (is_Some (cell_at g r c) ↔ is_Some (cell_at g' r c)).
Proof.
  intros H. specialize (H r c). destruct H; split; intros [? ?]; eauto; done.
Qed.

(** ** [applyPivot]: structure of a run *)

Lemma everyOther_subseteq {A} b (l : list A) x : x ∈ everyOther b l → x ∈ l.
Proof.
  revert b. induction l as [|y l IH]; intros b; simpl; [done|].
  destruct b.
  - rewrite !elem_of_cons. intros [->|H]; eauto.
  - rewrite elem_of_cons. eauto.
Qed.

Lemma everyOther_lookup {A} (l : list A) (k : nat) :
  everyOther false l !! k = l !! (2 * k + 1)%nat ∧
  everyOther true l !! k = l !! (2 * k)%nat.
Proof.
  revert k. induction l as [|x l IH]; intros k.
  - done.
  - cbn [everyOther]. split.
    + replace (2 * k + 1)%nat with (S (2 * k)) by lia.
      rewrite lookup_cons_ne_0 by lia. apply IH.
    + destruct k as [|k]; [done|].
      replace (2 * S k)%nat with (S (2 * k + 1)) by lia.
      rewrite !lookup_cons_ne_0 by lia. apply IH.
Qed.

Lemma minusNodes_lookup loop k : minusNodes loop !! k = loop !! (2 * k + 1)%nat.
Proof. apply everyOther_lookup. Qed.

Lemma findTheta_everyOther g loop b theta lv :
  findTheta g loop b theta lv = thetaScan g (everyOther b loop) theta lv.
Proof.
  revert b theta lv. induction loop as [|n loop IH]; intros b theta lv; [done|].
  simpl. destruct b; simpl; [|apply IH].
  destruct (cell_at g n.1 n.2) as [cl|]; [|done].
  destruct (allocation cl) as [a|]; [|apply IH].
  destruct (nlt a theta); apply IH.
Qed.

Lemma thetaScan_Ok g ns theta lv :
  (∀ n, n ∈ ns → is_Some (cell_at g n.1 n.2)) →
  ∃ theta' lv', thetaScan g ns theta lv = Ok (theta', lv') ∧
                (lv' = lv ∨ ∃ n, lv' = Some n ∧ n ∈ ns).
Proof.
  revert theta lv. induction ns as [|n ns IH]; intros theta lv Hok; simpl.
  - eauto.
  - destruct (Hok n) as [cl Hcl]; [left|]. rewrite Hcl.
    assert (∀ n', n' ∈ ns → is_Some (cell_at g n'.1 n'.2)) as Hok'
      by (intros; apply Hok; by right).
    assert (∀ t l, (∃ theta' lv', thetaScan g ns t l = Ok (theta', lv') ∧
                      (lv' = l ∨ ∃ n0, lv' = Some n0 ∧ n0 ∈ ns)) →
                   l = lv ∨ l = Some n →
                   ∃ theta' lv', thetaScan g ns t l = Ok (theta', lv') ∧
                      (lv' = lv ∨ ∃ n0, lv' = Some n0 ∧ n0 ∈ n :: ns)) as Hstep.
    { intros t l (t' & l' & -> & Hl') Hl. exists t', l'. split; [done|].
      destruct Hl' as [->|(n0 & -> & Hn0)].
      - destruct Hl as [->| ->]; [by left|]. right. exists n. split; [done|left].
      - right. exists n0. split; [done|by right]. }
    destruct (allocation cl) as [a|]; [destruct (nlt a theta)|]; apply Hstep; auto.
Qed.

(** With finite allocations on all scanned nodes, the scan from [Infinity]
    returns the least allocation and the first node holding it. *)
Lemma thetaScan_min g ns theta lv :
  (∀ n, n ∈ ns → ∃ a, allocAt g n = Some (Fin a)) →
  ∃ theta' lv', thetaScan g ns theta lv = Ok (theta', lv') ∧
    ((theta' = theta ∧ lv' = lv ∧
      ∀ n a, n ∈ ns → allocAt g n = Some (Fin a) → nlt (Fin a) theta = false)
     ∨
     (∃ (k : nat) n m, ns !! k = Some n ∧ theta' = Fin m ∧ lv' = Some n ∧
        allocAt g n = Some (Fin m) ∧ nlt (Fin m) theta = true ∧
        ∀ (i : nat) n' a, ns !! i = Some n' → allocAt g n' = Some (Fin a) →
                          m ≤ a ∧ ((i < k)%nat → m < a))).
Proof.
  revert theta lv. induction ns as [|n ns IH]; intros theta lv Hfin; simpl.
  - eexists _, _. split; [done|]. left. repeat split. intros ?? H. inversion H.
  - destruct (Hfin n) as [a Ha]; [left|].
    assert (∀ n', n' ∈ ns → ∃ a, allocAt g n' = Some (Fin a)) as Hfin'
      by (intros; apply Hfin; by right).
    unfold allocAt in Ha. destruct (cell_at g n.1 n.2) as [cl|] eqn:Ecl; [|done].
    simpl in Ha. rewrite Ha.
    destruct (nlt (Fin a) theta) eqn:Elt.
    + destruct (IH (Fin a) (Some n) Hfin') as (t' & l' & Hrun & Hcase).
      exists t', l'. split; [done|]. right.
      destruct Hcase as [(-> & -> & Hall)|(k & n1 & m & Hk & -> & -> & Hm & Hlt & Hall)].
      * exists 0%nat, n, a. repeat split; try done.
        { unfold allocAt. by rewrite Ecl. }
        { destruct i as [|i]; simpl in H.
          - injection H as <-. unfold allocAt in H0. rewrite Ecl in H0. simpl in H0.
            rewrite Ha in H0. injection H0 as <-. lia.
          - apply list_elem_of_lookup_2 in H. specialize (Hall _ _ H H0).
            simpl in Hall. lia. }
        { lia. }
      * exists (S k), n1, m. simpl in Hlt. repeat split; try done.
        { destruct theta; simpl in *; try done. lia. }
        { destruct i as [|i]; simpl in H.
          - injection H as <-. unfold allocAt in H0. rewrite Ecl in H0. simpl in H0.
            rewrite Ha in H0. injection H0 as <-. lia.
          - destruct (Hall _ _ _ H H0). lia. }
        { destruct i as [|i]; simpl in H.
          - injection H as <-. unfold allocAt in H0. rewrite Ecl in H0. simpl in H0.
            rewrite Ha in H0. injection H0 as <-. lia.
          - intros. destruct (Hall _ _ _ H H0). lia. }
    + destruct (IH theta lv Hfin') as (t' & l' & Hrun & Hcase).
      exists t', l'. split; [done|].
      destruct Hcase as [(-> & -> & Hall)|(k & n1 & m & Hk & -> & -> & Hm & Hlt & Hall)].
      * left. repeat split. intros n' a' [->|Hin]%elem_of_cons Hal.
        { unfold allocAt in Hal. rewrite Ecl in Hal. simpl in Hal.
          rewrite Ha in Hal. by injection Hal as <-. }
        { eauto. }
      * right. exists (S k), n1, m. repeat split; try done.
        { destruct i as [|i]; simpl in H.
          - injection H as <-. unfold allocAt in H0. rewrite Ecl in H0. simpl in H0.
            rewrite Ha in H0. injection H0 as <-.
            destruct theta; simpl in *; try done. lia.
          - destruct (Hall _ _ _ H H0). lia. }
        { destruct i as [|i]; simpl in H.
          - injection H as <-. unfold allocAt in H0. rewrite Ecl in H0. simpl in H0.
            rewrite Ha in H0. injection H0 as <-.
            destruct theta; simpl in *; try done. lia.
          - intros. destruct (Hall _ _ _ H H0). lia. }
Qed.

Lemma applyTheta_rel (R : Cell → Cell → Prop) theta g loop b g' :
  (∀ cl, R cl cl) → (∀ x y z, R x y → R y z → R x z) →
  (∀ cl, R cl (plusCell theta cl)) → (∀ cl, R cl (minusCell theta cl)) →
  applyTheta theta g loop b = Ok g' → cells_rel R g g'.
Proof.
  intros Hrefl Htrans Hplus Hminus. revert g b.
  induction loop as [|n loop IH]; intros g b; simpl.
  - intros [= ->]. by apply cells_rel_refl.
  - destruct (cell_at g n.1 n.2); [|done]. intros Hrun%IH.
    eapply cells_rel_trans; [done| |done].
    apply cells_rel_upd; [done|]. by destruct b.
Qed.

Lemma applyTheta_Ok theta g loop b :
  (∀ n, n ∈ loop → is_Some (cell_at g n.1 n.2)) →
  ∃ g', applyTheta theta g loop b = Ok g'.
Proof.
  revert g b. induction loop as [|n loop IH]; intros g b Hok; simpl; [eauto|].
  destruct (Hok n) as [cl ->]; [left|]. apply IH. intros n' Hn'.
  eapply (cells_rel_is_Some (λ _ _, True)); [|apply Hok; by right].
  intros r c. rewrite cell_at_upd.
  destruct (cell_at g r c); case_decide; by constructor.
Qed.

Lemma applyTheta_frame theta g loop b g' r c :
  applyTheta theta g loop b = Ok g' → (r, c) ∉ loop → cell_at g' r c = cell_at g r c.
Proof.
  revert g b. induction loop as [|n loop IH]; intros g b; simpl.
  - by intros [= ->].
  - destruct (cell_at g n.1 n.2); [|done]. intros Hrun Hnin.
    apply not_elem_of_cons in Hnin as [Hne Hnin].
    rewrite (IH _ _ Hrun Hnin). apply cell_at_upd_ne. by destruct n.
Qed.

Lemma applyPivot_inv g loop g' theta :
  applyPivot g loop = Ok (g', theta) →
  ∃ lv g1 start rest,
    loop = start :: rest ∧
    thetaScan g (minusNodes loop) PInf None = Ok (theta, lv) ∧
    applyTheta theta (map (map copyCell) g) (take (length loop - 1) loop) true = Ok g1 ∧
    is_Some (cell_at (leaveGrid lv g1) start.1 start.2) ∧
    g' = map (map cleanupCell) (upd (leaveGrid lv g1) start.1 start.2 (set_isBasin true)).
Proof.
  unfold applyPivot. rewrite findTheta_everyOther. fold (minusNodes loop).
  destruct (thetaScan g (minusNodes loop) PInf None) as [[t lv]| |]; simpl; [|done..].
  destruct (applyTheta t _ _ true) as [g1| |] eqn:Erun; simpl; [|done..].
  destruct loop as [|start rest]; [done|].
  destruct (cell_at (leaveGrid lv g1) start.1 start.2) eqn:E; [|done].
  intros [= <- <-]. exists lv, g1, start, rest. rewrite E. eauto 10.
Qed.

Lemma applyPivot_intro g loop lv theta g1 start rest :
  loop = start :: rest →
  thetaScan g (minusNodes loop) PInf None = Ok (theta, lv) →
  applyTheta theta (map (map copyCell) g) (take (length loop - 1) loop) true = Ok g1 →
  is_Some (cell_at (leaveGrid lv g1) start.1 start.2) →
  applyPivot g loop =
    Ok (map (map cleanupCell) (upd (leaveGrid lv g1) start.1 start.2 (set_isBasin true)),
        theta).
Proof.
  intros -> Hscan Hrun [cl Hcl]. unfold applyPivot.
  rewrite findTheta_everyOther. fold (minusNodes (start :: rest)). rewrite Hscan. simpl.
  simpl in Hrun. rewrite Hrun. simpl. by rewrite Hcl.
Qed.

Lemma leaveGrid_rel (R : Cell → Cell → Prop) lv g :
  (∀ cl, R cl cl) → (∀ cl, R cl (leaveCell cl)) → cells_rel R g (leaveGrid lv g).
Proof.
  intros. destruct lv; simpl; [by apply cells_rel_upd|by apply cells_rel_refl].
Qed.

Lemma applyPivot_rel (R : Cell → Cell → Prop) g loop g' theta :
  (∀ cl, R cl cl) → (∀ x y z, R x y → R y z → R x z) →
  (∀ cl, R cl (copyCell cl)) →
  (∀ cl, R cl (plusCell theta cl)) → (∀ cl, R cl (minusCell theta cl)) →
  (∀ cl, R cl (leaveCell cl)) → (∀ cl, R cl (set_isBasin true cl)) →
  (∀ cl, R cl (cleanupCell cl)) →
  applyPivot g loop = Ok (g', theta) → cells_rel R g g'.
Proof.
  intros Hrefl Htrans Hcopy Hplus Hminus Hleave Hbasic Hclean
    (lv & g1 & start & rest & -> & _ & Hrun & _ & ->)%applyPivot_inv.
  apply (applyTheta_rel R) in Hrun; [|done..].
  eapply cells_rel_trans; [done|exact (cells_rel_map R g copyCell Hcopy)|].
  eapply cells_rel_trans; [done|exact Hrun|].
  eapply cells_rel_trans; [done|exact (leaveGrid_rel R lv g1 Hrefl Hleave)|].
  eapply cells_rel_trans;
    [done|exact (cells_rel_upd R _ start.1 start.2 _ Hrefl Hbasic)|].
  exact (cells_rel_map R _ cleanupCell Hclean).
Qed.

Lemma applyPivot_static g loop g' theta :
  applyPivot g loop = Ok (g', theta) → cells_rel same_static g g'.
Proof.
  apply applyPivot_rel; unfold same_static; try done.
  - intros x y z (-> & -> & -> & -> & ->) (-> & -> & -> & -> & ->). done.
  - intros cl. unfold cleanupCell. by destruct (isBasin cl).
Qed.

Lemma applyPivot_wf rows cols g loop g' theta :
  wf_grid rows cols g → applyPivot g loop = Ok (g', theta) → wf_grid rows cols g'.
Proof.
  intros Hwf (lv & g1 & start & rest & -> & _ & Hrun & _ & ->)%applyPivot_inv.
  apply wf_grid_map, wf_grid_upd.
  assert (wf_grid rows cols g1) as Hg1.
  { apply (wf_grid_map _ _ _ copyCell) in Hwf. revert Hrun Hwf.
    generalize (map (map copyCell) g). generalize true.
    generalize (take (length (start :: rest) - 1) (start :: rest)).
    intros l. induction l as [|n l IH]; intros b g0; simpl.
    - by intros [= ->].
    - destruct (cell_at g0 n.1 n.2); [|done]. intros Hrun Hwf.
      eapply IH; [done|]. by apply wf_grid_upd. }
  destruct lv; simpl; [by apply wf_grid_upd|done].
Qed.

Lemma applyPivot_total g loop :
  loop ≠ [] → (∀ n, n ∈ loop → is_Some (cell_at g n.1 n.2)) →
  ∃ g' theta, applyPivot g loop = Ok (g', theta).
Proof.
  intros Hne Hok. destruct loop as [|start rest]; [done|].
  destruct (thetaScan_Ok g (minusNodes (start :: rest)) PInf None) as (t & lv & Hscan & _).
  { intros n Hn. apply Hok. by eapply everyOther_subseteq. }
  destruct (applyTheta_Ok t (map (map copyCell) g)
              (take (length (start :: rest) - 1) (start :: rest)) true) as [g1 Hrun].
  { intros n Hn%elem_of_take. destruct Hn as (i & Hn%list_elem_of_lookup_2 & _).
    rewrite cell_at_map. apply fmap_is_Some. by apply Hok. }
  eexists _, _. eapply applyPivot_intro; [done..|].
  assert (cells_rel (λ _ _, True) g (leaveGrid lv g1)) as Hrel.
  { eapply cells_rel_trans; [done|exact (cells_rel_map _ g copyCell (λ _, I))|].
    eapply cells_rel_trans; [done| |by apply leaveGrid_rel].
    eapply applyTheta_rel; [..|exact Hrun]; done. }
  apply (cells_rel_is_Some _ _ _ start.1 start.2 Hrel), Hok. left.
Qed.

Lemma zalter_None {A} (f : A → A) i (l : list A) : zget l i = None → zalter f i l = l.
Proof.
  intros H. apply zget_ext. intros j. rewrite zget_zalter.
  case_decide as E; [|done]. subst. by rewrite H.
Qed.

Lemma upd_None g r c f : cell_at g r c = None → upd g r c f = g.
Proof.
  intros H. unfold upd. apply zget_ext. intros j. rewrite zget_zalter.
  case_decide as E; [|done]. subst j. unfold cell_at in H.
  destruct (zget g r) as [cells|]; [|done]. simpl in *. by rewrite zalter_None.
Qed.

Lemma zalter_ext {A} (f f' : A → A) i (l : list A) :
  (∀ x, zget l i = Some x → f x = f' x) → zalter f i l = zalter f' i l.
Proof.
  intros H. apply zget_ext. intros j. rewrite !zget_zalter.
  case_decide as E; [|done]. subst. destruct (zget l j) as [x|]; [|done].
  simpl. f_equal. by apply H.
Qed.

Lemma upd_ext g r c f f' :
  (∀ cl, cell_at g r c = Some cl → f cl = f' cl) → upd g r c f = upd g r c f'.
Proof.
  intros H. unfold upd. apply zalter_ext. intros cells Hcells.
  apply zalter_ext. intros cl Hcl. apply H. unfold cell_at. by rewrite Hcells.
Qed.

Lemma seqZ_sorted m n : StronglySorted Z.lt (seqZ m n).
Proof.
  remember (Z.to_nat n) as k eqn:Hk. revert m n Hk.
  induction k as [|k IH]; intros m n Hk.
  - rewrite seqZ_nil by lia. constructor.
  - rewrite seqZ_cons by lia. constructor.
    + apply IH. lia.
    + apply Forall_forall. intros x Hx%elem_of_seqZ. lia.
Qed.

Lemma scan_sorted_from m rows cols :
  StronglySorted rowMajorLt (seqZ m rows ≫= λ r, (λ c, (r, c)) <$> seqZ 0 cols).
Proof.
  remember (Z.to_nat rows) as k eqn:Hk. revert m rows Hk.
  induction k as [|k IH]; intros m rows Hk.
  - rewrite (seqZ_nil m rows) by lia. constructor.
  - rewrite (seqZ_cons m rows) by lia. cbn [mbind list_bind]. apply StronglySorted_app_2.
    3:{ apply IH. lia. }
    2:{ apply (StronglySorted_fmap _ Z.lt); [|apply seqZ_sorted].
        intros c1 c2 Hc. right. simpl. lia. }
    + intros a b (c1 & -> & _)%list_elem_of_fmap (r & (c2 & -> & _)%list_elem_of_fmap & Hr%elem_of_seqZ)%list_elem_of_bind.
      left. simpl. lia.
Qed.

Lemma scan_sorted rows cols : StronglySorted rowMajorLt (scan rows cols).
Proof. apply scan_sorted_from. Qed.

Lemma StronglySorted_lookup_lt {A} (R : relation A) l (i j : nat) x y :
  StronglySorted R l → l !! i = Some x → l !! j = Some y → (i < j)%nat → R x y.
Proof.
  intros Hs. revert i j. induction Hs as [|a l Hs IH Hall]; intros i j Hi Hj Hlt.
  - done.
  - destruct j as [|j]; [lia|]. destruct i as [|i]; simpl in *.
    + injection Hi as <-. rewrite Forall_forall in Hall.
      apply Hall. by eapply list_elem_of_lookup_2.
    + eapply IH; [done..|lia].
Qed.

Lemma scan_row_major rows cols (i j : nat) a b :
  scan rows cols !! i = Some a → scan rows cols !! j = Some b →
  ((i < j)%nat ↔ rowMajorLt a b).
Proof.
  intros Hi Hj. split.
  - by apply (StronglySorted_lookup_lt _ _ _ _ _ _ (scan_sorted rows cols)).
  - intros Hab. destruct (decide (i < j)%nat) as [|Hge]; [done|]. exfalso.
    destruct (decide (i = j)) as [->|Hne].
    + rewrite Hi in Hj. injection Hj as <-. unfold rowMajorLt in Hab. lia.
    + assert (rowMajorLt b a) as Hba.
      { apply (StronglySorted_lookup_lt _ _ j i _ _ (scan_sorted rows cols)); [done..|lia]. }
      unfold rowMajorLt in *. lia.
Qed.

(** ** [applyPivot]: frame *)

Lemma cell_at_elem_of_concat g r c cl : cell_at g r c = Some cl → cl ∈ concat g.
Proof.
  intros (cells & Hr%zget_elem_of & Hc%zget_elem_of)%cell_at_Some.
  apply list_elem_of_In, in_concat. exists cells.
  split; by apply list_elem_of_In.
Qed.

Lemma basic_allocated_Forall g :
  Forall (λ cl, isBasin cl = true → allocation cl ≠ None) (concat g) → basic_allocated g.
Proof.
  intros H r c cl Hcl. rewrite Forall_forall in H.
  apply H. by eapply cell_at_elem_of_concat.
Qed.

Lemma applyPivot_outside g loop g' theta r c :
  applyPivot g loop = Ok (g', theta) → (r, c) ∉ loop →
  cell_at g' r c = (λ cl, cleanupCell (copyCell cl)) <$> cell_at g r c.
Proof.
  intros (lv & g1 & start & rest & -> & Hscan & Hrun & _ & ->)%applyPivot_inv Hnin.
  rewrite cell_at_map, cell_at_upd_ne.
  2:{ intros Heq. apply Hnin. destruct start. injection Heq as -> ->. left. }
  assert (cell_at (leaveGrid lv g1) r c = cell_at g1 r c) as ->.
  { destruct (thetaScan_Ok g (minusNodes (start :: rest)) PInf None) as (t' & lv' & Hs & Hlv).
    - intros n Hn. destruct (cell_at g n.1 n.2) eqn:E; [done|].
      exfalso. revert Hscan Hn E. generalize PInf, (@None LoopNode).
      generalize (minusNodes (start :: rest)) as ns.
      induction ns as [|n0 ns IH]; intros t0 l0 Hscan Hn E; [inversion Hn|].
      simpl in Hscan. apply elem_of_cons in Hn as [->|Hn].
      + by rewrite E in Hscan.
      + destruct (cell_at g n0.1 n0.2) as [cl0|]; [|done].
        destruct (allocation cl0) as [a|]; [destruct (nlt a t0)|]; eauto.
    - rewrite Hscan in Hs. injection Hs as <- <-.
      destruct Hlv as [->|(n & -> & Hn)]; [done|]. simpl.
      apply cell_at_upd_ne. intros Heq. apply Hnin.
      apply everyOther_subseteq in Hn. destruct n. by injection Heq as -> ->. }
  rewrite (applyTheta_frame _ _ _ _ _ _ _ Hrun).
  2:{ intros (i & Hin%list_elem_of_lookup_2 & _)%elem_of_take. done. }
  rewrite cell_at_map. by destruct (cell_at g r c).
Qed.

(** C10 (as amended).  For a grid whose basic cells all carry an allocation
    and a non-empty loop of cells of the grid, [applyPivot] returns a grid in
    which every cell outside the loop keeps its basis membership, keeps its
    allocation if it is basic, and has an empty allocation if it is not basic
    (whatever it held before); and every cell, loop cells included, keeps its
    cost. *)
Theorem applyPivot_frame g loop :
  basic_allocated g → loop ≠ [] → loop_in_grid g loop →
  ∃ g' theta, applyPivot g loop = Ok (g', theta) ∧
    (∀ r c cl, cell_at g r c = Some cl → (r, c) ∉ loop →
       ∃ cl', cell_at g' r c = Some cl' ∧ isBasin cl' = isBasin cl ∧
              (isBasin cl = true → allocation cl' = allocation cl) ∧
              (isBasin cl = false → allocation cl' = None)) ∧
    (∀ r c cl, cell_at g r c = Some cl →
       ∃ cl', cell_at g' r c = Some cl' ∧ cost cl' = cost cl).
Proof.
  intros Halloc Hne Hin.
  destruct (applyPivot_total g loop Hne Hin) as (g' & theta & Hrun).
  exists g', theta. split; [done|]. split.
  - intros r c cl Hcl Hnin. rewrite (applyPivot_outside _ _ _ _ _ _ Hrun Hnin), Hcl.
    simpl. eexists. split; [done|].
    unfold cleanupCell, copyCell. simpl.
    destruct (isBasin cl) eqn:Eb; simpl; rewrite ?Eb; repeat split; try done.
    intros _. specialize (Halloc r c cl Hcl Eb).
    by destruct (allocation cl).
  - intros r c cl Hcl. pose proof (applyPivot_static _ _ _ _ Hrun r c) as Hrel.
    rewrite Hcl in Hrel. inversion Hrel as [? cl' (_ & _ & Hcost & _)|]; subst.
    eauto.
Qed.

Lemma applyPivot_frame_witness :
  basic_allocated staleGrid ∧ staleLoop ≠ [] ∧ loop_in_grid staleGrid staleLoop ∧
  ∃ g' theta, applyPivot staleGrid staleLoop = Ok (g', theta) ∧
    (∀ r c cl, cell_at staleGrid r c = Some cl → (r, c) ∉ staleLoop →
       ∃ cl', cell_at g' r c = Some cl' ∧ isBasin cl' = isBasin cl ∧
              (isBasin cl = true → allocation cl' = allocation cl) ∧
              (isBasin cl = false → allocation cl' = None)) ∧
    (∀ r c cl, cell_at staleGrid r c = Some cl →
       ∃ cl', cell_at g' r c = Some cl' ∧ cost cl' = cost cl).
Proof.
  assert (basic_allocated staleGrid) as H1.
  { apply basic_allocated_Forall. vm_compute. repeat constructor; done. }
  assert (staleLoop ≠ []) as H2 by done.
  assert (loop_in_grid staleGrid staleLoop) as H3.
  { intros n Hn. unfold staleLoop in Hn.
    repeat (apply elem_of_cons in Hn as [->|Hn]; [vm_compute; eauto|]).
    inversion Hn. }
  exact (conj H1 (conj H2 (conj H3 (applyPivot_frame staleGrid staleLoop H1 H2 H3)))).
Defined.

(** C10 (as stated) fails: all basic cells of [staleGrid] carry an
    allocation and the cell (0,2) is not on the loop, yet the pivot empties
    its allocation. *)
Lemma applyPivot_frame_counterexample :
  basic_allocated staleGrid ∧ ((0, 2) ∉ staleLoop) ∧
  ∃ g' theta, applyPivot staleGrid staleLoop = Ok (g', theta) ∧
    allocation <$> cell_at staleGrid 0 2 = Some (Some (Fin 7)) ∧
    allocation <$> cell_at g' 0 2 = Some None.
Proof.
  split; [|split].
  - apply basic_allocated_Forall. vm_compute. repeat constructor; done.
  - unfold staleLoop. rewrite !elem_of_cons. intros [?|[?|[?|[?|[?|H]]]]]; try done.
    inversion H.
  - eexists _, _. split; [vm_compute; reflexivity|]. split; reflexivity.
Qed.

(** ** [applyPivot]: pivot quantity, leaving and entering cell *)

Lemma cleanupCell_nonbasic cl : isBasin (cleanupCell cl) = false → allocation (cleanupCell cl) = None.
Proof. unfold cleanupCell. destruct (isBasin cl) eqn:E; simpl; congruence. Qed.

Lemma applyPivot_nonbasic_empty g loop g' theta :
  applyPivot g loop = Ok (g', theta) → nonbasic_empty g'.
Proof.
  intros (lv & g1 & start & rest & -> & _ & _ & _ & ->)%applyPivot_inv r c cl.
  rewrite cell_at_map. destruct (cell_at _ r c) as [cl0|]; [|done]. simpl.
  intros [= <-]. apply cleanupCell_nonbasic.
Qed.

Lemma applyPivot_entering_basic g loop g' theta e :
  applyPivot g loop = Ok (g', theta) → loop !! 0%nat = Some e →
  ∃ cl, cell_at g' e.1 e.2 = Some cl ∧ isBasin cl = true.
Proof.
  intros (lv & g1 & start & rest & -> & _ & _ & [cl Hcl] & ->)%applyPivot_inv [= <-].
  rewrite cell_at_map, cell_at_upd_eq, Hcl. simpl. eexists. split; [done|].
  done.
Qed.

(** C5.  Let every node of the loop be a cell of the grid, the entering cell
    (position 0) be non-basic, and the minus cells (odd positions) be basic
    with a (finite) allocation.  Then [applyPivot] returns; when the loop has
    a minus cell, theta is the least allocation [m] of the minus cells and the
    first minus cell in loop order holding [m] is afterwards non-basic with an
    empty allocation (without minus cells theta stays [Infinity]); the
    entering cell is basic afterwards, whatever theta is (so also for theta =
    0); and afterwards every non-basic cell has an empty allocation. *)
Theorem applyPivot_leaving g loop e :
  loop_in_grid g loop →
  loop !! 0%nat = Some e → isBasicAt g e.1 e.2 = false →
  (∀ n, n ∈ minusNodes loop →
        ∃ cl a, cell_at g n.1 n.2 = Some cl ∧ isBasin cl = true ∧
                allocation cl = Some (Fin a)) →
  ∃ g' theta,
    applyPivot g loop = Ok (g', theta) ∧
    (minusNodes loop = [] → theta = PInf) ∧
    (minusNodes loop ≠ [] →
     ∃ m (k : nat) lv,
       theta = Fin m ∧
       minusNodes loop !! k = Some lv ∧ allocAt g lv = Some (Fin m) ∧
       (∀ (i : nat) n a, minusNodes loop !! i = Some n → allocAt g n = Some (Fin a) →
                         m ≤ a ∧ ((i < k)%nat → m < a)) ∧
       ∃ cl, cell_at g' lv.1 lv.2 = Some cl ∧ isBasin cl = false ∧ allocation cl = None) ∧
    (∃ cl, cell_at g' e.1 e.2 = Some cl ∧ isBasin cl = true) ∧
    nonbasic_empty g'.
Proof.
  intros Hin He Henb Hminus.
  assert (loop ≠ []) as Hne by (by destruct loop).
  destruct (applyPivot_total g loop Hne Hin) as (g' & theta & Hrun).
  exists g', theta. split; [done|].
  assert (∀ n, n ∈ minusNodes loop → ∃ a, allocAt g n = Some (Fin a)) as Hfin.
  { intros n (cl & a & Hcl & _ & Ha)%Hminus. exists a. unfold allocAt. by rewrite Hcl. }
  pose proof Hrun as (lv & g1 & start & rest & -> & Hscan & Happ & _ & ->)%applyPivot_inv.
  injection He as ->.
  destruct (thetaScan_min g (minusNodes (e :: rest)) PInf None Hfin)
    as (t' & lv' & Hscan' & Hcase).
  pose proof (eq_trans (eq_sym Hscan) Hscan') as Heq. injection Heq as <- <-.
  split; [|split; [|split]].
  - intros Hnil. rewrite Hnil in Hscan. simpl in Hscan. congruence.
  - intros Hnn.
    destruct Hcase as [(_ & _ & Hall)|(k & n & m & Hk & -> & -> & Hm & _ & Hall)].
    { exfalso. apply Hnn, elem_of_nil_inv. intros n Hn.
      destruct (Hfin n Hn) as [a Ha]. by specialize (Hall n a Hn Ha). }
    exists m, k, n. repeat split; try done; try (by eapply Hall).
    assert (n ≠ e) as Hnee.
    { intros ->. apply list_elem_of_lookup_2 in Hk.
      destruct (Hminus _ Hk) as (cl & a & Hcl & Hb & _).
      unfold isBasicAt in Henb. rewrite Hcl in Henb. congruence. }
    rewrite cell_at_map, cell_at_upd_ne.
    2:{ intros Heq. apply Hnee. destruct n, e. simpl in *. congruence. }
    simpl. rewrite cell_at_upd_eq.
    assert (is_Some (cell_at g1 n.1 n.2)) as [cl1 Hcl1].
    { apply (applyTheta_rel (λ _ _, True)) in Happ; [|done..].
      apply (cells_rel_is_Some _ _ _ n.1 n.2 Happ).
      rewrite cell_at_map. apply fmap_is_Some, Hin.
      apply list_elem_of_lookup_2 in Hk. by eapply everyOther_subseteq. }
    rewrite Hcl1. simpl. eexists. split; [done|]. done.
  - by eapply applyPivot_entering_basic.
  - by eapply applyPivot_nonbasic_empty.
Qed.

Lemma applyPivot_leaving_witness :
  loop_in_grid zeroGrid zeroLoop ∧
  zeroLoop !! 0%nat = Some (1, 0) ∧ isBasicAt zeroGrid 1 0 = false ∧
  (∀ n, n ∈ minusNodes zeroLoop →
        ∃ cl a, cell_at zeroGrid n.1 n.2 = Some cl ∧ isBasin cl = true ∧
                allocation cl = Some (Fin a)) ∧
  ∃ g' theta,
    applyPivot zeroGrid zeroLoop = Ok (g', theta) ∧
    (minusNodes zeroLoop = [] → theta = PInf) ∧
    (minusNodes zeroLoop ≠ [] →
     ∃ m (k : nat) lv,
       theta = Fin m ∧
       minusNodes zeroLoop !! k = Some lv ∧ allocAt zeroGrid lv = Some (Fin m) ∧
       (∀ (i : nat) n a, minusNodes zeroLoop !! i = Some n →
                         allocAt zeroGrid n = Some (Fin a) →
                         m ≤ a ∧ ((i < k)%nat → m < a)) ∧
       ∃ cl, cell_at g' lv.1 lv.2 = Some cl ∧ isBasin cl = false ∧ allocation cl = None) ∧
    (∃ cl, cell_at g' 1 0 = Some cl ∧ isBasin cl = true) ∧
    nonbasic_empty g'.
Proof.
  assert (loop_in_grid zeroGrid zeroLoop) as H1.
  { intros n Hn. unfold zeroLoop in Hn.
    repeat (apply elem_of_cons in Hn as [->|Hn]; [vm_compute; eauto|]).
    inversion Hn. }
  assert (zeroLoop !! 0%nat = Some (1, 0)) as H2 by reflexivity.
  assert (isBasicAt zeroGrid (1, 0).1 (1, 0).2 = false) as H3 by reflexivity.
  assert (∀ n, n ∈ minusNodes zeroLoop →
        ∃ cl a, cell_at zeroGrid n.1 n.2 = Some cl ∧ isBasin cl = true ∧
                allocation cl = Some (Fin a)) as H4.
  { intros n Hn. change (minusNodes zeroLoop) with [(1, 1); (0, 0)] in Hn.
    repeat (apply elem_of_cons in Hn as [->|Hn]; [vm_compute; eauto|]).
    inversion Hn. }
  exact (conj H1 (conj H2 (conj H3 (conj H4
           (applyPivot_leaving zeroGrid zeroLoop (1, 0) H1 H2 H3 H4))))).
Defined.

(** ** [calculateOpportunityCosts] *)

Lemma minScan_inv {K} (δ : K → option Z) (l : list K) m0 e0 :
  ∃ m e, foldl (minStep δ) (m0, e0) l = (m, e) ∧
  ((m = m0 ∧ e = e0 ∧ ∀ k d, k ∈ l → δ k = Some d → nlt (Fin d) m0 = false)
   ∨ (∃ (i : nat) key d, m = Fin d ∧ e = Some key ∧ l !! i = Some key ∧ δ key = Some d ∧
        nlt (Fin d) m0 = true ∧
        ∀ (j : nat) k' d', l !! j = Some k' → δ k' = Some d' →
                           d ≤ d' ∧ ((j < i)%nat → d < d'))).
Proof.
  revert m0 e0. induction l as [|k l IH]; intros m0 e0; cbn [foldl].
  - eexists _, _. split; [done|]. left. repeat split. intros ?? H. inversion H.
  - destruct (δ k) as [dk|] eqn:Ek.
    + destruct (nlt (Fin dk) m0) eqn:Elt.
      * assert (minStep δ (m0, e0) k = (Fin dk, Some k)) as ->
          by (unfold minStep; cbn [fst]; by rewrite Ek, Elt).
        destruct (IH (Fin dk) (Some k)) as (m & e & Hrun & Hcase).
        exists m, e. split; [done|]. right.
        destruct Hcase as [(-> & -> & Hall)|(i & key & d & -> & -> & Hi & Hd & Hlt & Hall)].
        -- exists 0%nat, k, dk. repeat split; try done.
           ++ destruct j as [|j]; simpl in H.
              ** injection H as <-. rewrite Ek in H0. injection H0 as <-. lia.
              ** apply list_elem_of_lookup_2 in H. specialize (Hall _ _ H H0).
                 simpl in Hall. lia.
           ++ lia.
        -- simpl in Hlt. exists (S i), key, d. repeat split; try done.
           ++ destruct m0; simpl in *; try done. lia.
           ++ destruct j as [|j]; simpl in H.
              ** injection H as <-. rewrite Ek in H0. injection H0 as <-. lia.
              ** destruct (Hall _ _ _ H H0). lia.
           ++ destruct j as [|j]; simpl in H.
              ** injection H as <-. rewrite Ek in H0. injection H0 as <-. lia.
              ** intros. destruct (Hall _ _ _ H H0). lia.
      * assert (minStep δ (m0, e0) k = (m0, e0)) as ->
          by (unfold minStep; cbn [fst]; by rewrite Ek, Elt).
        destruct (IH m0 e0) as (m & e & Hrun & Hcase).
        exists m, e. split; [done|].
        destruct Hcase as [(-> & -> & Hall)|(i & key & d & -> & -> & Hi & Hd & Hlt & Hall)].
        -- left. repeat split. intros k' d' [->|Hin]%elem_of_cons Hd'; [|eauto].
           rewrite Ek in Hd'. by injection Hd' as <-.
        -- right. exists (S i), key, d. repeat split; try done.
           ++ destruct j as [|j]; simpl in H.
              ** injection H as <-. rewrite Ek in H0. injection H0 as <-.
                 destruct m0; simpl in *; try done. lia.
              ** destruct (Hall _ _ _ H H0). lia.
           ++ destruct j as [|j]; simpl in H.
              ** injection H as <-. rewrite Ek in H0. injection H0 as <-.
                 destruct m0; simpl in *; try done. lia.
              ** intros. destruct (Hall _ _ _ H H0). lia.
    + assert (minStep δ (m0, e0) k = (m0, e0)) as ->
        by (unfold minStep; cbn [fst]; by rewrite Ek).
      destruct (IH m0 e0) as (m & e & Hrun & Hcase).
      exists m, e. split; [done|].
      destruct Hcase as [(-> & -> & Hall)|(i & key & d & -> & -> & Hi & Hd & Hlt & Hall)].
      * left. repeat split. intros k' d' [->|Hin]%elem_of_cons Hd'; [congruence|eauto].
      * right. exists (S i), key, d. repeat split; try done.
        -- destruct j as [|j]; simpl in H; [congruence|].
           destruct (Hall _ _ _ H H0). lia.
        -- destruct j as [|j]; simpl in H; [congruence|].
           intros. destruct (Hall _ _ _ H H0). lia.
Qed.

(** The scan from [Infinity]: either no key has a value, or the result is the
    least value and the first key holding it. *)
Lemma minScan_spec {K} (δ : K → option Z) (l : list K) :
  ∃ m e, foldl (minStep δ) (PInf, None) l = (m, e) ∧
  match e with
  | None => m = PInf ∧ ∀ k, k ∈ l → δ k = None
  | Some key =>
      ∃ (i : nat) d, m = Fin d ∧ l !! i = Some key ∧ δ key = Some d ∧
        ∀ (j : nat) k' d', l !! j = Some k' → δ k' = Some d' →
                           d ≤ d' ∧ ((j < i)%nat → d < d')
  end.
Proof.
  destruct (minScan_inv δ l PInf None) as (m & e & Hrun & H).
  exists m, e. split; [done|].
  destruct H as [(-> & -> & Hall)|(i & key & d & -> & -> & Hi & Hd & _ & Hall)].
  - split; [done|]. intros k Hk. destruct (δ k) as [d|] eqn:E; [|done].
    by specialize (Hall k d Hk E).
  - eauto 10.
Qed.

Lemma minScan_ext {K} (δ δ' : K → option Z) (l : list K) st :
  (∀ k, δ k = δ' k) → foldl (minStep δ) st l = foldl (minStep δ') st l.
Proof.
  intros H. revert st. induction l as [|k l IH]; intros st; [done|].
  simpl. rewrite IH. unfold minStep. by rewrite H.
Qed.

Lemma deltaOf_annotate u v r c r' c' cl :
  deltaOf u v r c (annotate u v r' c' cl) = deltaOf u v r c cl.
Proof. done. Qed.

Lemma oppStep_annotate u v G m e rc :
  oppStep u v (G, m, e) rc =
  (upd G rc.1 rc.2 (annotate u v rc.1 rc.2), (minStep (deltaAt u v G) (m, e) rc).1,
   (minStep (deltaAt u v G) (m, e) rc).2).
Proof.
  unfold oppStep, minStep, deltaAt. cbn [fst snd].
  destruct (cell_at G rc.1 rc.2) as [cl|] eqn:Ecl; cbn [mbind option_bind].
  - assert (∀ d, deltaOf u v rc.1 rc.2 cl = d →
                 upd G rc.1 rc.2 (set_opportunityCost d) =
                 upd G rc.1 rc.2 (annotate u v rc.1 rc.2)) as Hupd.
    { intros d <-. apply upd_ext. intros cl' Hcl'. unfold annotate. congruence. }
    unfold deltaOf in *. destruct (isBasin cl); [by rewrite (Hupd None)|].
    destruct (known u rc.1) as [ur|]; [|by rewrite (Hupd None)].
    destruct (known v rc.2) as [vc|]; [|by rewrite (Hupd None)].
    rewrite (Hupd (Some (cost cl - (ur + vc)))) by done.
    by destruct (nlt _ m).
  - by rewrite upd_None.
Qed.

Lemma deltaAt_upd_annotate u v G rc k :
  deltaAt u v (upd G rc.1 rc.2 (annotate u v rc.1 rc.2)) k = deltaAt u v G k.
Proof.
  unfold deltaAt. rewrite cell_at_upd. case_decide; [|done].
  by destruct (cell_at G k.1 k.2).
Qed.

Lemma oppFold_spec u v l G m e :
  ∃ G', foldl (oppStep u v) (G, m, e) l =
          (G', (foldl (minStep (deltaAt u v G)) (m, e) l).1,
               (foldl (minStep (deltaAt u v G)) (m, e) l).2) ∧
        ∀ r c, cell_at G' r c =
               if decide ((r, c) ∈ l) then annotate u v r c <$> cell_at G r c
               else cell_at G r c.
Proof.
  revert G m e. induction l as [|rc l IH]; intros G m e; cbn [foldl].
  - exists G. split; [done|]. intros r c. rewrite decide_False; [done|].
    intros H. inversion H.
  - rewrite oppStep_annotate.
    destruct (minStep (deltaAt u v G) (m, e) rc) as [m1 e1] eqn:E1. cbn [fst snd].
    destruct (IH (upd G rc.1 rc.2 (annotate u v rc.1 rc.2)) m1 e1) as (G' & Hrun & Hcells).
    exists G'. split.
    + rewrite Hrun. rewrite (minScan_ext _ (deltaAt u v G)); [done|].
      intros k. apply deltaAt_upd_annotate.
    + intros r c. rewrite Hcells, cell_at_upd.
      destruct (decide ((rc.1, rc.2) = (r, c))) as [Heq|Hne].
      * assert ((r, c) ∈ rc :: l) as Hin
          by (destruct rc; simplify_eq/=; apply elem_of_cons; by left).
        rewrite (decide_True (P:=(r, c) ∈ rc :: l)) by done.
        injection Heq as -> ->.
        destruct (decide ((r, c) ∈ l)); by destruct (cell_at G r c).
      * destruct (decide ((r, c) ∈ l)) as [Hin|Hnin].
        -- rewrite (decide_True (P:=(r, c) ∈ rc :: l)); [done|].
           apply elem_of_cons; by right.
        -- rewrite (decide_False (P:=(r, c) ∈ rc :: l)); [done|].
           intros [Heq|?]%elem_of_cons; [|done]. apply Hne. by subst rc.
Qed.

Lemma scan_of_grid rows cols (g : Grid) :
  wf_grid rows cols g → scan (zlen g) (zlen (default [] (head g))) = scan rows cols.
Proof.
  intros [Hlen Hall]. rewrite Hlen. destruct g as [|cells g]; simpl.
  - unfold zlen in Hlen. simpl in Hlen. subst rows. done.
  - apply Forall_cons in Hall as [-> _]. done.
Qed.

Lemma oppFold_wf rows cols u v l G m e :
  wf_grid rows cols G → wf_grid rows cols (foldl (oppStep u v) (G, m, e) l).1.1.
Proof.
  revert G m e. induction l as [|rc l IH]; intros G m e Hwf; cbn [foldl]; [done|].
  rewrite oppStep_annotate. apply IH. by apply wf_grid_upd.
Qed.

(** C9.  On a [rows] x [cols] grid with potential vectors of matching
    lengths, [calculateOpportunityCosts] changes nothing but the field
    [opportunityCost], which it sets to [cost - (u[r] + v[c])] on the
    non-basic cells whose two potentials are known and to [undefined] on all
    others ([deltaOf]); when no cell qualifies it returns [Infinity] and no
    entering cell; otherwise it returns the least such value and the first
    cell of the row-major scan holding it; and running it again, on its own
    output, returns the same grid, minimum and entering cell. *)
Theorem calculateOpportunityCosts_spec rows cols g u v :
  wf_grid rows cols g → zlen u = rows → zlen v = cols →
  ∃ g' minDelta enteringCell,
    calculateOpportunityCosts g u v = (g', minDelta, enteringCell) ∧
    (∀ r c cl, cell_at g r c = Some cl →
       cell_at g' r c = Some (set_opportunityCost (deltaOf u v r c cl) cl)) ∧
    match enteringCell with
    | None =>
        minDelta = PInf ∧
        ∀ r c cl, cell_at g r c = Some cl → deltaOf u v r c cl = None
    | Some e =>
        ∃ d, minDelta = Fin d ∧ deltaAt u v g e = Some d ∧
             ∀ rc d', deltaAt u v g rc = Some d' → d ≤ d' ∧ (rowMajorLt rc e → d < d')
    end ∧
    calculateOpportunityCosts g' u v = (g', minDelta, enteringCell).
Proof.
  intros Hwf _ _. unfold calculateOpportunityCosts at 1.
  rewrite (scan_of_grid rows cols g Hwf).
  destruct (oppFold_spec u v (scan rows cols) g PInf None) as (g' & Hrun & Hcells).
  destruct (minScan_spec (deltaAt u v g) (scan rows cols)) as (m & e & Hmin & Hspec).
  rewrite Hmin in Hrun. cbn [fst snd] in Hrun.
  exists g', m, e. split; [done|].
  assert (∀ r c cl, cell_at g r c = Some cl →
            cell_at g' r c = Some (set_opportunityCost (deltaOf u v r c cl) cl)) as Hg'.
  { intros r c cl Hcl. rewrite Hcells. rewrite decide_True.
    { by rewrite Hcl. }
    apply elem_of_scan, (cell_at_range rows cols g r c Hwf). by rewrite Hcl. }
  assert (wf_grid rows cols g') as Hwf'.
  { pose proof (oppFold_wf rows cols u v (scan rows cols) g PInf None Hwf) as H.
    by rewrite Hrun in H. }
  split; [done|]. split.
  - destruct e as [e|].
    + destruct Hspec as (i & d & -> & Hi & Hd & Hall). exists d.
      split; [done|]. split; [done|]. intros rc d' Hd'.
      assert (rc ∈ scan rows cols) as [j Hj]%list_elem_of_lookup_1.
      { destruct rc as [r c]. apply elem_of_scan, (cell_at_range rows cols g r c Hwf).
        unfold deltaAt in Hd'. simpl in Hd'. by destruct (cell_at g r c). }
      destruct (Hall j rc d' Hj Hd') as [Hle Hlt]. split; [done|].
      intros Hrm. apply Hlt. by apply (scan_row_major rows cols j i rc e).
    + destruct Hspec as [-> Hall]. split; [done|]. intros r c cl Hcl.
      specialize (Hall (r, c)). unfold deltaAt in Hall. simpl in Hall.
      rewrite Hcl in Hall. apply Hall.
      apply elem_of_scan, (cell_at_range rows cols g r c Hwf). by rewrite Hcl.
  - unfold calculateOpportunityCosts. rewrite (scan_of_grid rows cols g' Hwf').
    destruct (oppFold_spec u v (scan rows cols) g' PInf None) as (g'' & Hrun' & Hcells').
    rewrite Hrun'.
    assert (∀ k, deltaAt u v g' k = deltaAt u v g k) as Hdelta.
    { intros k. unfold deltaAt. rewrite Hcells.
      case_decide; [|done]. by destruct (cell_at g k.1 k.2). }
    rewrite (minScan_ext _ _ _ _ Hdelta), Hmin. cbn [fst snd].
    f_equal. f_equal. eapply grid_ext.
    { pose proof (oppFold_wf rows cols u v (scan rows cols) g' PInf None Hwf') as H.
      by rewrite Hrun' in H. }
    { done. }
    intros r c. rewrite Hcells', Hcells.
    destruct (decide ((r, c) ∈ scan rows cols)); [|done].
    by destruct (cell_at g r c).
Qed.

Lemma calculateOpportunityCosts_spec_witness :
  wf_grid 2 3 staleGrid ∧ zlen staleU = 2 ∧ zlen staleV = 3 ∧
  ∃ g' minDelta enteringCell,
    calculateOpportunityCosts staleGrid staleU staleV = (g', minDelta, enteringCell) ∧
    (∀ r c cl, cell_at staleGrid r c = Some cl →
       cell_at g' r c = Some (set_opportunityCost (deltaOf staleU staleV r c cl) cl)) ∧
    match enteringCell with
    | None =>
        minDelta = PInf ∧
        ∀ r c cl, cell_at staleGrid r c = Some cl → deltaOf staleU staleV r c cl = None
    | Some e =>
        ∃ d, minDelta = Fin d ∧ deltaAt staleU staleV staleGrid e = Some d ∧
             ∀ rc d', deltaAt staleU staleV staleGrid rc = Some d' →
                      d ≤ d' ∧ (rowMajorLt rc e → d < d')
    end ∧
    calculateOpportunityCosts g' staleU staleV = (g', minDelta, enteringCell).
Proof.
  assert (wf_grid 2 3 staleGrid) as H1.
  { split; [reflexivity|]. repeat constructor. }
  assert (zlen staleU = 2) as H2 by reflexivity.
  assert (zlen staleV = 3) as H3 by reflexivity.
  exact (conj H1 (conj H2 (conj H3
           (calculateOpportunityCosts_spec 2 3 staleGrid staleU staleV H1 H2 H3)))).
Defined.

(** ** Single steps against the full iteration *)

(** The node [{r: -1, c: -1}] that [handleNextStep] passes to [findLoop] when
    no cell is highlighted as entering makes [findLoop] throw, whatever the
    grid. *)
Lemma findLoop_no_entering g : findLoop (-1, -1) g = TypeError.
Proof.
  destruct g as [|cells0 g']; [done|].
  unfold findLoop. set (rows := zlen (cells0 :: g')). set (cols := zlen cells0).
  assert (0 < rows) as Hrows by (unfold rows, zlen; simpl; lia).
  assert (0 ≤ cols) as Hcols by (unfold cols, zlen; lia).
  unfold searchFuel.
  replace (length (scan rows cols) + 3)%nat with (S (length (scan rows cols) + 2)) by lia.
  cbn [search]. unfold nextNodes.
  destruct (decide (cols = 0)) as [Hc0|Hc0].
  - rewrite Hc0. cbn. rewrite (seqZ_cons 0 rows) by lia. by cbn.
  - rewrite (seqZ_cons 0 cols) by lia. by cbn.
Qed.

(** C8.  From the ready state of [stepProblem] the full iteration pivots
    (theta = 5, cost 115 to 85), while the single steps reach ['loop'] with no
    cell left highlighted as entering -- marking the loop has overwritten the
    highlight of the entering cell, the last node of the loop, with
    ['loop-plus'] -- so that the fourth step throws a [TypeError]. *)
Theorem steps_diverge_from_full_iteration :
  (∃ g, performFullIteration (grid stepReady) 2 2 = Ok (Pivoted g (Fin 85) (Fin 5))) ∧
  (∃ s3, stepTimes stepProblem 3 stepReady = Ok s3 ∧ status s3 = SLoop ∧
         findEntering (grid s3) = (-1, -1) ∧
         (highlight <$> cell_at (grid s3) 1 0) = Some HLoopPlus) ∧
  stepTimes stepProblem 4 stepReady = TypeError.
Proof.
  split; [|split].
  - eexists. vm_compute. reflexivity.
  - eexists. split; [vm_compute; reflexivity|]. by vm_compute.
  - by vm_compute.
Qed.

(** ** Sums *)

Lemma zsum_app l1 l2 : zsum (l1 ++ l2) = zsum l1 + zsum l2.
Proof. induction l1 as [|x l1 IH]; simpl; lia. Qed.

Lemma zsum_fmap_alter {A} (h : A → Z) (f : A → A) (n : nat) (l : list A) x :
  l !! n = Some x → zsum (h <$> alter f n l) = zsum (h <$> l) - h x + h (f x).
Proof.
  revert n. induction l as [|y l IH]; intros n Hn; [done|].
  destruct n as [|n]; csimpl in *.
  - injection Hn as ->. lia.
  - rewrite (IH n Hn). lia.
Qed.

Lemma zsum_fmap_zalter {A} (h : A → Z) (f : A → A) i (l : list A) x :
  zget l i = Some x → zsum (h <$> zalter f i l) = zsum (h <$> l) - h x + h (f x).
Proof.
  unfold zget, zalter. case_decide; [|done]. apply zsum_fmap_alter.
Qed.

Lemma zsum_zalter (f : Z → Z) i l x :
  zget l i = Some x → zsum (zalter f i l) = zsum l - x + f x.
Proof.
  intros H. pose proof (zsum_fmap_zalter id f i l x H) as H'.
  by rewrite !list_fmap_id in H'.
Qed.

Lemma zsum_fmap_nonneg {A} (h : A → Z) (l : list A) :
  (∀ x, x ∈ l → 0 ≤ h x) → 0 ≤ zsum (h <$> l).
Proof.
  induction l as [|y l IH]; intros H; csimpl; [lia|].
  assert (0 ≤ h y) by (apply H; left).
  assert (0 ≤ zsum (h <$> l)) by (apply IH; intros; apply H; by right). lia.
Qed.

Lemma zsum_fmap_le {A} (h : A → Z) (l : list A) x :
  (∀ y, y ∈ l → 0 ≤ h y) → x ∈ l → h x ≤ zsum (h <$> l).
Proof.
  induction l as [|y l IH]; intros H Hx; [inversion Hx|]. csimpl.
  assert (0 ≤ h y) by (apply H; left).
  assert (0 ≤ zsum (h <$> l)) by (apply zsum_fmap_nonneg; intros; apply H; by right).
  apply elem_of_cons in Hx as [->|Hx]; [lia|].
  assert (h x ≤ zsum (h <$> l)) by (apply IH; [intros; apply H; by right|done]). lia.
Qed.

Lemma zsum_fmap_const {A} (h : A → Z) (l : list A) k :
  (∀ x, x ∈ l → h x = k) → zsum (h <$> l) = k * zlen l.
Proof.
  unfold zlen. induction l as [|y l IH]; intros H; csimpl; [lia|].
  rewrite (H y) by left. rewrite IH by (intros; apply H; by right). lia.
Qed.

Lemma zsum_fmap_ext {A} (h h' : A → Z) (l : list A) :
  (∀ x, x ∈ l → h x = h' x) → zsum (h <$> l) = zsum (h' <$> l).
Proof.
  induction l as [|y l IH]; intros H; csimpl; [done|].
  rewrite (H y) by left. rewrite IH by (intros; apply H; by right). done.
Qed.

Lemma gridSum_upd h g r c f cl :
  cell_at g r c = Some cl → gridSum h (upd g r c f) = gridSum h g - h cl + h (f cl).
Proof.
  intros (cells & Hr & Hc)%cell_at_Some. unfold gridSum, upd.
  rewrite (zsum_fmap_zalter _ _ _ _ _ Hr), (zsum_fmap_zalter _ _ _ _ _ Hc). lia.
Qed.

Lemma gridSum_map h f g : gridSum h (map (map f) g) = gridSum (h ∘ f) g.
Proof.
  unfold gridSum. change (map (map f) g) with (fmap (M:=list) (fmap (M:=list) f) g).
  rewrite <- list_fmap_compose. f_equal. apply list_fmap_ext. intros _ cells _. simpl.
  by rewrite <- list_fmap_compose.
Qed.

Lemma gridSum_ext h h' g :
  (∀ r c cl, cell_at g r c = Some cl → h cl = h' cl) → gridSum h g = gridSum h' g.
Proof.
  intros H. unfold gridSum. apply zsum_fmap_ext. intros cells [r Hr]%elem_of_zget.
  apply zsum_fmap_ext. intros cl [c Hc]%elem_of_zget. apply (H r c).
  unfold cell_at. by rewrite Hr.
Qed.

Lemma rowTotal_upd g r c f cl r' :
  cell_at g r c = Some cl →
  rowTotal (upd g r c f) r' =
  rowTotal g r' + (if decide (r = r') then qty (f cl) - qty cl else 0).
Proof.
  intros (cells & Hr & Hc)%cell_at_Some. unfold rowTotal, upd.
  rewrite zget_zalter. destruct (decide (r = r')) as [<-|Hne]; [|lia].
  rewrite Hr. simpl. rewrite (zsum_fmap_zalter _ _ _ _ _ Hc). lia.
Qed.

Lemma colTotal_upd g r c f cl c' :
  cell_at g r c = Some cl →
  colTotal (upd g r c f) c' =
  colTotal g c' + (if decide (c = c') then qty (f cl) - qty cl else 0).
Proof.
  intros (cells & Hr & Hc)%cell_at_Some. unfold colTotal, upd.
  rewrite (zsum_fmap_zalter _ _ _ _ _ Hr). rewrite zget_zalter.
  destruct (decide (c = c')) as [<-|Hne]; [|lia].
  rewrite Hc. simpl. lia.
Qed.

Lemma count_basic_upd g r c f cl :
  cell_at g r c = Some cl →
  count_basic (upd g r c f) =
  count_basic g - (if isBasin cl then 1 else 0) + (if isBasin (f cl) then 1 else 0).
Proof. apply gridSum_upd. Qed.

Lemma fmap_zget_seqZ {A B} (h : A → B) (d : B) (l : list A) :
  h <$> l = (λ i, from_option h d (zget l i)) <$> seqZ 0 (zlen l).
Proof.
  apply list_eq. intros i. rewrite !list_lookup_fmap.
  destruct (l !! i) as [x|] eqn:E; simpl.
  - pose proof (lookup_lt_Some _ _ _ E). unfold zlen.
    rewrite lookup_seqZ_lt by lia. simpl. unfold zget.
    rewrite decide_True by lia. replace (Z.to_nat (0 + Z.of_nat i)) with i by lia.
    by rewrite E.
  - apply lookup_ge_None in E. unfold zlen. rewrite lookup_seqZ_ge by lia. done.
Qed.

Lemma zsum_bind {A B} (f : B → Z) (k : A → list B) (l : list A) :
  zsum (f <$> (l ≫= k)) = zsum ((λ x, zsum (f <$> k x)) <$> l).
Proof.
  induction l as [|x l IH]; csimpl; [done|].
  rewrite fmap_app, zsum_app, IH. done.
Qed.

Lemma zsum_scan (f : Z * Z → Z) rows cols :
  zsum (f <$> scan rows cols) =
  zsum ((λ r, zsum ((λ c, f (r, c)) <$> seqZ 0 cols)) <$> seqZ 0 rows).
Proof.
  unfold scan. rewrite zsum_bind. apply zsum_fmap_ext. intros r _.
  by rewrite <- list_fmap_compose.
Qed.

(** The sum over a grid is the sum over the scan of its coordinates. *)
Lemma gridSum_scan rows cols h g :
  wf_grid rows cols g →
  gridSum h g = zsum ((λ rc, from_option h 0 (cell_at g rc.1 rc.2)) <$> scan rows cols).
Proof.
  intros [Hlen Hall]. rewrite zsum_scan. unfold gridSum.
  rewrite (fmap_zget_seqZ _ 0 g), Hlen. apply zsum_fmap_ext.
  intros r Hr%elem_of_seqZ. simpl. unfold cell_at.
  destruct (zget g r) as [cells|] eqn:E; simpl.
  - rewrite (fmap_zget_seqZ h 0 cells).
    rewrite Forall_forall in Hall. rewrite (Hall cells); [done|]. by eapply zget_elem_of.
  - rewrite (zsum_fmap_const _ _ 0); [lia|done].
Qed.

Lemma zlen_filter_indicator {A} (P : A → Prop) `{!∀ x, Decision (P x)} (l : list A) :
  zlen (filter P l) = zsum ((λ x, if decide (P x) then 1 else 0) <$> l).
Proof.
  unfold zlen. induction l as [|x l IH]; csimpl; [done|].
  rewrite filter_cons. destruct (decide (P x)); simpl; lia.
Qed.

Lemma count_basic_scan rows cols g :
  wf_grid rows cols g →
  count_basic g = zlen (filter (λ rc, isBasicAt g rc.1 rc.2 = true) (scan rows cols)).
Proof.
  intros Hwf. unfold count_basic. rewrite (gridSum_scan rows cols _ g Hwf).
  rewrite zlen_filter_indicator. apply zsum_fmap_ext. intros rc _.
  unfold isBasicAt. destruct (cell_at g rc.1 rc.2) as [cl|]; simpl.
  - destruct (isBasin cl); try case_decide; done.
  - try case_decide; done.
Qed.

(** ** [solveLeastCost] *)

Lemma npos_zalter f i l x :
  zget l i = Some x →
  npos (zalter f i l) = npos l - (if 0 <? x then 1 else 0) + (if 0 <? f x then 1 else 0).
Proof. apply zsum_fmap_zalter. Qed.

Lemma npos_nonneg l : 0 ≤ npos l.
Proof. apply zsum_fmap_nonneg. intros x _. by destruct (0 <? x). Qed.

Lemma npos_pos l i x : zget l i = Some x → 0 < x → 1 ≤ npos l.
Proof.
  intros Hx%zget_elem_of Hpos. unfold npos.
  pose proof (zsum_fmap_le (λ x, if 0 <? x then 1 else 0) l x) as H.
  simpl in H. destruct (0 <? x) eqn:E; [|lia]. apply H; [|done].
  intros y _. by destruct (0 <? y).
Qed.

Lemma npos_le_len l : npos l ≤ zlen l.
Proof.
  unfold npos, zlen. induction l as [|x l IH]; csimpl; [lia|].
  destruct (0 <? x); lia.
Qed.

Lemma allocStep_inv rows cols S0 D0 g s d cnt e :
  greedy_inv rows cols S0 D0 g s d cnt →
  0 ≤ er e < rows → 0 ≤ ec e < cols →
  ∃ g' s' d' cnt',
    allocStep (g, s, d, cnt) e = (g', s', d', cnt') ∧
    greedy_inv rows cols S0 D0 g' s' d' cnt' ∧
    (zget s' (er e) = Some 0 ∨ zget d' (ec e) = Some 0) ∧
    (∀ r, zget s r = Some 0 → zget s' r = Some 0) ∧
    (∀ c, zget d c = Some 0 → zget d' c = Some 0).
Proof.
  intros Hinv Hr Hc. destruct Hinv. unfold allocStep.
  assert (is_Some (zget s (er e))) as [sr Hsr] by (apply zget_is_Some; lia).
  assert (is_Some (zget d (ec e))) as [dc Hdc] by (apply zget_is_Some; lia).
  rewrite Hsr, Hdc. simpl.
  pose proof (gi_snn0 _ _ Hsr) as Hsr0. pose proof (gi_dnn0 _ _ Hdc) as Hdc0.
  destruct ((0 <? sr) && (0 <? dc)) eqn:Epos.
  2:{ eexists _, _, _, _. split; [done|]. split; [by constructor|].
      split; [|done].
      apply andb_false_iff in Epos as [E|E]; apply Z.ltb_ge in E;
        [left; rewrite Hsr|right; rewrite Hdc]; f_equal; lia. }
  apply andb_true_iff in Epos as [Es%Z.ltb_lt Ed%Z.ltb_lt].
  assert (is_Some (cell_at g (er e) (ec e))) as [cl Hcl]
    by (by apply (cell_at_range rows cols)).
  assert (isBasin cl = false) as Hnb.
  { destruct (isBasin cl) eqn:Eb; [|done].
    destruct (gi_basic_zero0 _ _ _ Hcl Eb) as [H|H]; simplify_eq; lia. }
  assert (qty cl = 0) as Hq.
  { unfold qty. by rewrite (gi_nonbasic0 _ _ _ Hcl Hnb). }
  set (a := Z.min sr dc).
  assert (0 < a ≤ sr ∧ a ≤ dc ∧ (sr - a = 0 ∨ dc - a = 0)) as (Ha & Had & Hz)
    by (unfold a; lia).
  eexists _, _, _, _. split; [done|]. split; [constructor|split; [|split]].
  - by apply wf_grid_upd.
  - by rewrite zlen_zalter.
  - by rewrite zlen_zalter.
  - intros r x. rewrite zget_zalter. case_decide; [|eauto]. subst.
    rewrite Hsr. simpl. intros [= <-]. lia.
  - intros c x. rewrite zget_zalter. case_decide; [|eauto]. subst.
    rewrite Hdc. simpl. intros [= <-]. lia.
  - intros r x. rewrite zget_zalter, (rowTotal_upd _ _ _ _ _ _ Hcl).
    unfold qty at 1. simpl. rewrite Hq.
    case_decide.
    + subst. rewrite Hsr. simpl. intros [= <-].
      pose proof (gi_row0 _ _ Hsr). lia.
    + intros Hx. pose proof (gi_row0 _ _ Hx). lia.
  - intros c x. rewrite zget_zalter, (colTotal_upd _ _ _ _ _ _ Hcl).
    unfold qty at 1. simpl. rewrite Hq.
    case_decide.
    + subst. rewrite Hdc. simpl. intros [= <-].
      pose proof (gi_col0 _ _ Hdc). lia.
    + intros Hx. pose proof (gi_col0 _ _ Hx). lia.
  - rewrite (zsum_zalter _ _ _ _ Hsr), (zsum_zalter _ _ _ _ Hdc). lia.
  - intros r c cl'. rewrite cell_at_upd, !zget_zalter. case_decide as Heq.
    + injection Heq as <- <-. intros _ _. rewrite !decide_True by done.
      rewrite Hsr, Hdc. simpl. destruct Hz as [-> | ->]; auto.
    + intros Hcl' Hb. destruct (gi_basic_zero0 _ _ _ Hcl' Hb) as [H|H].
      * left. case_decide; [|done]. subst; simplify_eq; lia.
      * right. case_decide; [|done]. subst; simplify_eq; lia.
  - intros r c cl'. rewrite cell_at_upd. case_decide as Heq.
    + injection Heq as <- <-. rewrite Hcl. simpl. intros [= <-]. done.
    + apply gi_nonbasic0.
  - intros r c cl'. rewrite cell_at_upd. case_decide as Heq.
    + injection Heq as <- <-. rewrite Hcl. simpl. intros [= <-]. done.
    + apply gi_allocated0.
  - intros r c cl'. rewrite cell_at_upd. case_decide as Heq.
    + injection Heq as <- <-. rewrite Hcl. simpl. intros [= <-]. simpl. eauto.
    + apply gi_fin0.
  - rewrite (count_basic_upd _ _ _ _ _ Hcl). simpl. rewrite Hnb. lia.
  - rewrite (npos_zalter _ _ _ _ Hsr), (npos_zalter _ _ _ _ Hdc).
    pose proof (npos_pos _ _ _ Hsr Es). pose proof (npos_pos _ _ _ Hdc Ed).
    apply Z.ltb_lt in Es as Es'. apply Z.ltb_lt in Ed as Ed'. rewrite Es', Ed'.
    destruct Hz as [Hz|Hz]; rewrite Hz; simpl;
      [destruct (0 <? dc - a)|destruct (0 <? sr - a)]; lia.
  - rewrite !zget_zalter, !decide_True, Hsr, Hdc by done. simpl.
    destruct Hz as [-> | ->]; auto.
  - intros r Hr0. rewrite zget_zalter. case_decide; [|done]. subst; simplify_eq; lia.
  - intros c Hc0. rewrite zget_zalter. case_decide; [|done]. subst; simplify_eq; lia.
Qed.

Lemma allocFold_inv rows cols S0 D0 l g s d cnt :
  greedy_inv rows cols S0 D0 g s d cnt →
  (∀ e, e ∈ l → 0 ≤ er e < rows ∧ 0 ≤ ec e < cols) →
  ∃ g' s' d' cnt',
    foldl allocStep (g, s, d, cnt) l = (g', s', d', cnt') ∧
    greedy_inv rows cols S0 D0 g' s' d' cnt' ∧
    (∀ e, e ∈ l → zget s' (er e) = Some 0 ∨ zget d' (ec e) = Some 0) ∧
    (∀ r, zget s r = Some 0 → zget s' r = Some 0) ∧
    (∀ c, zget d c = Some 0 → zget d' c = Some 0).
Proof.
  revert g s d cnt. induction l as [|e l IH]; intros g s d cnt Hinv Hrange; cbn [foldl].
  - eexists _, _, _, _. split; [done|]. split; [done|]. split; [|done].
    intros e He. inversion He.
  - destruct (Hrange e) as [Hr Hc]; [left|].
    destruct (allocStep_inv _ _ _ _ _ _ _ _ e Hinv Hr Hc)
      as (g1 & s1 & d1 & cnt1 & -> & Hinv1 & Hz1 & Hs1 & Hd1).
    destruct (IH g1 s1 d1 cnt1 Hinv1) as (g' & s' & d' & cnt' & -> & Hinv' & Hz' & Hs' & Hd').
    { intros e' He'. apply Hrange. by right. }
    eexists _, _, _, _. split; [done|]. split; [done|]. split; [|split]; [|by auto..].
    intros e' [->|He']%elem_of_cons; [|by auto].
    destruct Hz1 as [H|H]; [left; by apply Hs'|right; by apply Hd'].
Qed.

Lemma zsum_all_zero l : (∀ i x, zget l i = Some x → x = 0) → zsum l = 0.
Proof.
  intros H. pose proof (zsum_fmap_const id l 0) as H'. rewrite list_fmap_id in H'.
  rewrite H'; [lia|]. intros x [i Hi]%elem_of_zget. by apply (H i).
Qed.

Lemma zsum_zero_all l i x :
  (∀ j y, zget l j = Some y → 0 ≤ y) → zsum l = 0 → zget l i = Some x → x = 0.
Proof.
  intros Hnn Hsum Hx. pose proof (zsum_fmap_le id l x) as H. rewrite list_fmap_id in H.
  simpl in H. pose proof (Hnn _ _ Hx).
  assert (x ≤ zsum l); [|lia]. apply H; [|by eapply zget_elem_of].
  intros y [j Hj]%elem_of_zget. by apply (Hnn j).
Qed.

(** Once every cell has an exhausted row or an exhausted column, a balanced
    problem has nothing left to ship. *)
Lemma greedy_exhausted rows cols S0 D0 g s d cnt :
  greedy_inv rows cols S0 D0 g s d cnt → zsum S0 = zsum D0 →
  (∀ r c, 0 ≤ r < rows → 0 ≤ c < cols → zget s r = Some 0 ∨ zget d c = Some 0) →
  (∀ r x, zget s r = Some x → x = 0) ∧ (∀ c x, zget d c = Some x → x = 0).
Proof.
  intros Hinv Hbal Hz. destruct Hinv.
  assert (zsum s = zsum d) as Hsd by lia.
  assert ((∀ r x, zget s r = Some x → x = 0) ∨ (∀ c x, zget d c = Some x → x = 0)) as Hcase.
  { destruct (decide (Forall (λ x, x = 0) s)) as [Hall|Hnall].
    - left. intros r x Hx%zget_elem_of. rewrite Forall_forall in Hall. by apply Hall.
    - right. apply not_Forall_Exists in Hnall; [|apply _].
      apply Exists_exists in Hnall as (y & [r Hr]%elem_of_zget & Hy).
      intros c x Hx. pose proof (zget_Some _ _ _ Hr). pose proof (zget_Some _ _ _ Hx).
      simpl in Hy. destruct (Hz r c) as [H'|H']; [lia..| |]; by simplify_eq. }
  destruct Hcase as [Hs|Hd]; split; try done.
  - intros c x Hx. eapply (zsum_zero_all d); [done| |done].
    rewrite <- Hsd. by apply zsum_all_zero.
  - intros r x Hx. eapply (zsum_zero_all s); [done| |done].
    rewrite Hsd. by apply zsum_all_zero.
Qed.

(** *** The empty grid *)

Lemma cell_at_createEmptyGrid rows cols cs r c :
  cell_at (createEmptyGrid rows cols cs) r c =
  if decide (0 ≤ r < rows ∧ 0 ≤ c < cols)
  then Some (mkCell r c (costAt cs r c) None false HNone None) else None.
Proof.
  unfold cell_at, createEmptyGrid. rewrite zget_fmap, zget_seqZ.
  destruct (decide (0 ≤ r < rows)) as [Hr|Hr]; simpl.
  - rewrite zget_fmap, zget_seqZ. destruct (decide (0 ≤ c < cols)) as [Hc|Hc]; simpl.
    + by rewrite decide_True.
    + rewrite decide_False; [done|]. intros [_ ?]. done.
  - rewrite decide_False; [done|]. intros [? _]. done.
Qed.

Lemma wf_grid_createEmptyGrid rows cols cs :
  0 ≤ rows → 0 ≤ cols → wf_grid rows cols (createEmptyGrid rows cols cs).
Proof.
  intros Hr Hc. unfold createEmptyGrid. split.
  - unfold zlen. rewrite length_fmap, length_seqZ. lia.
  - apply Forall_fmap, Forall_forall. intros r _. simpl.
    unfold zlen. rewrite length_fmap, length_seqZ. lia.
Qed.

Lemma gridSum_zero h g :
  (∀ r c cl, cell_at g r c = Some cl → h cl = 0) → gridSum h g = 0.
Proof.
  intros H. rewrite (gridSum_ext h (λ _, 0)) by done. unfold gridSum.
  rewrite (zsum_fmap_const _ _ 0); [lia|]. intros cells _.
  rewrite (zsum_fmap_const _ _ 0); [lia|]. done.
Qed.

Lemma rowTotal_zero g r :
  (∀ c cl, cell_at g r c = Some cl → qty cl = 0) → rowTotal g r = 0.
Proof.
  intros H. unfold rowTotal. destruct (zget g r) as [cells|] eqn:E; [|done]. simpl.
  rewrite (zsum_fmap_const _ _ 0); [lia|]. intros cl [c Hc]%elem_of_zget.
  apply (H c). unfold cell_at. by rewrite E.
Qed.

Lemma colTotal_zero g c :
  (∀ r cl, cell_at g r c = Some cl → qty cl = 0) → colTotal g c = 0.
Proof.
  intros H. unfold colTotal.
  rewrite (zsum_fmap_const _ _ 0); [lia|]. intros cells [r Hr]%elem_of_zget.
  destruct (zget cells c) as [cl|] eqn:E; [|done]. simpl.
  apply (H r). unfold cell_at. by rewrite Hr.
Qed.

Lemma greedy_inv_initial rows cols cs S0 D0 :
  1 ≤ rows → 1 ≤ cols → zlen S0 = rows → zlen D0 = cols →
  Forall (λ x, 0 ≤ x) S0 → Forall (λ x, 0 ≤ x) D0 →
  greedy_inv rows cols S0 D0 (createEmptyGrid rows cols cs) S0 D0 0.
Proof.
  intros Hr Hc Hs Hd Hsn Hdn.
  assert (∀ r c cl, cell_at (createEmptyGrid rows cols cs) r c = Some cl →
                    isBasin cl = false ∧ allocation cl = None) as Hcells.
  { intros r c cl. rewrite cell_at_createEmptyGrid. case_decide; [|done].
    by intros [= <-]. }
  constructor; try done.
  - apply wf_grid_createEmptyGrid; lia.
  - intros r x Hx%zget_elem_of. rewrite Forall_forall in Hsn. by apply Hsn.
  - intros c x Hx%zget_elem_of. rewrite Forall_forall in Hdn. by apply Hdn.
  - intros r x Hx. rewrite Hx. simpl. rewrite rowTotal_zero; [lia|].
    intros c cl [_ Hcl]%Hcells. unfold qty. by rewrite Hcl.
  - intros c x Hx. rewrite Hx. simpl. rewrite colTotal_zero; [lia|].
    intros r cl [_ Hcl]%Hcells. unfold qty. by rewrite Hcl.
  - intros r c cl [Hb _]%Hcells. congruence.
  - intros r c cl [_ Hcl]%Hcells. done.
  - intros r c cl [Hb _]%Hcells. congruence.
  - intros r c cl [_ Hcl]%Hcells. by left.
  - unfold count_basic. rewrite gridSum_zero; [done|].
    intros r c cl [Hb _]%Hcells. by rewrite Hb.
  - pose proof (npos_le_len S0). pose proof (npos_le_len D0). lia.
Qed.

(** *** The sorted list of cells *)

Lemma insertByCost_perm x l : insertByCost x l ≡ₚ x :: l.
Proof.
  induction l as [|y l IH]; simpl; [done|].
  destruct (ecost x <=? ecost y); [done|]. rewrite IH. apply Permutation_swap.
Qed.

Lemma sortByCost_perm l : sortByCost l ≡ₚ l.
Proof.
  induction l as [|x l IH]; simpl; [done|].
  by rewrite insertByCost_perm, IH.
Qed.

Lemma elem_of_cellsList p e :
  e ∈ cellsList p ↔
  (0 ≤ er e < rowCount p ∧ 0 ≤ ec e < colCount p ∧ ecost e = costAt (costs p) (er e) (ec e)).
Proof.
  unfold cellsList. rewrite sortByCost_perm, list_elem_of_fmap. split.
  - intros ([r c] & -> & Hin%elem_of_scan). simpl. lia.
  - intros (Hr & Hc & Hcost). exists (er e, ec e). split.
    + destruct e. simpl in *. by subst.
    + apply elem_of_scan. lia.
Qed.

(** *** The degeneracy loop *)

Lemma fillStep_inv rows cols g needed e :
  wf_grid rows cols g → nonbasic_empty g → 0 ≤ needed →
  0 ≤ er e < rows → 0 ≤ ec e < cols →
  ∃ g' needed',
    fillStep (g, needed) e = (g', needed') ∧
    wf_grid rows cols g' ∧ nonbasic_empty g' ∧ 0 ≤ needed' ≤ needed ∧
    count_basic g' + needed' = count_basic g + needed ∧
    (∀ r, rowTotal g' r = rowTotal g r) ∧ (∀ c, colTotal g' c = colTotal g c) ∧
    (∀ r c cl', cell_at g' r c = Some cl' →
       ∃ cl, cell_at g r c = Some cl ∧
             (isBasin cl = true → cl' = cl) ∧
             (isBasin cl' = false → cl' = cl) ∧
             (isBasin cl = false → isBasin cl' = true → allocation cl' = Some (Fin 0))) ∧
    (∀ r c, isBasicAt g r c = true → isBasicAt g' r c = true) ∧
    (0 < needed' → isBasicAt g' (er e) (ec e) = true).
Proof.
  intros Hwf Hnb Hn Hr Hc. unfold fillStep.
  destruct (needed <=? 0) eqn:En.
  { apply Z.leb_le in En. eexists _, _. split; [done|].
    split_and!; try done; try lia.
    intros r c cl' H. exists cl'. split_and!; auto. congruence. }
  apply Z.leb_gt in En.
  destruct (isBasicAt g (er e) (ec e)) eqn:Eb; simpl.
  { eexists _, _. split; [done|]. split_and!; try done; try lia.
    intros r c cl' H. exists cl'. split_and!; auto. congruence. }
  assert (is_Some (cell_at g (er e) (ec e))) as [cl Hcl]
    by (by apply (cell_at_range rows cols)).
  assert (isBasin cl = false) as Hclb by (unfold isBasicAt in Eb; by rewrite Hcl in Eb).
  assert (qty cl = 0) as Hq by (unfold qty; by rewrite (Hnb _ _ _ Hcl Hclb)).
  eexists _, _. split; [done|]. split_and!; try lia.
  - by apply wf_grid_upd.
  - intros r c cl'. rewrite cell_at_upd. case_decide as Heq; [|apply Hnb].
    injection Heq as <- <-. rewrite Hcl. simpl. by intros [= <-].
  - rewrite (count_basic_upd _ _ _ _ _ Hcl). simpl. rewrite Hclb. lia.
  - intros r. rewrite (rowTotal_upd _ _ _ _ _ _ Hcl). unfold qty at 1. simpl.
    rewrite Hq. case_decide; lia.
  - intros c. rewrite (colTotal_upd _ _ _ _ _ _ Hcl). unfold qty at 1. simpl.
    rewrite Hq. case_decide; lia.
  - intros r c cl'. rewrite cell_at_upd. case_decide as Heq.
    + injection Heq as <- <-. rewrite Hcl. simpl. intros [= <-]. exists cl.
      split_and!; try done; congruence.
    + intros H. exists cl'. split_and!; auto. congruence.
  - intros r c. unfold isBasicAt. rewrite cell_at_upd. case_decide as Heq; [|done].
    injection Heq as <- <-. by rewrite Hcl.
  - intros _. unfold isBasicAt. by rewrite cell_at_upd_eq, Hcl.
Qed.

Lemma fillFold_inv rows cols l g needed :
  wf_grid rows cols g → nonbasic_empty g → 0 ≤ needed →
  (∀ e, e ∈ l → 0 ≤ er e < rows ∧ 0 ≤ ec e < cols) →
  ∃ g' needed',
    foldl fillStep (g, needed) l = (g', needed') ∧
    wf_grid rows cols g' ∧ nonbasic_empty g' ∧ 0 ≤ needed' ≤ needed ∧
    count_basic g' + needed' = count_basic g + needed ∧
    (∀ r, rowTotal g' r = rowTotal g r) ∧ (∀ c, colTotal g' c = colTotal g c) ∧
    (∀ r c cl', cell_at g' r c = Some cl' →
       ∃ cl, cell_at g r c = Some cl ∧
             (isBasin cl = true → cl' = cl) ∧
             (isBasin cl' = false → cl' = cl) ∧
             (isBasin cl = false → isBasin cl' = true → allocation cl' = Some (Fin 0))) ∧
    (∀ r c, isBasicAt g r c = true → isBasicAt g' r c = true) ∧
    (0 < needed' → ∀ e, e ∈ l → isBasicAt g' (er e) (ec e) = true).
Proof.
  revert g needed. induction l as [|e l IH]; intros g needed Hwf Hnb Hn Hrange; cbn [foldl].
  - eexists _, _. split; [done|]. split_and!; try done; try lia.
    + intros r c cl' H. exists cl'. split_and!; auto. congruence.
    + intros _ e He. inversion He.
  - destruct (Hrange e) as [Hr Hc]; [left|].
    destruct (fillStep_inv rows cols g needed e Hwf Hnb Hn Hr Hc)
      as (g1 & n1 & -> & Hwf1 & Hnb1 & Hn1 & Hcnt1 & Hrow1 & Hcol1 & Hcell1 & Hmono1 & Hb1).
    destruct (IH g1 n1 Hwf1 Hnb1) as
      (g' & n' & -> & Hwf' & Hnb' & Hn' & Hcnt' & Hrow' & Hcol' & Hcell' & Hmono' & Hb');
      [lia|by intros; apply Hrange; right|].
    eexists _, _. split; [done|]. split_and!; try done; try lia.
    + intros r. by rewrite Hrow'.
    + intros c. by rewrite Hcol'.
    + intros r c cl' (cl1 & Hcl1 & Hsame1 & Hnb1' & Hfill1)%Hcell'.
      destruct (Hcell1 _ _ _ Hcl1) as (cl & Hcl & Hsame & Hnb0 & Hfill).
      exists cl. split; [done|]. split_and!.
      * intros Hb. pose proof (Hsame Hb) as ->. by apply Hsame1.
      * intros Hbn. pose proof (Hnb1' Hbn) as ->. by apply Hnb0.
      * intros Hb Hbn. destruct (isBasin cl1) eqn:Eb1.
        -- pose proof (Hsame1 eq_refl) as ->. by apply Hfill.
        -- by apply Hfill1.
    + auto.
    + intros Hpos e' [->|He']%elem_of_cons; [|by apply Hb'].
      apply Hmono', Hb1. lia.
Qed.

Lemma count_basic_all rows cols g :
  wf_grid rows cols g →
  (∀ r c, 0 ≤ r < rows → 0 ≤ c < cols → isBasicAt g r c = true) →
  count_basic g = rows * cols.
Proof.
  intros Hwf Hall. pose proof Hwf as [Hlen Hcols]. unfold count_basic, gridSum.
  rewrite (zsum_fmap_const _ _ cols); [lia|].
  intros cells Hin. pose proof Hin as [r Hr]%elem_of_zget.
  rewrite Forall_forall in Hcols. rewrite <- (Hcols _ Hin).
  rewrite (zsum_fmap_const _ _ 1); [lia|]. intros cl [c Hc]%elem_of_zget.
  assert (cell_at g r c = Some cl) as Hcl by (unfold cell_at; by rewrite Hr).
  assert (isBasicAt g r c = true) as Hb.
  { assert (is_Some (cell_at g r c)) as Hs by (by rewrite Hcl).
    destruct (cell_at_range rows cols g r c Hwf) as [Hfw _].
    destruct (Hfw Hs). by apply Hall. }
  unfold isBasicAt in Hb. rewrite Hcl in Hb. by rewrite Hb.
Qed.

Lemma solveLeastCost_initial p :
  problem_wf p → balanced p → initial_solution p (solveLeastCost p).
Proof.
  intros Hwf Hbal. destruct Hwf. unfold balanced in Hbal.
  set (rows := rowCount p) in *. set (cols := colCount p) in *.
  assert (∀ e, e ∈ cellsList p → 0 ≤ er e < rows ∧ 0 ≤ ec e < cols) as Hrange.
  { intros e (? & ? & _)%elem_of_cellsList. done. }
  assert (∀ r c, 0 ≤ r < rows → 0 ≤ c < cols →
                 mkEntry r c (costAt (costs p) r c) ∈ cellsList p) as Hcover.
  { intros r c Hr Hc. apply elem_of_cellsList. simpl. fold rows cols. lia. }
  unfold solveLeastCost. fold rows cols.
  rewrite pwf_initialSupply0, pwf_initialDemand0.
  pose proof (greedy_inv_initial rows cols (costs p) (supply p) (demand p)
                pwf_rows0 pwf_cols0 pwf_supply_len0 pwf_demand_len0
                pwf_supply_nonneg0 pwf_demand_nonneg0) as Hinit.
  destruct (allocFold_inv _ _ _ _ (cellsList p) _ _ _ _ Hinit Hrange)
    as (g1 & s1 & d1 & cnt & -> & Hinv & Hz & _ & _).
  destruct (greedy_exhausted _ _ _ _ _ _ _ _ Hinv Hbal) as [Hs0 Hd0].
  { intros r c Hr Hc. by apply (Hz (mkEntry r c (costAt (costs p) r c))), Hcover. }
  pose proof Hinv as [].
  assert (∀ r, 0 ≤ r < rows → zget (supply p) r = Some (rowTotal g1 r)) as Hrows.
  { intros r Hr. assert (is_Some (zget s1 r)) as [x Hx] by (apply zget_is_Some; lia).
    pose proof (gi_row0 _ _ Hx) as Hsum. rewrite (Hs0 _ _ Hx) in Hsum.
    assert (is_Some (zget (supply p) r)) as [y Hy] by (apply zget_is_Some; lia).
    rewrite Hy in *. simpl in Hsum. f_equal. lia. }
  assert (∀ c, 0 ≤ c < cols → zget (demand p) c = Some (colTotal g1 c)) as Hcols.
  { intros c Hc. assert (is_Some (zget d1 c)) as [x Hx] by (apply zget_is_Some; lia).
    pose proof (gi_col0 _ _ Hx) as Hsum. rewrite (Hd0 _ _ Hx) in Hsum.
    assert (is_Some (zget (demand p) c)) as [y Hy] by (apply zget_is_Some; lia).
    rewrite Hy in *. simpl in Hsum. f_equal. lia. }
  assert (cnt ≤ rows + cols - 1) as Hcnt.
  { pose proof (npos_nonneg s1). pose proof (npos_nonneg d1). lia. }
  destruct (cnt <? rows + cols - 1) eqn:Elt.
  2:{ apply Z.ltb_ge in Elt. constructor; try done. lia. }
  apply Z.ltb_lt in Elt.
  destruct (fillFold_inv rows cols (cellsList p) g1 (rows + cols - 1 - cnt))
    as (g2 & n2 & -> & Hwf2 & Hnb2 & Hn2 & Hcnt2 & Hrow2 & Hcol2 & Hcell2 & Hmono2 & Hb2);
    [done|done|lia|done|]. simpl.
  assert (n2 = 0) as ->.
  { destruct (decide (0 < n2)) as [Hpos|]; [|lia]. exfalso.
    assert (count_basic g2 = rows * cols) as Hall.
    { apply count_basic_all; [done|]. intros r c Hr Hc.
      by apply (Hb2 Hpos (mkEntry r c (costAt (costs p) r c))), Hcover. }
    nia. }
  constructor; try done.
  - lia.
  - intros r c cl' (cl & Hcl & Hsame & Hnbs & Hfill)%Hcell2.
    destruct (isBasin cl') eqn:Eb'.
    + destruct (isBasin cl) eqn:Eb.
      * pose proof (Hsame eq_refl) as ->. by eapply gi_fin0.
      * right. exists 0. by apply Hfill.
    + pose proof (Hnbs eq_refl) as ->. by eapply gi_fin0.
  - intros r c cl' (cl & Hcl & Hsame & Hnbs & Hfill)%Hcell2 Hb'.
    destruct (isBasin cl) eqn:Eb.
    + pose proof (Hsame eq_refl) as ->. by eapply gi_allocated0.
    + by rewrite (Hfill eq_refl Hb').
  - intros r Hr. rewrite Hrow2. by apply Hrows.
  - intros c Hc. rewrite Hcol2. by apply Hcols.
Qed.

Lemma stepProblem_wf : problem_wf stepProblem.
Proof. constructor; try done; simpl; repeat constructor; lia. Qed.

(** C2.  For a balanced problem (well-shaped, with non-negative supplies and
    demands) the grid of [solveLeastCost] has exactly [rows + cols - 1] basic
    cells, all its allocations are finite quantities or empty, every row ships
    exactly its supply and every column receives exactly its demand. *)
Theorem solveLeastCost_feasible p :
  problem_wf p → balanced p →
  count_basic (solveLeastCost p) = rowCount p + colCount p - 1 ∧
  finite_allocations (solveLeastCost p) ∧
  (∀ r, 0 ≤ r < rowCount p → zget (supply p) r = Some (rowTotal (solveLeastCost p) r)) ∧
  (∀ c, 0 ≤ c < colCount p → zget (demand p) c = Some (colTotal (solveLeastCost p) c)).
Proof.
  intros Hwf Hbal. destruct (solveLeastCost_initial p Hwf Hbal). done.
Qed.

Lemma solveLeastCost_feasible_witness :
  problem_wf stepProblem ∧ balanced stepProblem ∧
  count_basic (solveLeastCost stepProblem) = 2 + 2 - 1 ∧
  finite_allocations (solveLeastCost stepProblem) ∧
  (∀ r, 0 ≤ r < 2 → zget [10; 10] r = Some (rowTotal (solveLeastCost stepProblem) r)) ∧
  (∀ c, 0 ≤ c < 2 → zget [5; 15] c = Some (colTotal (solveLeastCost stepProblem) c)).
Proof.
  assert (balanced stepProblem) as H2 by reflexivity.
  exact (conj stepProblem_wf (conj H2 (solveLeastCost_feasible stepProblem stepProblem_wf H2))).
Defined.

(** ** [calculatePotentials] *)

Lemma known_zset x i u j :
  known (zset (Some x) i u) j =
  if decide (i = j ∧ 0 ≤ i < zlen u) then Some x else known u j.
Proof.
  unfold known, zset. rewrite zget_zalter. destruct (decide (i = j)) as [->|Hne].
  - destruct (zget u j) as [o|] eqn:E; simpl.
    + apply zget_Some in E. by rewrite decide_True.
    + apply zget_None in E. rewrite decide_False; [done|]. intros [_ ?]. done.
  - rewrite decide_False; [done|]. intros [? _]. done.
Qed.

Lemma known_Some_range u i x : known u i = Some x → 0 ≤ i < zlen u.
Proof.
  unfold known. destruct (zget u i) eqn:E; [|done]. intros _. by eapply zget_Some.
Qed.

Lemma kcount_zset x i u :
  0 ≤ i < zlen u → known u i = None → kcount (zset (Some x) i u) = kcount u + 1.
Proof.
  intros Hi Hk. assert (is_Some (zget u i)) as [o Ho] by (by apply zget_is_Some).
  unfold kcount, zset. rewrite (zsum_fmap_zalter _ _ _ _ _ Ho).
  unfold known in Hk. rewrite Ho in Hk. simpl in Hk. subst o. lia.
Qed.

Lemma kcount_le_len u : 0 ≤ kcount u ≤ zlen u.
Proof.
  unfold kcount, zlen. induction u as [|o u IH]; csimpl; [lia|]. destruct o; lia.
Qed.

Lemma kcount_full u :
  kcount u = zlen u → ∀ i, 0 ≤ i < zlen u → is_Some (known u i).
Proof.
  unfold kcount, zlen, known. induction u as [|o u IH]; csimpl; intros Hk i Hi; [lia|].
  pose proof (kcount_le_len u) as Hle. unfold kcount, zlen in Hle.
  destruct o as [x|]; [|lia].
  destruct (decide (i = 0)) as [->|Hne]; [by eexists|].
  specialize (IH ltac:(lia) (i - 1) ltac:(lia)).
  unfold zget in *. rewrite decide_True in IH by lia. rewrite decide_True by lia.
  replace (Z.to_nat i) with (S (Z.to_nat (i - 1))) by lia. done.
Qed.

Lemma kcount_of_full u :
  (∀ i, 0 ≤ i < zlen u → is_Some (known u i)) → kcount u = zlen u.
Proof.
  unfold kcount, zlen, known. induction u as [|o u IH]; csimpl; intros Hk; [lia|].
  destruct o as [x|].
  - rewrite IH; [lia|]. intros i Hi. specialize (Hk (i + 1) ltac:(lia)).
    unfold zget in *. rewrite decide_True in Hk by lia. rewrite decide_True by lia.
    replace (Z.to_nat (i + 1)) with (S (Z.to_nat i)) in Hk by lia. done.
  - specialize (Hk 0 ltac:(lia)). by destruct Hk.
Qed.

Lemma dual_eq_ext g u v u' v' rc :
  pot_ext u u' → pot_ext v v' → dual_eq g u v rc → dual_eq g u' v' rc.
Proof.
  intros Hu Hv (cl & ur & vc & ? & ? & ? & ? & ?). exists cl, ur, vc. auto 10.
Qed.

Lemma pot_ext_refl u : pot_ext u u.
Proof. by intros i x. Qed.

(** One cell of a pass: either nothing changes, or one potential becomes
    known and the flag is set. *)
Lemma potStep_inv rows cols g u v ch rc :
  wf_grid rows cols g → pot_inv rows cols g u v →
  ∃ u' v' ch',
    potStep g (u, v, ch) rc = (u', v', ch') ∧
    pot_inv rows cols g u' v' ∧ pot_ext u u' ∧ pot_ext v v' ∧
    ((u' = u ∧ v' = v ∧ ch' = ch ∧ pot_stable g u v rc) ∨
     (ch' = true ∧ kcount u' + kcount v' = kcount u + kcount v + 1)).
Proof.
  intros Hwf Hinv.
  assert (pot_stable g u v rc →
          ∃ u' v' ch', (u, v, ch) = (u', v', ch') ∧
            pot_inv rows cols g u' v' ∧ pot_ext u u' ∧ pot_ext v v' ∧
            ((u' = u ∧ v' = v ∧ ch' = ch ∧ pot_stable g u v rc) ∨
             (ch' = true ∧ kcount u' + kcount v' = kcount u + kcount v + 1))) as Hsame.
  { intros Hst. exists u, v, ch. split_and!; try done; try apply pot_ext_refl.
    left. done. }
  unfold potStep.
  destruct (cell_at g rc.1 rc.2) as [cl|] eqn:Ecl.
  2:{ apply Hsame. unfold pot_stable, isBasicAt. by rewrite Ecl. }
  destruct (isBasin cl) eqn:Eb.
  2:{ apply Hsame. unfold pot_stable, isBasicAt. by rewrite Ecl, Eb. }
  assert (0 ≤ rc.1 < rows ∧ 0 ≤ rc.2 < cols) as [Hr Hc].
  { apply (cell_at_range rows cols g); [done|]. by rewrite Ecl. }
  destruct Hinv as [Hul Hvl Hu0 (used & Hnd & Hused & Hcnt)].
  destruct (known u rc.1) as [ur|] eqn:Eu, (known v rc.2) as [vc|] eqn:Ev.
  - apply Hsame. intros _. rewrite Eu, Ev. split; eauto.
  - (* u[r] known, v[c] not: v[c] = cost - u[r] *)
    eexists _, _, _. split; [done|].
    assert (pot_ext v (zset (Some (cost cl - ur)) rc.2 v)) as Hext.
    { intros i x Hx. rewrite known_zset. case_decide as H; [|done].
      destruct H as [<- _]. congruence. }
    split_and!; try done; try apply pot_ext_refl.
    + constructor; try done.
      * unfold zset. by rewrite zlen_zalter.
      * exists (rc :: used). split_and!.
        -- constructor; [|done]. intros Hin.
           destruct (Hused _ Hin) as (? & ? & ? & _ & _ & _ & ? & _). congruence.
        -- intros rc' [->|Hin]%elem_of_cons.
           ++ exists cl, ur, (cost cl - ur). split_and!; try done; [|lia].
              rewrite known_zset. rewrite decide_True; [done|]. lia.
           ++ eapply dual_eq_ext; [..|by apply Hused]; [apply pot_ext_refl|done].
        -- rewrite kcount_zset by (done || lia). unfold zlen in *. simpl. lia.
    + right. split; [done|]. rewrite kcount_zset by (done || lia). lia.
  - (* v[c] known, u[r] not: u[r] = cost - v[c] *)
    eexists _, _, _. split; [done|].
    assert (pot_ext u (zset (Some (cost cl - vc)) rc.1 u)) as Hext.
    { intros i x Hx. rewrite known_zset. case_decide as H; [|done].
      destruct H as [<- _]. congruence. }
    split_and!; try done; try apply pot_ext_refl.
    + constructor; try done.
      * unfold zset. by rewrite zlen_zalter.
      * by apply Hext.
      * exists (rc :: used). split_and!.
        -- constructor; [|done]. intros Hin.
           destruct (Hused _ Hin) as (? & ? & ? & _ & _ & ? & _ & _). congruence.
        -- intros rc' [->|Hin]%elem_of_cons.
           ++ exists cl, (cost cl - vc), vc. split_and!; try done; [|lia].
              rewrite known_zset. rewrite decide_True; [done|]. lia.
           ++ eapply dual_eq_ext; [..|by apply Hused]; [done|apply pot_ext_refl].
        -- rewrite kcount_zset by (done || lia). unfold zlen in *. simpl. lia.
    + right. split; [done|]. rewrite kcount_zset by (done || lia). lia.
  - apply Hsame. intros _. rewrite Eu, Ev. split; intros [? ?]; done.
Qed.

Lemma pot_ext_trans u1 u2 u3 : pot_ext u1 u2 → pot_ext u2 u3 → pot_ext u1 u3.
Proof. intros H12 H23 i x Hx. by apply H23, H12. Qed.

Lemma potFold_inv rows cols g l u v ch :
  wf_grid rows cols g → pot_inv rows cols g u v →
  ∃ u' v' ch',
    foldl (potStep g) (u, v, ch) l = (u', v', ch') ∧
    pot_inv rows cols g u' v' ∧ pot_ext u u' ∧ pot_ext v v' ∧
    ((u' = u ∧ v' = v ∧ ch' = ch ∧ ∀ rc, rc ∈ l → pot_stable g u v rc) ∨
     (ch' = true ∧ kcount u + kcount v + 1 ≤ kcount u' + kcount v')).
Proof.
  intros Hwf. revert u v ch. induction l as [|rc l IH]; intros u v ch Hinv; cbn [foldl].
  - exists u, v, ch. split_and!; try done; try apply pot_ext_refl.
    left. split_and!; try done. intros rc H. inversion H.
  - destruct (potStep_inv rows cols g u v ch rc Hwf Hinv)
      as (u1 & v1 & ch1 & -> & Hinv1 & Hu1 & Hv1 & Hcase1).
    destruct (IH u1 v1 ch1 Hinv1) as (u' & v' & ch' & -> & Hinv' & Hu' & Hv' & Hcase').
    exists u', v', ch'. split_and!; try done; try (by eapply pot_ext_trans).
    destruct Hcase1 as [(-> & -> & -> & Hst)|[-> Hk1]],
             Hcase' as [(-> & -> & -> & Hst')|[-> Hk']].
    + left. split_and!; try done. intros rc' [->|?]%elem_of_cons; auto.
    + right. split; [done|lia].
    + right. split; [done|lia].
    + right. split; [done|lia].
Qed.

(** The [while] loop ends within the bound: every pass but the last makes at
    least one more potential known. *)
Lemma potLoop_spec rows cols g fuel u v :
  wf_grid rows cols g → pot_inv rows cols g u v →
  rows + cols - (kcount u + kcount v) < Z.of_nat fuel →
  ∃ u' v', potLoop fuel g rows cols u v = Ok (u', v') ∧
           pot_inv rows cols g u' v' ∧
           ∀ rc, rc ∈ scan rows cols → pot_stable g u' v' rc.
Proof.
  intros Hwf. revert u v. induction fuel as [|fuel IH]; intros u v Hinv Hfuel.
  - pose proof (kcount_le_len u). pose proof (kcount_le_len v).
    destruct Hinv as [Hul Hvl _ _]. lia.
  - cbn [potLoop]. unfold potPass.
    destruct (potFold_inv rows cols g (scan rows cols) u v false Hwf Hinv)
      as (u' & v' & ch' & -> & Hinv' & _ & _ & Hcase).
    destruct Hcase as [(-> & -> & -> & Hst)|[-> Hk]].
    + exists u, v. done.
    + apply IH; [done|lia].
Qed.

Lemma kcount_replicate n : kcount (replicate n None) = 0.
Proof. unfold kcount. induction n as [|n IH]; csimpl; lia. Qed.

Lemma pot_inv_initial rows cols g :
  1 ≤ rows → 0 ≤ cols →
  pot_inv rows cols g (initialU rows) (replicate (Z.to_nat cols) None).
Proof.
  intros Hr Hc. unfold initialU. constructor.
  - unfold zlen. simpl. rewrite length_replicate. lia.
  - unfold zlen. rewrite length_replicate. lia.
  - done.
  - exists []. split_and!; [constructor| |].
    + intros rc H. inversion H.
    + unfold kcount at 1. csimpl. fold (kcount (replicate (Z.to_nat rows - 1) None)).
      rewrite !kcount_replicate. done.
Qed.

(** [calculatePotentials] returns on every rectangular grid. *)
Lemma calculatePotentials_total rows cols g :
  wf_grid rows cols g → 1 ≤ rows → 0 ≤ cols →
  ∃ u v, calculatePotentials g rows cols = Ok (u, v) ∧
         pot_inv rows cols g u v ∧
         ∀ rc, rc ∈ scan rows cols → pot_stable g u v rc.
Proof.
  intros Hwf Hr Hc. unfold calculatePotentials.
  apply potLoop_spec; [done|by apply pot_inv_initial|].
  unfold initialU. unfold kcount at 1. csimpl.
  fold (kcount (replicate (Z.to_nat rows - 1) None)).
  rewrite !kcount_replicate. lia.
Qed.

Lemma isBasicAt_range rows cols g r c :
  wf_grid rows cols g → isBasicAt g r c = true → 0 ≤ r < rows ∧ 0 ≤ c < cols.
Proof.
  intros Hwf Hb. apply (cell_at_range rows cols g r c Hwf).
  unfold isBasicAt in Hb. by destruct (cell_at g r c).
Qed.

(** Propagation reaches every node connected to row 0. *)
Lemma pot_known_reachable rows cols g u v x :
  wf_grid rows cols g → 1 ≤ rows →
  pot_inv rows cols g u v →
  (∀ rc, rc ∈ scan rows cols → pot_stable g u v rc) →
  rtc (adjacent g) (RowN 0) x →
  match x with
  | RowN r => is_Some (known u r)
  | ColN c => is_Some (known v c)
  end.
Proof.
  intros Hwf Hrows Hinv Hst. revert x.
  apply (rtc_ind_r (λ x, match x with
                         | RowN r => is_Some (known u r)
                         | ColN c => is_Some (known v c)
                         end) (RowN 0)).
  - destruct Hinv as [_ _ Hu0 _]. by rewrite Hu0.
  - intros y z Hreach Hadj IH.
    destruct y as [r|c], z as [r'|c']; simpl in Hadj; try done.
    + apply (Hst (r, c')); [|done..].
      apply elem_of_scan. by eapply isBasicAt_range.
    + apply (Hst (r', c)); [|done..].
      apply elem_of_scan. by eapply isBasicAt_range.
Qed.

(** On a connected basis with [rows + cols - 1] cells the potentials are
    complete and satisfy the dual equation at every basic cell. *)
Lemma calculatePotentials_tree rows cols g :
  wf_grid rows cols g → 1 ≤ rows → 1 ≤ cols →
  count_basic g = rows + cols - 1 → connected rows cols g →
  ∃ u v, calculatePotentials g rows cols = Ok (u, v) ∧
    zlen u = rows ∧ zlen v = cols ∧
    (∀ r, 0 ≤ r < rows → is_Some (known u r)) ∧
    (∀ c, 0 ≤ c < cols → is_Some (known v c)) ∧
    known u 0 = Some 0 ∧
    (∀ r c, isBasicAt g r c = true → dual_eq g u v (r, c)).
Proof.
  intros Hwf Hrows Hcols Hcount Hconn.
  destruct (calculatePotentials_total rows cols g Hwf Hrows ltac:(lia))
    as (u & v & Hrun & Hinv & Hst).
  exists u, v. split; [done|].
  assert (∀ r, 0 ≤ r < rows → is_Some (known u r)) as Hu.
  { intros r Hr.
    apply (pot_known_reachable rows cols g u v (RowN r)); try done.
    apply Hconn; simpl; lia. }
  assert (∀ c, 0 ≤ c < cols → is_Some (known v c)) as Hv.
  { intros c Hc.
    apply (pot_known_reachable rows cols g u v (ColN c)); try done.
    apply Hconn; simpl; lia. }
  destruct Hinv as [Hul Hvl Hu0 (used & Hnd & Hused & Hcnt)].
  split_and!; try done.
  intros r c Hb. apply Hused.
  set (B := filter (λ rc, isBasicAt g rc.1 rc.2 = true) (scan rows cols)).
  assert (used ⊆+ B) as Hsub.
  { apply NoDup_submseteq; [done|]. intros rc Hrc.
    destruct (Hused rc Hrc) as (cl & ur & vc & Hcl & Hbas & _).
    assert (isBasicAt g rc.1 rc.2 = true) as Hb' by (unfold isBasicAt; by rewrite Hcl).
    apply list_elem_of_filter. split; [done|].
    destruct rc. apply elem_of_scan. by eapply isBasicAt_range. }
  assert (used ≡ₚ B) as Hperm.
  { apply submseteq_length_Permutation; [done|].
    pose proof (count_basic_scan rows cols g Hwf) as HB. fold B in HB.
    rewrite (kcount_of_full u) in Hcnt by (by rewrite Hul).
    rewrite (kcount_of_full v) in Hcnt by (by rewrite Hvl).
    unfold zlen in *. lia. }
  rewrite Hperm. apply list_elem_of_filter. split; [done|].
  apply elem_of_scan. by eapply isBasicAt_range.
Qed.

(** C3.  On a grid satisfying the basis invariant, [calculatePotentials]
    returns vectors [u] (one entry per row) and [v] (one per column) without
    unknown entries, with [u[0] = 0] and [u[r] + v[c] = cost(r, c)] at every
    basic cell. *)
Theorem calculatePotentials_complete rows cols g :
  basis_inv rows cols g →
  ∃ u v, calculatePotentials g rows cols = Ok (u, v) ∧
    zlen u = rows ∧ zlen v = cols ∧
    (∀ r, 0 ≤ r < rows → ∃ x, zget u r = Some (Some x)) ∧
    (∀ c, 0 ≤ c < cols → ∃ x, zget v c = Some (Some x)) ∧
    zget u 0 = Some (Some 0) ∧
    (∀ r c cl, cell_at g r c = Some cl → isBasin cl = true →
       ∃ ur vc, zget u r = Some (Some ur) ∧ zget v c = Some (Some vc) ∧
                ur + vc = cost cl).
Proof.
  intros [Hwf Hrows Hcols Hcount Hconn _].
  destruct (calculatePotentials_tree rows cols g Hwf Hrows Hcols Hcount Hconn)
    as (u & v & Hrun & Hul & Hvl & Hu & Hv & Hu0 & Hdual).
  assert (∀ (w : list (option Z)) i x, known w i = Some x → zget w i = Some (Some x)) as Hk.
  { intros w i x. unfold known. destruct (zget w i) as [[y|]|]; simpl; congruence. }
  exists u, v. split_and!; try done.
  - intros r Hr. destruct (Hu r Hr) as [x Hx]. eauto.
  - intros c Hc. destruct (Hv c Hc) as [x Hx]. eauto.
  - by apply Hk.
  - intros r c cl Hcl Hb.
    destruct (Hdual r c) as (cl' & ur & vc & Hcl' & _ & Hur & Hvc & Heq).
    { unfold isBasicAt. by rewrite Hcl. }
    simpl in *. rewrite Hcl in Hcl'. injection Hcl' as <-.
    exists ur, vc. split_and!; auto.
Qed.

(** ** Alternating chains and cycles of the basis *)

(** Along an alternating chain the sums [U r + V c] telescope. *)
Lemma altsum_telescope (U V : Z → Z) (l : list LoopNode) (a z : LoopNode) h :
  alternating h (a :: l) → last (a :: l) = Some z →
  altsum (λ n, U n.1 + V n.2) (a :: l) =
  match h, Nat.even (length l) with
  | true, true => V a.2 + U z.1        (* odd number of nodes, first move in the row *)
  | true, false => V a.2 - V z.2
  | false, true => U a.1 + V z.2
  | false, false => U a.1 - U z.1
  end.
Proof.
  revert a h. induction l as [|b l IH]; intros a h Halt Hlast.
  - simpl in *. injection Hlast as <-. destruct h; lia.
  - cbn [alternating] in Halt. destruct Halt as [Hmove Halt].
    rewrite last_cons_cons in Hlast.
    cbn [altsum]. cbn [altsum] in IH. rewrite (IH b (negb h) Halt Hlast).
    cbn [length]. rewrite Nat.even_succ, <- Nat.negb_even.
    unfold move in Hmove.
    destruct h, (Nat.even (length l)); simpl in *; destruct Hmove as [-> _]; lia.
Qed.

Lemma alternating_snoc h (L : list LoopNode) z x :
  last L = Some z →
  alternating h (L ++ [x]) ↔
  alternating h L ∧ move (if Nat.even (length L) then negb h else h) z x.
Proof.
  revert h. induction L as [|a L IH]; intros h Hlast; [done|].
  destruct L as [|b L].
  - simpl in *. injection Hlast as ->. tauto.
  - rewrite last_cons_cons in Hlast. specialize (IH (negb h) Hlast).
    change ((a :: b :: L) ++ [x]) with (a :: (b :: L) ++ [x]).
    change (alternating h (a :: (b :: L) ++ [x]))
      with (move h a b ∧ alternating (negb h) ((b :: L) ++ [x])).
    change (alternating h (a :: b :: L))
      with (move h a b ∧ alternating (negb h) (b :: L)).
    rewrite IH. change (length (a :: b :: L)) with (S (length (b :: L))).
    rewrite Nat.even_succ, <- Nat.negb_even.
    destruct (Nat.even (length (b :: L))); simpl; rewrite ?negb_involutive; tauto.
Qed.

Lemma adjacent_sym g x y : adjacent g x y → adjacent g y x.
Proof. by destruct x, y. Qed.

Lemma rtc_adjacent_sym g x y : rtc (adjacent g) x y → rtc (adjacent g) y x.
Proof.
  induction 1 as [|x y z Hxy _ IH]; [done|].
  eapply rtc_r; [done|]. by apply adjacent_sym.
Qed.

Lemma connected_from_root rows cols g :
  (∀ x, node_in rows cols x → rtc (adjacent g) (RowN 0) x) → connected rows cols g.
Proof.
  intros H x y Hx Hy. etrans; [apply rtc_adjacent_sym, H|apply H]; done.
Qed.

Lemma adjacent_ext g g' :
  (∀ r c, isBasicAt g' r c = isBasicAt g r c) →
  ∀ x y, adjacent g x y → adjacent g' x y.
Proof. intros H [r|c] [r'|c']; simpl; rewrite ?H; done. Qed.

Lemma connected_ext rows cols g g' :
  (∀ r c, isBasicAt g' r c = isBasicAt g r c) →
  connected rows cols g → connected rows cols g'.
Proof.
  intros H Hconn x y Hx Hy. eapply rtc_subrel; [|by apply Hconn].
  by apply adjacent_ext.
Qed.

Lemma count_basic_ext rows cols g g' :
  wf_grid rows cols g → wf_grid rows cols g' →
  (∀ r c, isBasicAt g' r c = isBasicAt g r c) → count_basic g' = count_basic g.
Proof.
  intros Hwf Hwf' H. rewrite (count_basic_scan rows cols g Hwf).
  rewrite (count_basic_scan rows cols g' Hwf'). f_equal.
  apply list_filter_iff. intros rc. by rewrite H.
Qed.

(** A connected basis with [rows + cols - 1] cells has no cycle: potentials
    exist for every choice of costs, and for the cost that is 1 on one cell of
    a cycle and 0 elsewhere the alternating sum around the cycle would be both
    1 and 0. *)
Lemma connected_count_acyclic rows cols g :
  wf_grid rows cols g → 1 ≤ rows → 1 ≤ cols →
  count_basic g = rows + cols - 1 → connected rows cols g → acyclic g.
Proof.
  intros Hwf Hrows Hcols Hcount Hconn l (Hne & Hnd & Hbasic & Heven & Halt).
  destruct l as [|e l]; [done|]. clear Hne.
  set (g2 := upd (map (map (set_cost 0)) g) e.1 e.2 (set_cost 1)).
  assert (∀ r c, cell_at g2 r c =
            (λ cl, set_cost (if decide ((e.1, e.2) = (r, c)) then 1 else 0) cl)
              <$> cell_at g r c) as Hcell2.
  { intros r c. unfold g2. rewrite cell_at_upd, cell_at_map.
    case_decide; by destruct (cell_at g r c). }
  assert (∀ r c, isBasicAt g2 r c = isBasicAt g r c) as Hb2.
  { intros r c. unfold isBasicAt. rewrite Hcell2. by destruct (cell_at g r c). }
  assert (wf_grid rows cols g2) as Hwf2 by (by apply wf_grid_upd, wf_grid_map).
  destruct (calculatePotentials_tree rows cols g2 Hwf2 Hrows Hcols)
    as (u & v & _ & _ & _ & _ & _ & _ & Hdual).
  { by rewrite (count_basic_ext rows cols g g2). }
  { by eapply connected_ext. }
  set (U := λ r, default 0 (known u r)). set (V := λ c, default 0 (known v c)).
  assert (∀ n, n ∈ e :: l → U n.1 + V n.2 = if decide (e = n) then 1 else 0) as Hw.
  { intros n Hn. destruct (Hdual n.1 n.2) as (cl & ur & vc & Hcl & _ & Hur & Hvc & Heq).
    { rewrite Hb2. by apply Hbasic. }
    simpl in *. unfold U, V. rewrite Hur, Hvc. simpl. rewrite Heq.
    rewrite Hcell2 in Hcl. destruct (cell_at g n.1 n.2) as [cl0|]; [|done].
    injection Hcl as <-. simpl. destruct e, n; simpl.
    repeat case_decide; simplify_eq; done. }
  (* the alternating sum around the cycle, computed in two ways *)
  assert (altsum (λ n, U n.1 + V n.2) (e :: l) = 1) as Hone.
  { apply NoDup_cons in Hnd as [Hnin Hnd].
    cbn [altsum]. rewrite (Hw e) by left. rewrite decide_True by done.
    enough (altsum (λ n, U n.1 + V n.2) l = 0) by lia.
    assert (∀ n, n ∈ l → U n.1 + V n.2 = 0) as Hz.
    { intros n Hn. rewrite Hw by (by right). rewrite decide_False; [done|].
      intros ->. done. }
    clear -Hz. induction l as [|n l IH]; [done|]. cbn [altsum].
    rewrite (Hz n) by left. rewrite IH; [done|]. intros; apply Hz; by right. }
  destruct (last (e :: l)) as [z|] eqn:Hlast.
  2:{ apply last_None in Hlast. done. }
  change (take 1 (e :: l)) with [e] in Halt.
  apply (alternating_snoc true (e :: l) z e Hlast) in Halt as [Halt Hclose].
  assert (Nat.even (length l) = false) as Hlen.
  { cbn [length] in Heven. apply Nat.Even_succ in Heven.
    apply Nat.odd_spec in Heven. by rewrite <- Nat.negb_odd, Heven. }
  cbn [length] in Hclose. rewrite Nat.even_succ, <- Nat.negb_even, Hlen in Hclose.
  simpl in Hclose. destruct Hclose as [Hcol _].
  rewrite (altsum_telescope U V l e z true Halt Hlast), Hlen in Hone.
  rewrite Hcol in Hone. lia.
Qed.

Lemma basis_inv_intro rows cols g :
  wf_grid rows cols g → 1 ≤ rows → 1 ≤ cols →
  count_basic g = rows + cols - 1 →
  (∀ x, node_in rows cols x → rtc (adjacent g) (RowN 0) x) →
  basis_inv rows cols g.
Proof.
  intros Hwf Hrows Hcols Hcount Hroot.
  assert (connected rows cols g) by (by apply connected_from_root).
  constructor; try done. by eapply connected_count_acyclic.
Qed.

(** The basis of [staleGrid]: (0,1), (1,0), (1,1), (1,2). *)
Lemma staleGrid_basis : basis_inv 2 3 staleGrid.
Proof.
  apply basis_inv_intro; try done.
  - split; [done|]. by repeat constructor.
  - assert (adjacent staleGrid (RowN 0) (ColN 1)) as H01 by reflexivity.
    assert (adjacent staleGrid (ColN 1) (RowN 1)) as H11 by reflexivity.
    assert (adjacent staleGrid (RowN 1) (ColN 0)) as H10 by reflexivity.
    assert (adjacent staleGrid (RowN 1) (ColN 2)) as H12 by reflexivity.
    intros [r|c] Hx; simpl in Hx.
    + assert (r = 0 ∨ r = 1) as [-> | ->] by lia.
      * done.
      * eapply rtc_l; [exact H01|]. by eapply rtc_once.
    + assert (c = 0 ∨ c = 1 ∨ c = 2) as [-> | [-> | ->]] by lia.
      * eapply rtc_l; [exact H01|]. eapply rtc_l; [exact H11|]. by eapply rtc_once.
      * by eapply rtc_once.
      * eapply rtc_l; [exact H01|]. eapply rtc_l; [exact H11|]. by eapply rtc_once.
Qed.

Lemma calculatePotentials_complete_witness :
  basis_inv 2 3 staleGrid ∧
  ∃ u v, calculatePotentials staleGrid 2 3 = Ok (u, v) ∧
    zlen u = 2 ∧ zlen v = 3 ∧
    (∀ r, 0 ≤ r < 2 → ∃ x, zget u r = Some (Some x)) ∧
    (∀ c, 0 ≤ c < 3 → ∃ x, zget v c = Some (Some x)) ∧
    zget u 0 = Some (Some 0) ∧
    (∀ r c cl, cell_at staleGrid r c = Some cl → isBasin cl = true →
       ∃ ur vc, zget u r = Some (Some ur) ∧ zget v c = Some (Some vc) ∧
                ur + vc = cost cl).
Proof.
  exact (conj staleGrid_basis (calculatePotentials_complete 2 3 staleGrid staleGrid_basis)).
Defined.

(** ** [findLoop] *)

Lemma sameNode_eq a b : sameNode a b = true ↔ a = b.
Proof.
  unfold sameNode. destruct a as [a1 a2], b as [b1 b2]. simpl.
  rewrite andb_true_iff, !Z.eqb_eq. split; [intros [-> ->]; done|intros [= -> ->]; done].
Qed.

Lemma sameNode_refl a : sameNode a a = true.
Proof. by apply sameNode_eq. Qed.

Lemma sameNode_ne a b : a ≠ b → sameNode a b = false.
Proof. intros H. destruct (sameNode a b) eqn:E; [|done]. by apply sameNode_eq in E. Qed.

Lemma move_sym h a b : move h a b → move h b a.
Proof. unfold move. destruct h; intros [-> ?]; split; done. Qed.

Lemma move_exclusive h a b c : move h a b → move (negb h) a c → b ≠ c.
Proof. unfold move. destruct h; simpl; intros [? ?] [? ?] ->; congruence. Qed.

Lemma isBasicAt_in_grid rows cols g n :
  wf_grid rows cols g → isBasicAt g n.1 n.2 = true → in_grid rows cols n.
Proof. intros Hwf Hb. by eapply isBasicAt_range. Qed.

Lemma rowCandidates_filter rows cols g start current cs :
  wf_grid rows cols g → 0 ≤ current.1 < rows → (∀ c, c ∈ cs → 0 ≤ c < cols) →
  rowCandidates g start current cs =
  Ok ((λ c, (current.1, c)) <$> filter (λ c, rowOk g start current c = true) cs).
Proof.
  intros Hwf Hr. induction cs as [|c cs IH]; intros Hcs; [done|].
  assert (0 ≤ c < cols) as Hc by (apply Hcs; left).
  assert (is_Some (cell_at g current.1 c)) as [cl Hcl]
    by (by apply (cell_at_range rows cols)).
  cbn [rowCandidates]. rewrite IH by (intros; apply Hcs; by right).
  rewrite Hcl, filter_cons. cbn [rbind].
  destruct (rowOk g start current c) eqn:Eok;
    unfold rowOk, isBasicAt in Eok; rewrite Hcl in Eok;
    destruct (c =? current.2); simpl in *; try done;
    destruct ((c =? start.2) && (current.1 =? start.1)); simpl in *; try done;
    destruct (isBasin cl); simpl in *; try done.
Qed.

Lemma colCandidates_filter rows cols g start current rs :
  wf_grid rows cols g → 0 ≤ current.2 < cols → (∀ r, r ∈ rs → 0 ≤ r < rows) →
  colCandidates g start current rs =
  Ok ((λ r, (r, current.2)) <$> filter (λ r, colOk g start current r = true) rs).
Proof.
  intros Hwf Hc. induction rs as [|r rs IH]; intros Hrs; [done|].
  assert (0 ≤ r < rows) as Hr by (apply Hrs; left).
  assert (is_Some (cell_at g r current.2)) as [cl Hcl]
    by (by apply (cell_at_range rows cols)).
  cbn [colCandidates]. rewrite IH by (intros; apply Hrs; by right).
  rewrite Hcl, filter_cons. cbn [rbind].
  destruct (colOk g start current r) eqn:Eok;
    unfold colOk, isBasicAt in Eok; rewrite Hcl in Eok;
    destruct (r =? current.1); simpl in *; try done;
    destruct ((r =? start.1) && (current.2 =? start.2)); simpl in *; try done;
    destruct (isBasin cl); simpl in *; try done.
Qed.

Lemma rowOk_spec g start current c :
  rowOk g start current c = true ↔
  c ≠ current.2 ∧ ((current.1, c) = start ∨ isBasicAt g current.1 c = true).
Proof.
  unfold rowOk. rewrite andb_true_iff, negb_true_iff, Z.eqb_neq, orb_true_iff,
    andb_true_iff, !Z.eqb_eq.
  destruct start as [s1 s2]. simpl. split.
  - intros [? [[-> ->]|?]]; auto.
  - intros [? [[= -> ->]|?]]; auto.
Qed.

Lemma colOk_spec g start current r :
  colOk g start current r = true ↔
  r ≠ current.1 ∧ ((r, current.2) = start ∨ isBasicAt g r current.2 = true).
Proof.
  unfold colOk. rewrite andb_true_iff, negb_true_iff, Z.eqb_neq, orb_true_iff,
    andb_true_iff, !Z.eqb_eq.
  destruct start as [s1 s2]. simpl. split.
  - intros [? [[-> ->]|?]]; auto.
  - intros [? [[= -> ->]|?]]; auto.
Qed.

(** [nextNodes] holds exactly the candidates. *)
Lemma nextNodes_spec rows cols g start current isH :
  wf_grid rows cols g → in_grid rows cols current →
  ∃ nexts, nextNodes g rows cols start current isH = Ok nexts ∧
           ∀ n, n ∈ nexts ↔ candidate g rows cols start current isH n.
Proof.
  intros Hwf [Hr Hc]. unfold nextNodes, candidate, move, in_grid. destruct isH.
  - rewrite (rowCandidates_filter rows cols) by (done || by intros c ?%elem_of_seqZ).
    eexists. split; [done|]. intros [n1 n2]. simpl.
    rewrite list_elem_of_fmap. split.
    + intros (c & [= -> ->] & [Hok Hin%elem_of_seqZ]%list_elem_of_filter).
      apply rowOk_spec in Hok as [Hne Hb]. split_and!; auto; lia.
    + intros ((<- & Hne) & (_ & Hn2) & Hb). exists n2. split; [done|].
      apply list_elem_of_filter. split; [|apply elem_of_seqZ; lia].
      apply rowOk_spec. auto.
  - rewrite (colCandidates_filter rows cols) by (done || by intros c ?%elem_of_seqZ).
    eexists. split; [done|]. intros [n1 n2]. simpl.
    rewrite list_elem_of_fmap. split.
    + intros (r & [= -> ->] & [Hok Hin%elem_of_seqZ]%list_elem_of_filter).
      apply colOk_spec in Hok as [Hne Hb]. split_and!; auto; lia.
    + intros ((<- & Hne) & (Hn1 & _) & Hb). exists n1. split; [done|].
      apply list_elem_of_filter. split; [|apply elem_of_seqZ; lia].
      apply colOk_spec. auto.
Qed.

Lemma last_elem_of {A} (l : list A) x : last l = Some x → x ∈ l.
Proof. intros [l' ->]%last_Some. apply elem_of_app. right. left. Qed.

Lemma completion_nil g start current path isH :
  move isH current start → (4 ≤ length (current :: path) + 1)%nat →
  completion g start (current :: path) isH [].
Proof.
  intros Hmove Hlen. exists current. split_and!; simpl; try done.
  - constructor.
  - intros m Hm. inversion Hm.
  - simpl in Hlen. lia.
Qed.

Lemma completion_cons g start current path isH next rest :
  completion g start (next :: current :: path) (negb isH) rest →
  move isH current next → next ∉ current :: path → isBasicAt g next.1 next.2 = true →
  completion g start (current :: path) isH (next :: rest).
Proof.
  intros (x & [= <-] & Halt & Hnd & Hrest & Hlen) Hmove Hnin Hb.
  exists current. split_and!; try done.
  - constructor; [|done]. intros Hin. destruct (Hrest _ Hin) as [Hn _]. apply Hn. left.
  - intros m [->|Hm]%elem_of_cons; [done|]. destruct (Hrest _ Hm) as [Hn ?].
    split; [|done]. intros Hin. apply Hn. by right.
  - simpl in *. lia.
Qed.

Lemma completion_cons_inv g start current path isH next rest :
  completion g start (current :: path) isH (next :: rest) →
  completion g start (next :: current :: path) (negb isH) rest.
Proof.
  intros (x & [= <-] & Halt & Hnd & Hrest & Hlen).
  apply NoDup_cons in Hnd as [Hnin Hnd].
  cbn [alternating app] in Halt. destruct Halt as [_ Halt].
  exists next. split_and!; try done.
  - intros m Hm. destruct (Hrest m) as [Hn ?]; [by right|]. split; [|done].
    intros [->|?]%elem_of_cons; done.
  - simpl in *. lia.
Qed.

Lemma completion_head g rows cols start current path isH rest n :
  wf_grid rows cols g → in_grid rows cols start →
  completion g start (current :: path) isH rest →
  head (rest ++ [start]) = Some n →
  candidate g rows cols start current isH n ∧ (n = start ∨ n ∉ current :: path).
Proof.
  intros Hwf Hstart (x & [= <-] & Halt & Hnd & Hrest & Hlen) Hhead.
  destruct rest as [|m rest]; simpl in *.
  - injection Hhead as <-. destruct Halt as [Hmove _]. split; [|by left].
    split_and!; auto.
  - injection Hhead as <-. destruct Halt as [Hmove _].
    destruct (Hrest m) as [Hnin Hb]; [left|]. split; [|by right].
    split_and!; auto. by eapply isBasicAt_in_grid.
Qed.

Section search.
Context (g : Grid) (rows cols : Z) (start : LoopNode).
Context (Hwf : wf_grid rows cols g) (Hstart : in_grid rows cols start).

Lemma search_closing fuel isH path visited :
  path ≠ [] →
  search (S fuel) g rows cols start start isH path visited =
  if 4 <=? zlen (start :: path) then SFound (start :: path) ({[start]} ∪ visited)
  else SFail path ({[start]} ∪ visited).
Proof.
  intros Hne. cbn [search]. rewrite sameNode_refl, !andb_true_r.
  destruct (4 <=? zlen (start :: path)); [done|].
  assert ((1 <? zlen (start :: path)) = true) as ->; [|done].
  apply Z.ltb_lt. destruct path; [done|]. unfold zlen. simpl. lia.
Qed.

Lemma search_regular fuel current isH path visited :
  last (current :: path) = Some start → NoDup (current :: path) →
  search (S fuel) g rows cols start current isH path visited =
  match nextNodes g rows cols start current isH with
  | Ok nexts =>
      tryNexts (λ next, search fuel g rows cols start next (negb isH))
        start current nexts (current :: path) ({[current]} ∪ visited)
  | _ => SThrow
  end.
Proof.
  intros Hlast Hnd. cbn [search].
  destruct path as [|prev path].
  - unfold zlen. simpl. done.
  - assert (current ≠ start) as Hne.
    { rewrite last_cons_cons in Hlast. apply last_elem_of in Hlast.
      apply NoDup_cons in Hnd as [Hnin _]. by intros ->. }
    rewrite (sameNode_ne _ _ Hne), !andb_false_r. done.
Qed.

Lemma search_path_bound current path :
  NoDup (current :: path) → (∀ n, n ∈ current :: path → in_grid rows cols n) →
  (length path + 1 ≤ length (scan rows cols))%nat.
Proof.
  intros Hnd Hgrid.
  assert (current :: path ⊆+ scan rows cols) as Hsub.
  { apply NoDup_submseteq; [done|]. intros [r c] Hn. apply elem_of_scan.
    by apply (Hgrid (r, c)). }
  apply submseteq_length in Hsub. simpl in Hsub. lia.
Qed.

Lemma tryNexts_spec rec current isH path visited :
  search_inv g rows cols start current isH path visited →
  (∀ next, next ≠ start → next ∉ current :: path →
     candidate g rows cols start current isH next →
     search_post g start (next :: current :: path) (current :: path)
       ({[current]} ∪ visited) (negb isH)
       (rec next (current :: path) ({[current]} ∪ visited))) →
  (rec start (current :: path) ({[current]} ∪ visited) =
   if 4 <=? zlen (start :: current :: path)
   then SFound (start :: current :: path) ({[start]} ∪ ({[current]} ∪ visited))
   else SFail (current :: path) ({[start]} ∪ ({[current]} ∪ visited))) →
  ∀ nexts, (∀ n, n ∈ nexts → candidate g rows cols start current isH n) →
  try_post g start (current :: path) path visited isH nexts
    (tryNexts rec start current nexts (current :: path) ({[current]} ∪ visited)).
Proof.
  intros Hinv Hrec Hclose. destruct Hinv.
  assert (start ∈ current :: path) as Hsin by (by apply last_elem_of).
  assert ({[start]} ∪ ({[current]} ∪ visited) = {[current]} ∪ visited) as Hsv.
  { apply set_eq. intros x. rewrite !elem_of_union, !elem_of_singleton.
    apply elem_of_cons in Hsin as [->|Hin]; [tauto|].
    apply si_visited0 in Hin. split; [intros [->|?]|]; tauto. }
  induction nexts as [|next nexts IH]; intros Hcand.
  - cbn [tryNexts tail]. split_and!; try done.
    + apply NoDup_cons in si_nodup0 as [Hnin _].
      assert (current ∉ visited) as Hcv by (by rewrite si_visited0).
      apply set_eq. intros x.
      rewrite elem_of_difference, elem_of_union, !elem_of_singleton.
      split; [tauto|]. intros Hx. split; [tauto|]. by intros ->.
    + intros rest n _ _ Hn. inversion Hn.
  - assert (candidate g rows cols start current isH next) as Hc by (apply Hcand; left).
    specialize (IH ltac:(intros; apply Hcand; by right)).
    cbn [tryNexts].
    assert (match current :: path with
            | _ :: prev :: _ => sameNode prev next
            | _ => false
            end = false) as ->.
    { destruct path as [|prev path']; [done|]. apply sameNode_ne.
      cbn [alternating] in si_alt0. destruct si_alt0 as [Hmv _].
      destruct Hc as [Hmv' _]. intros ->.
      by eapply (move_exclusive isH current next next). }
    destruct (decide (next = start)) as [->|Hns].
    + (* closing move *)
      rewrite sameNode_refl, orb_true_r, Hclose, Hsv.
      destruct (4 <=? zlen (start :: current :: path)) eqn:Elen.
      * apply Z.leb_le in Elen. exists []. split; [done|].
        apply completion_nil; [by destruct Hc|]. unfold zlen in Elen. simpl in *. lia.
      * apply Z.leb_gt in Elen.
        destruct (tryNexts rec start current nexts (current :: path)
                    ({[current]} ∪ visited)) as [p v|p v| |]; try done.
        destruct IH as (-> & -> & IH). split_and!; try done.
        intros rest n Hcomp Hhead [->|Hin]%elem_of_cons; [|by eapply IH].
        destruct Hcomp as (x & [= <-] & _ & _ & Hrest & Hlen).
        destruct rest as [|m rest]; simpl in *.
        -- unfold zlen in Elen. simpl in Elen. lia.
        -- injection Hhead as ->. by destruct (Hrest start ltac:(left)).
    + rewrite (sameNode_ne _ _ Hns), orb_false_r.
      destruct (decide (next ∈ current :: path)) as [Hin|Hnin].
      * (* already visited *)
        rewrite bool_decide_eq_true_2.
        2:{ rewrite elem_of_union, elem_of_singleton.
            apply elem_of_cons in Hin as [->|Hin]; [tauto|].
            apply si_visited0 in Hin. tauto. }
        simpl.
        destruct (tryNexts rec start current nexts (current :: path)
                    ({[current]} ∪ visited)) as [p v|p v| |]; try done.
        destruct IH as (-> & -> & IH). split_and!; try done.
        intros rest n Hcomp Hhead [->|Hin']%elem_of_cons; [|by eapply IH].
        destruct (completion_head _ _ _ _ _ _ _ _ _ Hwf Hstart Hcomp Hhead) as [_ [?|?]];
          done.
      * rewrite bool_decide_eq_false_2.
        2:{ intros [->%elem_of_singleton|Hv%si_visited0]%elem_of_union.
            - apply Hnin. left.
            - apply Hnin. by right. }
        simpl. specialize (Hrec next Hns Hnin Hc).
        destruct (rec next (current :: path) ({[current]} ∪ visited))
          as [p v|p v| |]; try done.
        -- destruct Hrec as (rest & -> & Hcomp). exists (next :: rest). split.
           ++ rewrite reverse_cons, <- app_assoc. done.
           ++ apply completion_cons; try done; [by destruct Hc|].
              destruct Hc as (_ & _ & [?|?]); done.
        -- destruct Hrec as (-> & -> & Hno).
           destruct (tryNexts rec start current nexts (current :: path)
                       ({[current]} ∪ visited)) as [p v|p v| |]; try done.
           destruct IH as (-> & -> & IH). split_and!; try done.
           intros rest n Hcomp Hhead [->|Hin']%elem_of_cons; [|by eapply IH].
           destruct rest as [|m rest]; simpl in Hhead; [by injection Hhead as ->|].
           injection Hhead as ->. by apply completion_cons_inv, Hno in Hcomp.
Qed.

Lemma search_spec fuel current isH path visited :
  search_inv g rows cols start current isH path visited →
  (length (scan rows cols) + 3 ≤ length path + fuel)%nat →
  search_post g start (current :: path) path visited isH
    (search fuel g rows cols start current isH path visited).
Proof.
  revert current isH path visited.
  induction fuel as [|fuel IH]; intros current isH path visited Hinv Hfuel.
  - pose proof (search_path_bound current path (si_nodup _ _ _ _ _ _ _ _ Hinv)
                  (si_grid _ _ _ _ _ _ _ _ Hinv)). lia.
  - pose proof Hinv as [].
    pose proof (search_path_bound current path si_nodup0 si_grid0) as Hbound.
    rewrite (search_regular fuel current isH path visited si_bottom0 si_nodup0).
    destruct (nextNodes_spec rows cols g start current isH Hwf)
      as (nexts & -> & Hnexts); [apply si_grid0; left|].
    pose proof (tryNexts_spec
                  (λ next, search fuel g rows cols start next (negb isH))
                  current isH path visited Hinv) as Htry.
    cbn beta in Htry.
    lapply Htry; clear Htry.
    2:{ intros next Hns Hnin Hc. apply IH; [|simpl; lia].
        destruct Hc as (Hmv & Hgrid & Hb). constructor.
        - intros n. rewrite elem_of_union, elem_of_singleton, elem_of_cons, si_visited0.
          done.
        - by constructor.
        - by rewrite last_cons_cons.
        - intros n [->|Hn]%elem_of_cons Hne; [by destruct Hb|by apply si_basic0].
        - intros n [->|Hn]%elem_of_cons; [done|by apply si_grid0].
        - rewrite negb_involutive. cbn [alternating]. split; [by apply move_sym|done]. }
    intros Htry. lapply Htry; clear Htry.
    2:{ destruct fuel as [|fuel']; [lia|]. by rewrite search_closing. }
    intros Htry. specialize (Htry nexts ltac:(by intros n ?%Hnexts)).
    destruct (tryNexts _ start current nexts (current :: path) ({[current]} ∪ visited))
      as [p v|p v| |]; try done.
    destruct Htry as (-> & -> & Hno). split_and!; try done.
    intros rest Hcomp.
    destruct (head (rest ++ [start])) as [n|] eqn:Hhead; [|by destruct rest].
    destruct (completion_head _ _ _ _ _ _ _ _ _ Hwf Hstart Hcomp Hhead) as [Hc _].
    by apply (Hno rest n Hcomp Hhead), Hnexts.
Qed.

End search.

(** * From connectivity to a closed loop *)

Lemma linked_app_r R (l1 l2 : list node) : linked R (l1 ++ l2) → linked R l2.
Proof.
  induction l1 as [|x l1 IH]; [done|]. intros H. apply IH.
  change ((x :: l1) ++ l2) with (x :: (l1 ++ l2)) in H. cbn [linked] in H.
  destruct (l1 ++ l2); [done|]. by destruct H.
Qed.

(** A walk can be shortened to one that visits no node twice. *)
Lemma simple_walk (R : node → node → Prop) x y :
  rtc R x y → ∃ l, linked R (x :: l) ∧ last (x :: l) = Some y ∧ NoDup (x :: l).
Proof.
  induction 1 as [x|x x1 z Hstep _ (l & Hlink & Hlast & Hnd)].
  - exists []. split_and!; [done|done|]. apply NoDup_singleton.
  - destruct (decide (x ∈ x1 :: l)) as [Hin|Hnin].
    + apply list_elem_of_split in Hin as (l1 & l2 & Heq). exists l2. split_and!.
      * rewrite Heq in Hlink. by apply linked_app_r in Hlink.
      * rewrite Heq, last_app in Hlast.
        destruct (last (x :: l2)) eqn:E; [done|]. by apply last_None in E.
      * rewrite Heq in Hnd. by apply NoDup_app in Hnd as (_ & _ & Hnd).
    + exists (x1 :: l). split_and!; [done|by rewrite last_cons_cons|by constructor].
Qed.

Lemma adjacent_kind g x y : adjacent g x y → is_col y = negb (is_col x).
Proof. by destruct x, y. Qed.

Lemma adjacent_edge g x y : adjacent g x y → isBasicAt g (edge x y).1 (edge x y).2 = true.
Proof. by destruct x, y. Qed.

Lemma edge_endpoint g x y :
  adjacent g x y → x = RowN (edge x y).1 ∨ x = ColN (edge x y).2.
Proof. destruct x, y; simpl; auto; done. Qed.

Lemma length_cells_of x l : length (cells_of x l) = length l.
Proof. revert x. induction l as [|y l IH]; intros x; simpl; [done|]. by rewrite IH. Qed.

Lemma cells_of_basic g x l m :
  linked (adjacent g) (x :: l) → m ∈ cells_of x l → isBasicAt g m.1 m.2 = true.
Proof.
  revert x. induction l as [|y l IH]; intros x Hlink Hm; [inversion Hm|].
  cbn [linked] in Hlink. destruct Hlink as [Hxy Hlink].
  cbn [cells_of] in Hm. apply elem_of_cons in Hm as [->|Hm].
  - by apply adjacent_edge.
  - by apply (IH y).
Qed.

Lemma cells_of_nodes g x l m :
  linked (adjacent g) (x :: l) → m ∈ cells_of x l →
  RowN m.1 ∈ x :: l ∧ ColN m.2 ∈ x :: l.
Proof.
  revert x. induction l as [|y l IH]; intros x Hlink Hm; [inversion Hm|].
  cbn [linked] in Hlink. destruct Hlink as [Hxy Hlink].
  cbn [cells_of] in Hm. apply elem_of_cons in Hm as [->|Hm].
  - destruct x, y; simpl in *; try done; split; rewrite !elem_of_cons; auto.
  - destruct (IH y Hlink Hm). split; by right.
Qed.

Lemma cells_of_NoDup g x l :
  linked (adjacent g) (x :: l) → NoDup (x :: l) → NoDup (cells_of x l).
Proof.
  revert x. induction l as [|y l IH]; intros x Hlink Hnd; [constructor|].
  cbn [linked] in Hlink. destruct Hlink as [Hxy Hlink].
  apply NoDup_cons in Hnd as [Hx Hnd]. cbn [cells_of]. constructor; [|by apply IH].
  intros Hin. destruct (cells_of_nodes g y l _ Hlink Hin) as [Hr Hc].
  destruct (edge_endpoint g x y Hxy) as [Heq|Heq]; rewrite <- Heq in *; done.
Qed.

Lemma cells_of_alternating g x l :
  linked (adjacent g) (x :: l) → NoDup (x :: l) →
  alternating (is_col x) (cells_of x l).
Proof.
  revert x. induction l as [|y l IH]; intros x Hlink Hnd; [done|].
  cbn [linked] in Hlink. destruct Hlink as [Hxy Hlink].
  pose proof Hnd as [Hx Hnd']%NoDup_cons.
  specialize (IH y Hlink Hnd'). rewrite (adjacent_kind g x y Hxy) in IH.
  destruct l as [|z l]; [done|].
  cbn [cells_of alternating] in *. split; [|done].
  cbn [linked] in Hlink. destruct Hlink as [Hyz _].
  assert (x ≠ z) as Hxz by (intros ->; apply Hx; right; left).
  destruct x, y, z; simpl in *; try done; split; congruence.
Qed.

Lemma walk_parity g x l y :
  linked (adjacent g) (x :: l) → last (x :: l) = Some y →
  Nat.even (length l) = negb (xorb (is_col x) (is_col y)).
Proof.
  revert x. induction l as [|z l IH]; intros x Hlink Hlast.
  - simpl in Hlast. injection Hlast as <-. by destruct (is_col x).
  - cbn [linked] in Hlink. destruct Hlink as [Hxz Hlink].
    rewrite last_cons_cons in Hlast. specialize (IH z Hlink Hlast).
    cbn [length]. rewrite Nat.even_succ, <- Nat.negb_even, IH.
    rewrite (adjacent_kind g x z Hxz). by destruct (is_col x), (is_col y).
Qed.

Lemma cells_of_last g x l c :
  linked (adjacent g) (x :: l) → last (x :: l) = Some (ColN c) →
  (2 ≤ length l)%nat →
  ∃ r, last (cells_of x l) = Some (r, c) ∧ RowN r ∈ l.
Proof.
  revert x. induction l as [|y l IH]; intros x Hlink Hlast Hlen; [simpl in Hlen; lia|].
  cbn [linked] in Hlink. destruct Hlink as [Hxy Hlink].
  rewrite last_cons_cons in Hlast.
  destruct l as [|y2 l]; [simpl in Hlen; lia|].
  destruct l as [|y3 l].
  - cbn [linked] in Hlink. destruct Hlink as [Hy _]. simpl in Hlast.
    injection Hlast as ->. destruct y as [r|]; [|done]. exists r. split; [done|left].
  - destruct (IH y Hlink Hlast) as (r & Hr & Hin); [simpl; lia|].
    exists r. split; [|by right]. cbn [cells_of] in *. by rewrite last_cons_cons.
Qed.

(** In a connected basis every non-basic cell of the grid closes a loop. *)
Lemma connected_completion rows cols g e :
  connected rows cols g → in_grid rows cols e → isBasicAt g e.1 e.2 = false →
  ∃ rest, completion g e [e] true rest.
Proof.
  intros Hconn [Hr Hc] Hnb.
  destruct (simple_walk (adjacent g) (RowN e.1) (ColN e.2)) as (l & Hlink & Hlast & Hnd);
    [by apply Hconn|].
  assert (2 ≤ length l)%nat as Hlen.
  { destruct l as [|y l]; [done|]. destruct l as [|y2 l]; [|simpl; lia].
    simpl in Hlast. injection Hlast as ->. cbn [linked] in Hlink.
    destruct Hlink as [Hb _]. simpl in Hb. congruence. }
  pose proof (walk_parity g _ _ _ Hlink Hlast) as Hpar. simpl in Hpar.
  destruct (cells_of_last g _ _ _ Hlink Hlast Hlen) as (r & Hlastc & Hrin).
  pose proof Hnd as [Hx Hnd']%NoDup_cons.
  exists (cells_of (RowN e.1) l), e. split_and!; [done| | | |].
  - change (e :: cells_of (RowN e.1) l ++ [e])
      with ((e :: cells_of (RowN e.1) l) ++ [e]).
    apply (alternating_snoc true (e :: cells_of (RowN e.1) l) (r, e.2) e).
    { destruct (cells_of (RowN e.1) l); [done|]. by rewrite last_cons_cons. }
    cbn [length]. rewrite length_cells_of, Nat.even_succ, <- Nat.negb_even, Hpar.
    split.
    + pose proof (cells_of_alternating g _ _ Hlink Hnd) as Halt.
      destruct l as [|y l]; [done|]. cbn [cells_of alternating is_col] in *.
      split; [|done]. cbn [linked] in Hlink. destruct Hlink as [Hxy _].
      destruct y as [|c1]; [done|]. simpl. split; [done|]. intros Heq.
      rewrite last_cons_cons in Hlast.
      apply NoDup_cons in Hnd' as [Hy _]. apply Hy.
      destruct l as [|y2 l]; [simpl in Hlen; lia|].
      rewrite last_cons_cons in Hlast. apply last_elem_of in Hlast. by rewrite Heq in Hlast.
    + simpl. split; [done|]. intros Heq. simpl in Heq. subst r. done.
  - by eapply cells_of_NoDup.
  - intros m Hm. pose proof (cells_of_basic g _ _ m Hlink Hm) as Hb. split; [|done].
    intros ->%list_elem_of_singleton. congruence.
  - rewrite length_cells_of. simpl. lia.
Qed.

(** * [findLoop] *)

Lemma search_inv_initial rows cols g e isH :
  in_grid rows cols e → search_inv g rows cols e e isH [] ∅.
Proof.
  intros He. constructor.
  - intros n. by rewrite elem_of_nil, elem_of_empty.
  - apply NoDup_singleton.
  - done.
  - by intros n ->%list_elem_of_singleton.
  - by intros n ->%list_elem_of_singleton.
  - done.
Qed.

Lemma findLoop_unfold rows cols g e :
  wf_grid rows cols g → 1 ≤ rows →
  findLoop e g =
  match search (searchFuel rows cols) g rows cols e e true [] ∅ with
  | SFound path _ => Ok (Some (reverse path))
  | SFail _ _ =>
      match search (searchFuel rows cols) g rows cols e e false [] ∅ with
      | SFound path _ => Ok (Some (reverse path))
      | SFail _ _ => Ok None
      | SThrow => TypeError
      | SFuel => OutOfFuel
      end
  | SThrow => TypeError
  | SFuel => OutOfFuel
  end.
Proof.
  intros [Hlen Hall] Hrows. destruct g as [|cells0 g']; [unfold zlen in Hlen; simpl in *; lia|].
  apply Forall_cons in Hall as [Hc _]. unfold findLoop. by rewrite Hlen, Hc.
Qed.

Lemma reverse_found (e : LoopNode) rest :
  reverse (e :: reverse rest ++ [e]) = e :: rest ++ [e].
Proof. by rewrite reverse_cons, reverse_app, reverse_involutive. Qed.

(** [findLoop] returns: [null] when the loop cannot be closed in either
    direction, and a closed alternating path otherwise. *)
Lemma findLoop_total rows cols g e :
  wf_grid rows cols g → 1 ≤ rows → in_grid rows cols e →
  (findLoop e g = Ok None ∧ ∀ isH rest, ¬ completion g e [e] isH rest) ∨
  (∃ isH rest, findLoop e g = Ok (Some (e :: rest ++ [e])) ∧
               completion g e [e] isH rest).
Proof.
  intros Hwf Hrows He. rewrite (findLoop_unfold rows cols g e Hwf Hrows).
  pose proof (search_spec g rows cols e Hwf He (searchFuel rows cols) e true [] ∅
                (search_inv_initial rows cols g e true He)) as H1.
  pose proof (search_spec g rows cols e Hwf He (searchFuel rows cols) e false [] ∅
                (search_inv_initial rows cols g e false He)) as H2.
  unfold searchFuel in *. specialize (H1 ltac:(simpl; lia)). specialize (H2 ltac:(simpl; lia)).
  destruct (search _ g rows cols e e true [] ∅) as [p v|p v| |]; try done.
  - destruct H1 as (rest & -> & Hcomp). right. exists true, rest.
    by rewrite reverse_found.
  - destruct H1 as (_ & _ & Hno1).
    destruct (search _ g rows cols e e false [] ∅) as [p' v'|p' v'| |]; try done.
    + destruct H2 as (rest & -> & Hcomp). right. exists false, rest.
      by rewrite reverse_found.
    + destruct H2 as (_ & _ & Hno2). left. split; [done|].
      intros [] rest; [apply Hno1|apply Hno2].
Qed.

(** When the loop can be closed starting with a row-move, [findLoop] returns
    such a loop (the row direction is tried first). *)
Lemma findLoop_found rows cols g e :
  wf_grid rows cols g → 1 ≤ rows → in_grid rows cols e →
  (∃ rest, completion g e [e] true rest) →
  ∃ rest, findLoop e g = Ok (Some (e :: rest ++ [e])) ∧ completion g e [e] true rest.
Proof.
  intros Hwf Hrows He [rest0 Hrest0]. rewrite (findLoop_unfold rows cols g e Hwf Hrows).
  pose proof (search_spec g rows cols e Hwf He (searchFuel rows cols) e true [] ∅
                (search_inv_initial rows cols g e true He)) as H1.
  unfold searchFuel in *. specialize (H1 ltac:(simpl; lia)).
  destruct (search _ g rows cols e e true [] ∅) as [p v|p v| |]; try done.
  - destruct H1 as (rest & -> & Hcomp). exists rest. by rewrite reverse_found.
  - destruct H1 as (_ & _ & Hno1). by destruct (Hno1 rest0).
Qed.

(** The cells between the two occurrences of the entering cell. *)
Lemma completion_top g e h rest :
  completion g e [e] h rest ↔
  alternating h (e :: rest ++ [e]) ∧ NoDup (e :: rest) ∧
  (∀ m, m ∈ rest → isBasicAt g m.1 m.2 = true) ∧ (2 ≤ length rest)%nat.
Proof.
  split.
  - intros (x & [= <-] & Halt & Hnd & Hrest & Hlen). split_and!; try done.
    + constructor; [|done]. intros Hin. destruct (Hrest _ Hin) as [Hn _]. apply Hn. left.
    + intros m Hm. by destruct (Hrest m Hm).
    + simpl in Hlen. lia.
  - intros (Halt & [Hnin Hnd]%NoDup_cons & Hb & Hlen). exists e. split_and!; try done.
    + intros m Hm. split; [|by apply Hb]. by intros ->%list_elem_of_singleton.
    + simpl. lia.
Qed.

(** In an acyclic basis the loop has an odd number of intermediate cells:
    with an even number, they would form a cycle of basic cells. *)
Lemma completion_odd g e rest :
  acyclic g → completion g e [e] true rest →
  Nat.Odd (length rest) ∧ (3 ≤ length rest)%nat.
Proof.
  intros Hacyc (Halt & Hnd & Hb & Hlen)%completion_top.
  destruct (Nat.even (length rest)) eqn:Hev.
  - exfalso.
    destruct (decide (rest = [])) as [->|Hne]; [simpl in Hlen; lia|].
    destruct (exists_last Hne) as (init & z & ->).
    apply NoDup_cons in Hnd as [He Hnd].
    apply (Hacyc (z :: init)). split_and!.
    + done.
    + apply NoDup_app in Hnd as (Hi & Hiz & _). constructor; [|done].
      intros Hin. apply (Hiz z Hin). left.
    + intros n Hn. apply Hb. apply elem_of_app.
      apply elem_of_cons in Hn as [->|Hn]; [right; left|by left].
    + rewrite length_app in Hev. simpl in *.
      replace (length init + 1)%nat with (S (length init)) in Hev by lia.
      by apply Nat.even_spec.
    + change ((z :: init) ++ take 1 (z :: init)) with (z :: (init ++ [z])).
      change (e :: (init ++ [z]) ++ [e]) with ((e :: init ++ [z]) ++ [e]) in Halt.
      apply (alternating_snoc true (e :: init ++ [z]) z e) in Halt.
      2:{ change (e :: init ++ [z]) with ((e :: init) ++ [z]). by rewrite last_snoc. }
      destruct Halt as [Halt Hclose].
      cbn [length] in Hclose. rewrite Nat.even_succ, <- Nat.negb_even, Hev in Hclose.
      simpl in Hclose.
      destruct init as [|m0 init]; [simpl in Hlen; lia|].
      cbn [app alternating] in Halt. destruct Halt as [Hfirst Halt].
      cbn [alternating]. split; [|done].
      destruct Hclose as [Hz _], Hfirst as [Hm _]. split; [congruence|].
      intros Hcol. apply NoDup_app in Hnd as (_ & Hiz & _).
      apply (Hiz m0); [left|]. apply list_elem_of_singleton.
      destruct m0, z; simpl in *; congruence.
  - assert (Nat.Odd (length rest)) as Hodd.
    { apply Nat.odd_spec. by rewrite <- Nat.negb_even, Hev. }
    split; [done|]. destruct Hodd as [k Hk]. lia.
Qed.

(** The least-cost start of [stepProblem] is a spanning tree:
    (0,0), (0,1), (1,1). *)
Lemma stepGrid_basis : basis_inv 2 2 (solveLeastCost stepProblem).
Proof.
  apply basis_inv_intro; try done.
  - split; [done|]. vm_compute. by repeat constructor.
  - assert (adjacent (solveLeastCost stepProblem) (RowN 0) (ColN 0)) as H00 by reflexivity.
    assert (adjacent (solveLeastCost stepProblem) (RowN 0) (ColN 1)) as H01 by reflexivity.
    assert (adjacent (solveLeastCost stepProblem) (ColN 1) (RowN 1)) as H11 by reflexivity.
    intros [r|c] Hx; simpl in Hx.
    + assert (r = 0 ∨ r = 1) as [-> | ->] by lia.
      * done.
      * eapply rtc_l; [exact H01|]. by eapply rtc_once.
    + assert (c = 0 ∨ c = 1) as [-> | ->] by lia; by eapply rtc_once.
Qed.

(** C4 (as written, refuted on the length).  On the least-cost start of
    [stepProblem], a spanning-tree basis, with the non-basic entering cell
    (1,0), [findLoop] returns the five nodes
    (1,0), (1,1), (0,1), (0,0), (1,0): the sequence begins and ends with the
    entering cell, so its length is odd, not even. *)
Lemma findLoop_length_counterexample :
  basis_inv 2 2 (solveLeastCost stepProblem) ∧
  isBasicAt (solveLeastCost stepProblem) 1 0 = false ∧
  findLoop (1, 0) (solveLeastCost stepProblem)
    = Ok (Some [(1, 0); (1, 1); (0, 1); (0, 0); (1, 0)]) ∧
  ¬ (∀ l, findLoop (1, 0) (solveLeastCost stepProblem) = Ok (Some l) →
          Nat.Even (length l) ∧ (4 ≤ length l)%nat).
Proof.
  split; [exact stepGrid_basis|]. split; [reflexivity|].
  assert (findLoop (1, 0) (solveLeastCost stepProblem)
          = Ok (Some [(1, 0); (1, 1); (0, 1); (0, 0); (1, 0)])) as Hrun
    by (vm_compute; reflexivity).
  split; [exact Hrun|]. intros Hall. destruct (Hall _ Hrun) as [[k Hk] _].
  simpl in Hk. lia.
Qed.

(** C4 (amended).  On a grid satisfying the spanning-tree basis invariant and
    for a non-basic entering cell [e] of the grid, [findLoop] does not fail:
    it returns a sequence [e :: mid ++ [e]] that begins at the entering cell
    and returns to it, alternates row-moves and column-moves (the first one
    a row-move), makes an even number, at least 4, of moves, so that the
    returned sequence has odd length at least 5, uses only basic cells as
    intermediate hops, and repeats no cell but the entering cell at its two
    ends. *)
Theorem findLoop_cycle rows cols g e :
  basis_inv rows cols g → in_grid rows cols e → isBasicAt g e.1 e.2 = false →
  ∃ mid, findLoop e g = Ok (Some (e :: mid ++ [e])) ∧
         alternating true (e :: mid ++ [e]) ∧
         Nat.Even (length mid + 1) ∧ (4 ≤ length mid + 1)%nat ∧
         Nat.Odd (length (e :: mid ++ [e])) ∧ (5 ≤ length (e :: mid ++ [e]))%nat ∧
         (∀ n, n ∈ mid → isBasicAt g n.1 n.2 = true) ∧
         NoDup (e :: mid).
Proof.
  intros Hinv He Hnb. destruct Hinv.
  destruct (findLoop_found rows cols g e bi_wf0 bi_rows0 He) as (mid & Hrun & Hcomp).
  { by apply (connected_completion rows cols). }
  destruct (completion_odd g e mid bi_acyclic0 Hcomp) as [[k Hk] Hlen].
  apply completion_top in Hcomp as (Halt & Hnd & Hb & _).
  exists mid. split_and!; try done.
  - exists (k + 1)%nat. lia.
  - lia.
  - exists (k + 1)%nat. cbn [length]. rewrite length_app. simpl. lia.
  - cbn [length]. rewrite length_app. simpl. lia.
Qed.

Lemma findLoop_cycle_witness :
  basis_inv 2 3 staleGrid ∧ in_grid 2 3 (0, 0) ∧ isBasicAt staleGrid 0 0 = false ∧
  ∃ mid, findLoop (0, 0) staleGrid = Ok (Some ((0, 0) :: mid ++ [(0, 0)])) ∧
         alternating true ((0, 0) :: mid ++ [(0, 0)]) ∧
         Nat.Even (length mid + 1) ∧ (4 ≤ length mid + 1)%nat ∧
         Nat.Odd (length ((0, 0) :: mid ++ [(0, 0)])) ∧
         (5 ≤ length ((0%Z, 0%Z) :: mid ++ [(0%Z, 0%Z)]))%nat ∧
         (∀ n, n ∈ mid → isBasicAt staleGrid n.1 n.2 = true) ∧
         NoDup ((0, 0) :: mid).
Proof.
  assert (in_grid 2 3 (0, 0)) as He by (unfold in_grid; simpl; lia).
  exact (conj staleGrid_basis (conj He (conj eq_refl
           (findLoop_cycle 2 3 staleGrid (0, 0) staleGrid_basis He eq_refl)))).
Defined.

(** * [performFullIteration] *)

(** [calculateOpportunityCosts] on a rectangular grid: the grid keeps its
    shape, every cell is annotated, and the entering cell, when there is one,
    is a cell of the grid holding the minimum. *)
Lemma calculateOpportunityCosts_run rows cols g u v :
  wf_grid rows cols g →
  ∃ g1 minDelta enteringCell,
    calculateOpportunityCosts g u v = (g1, minDelta, enteringCell) ∧
    wf_grid rows cols g1 ∧
    (∀ r c, cell_at g1 r c = annotate u v r c <$> cell_at g r c) ∧
    match enteringCell with
    | None => minDelta = PInf
    | Some e => ∃ d, minDelta = Fin d ∧ in_grid rows cols e ∧ deltaAt u v g e = Some d
    end.
Proof.
  intros Hwf. unfold calculateOpportunityCosts.
  rewrite (scan_of_grid rows cols g Hwf).
  destruct (oppFold_spec u v (scan rows cols) g PInf None) as (g' & Hrun & Hcells).
  destruct (minScan_spec (deltaAt u v g) (scan rows cols)) as (m & e & Hmin & Hspec).
  rewrite Hmin in Hrun. cbn [fst snd] in Hrun.
  exists g', m, e. split; [done|]. split; [|split].
  - pose proof (oppFold_wf rows cols u v (scan rows cols) g PInf None Hwf) as H.
    by rewrite Hrun in H.
  - intros r c. rewrite Hcells. case_decide as Hin; [done|].
    destruct (cell_at g r c) eqn:Ecl; [|done]. exfalso. apply Hin.
    apply elem_of_scan, (cell_at_range rows cols g r c Hwf). by rewrite Ecl.
  - destruct e as [e|]; [|by destruct Hspec].
    destruct Hspec as (i & d & -> & Hi & Hd & _). exists d. split_and!; try done.
    apply list_elem_of_lookup_2 in Hi. destruct e as [r c]. by apply elem_of_scan in Hi.
Qed.

Lemma isBasicAt_annotate (g : Grid) u v (g1 : Grid) :
  (∀ r c, cell_at g1 r c = annotate u v r c <$> cell_at g r c) →
  ∀ r c, isBasicAt g1 r c = isBasicAt g r c.
Proof.
  intros Hcells r c. unfold isBasicAt. rewrite Hcells. by destruct (cell_at g r c).
Qed.

Lemma completion_in_grid rows cols g e h rest n :
  wf_grid rows cols g → in_grid rows cols e → completion g e [e] h rest →
  n ∈ e :: rest ++ [e] → is_Some (cell_at g n.1 n.2).
Proof.
  intros Hwf He (_ & _ & Hb & _)%completion_top Hn.
  assert (n = e ∨ n ∈ rest) as [->|Hin].
  { rewrite elem_of_cons, elem_of_app, list_elem_of_singleton in Hn. tauto. }
  - by apply (cell_at_range rows cols g e.1 e.2 Hwf).
  - specialize (Hb n Hin). unfold isBasicAt in Hb.
    by destruct (cell_at g n.1 n.2).
Qed.

(** * The cost of a pivot *)

Lemma addCellCost_finite s cl :
  (allocation cl = None ∨ ∃ a, allocation cl = Some (Fin a)) →
  addCellCost (Fin s) cl = Fin (s + shipCost cl).
Proof.
  unfold addCellCost, shipCost, qty. intros [->|[a ->]]; [f_equal; lia|].
  simpl. destruct (a =? 0) eqn:E; simpl; [|done].
  apply Z.eqb_eq in E as ->. f_equal. lia.
Qed.

Lemma foldl_addCellCost_finite s cells :
  (∀ cl, cl ∈ cells → allocation cl = None ∨ ∃ a, allocation cl = Some (Fin a)) →
  foldl addCellCost (Fin s) cells = Fin (s + zsum (shipCost <$> cells)).
Proof.
  revert s. induction cells as [|cl cells IH]; intros s Hfin; csimpl.
  - f_equal. lia.
  - rewrite addCellCost_finite by (apply Hfin; left).
    rewrite IH by (intros; apply Hfin; by right). f_equal. lia.
Qed.

(** On finite allocations the total cost is the sum of quantity times cost. *)
Lemma calculateTotalCost_gridSum g :
  finite_allocations g → calculateTotalCost g = Fin (gridSum shipCost g).
Proof.
  intros Hfin. unfold calculateTotalCost, gridSum.
  assert (∀ cells cl, cells ∈ g → cl ∈ cells →
            allocation cl = None ∨ ∃ a, allocation cl = Some (Fin a)) as Hall.
  { intros cells cl [r Hr]%elem_of_zget [c Hc]%elem_of_zget.
    apply (Hfin r c). unfold cell_at. by rewrite Hr. }
  clear Hfin.
  assert (∀ s, foldl (λ sum cells, foldl addCellCost sum cells) (Fin s) g
               = Fin (s + zsum ((λ cells, zsum (shipCost <$> cells)) <$> g))) as Hgen.
  { induction g as [|cells g IH]; intros s; csimpl.
    - f_equal. lia.
    - rewrite foldl_addCellCost_finite by (intros; eapply Hall; [left|done]).
      rewrite IH by (intros; eapply Hall; [by right|done]). f_equal. lia. }
  by rewrite Hgen.
Qed.

(** The cells after the second loop of [applyPivot], along a loop that
    repeats no cell. *)
Lemma applyTheta_cells theta g loop b g1 (i : nat) n :
  applyTheta theta g loop b = Ok g1 → NoDup loop → loop !! i = Some n →
  cell_at g1 n.1 n.2 =
  (if (if Nat.even i then b else negb b) then plusCell theta else minusCell theta)
    <$> cell_at g n.1 n.2.
Proof.
  revert g b i. induction loop as [|n0 loop IH]; intros g b i Hrun Hnd Hi; [done|].
  apply NoDup_cons in Hnd as [Hn0 Hnd]. cbn [applyTheta] in Hrun.
  destruct (cell_at g n0.1 n0.2) as [cl0|] eqn:Ecl0; [|done].
  destruct i as [|i].
  - injection Hi as <-. destruct n0 as [r0 c0]. cbn [fst snd] in *.
    rewrite (applyTheta_frame _ _ _ _ _ r0 c0 Hrun Hn0).
    by rewrite cell_at_upd_eq.
  - simpl in Hi. rewrite (IH _ _ i Hrun Hnd Hi).
    rewrite cell_at_upd_ne.
    2:{ intros Heq. apply Hn0. apply list_elem_of_lookup_2 in Hi.
        destruct n0, n. simpl in *. by injection Heq as -> ->. }
    rewrite Nat.even_succ, <- Nat.negb_even.
    by destruct (Nat.even i), b.
Qed.

Lemma thetaDelta_upd h theta g r c f loop b :
  (r, c) ∉ loop →
  thetaDelta h theta (upd g r c f) loop b = thetaDelta h theta g loop b.
Proof.
  revert b. induction loop as [|n loop IH]; intros b Hnin; [done|].
  apply not_elem_of_cons in Hnin as [Hne Hnin]. cbn [thetaDelta].
  rewrite IH by done. rewrite cell_at_upd_ne; [done|].
  intros Heq. apply Hne. destruct n. simpl in *. done.
Qed.

Lemma applyTheta_gridSum h theta g loop b g1 :
  applyTheta theta g loop b = Ok g1 → NoDup loop →
  gridSum h g1 = gridSum h g + thetaDelta h theta g loop b.
Proof.
  revert g b. induction loop as [|n loop IH]; intros g b Hrun Hnd.
  - injection Hrun as <-. simpl. lia.
  - apply NoDup_cons in Hnd as [Hn Hnd]. cbn [applyTheta thetaDelta] in *.
    destruct (cell_at g n.1 n.2) as [cl|] eqn:Ecl; [|done].
    rewrite (IH _ _ Hrun Hnd), (gridSum_upd h g n.1 n.2 _ cl Ecl).
    rewrite thetaDelta_upd by (by destruct n). simpl. lia.
Qed.

Lemma altsum_ext (f f' : LoopNode → Z) l :
  (∀ n, n ∈ l → f n = f' n) → altsum f l = altsum f' l.
Proof.
  induction l as [|n l IH]; intros H; [done|]. cbn [altsum].
  rewrite (H n) by left. rewrite IH; [done|]. intros; apply H; by right.
Qed.

Lemma basicShipCost_plus theta cl a :
  isBasin cl = true → allocation cl = Some (Fin a) →
  basicShipCost (plusCell (Fin theta) (copyCell cl)) - basicShipCost (copyCell cl)
  = theta * cost cl.
Proof.
  destruct cl as [r c k al b hl oc]. simpl. intros -> ->.
  unfold basicShipCost, shipCost, qty. simpl. lia.
Qed.

Lemma basicShipCost_minus theta cl a :
  isBasin cl = true → allocation cl = Some (Fin a) →
  basicShipCost (minusCell (Fin theta) (copyCell cl)) - basicShipCost (copyCell cl)
  = - theta * cost cl.
Proof.
  destruct cl as [r c k al b hl oc]. simpl. intros -> ->.
  unfold basicShipCost, shipCost, qty. simpl. lia.
Qed.

(** Along basic cells with finite allocations the loop shifts the cost by
    theta times the alternating sum of the unit costs. *)
Lemma thetaDelta_basic theta g loop b :
  (∀ n, n ∈ loop → ∃ cl a, cell_at g n.1 n.2 = Some cl ∧ isBasin cl = true ∧
                           allocation cl = Some (Fin a)) →
  thetaDelta basicShipCost (Fin theta) (map (map copyCell) g) loop b =
  (if b then 1 else -1) * theta * altsum (cellCost g) loop.
Proof.
  revert b. induction loop as [|n loop IH]; intros b Hall; cbn [thetaDelta altsum]; [lia|].
  rewrite IH by (intros; apply Hall; by right).
  destruct (Hall n) as (cl & a & Hcl & Hb & Ha); [left|].
  rewrite cell_at_map. unfold cellCost at 2. rewrite Hcl. cbn [fmap option_fmap option_map from_option].
  destruct b; cbn [negb].
  - rewrite (basicShipCost_plus theta cl a Hb Ha). lia.
  - rewrite (basicShipCost_minus theta cl a Hb Ha). lia.
Qed.

Lemma everyOther_snoc {A} b (l : list A) x :
  everyOther b (l ++ [x]) =
  everyOther b l ++ (if Bool.eqb (Nat.even (length l)) b then [x] else []).
Proof.
  revert b. induction l as [|y l IH]; intros b.
  - by destruct b.
  - cbn [app everyOther length]. rewrite Nat.even_succ, <- Nat.negb_even.
    destruct b; rewrite IH; cbn [app]; by destruct (Nat.even (length l)).
Qed.

Lemma minusNodes_loop (e : LoopNode) mid :
  Nat.Odd (length mid) → minusNodes (e :: mid ++ [e]) = everyOther true mid.
Proof.
  intros Hodd%Nat.odd_spec. unfold minusNodes. cbn [everyOther].
  rewrite everyOther_snoc. rewrite <- Nat.negb_odd, Hodd. simpl. by rewrite app_nil_r.
Qed.

Lemma take_loop (e : LoopNode) mid :
  take (length (e :: mid ++ [e]) - 1) (e :: mid ++ [e]) = e :: mid.
Proof.
  cbn [length]. rewrite length_app. simpl.
  replace (length mid + 1 - 0)%nat with (S (length mid)) by lia.
  cbn [take]. f_equal. by rewrite take_app_length.
Qed.

(** The run of [applyPivot] on a loop that is ready: theta is the least
    allocation of the minus cells, the leaving cell the first one holding
    it. *)
Lemma applyPivot_run g e mid :
  pivot_ready g e mid →
  ∃ theta (k : nat) lv g1,
    everyOther true mid !! k = Some lv ∧ allocAt g lv = Some (Fin theta) ∧
    (∀ (i : nat) n a, everyOther true mid !! i = Some n → allocAt g n = Some (Fin a) →
                      theta ≤ a ∧ ((i < k)%nat → theta < a)) ∧
    applyTheta (Fin theta) (map (map copyCell) g) (e :: mid) true = Ok g1 ∧
    applyPivot g (e :: mid ++ [e]) =
      Ok (map (map cleanupCell)
            (upd (upd g1 lv.1 lv.2 leaveCell) e.1 e.2 (set_isBasin true)), Fin theta).
Proof.
  intros [(cle & Hcle & Hnb) Hnd Hodd Hmid].
  assert (∀ n, n ∈ e :: mid ++ [e] → is_Some (cell_at g n.1 n.2)) as Hin.
  { intros n. rewrite elem_of_cons, elem_of_app, list_elem_of_singleton.
    intros [->|[Hn| ->]]; [done| |done].
    destruct (Hmid n Hn) as (cl & _ & -> & _). done. }
  destruct (applyPivot_total g (e :: mid ++ [e]) ltac:(done) Hin) as (g' & t & Hrun).
  pose proof Hrun as (lv & g1 & start & rest & Heq & Hscan & Happ & _ & ->)%applyPivot_inv.
  injection Heq as <- <-.
  rewrite (minusNodes_loop e mid Hodd) in Hscan.
  change (e :: mid ++ [e]) with (e :: (mid ++ [e])) in Happ. rewrite take_loop in Happ.
  destruct (thetaScan_min g (everyOther true mid) PInf None)
    as (t' & lv' & Hscan' & Hcase).
  { intros n Hn%everyOther_subseteq. destruct (Hmid n Hn) as (cl & a & Hcl & _ & Ha).
    exists a. unfold allocAt. by rewrite Hcl. }
  pose proof (eq_trans (eq_sym Hscan) Hscan') as Heq. injection Heq as -> ->.
  destruct Hcase as [(_ & _ & Hall)|(k & n & m & Hk & -> & -> & Hm & _ & Hall)].
  - exfalso. destruct mid as [|m0 mid]; [destruct Hodd as [x Hx]; simpl in Hx; lia|].
    destruct (Hmid m0) as (cl & a & Hcl & _ & Ha); [left|].
    specialize (Hall m0 a). cbn [everyOther] in Hall.
    assert (nlt (Fin a) PInf = false) as Hlt.
    { apply Hall; [left|]. unfold allocAt. by rewrite Hcl. }
    done.
  - exists m, k, n, g1. by split_and!.
Qed.

Lemma finite_allocations_Forall g :
  Forall (λ cl, allocation cl = None ∨ ∃ a, allocation cl = Some (Fin a)) (concat g) →
  finite_allocations g.
Proof.
  intros H r c cl Hcl. rewrite Forall_forall in H.
  apply H. by eapply cell_at_elem_of_concat.
Qed.

Lemma nonbasic_empty_Forall g :
  Forall (λ cl, isBasin cl = false → allocation cl = None) (concat g) →
  nonbasic_empty g.
Proof.
  intros H r c cl Hcl. rewrite Forall_forall in H.
  apply H. by eapply cell_at_elem_of_concat.
Qed.

(** A pivot by a finite theta keeps the allocations finite. *)
Lemma applyPivot_finite g loop g' theta :
  finite_allocations g → applyPivot g loop = Ok (g', Fin theta) →
  finite_allocations g'.
Proof.
  intros Hfin Hrun.
  pose (R := λ cl cl' : Cell,
          (allocation cl = None ∨ ∃ a, allocation cl = Some (Fin a)) →
          (allocation cl' = None ∨ ∃ a, allocation cl' = Some (Fin a))).
  assert (cells_rel R g g') as Hrel.
  { apply (applyPivot_rel R g loop g' (Fin theta)); unfold R; try done.
    - auto.
    - intros cl [H|[a H]]; right; unfold copyCell; simpl; rewrite H; simpl; eauto.
    - intros cl [H|[a H]]; right; unfold plusCell; simpl; rewrite H; simpl; eauto.
    - intros cl [H|[a H]]; right; unfold minusCell; simpl; rewrite H; simpl; eauto.
    - intros cl _. by left.
    - intros cl H. unfold cleanupCell. destruct (isBasin cl); [done|by left]. }
  intros r c cl' Hcl'. specialize (Hrel r c). rewrite Hcl' in Hrel.
  inversion Hrel as [cl ? HR Hcl|]; subst. apply HR. by eapply Hfin.
Qed.

Lemma shipCost_cleanupCell cl : shipCost (cleanupCell cl) = basicShipCost cl.
Proof.
  unfold basicShipCost, cleanupCell. destruct (isBasin cl); [done|].
  unfold shipCost, qty. simpl. lia.
Qed.

Lemma basicShipCost_copyCell cl :
  (isBasin cl = false → allocation cl = None) →
  basicShipCost (copyCell cl) = shipCost cl.
Proof.
  unfold basicShipCost, shipCost, qty, copyCell. simpl.
  destruct (isBasin cl); [by destruct (allocation cl)|].
  intros ->; [|done]. lia.
Qed.

(** The change of the sum of quantity times cost made by a pivot. *)
Lemma applyPivot_gridSum g e mid :
  nonbasic_empty g → pivot_ready g e mid →
  ∃ g' theta,
    applyPivot g (e :: mid ++ [e]) = Ok (g', Fin theta) ∧
    gridSum shipCost g' =
    gridSum shipCost g + theta * (cellCost g e - altsum (cellCost g) mid).
Proof.
  intros Hempty Hready.
  destruct (applyPivot_run g e mid Hready)
    as (theta & k & lv & g1 & Hk & Hlv & _ & Happ & Hrun).
  destruct Hready as [(cle & Hcle & Hnb) Hnd Hodd Hmid].
  eexists _, theta. split; [exact Hrun|].
  assert (lv ∈ mid) as Hlvmid.
  { apply list_elem_of_lookup_2 in Hk. by eapply everyOther_subseteq. }
  destruct (Hmid lv Hlvmid) as (cll & a & Hcll & Hbl & Hal).
  assert (a = theta) as ->.
  { unfold allocAt in Hlv. rewrite Hcll in Hlv. simpl in Hlv. congruence. }
  pose proof Hnd as [He Hndmid]%NoDup_cons.
  assert (lv ≠ e) as Hne by (by intros ->).
  (* the cells of the leaving and of the entering cell after the second loop *)
  assert (cell_at g1 lv.1 lv.2 = Some (minusCell (Fin theta) (copyCell cll))) as Hlv1.
  { destruct (everyOther_lookup mid k) as [_ Hev]. rewrite Hev in Hk.
    rewrite (applyTheta_cells _ _ _ _ _ (S (2 * k)) lv Happ Hnd Hk).
    rewrite Nat.even_succ, <- Nat.negb_even, Nat.even_mul. simpl.
    by rewrite cell_at_map, Hcll. }
  assert (cell_at g1 e.1 e.2 = Some (plusCell (Fin theta) (copyCell cle))) as He1.
  { rewrite (applyTheta_cells _ _ _ _ _ 0%nat e Happ Hnd eq_refl). simpl.
    by rewrite cell_at_map, Hcle. }
  rewrite gridSum_map.
  rewrite (gridSum_ext (shipCost ∘ cleanupCell) basicShipCost)
    by (intros; apply shipCost_cleanupCell).
  erewrite gridSum_upd.
  2:{ rewrite cell_at_upd_ne; [exact He1|]. intros Heq. apply Hne.
      destruct lv, e. simpl in *. by injection Heq as -> ->. }
  erewrite gridSum_upd by exact Hlv1.
  rewrite (applyTheta_gridSum _ _ _ _ _ _ Happ Hnd).
  rewrite gridSum_map.
  rewrite (gridSum_ext (basicShipCost ∘ copyCell) shipCost).
  2:{ intros r c cl Hcl. apply basicShipCost_copyCell. by apply (Hempty r c). }
  cbn [thetaDelta]. rewrite cell_at_map, Hcle. cbn [fmap option_fmap option_map from_option negb].
  rewrite (thetaDelta_basic theta g mid false Hmid).
  assert (allocation cle = None) as Hale by (by apply (Hempty e.1 e.2)).
  assert (cellCost g e = cost cle) as -> by (unfold cellCost; by rewrite Hcle).
  assert (basicShipCost (set_isBasin true (plusCell (Fin theta) (copyCell cle)))
          = theta * cost cle) as ->.
  { unfold basicShipCost, shipCost, qty, plusCell, copyCell. simpl. rewrite Hale. simpl. lia. }
  assert (basicShipCost (plusCell (Fin theta) (copyCell cle)) = theta * cost cle) as ->.
  { unfold basicShipCost, shipCost, qty, plusCell, copyCell. simpl. rewrite Hale. simpl. lia. }
  assert (basicShipCost (copyCell cle) = 0) as ->.
  { unfold basicShipCost, copyCell. simpl. by rewrite Hnb. }
  assert (basicShipCost (leaveCell (minusCell (Fin theta) (copyCell cll))) = 0) as ->.
  { done. }
  assert (basicShipCost (minusCell (Fin theta) (copyCell cll)) = 0) as ->.
  { unfold basicShipCost, shipCost, qty, minusCell, copyCell. simpl. rewrite Hbl, Hal.
    simpl. lia. }
  lia.
Qed.

(** Along the loop the unit costs of the basic cells add up, with
    alternating signs, to the two potentials of the entering cell. *)
Lemma loop_altsum g (e : LoopNode) mid h u v :
  alternating h (e :: mid ++ [e]) → Nat.Odd (length mid) →
  (∀ n, n ∈ mid → dual_eq g u v n) →
  altsum (cellCost g) mid = potAt u v e.
Proof.
  intros Halt Hodd Hdual.
  rewrite (altsum_ext (cellCost g) (potAt u v)).
  2:{ intros n Hn. destruct (Hdual n Hn) as (cl & ur & vc & Hcl & _ & Hu & Hv & Hsum).
      unfold cellCost, potAt. rewrite Hcl, Hu, Hv. simpl. lia. }
  destruct mid as [|m0 l]; [destruct Hodd as [x Hx]; simpl in Hx; lia|].
  destruct (last (m0 :: l)) as [z|] eqn:Hlast; [|by apply last_None in Hlast].
  change (e :: (m0 :: l) ++ [e]) with ((e :: m0 :: l) ++ [e]) in Halt.
  apply (alternating_snoc h (e :: m0 :: l) z e) in Halt; [|by rewrite last_cons_cons].
  destruct Halt as [Halt Hclose]. cbn [alternating] in Halt. destruct Halt as [Hfirst Halt].
  apply Nat.odd_spec in Hodd.
  change (length (e :: m0 :: l)) with (S (length (m0 :: l))) in Hclose.
  rewrite Nat.even_succ, Hodd in Hclose.
  change (length (m0 :: l)) with (S (length l)) in Hodd.
  rewrite Nat.odd_succ in Hodd.
  pose proof (altsum_telescope (λ r, default 0 (known u r)) (λ c, default 0 (known v c))
                l m0 z (negb h) Halt Hlast) as Htel.
  rewrite Hodd in Htel. unfold potAt. unfold potAt in Htel. rewrite Htel.
  unfold move in *. destruct h; simpl in *.
  - destruct Hfirst as [-> _], Hclose as [-> _]. done.
  - destruct Hfirst as [-> _], Hclose as [-> _]. lia.
Qed.

(** C6.  Let the grid carry finite allocations, none on a non-basic cell,
    and let [e :: mid ++ [e]] be a valid alternating cycle: [e] a non-basic
    cell, [mid] an odd number of distinct basic cells, row-moves and
    column-moves in turn.  Let the potentials satisfy [u[r] + v[c] = cost] on
    the basic cells of the cycle and let [d] be the opportunity cost of the
    entering cell.  Then the total cost after [applyPivot] is the total cost
    before plus [theta * d]: for [d < 0] it is strictly less when
    [theta > 0], and unchanged when [theta = 0]. *)
Theorem applyPivot_cost g e mid h u v d :
  finite_allocations g → nonbasic_empty g → pivot_ready g e mid →
  alternating h (e :: mid ++ [e]) →
  (∀ n, n ∈ mid → dual_eq g u v n) →
  deltaAt u v g e = Some d → d < 0 →
  ∃ g' theta before after,
    applyPivot g (e :: mid ++ [e]) = Ok (g', Fin theta) ∧
    calculateTotalCost g = Fin before ∧ calculateTotalCost g' = Fin after ∧
    after = before + theta * d ∧
    (0 < theta → after < before) ∧ (theta = 0 → after = before).
Proof.
  intros Hfin Hempty Hready Halt Hdual Hd Hneg.
  destruct (applyPivot_gridSum g e mid Hempty Hready) as (g' & theta & Hrun & Hsum).
  exists g', theta, (gridSum shipCost g), (gridSum shipCost g').
  split; [done|]. split; [by apply calculateTotalCost_gridSum|].
  split; [eapply calculateTotalCost_gridSum, applyPivot_finite; done|].
  rewrite (loop_altsum g e mid h u v Halt (pr_odd _ _ _ Hready) Hdual) in Hsum.
  assert (cellCost g e - potAt u v e = d) as Hde.
  { unfold deltaAt, deltaOf, cellCost, potAt in *.
    destruct (cell_at g e.1 e.2) as [cl|]; [|done]. simpl in *.
    destruct (isBasin cl); [done|].
    destruct (known u e.1), (known v e.2); simpl in *; try done.
    injection Hd as <-. lia. }
  rewrite Hde in Hsum. split; [done|]. split; [nia|]. intros ->. lia.
Qed.

Lemma stepGrid_finite : finite_allocations (solveLeastCost stepProblem).
Proof.
  apply finite_allocations_Forall. vm_compute.
  repeat (apply Forall_cons_2; [simpl; eauto|]). apply Forall_nil_2.
Qed.

Lemma stepGrid_nonbasic_empty : nonbasic_empty (solveLeastCost stepProblem).
Proof.
  apply nonbasic_empty_Forall. vm_compute. repeat constructor; done.
Qed.

Lemma stepGrid_ready : pivot_ready (solveLeastCost stepProblem) (1, 0) stepMid.
Proof.
  constructor.
  - eexists. split; reflexivity.
  - apply NoDup_ListNoDup. repeat constructor; simpl; intuition congruence.
  - by exists 1%nat.
  - intros n Hn. unfold stepMid in Hn.
    repeat (apply elem_of_cons in Hn as [->|Hn];
            [eexists _, _; split; [reflexivity|split; reflexivity]|]).
    inversion Hn.
Qed.

Lemma stepGrid_dual n :
  n ∈ stepMid → dual_eq (solveLeastCost stepProblem) stepU stepV n.
Proof.
  intros Hn. unfold stepMid in Hn.
  repeat (apply elem_of_cons in Hn as [->|Hn];
          [eexists _, _, _; split; [reflexivity|repeat split; reflexivity]|]).
  inversion Hn.
Qed.

Lemma applyPivot_cost_witness :
  finite_allocations (solveLeastCost stepProblem) ∧
  nonbasic_empty (solveLeastCost stepProblem) ∧
  pivot_ready (solveLeastCost stepProblem) (1, 0) stepMid ∧
  alternating true ((1, 0) :: stepMid ++ [(1, 0)]) ∧
  (∀ n, n ∈ stepMid → dual_eq (solveLeastCost stepProblem) stepU stepV n) ∧
  deltaAt stepU stepV (solveLeastCost stepProblem) (1, 0) = Some (-6) ∧ -6 < 0 ∧
  ∃ g' theta before after,
    applyPivot (solveLeastCost stepProblem) ((1, 0) :: stepMid ++ [(1, 0)])
      = Ok (g', Fin theta) ∧
    calculateTotalCost (solveLeastCost stepProblem) = Fin before ∧
    calculateTotalCost g' = Fin after ∧
    after = before + theta * -6 ∧
    (0 < theta → after < before) ∧ (theta = 0 → after = before).
Proof.
  assert (alternating true ((1, 0) :: stepMid ++ [(1, 0)])) as Halt.
  { simpl. unfold move. simpl. intuition congruence. }
  assert (-6 < 0) as Hneg by lia.
  exact (conj stepGrid_finite (conj stepGrid_nonbasic_empty (conj stepGrid_ready
           (conj Halt (conj stepGrid_dual (conj eq_refl (conj Hneg
              (applyPivot_cost (solveLeastCost stepProblem) (1, 0) stepMid true
                 stepU stepV (-6) stepGrid_finite stepGrid_nonbasic_empty
                 stepGrid_ready Halt stepGrid_dual eq_refl Hneg)))))))).
Defined.

(** * The basis after a pivot *)

Lemma alternating_app h (l1 : list LoopNode) x l2 :
  alternating h (l1 ++ x :: l2) ↔
  alternating h (l1 ++ [x]) ∧ alternating (flipDir h (length l1)) (x :: l2).
Proof.
  revert h. induction l1 as [|a l1 IH]; intros h.
  - simpl. unfold flipDir. simpl. tauto.
  - destruct l1 as [|b l1].
    + cbn [app alternating length]. unfold flipDir. simpl. tauto.
    + change ((a :: b :: l1) ++ x :: l2) with (a :: (b :: l1) ++ x :: l2).
      change ((a :: b :: l1) ++ [x]) with (a :: (b :: l1) ++ [x]).
      change (alternating h (a :: (b :: l1) ++ x :: l2))
        with (move h a b ∧ alternating (negb h) ((b :: l1) ++ x :: l2)).
      change (alternating h (a :: (b :: l1) ++ [x]))
        with (move h a b ∧ alternating (negb h) ((b :: l1) ++ [x])).
      rewrite (IH (negb h)).
      assert (flipDir h (length (a :: b :: l1)) = flipDir (negb h) (length (b :: l1))) as ->.
      { unfold flipDir. change (length (a :: b :: l1)) with (S (length (b :: l1))).
        rewrite Nat.even_succ, <- Nat.negb_even.
        by destruct (Nat.even (length (b :: l1))), h. }
      tauto.
Qed.

Lemma move_lineOf h a b : move h a b → lineOf h a = lineOf h b.
Proof. unfold move, lineOf. destruct h; intros [-> _]; done. Qed.

Lemma basic_lineOf g h a :
  isBasicAt g a.1 a.2 = true → adjacent g (lineOf h a) (lineOf (negb h) a).
Proof. by destruct h. Qed.

(** A chain of basic cells joins the line of its first move to the line of
    its last move. *)
Lemma alt_walk g h a l z :
  alternating h (a :: l ++ [z]) → (∀ n, n ∈ l → isBasicAt g n.1 n.2 = true) →
  rtc (adjacent g) (lineOf h a) (lineOf (flipDir h (length l)) z).
Proof.
  revert h a. induction l as [|b l IH]; intros h a Halt Hb.
  - simpl in Halt. destruct Halt as [Hmove _]. unfold flipDir. simpl.
    by rewrite (move_lineOf h a z Hmove).
  - change (a :: (b :: l) ++ [z]) with (a :: b :: l ++ [z]) in Halt.
    cbn [alternating] in Halt. destruct Halt as [Hmove Halt].
    rewrite (move_lineOf h a b Hmove).
    eapply rtc_l; [apply basic_lineOf, Hb; left|].
    assert (flipDir h (length (b :: l)) = flipDir (negb h) (length l)) as ->.
    { unfold flipDir. cbn [length]. rewrite Nat.even_succ, <- Nat.negb_even.
      by destruct (Nat.even (length l)), h. }
    apply IH; [done|]. intros; apply Hb; by right.
Qed.

(** Around the loop, the two lines of a cell of [mid] are joined by the other
    cells of the loop. *)
Lemma loop_detour g' h (e : LoopNode) pre lv post :
  alternating h (e :: (pre ++ lv :: post) ++ [e]) →
  Nat.Odd (length (pre ++ lv :: post)) →
  isBasicAt g' e.1 e.2 = true →
  (∀ n, n ∈ pre ++ post → isBasicAt g' n.1 n.2 = true) →
  rtc (adjacent g') (RowN lv.1) (ColN lv.2).
Proof.
  intros Halt Hodd He Hb.
  assert (e :: (pre ++ lv :: post) ++ [e] = (e :: pre) ++ lv :: (post ++ [e])) as Heq.
  { by rewrite <- app_assoc. }
  rewrite Heq in Halt. apply alternating_app in Halt as [HA HB].
  set (hB := flipDir h (length (e :: pre))) in *.
  (* the chain lv, post, e, pre, lv *)
  assert (alternating hB (lv :: (post ++ e :: pre) ++ [lv])) as Hchain.
  { assert (lv :: (post ++ e :: pre) ++ [lv] = (lv :: post) ++ e :: (pre ++ [lv])) as ->.
    { by rewrite <- app_assoc. }
    apply alternating_app. split; [done|].
    assert (flipDir hB (length (lv :: post)) = h) as ->; [|done].
    apply Nat.odd_spec in Hodd. rewrite length_app in Hodd. cbn [length] in *.
    unfold hB, flipDir. cbn [length].
    rewrite !Nat.even_succ, <- !Nat.negb_even.
    rewrite <- Nat.negb_even, Nat.even_add, Nat.even_succ, <- Nat.negb_even in Hodd.
    by destruct (Nat.even (length pre)), (Nat.even (length post)), h. }
  pose proof (alt_walk g' hB lv (post ++ e :: pre) lv Hchain) as Hwalk.
  lapply Hwalk; clear Hwalk.
  2:{ intros n. rewrite elem_of_app, elem_of_cons. intros [?|[->|?]]; [|done|];
      apply Hb, elem_of_app; auto. }
  assert (flipDir hB (length (post ++ e :: pre)) = negb hB) as ->.
  { apply Nat.odd_spec in Hodd. rewrite length_app in *. cbn [length] in *.
    unfold flipDir.
    rewrite <- Nat.negb_even, Nat.even_add, Nat.even_succ, <- Nat.negb_even in Hodd.
    rewrite Nat.even_add, Nat.even_succ, <- Nat.negb_even.
    by destruct (Nat.even (length pre)), (Nat.even (length post)), hB. }
  destruct hB; simpl; [done|]. apply rtc_adjacent_sym.
Qed.

Lemma isBasin_cleanupCell cl : isBasin (cleanupCell cl) = isBasin cl.
Proof. unfold cleanupCell. by destruct (isBasin cl) eqn:E. Qed.

Lemma node_eta (n : LoopNode) : (n.1, n.2) = n.
Proof. by destruct n. Qed.

Lemma node_pair_ne (a b : LoopNode) : a ≠ b → (a.1, a.2) ≠ (b.1, b.2).
Proof. by rewrite !node_eta. Qed.

(** The basis after the second loop of [applyPivot]: the entering cell has
    joined it. *)
Lemma applyTheta_basis theta g e mid g1 n :
  pivot_ready g e mid →
  applyTheta theta (map (map copyCell) g) (e :: mid) true = Ok g1 →
  n ≠ e → isBasicAt g1 n.1 n.2 = isBasicAt g n.1 n.2.
Proof.
  intros [_ Hnd _ Hmid] Happ Hne. unfold isBasicAt.
  destruct (decide (n ∈ mid)) as [Hin|Hnin].
  - pose proof Hin as [i Hi]%list_elem_of_lookup_1.
    rewrite (applyTheta_cells _ _ _ _ _ (S i) n Happ Hnd Hi), cell_at_map.
    destruct (Hmid n Hin) as (cl & a & -> & Hb & _).
    cbn [fmap option_fmap option_map].
    destruct (if Nat.even (S i) then true else negb true); simpl; by rewrite ?Hb.
  - rewrite <- (node_eta n) in Hne, Hnin.
    rewrite (applyTheta_frame _ _ _ _ _ n.1 n.2 Happ), cell_at_map.
    + by destruct (cell_at g n.1 n.2).
    + rewrite <- (node_eta e). intros [Heq|Hin]%elem_of_cons; [|done].
      by rewrite !node_eta in *.
Qed.

(** The basis after a pivot: the entering cell has replaced the leaving
    cell, a minus cell of the loop. *)
Lemma applyPivot_basis g e mid :
  pivot_ready g e mid →
  ∃ g' theta pre lv post,
    applyPivot g (e :: mid ++ [e]) = Ok (g', Fin theta) ∧ mid = pre ++ lv :: post ∧
    isBasicAt g' e.1 e.2 = true ∧ isBasicAt g' lv.1 lv.2 = false ∧
    (∀ n, n ≠ e → n ≠ lv → isBasicAt g' n.1 n.2 = isBasicAt g n.1 n.2) ∧
    count_basic g' = count_basic g.
Proof.
  intros Hready.
  destruct (applyPivot_run g e mid Hready)
    as (theta & k & lv & g1 & Hk & Hlv & _ & Happ & Hrun).
  pose proof Hready as [(cle & Hcle & Hnb) Hnd Hodd Hmid].
  assert (lv ∈ mid) as Hlvmid.
  { apply list_elem_of_lookup_2 in Hk. by eapply everyOther_subseteq. }
  pose proof Hlvmid as (pre & post & Hsplit)%list_elem_of_split.
  destruct (Hmid lv Hlvmid) as (cll & a & Hcll & Hbl & Hal).
  pose proof Hnd as [He Hndmid]%NoDup_cons.
  assert (lv ≠ e) as Hne by (by intros ->).
  assert (cell_at g1 lv.1 lv.2 = Some (minusCell (Fin theta) (copyCell cll))) as Hlv1.
  { destruct (everyOther_lookup mid k) as [_ Hev]. rewrite Hev in Hk.
    rewrite (applyTheta_cells _ _ _ _ _ (S (2 * k)) lv Happ Hnd Hk).
    rewrite Nat.even_succ, <- Nat.negb_even, Nat.even_mul. simpl.
    by rewrite cell_at_map, Hcll. }
  assert (cell_at g1 e.1 e.2 = Some (plusCell (Fin theta) (copyCell cle))) as He1.
  { rewrite (applyTheta_cells _ _ _ _ _ 0%nat e Happ Hnd eq_refl). simpl.
    by rewrite cell_at_map, Hcle. }
  eexists _, theta, pre, lv, post. split; [exact Hrun|]. split; [done|].
  split_and!.
  - unfold isBasicAt. rewrite cell_at_map, cell_at_upd_eq.
    rewrite cell_at_upd_ne by (by apply node_pair_ne). by rewrite He1.
  - unfold isBasicAt. rewrite cell_at_map.
    rewrite cell_at_upd_ne by (apply node_pair_ne; congruence).
    by rewrite cell_at_upd_eq, Hlv1.
  - intros n Hne1 Hne2. rewrite <- (applyTheta_basis _ g e mid g1 n Hready Happ Hne1).
    unfold isBasicAt. rewrite cell_at_map.
    rewrite !cell_at_upd_ne by (apply node_pair_ne; congruence).
    destruct (cell_at g1 n.1 n.2); [|done]. apply isBasin_cleanupCell.
  - unfold count_basic. rewrite gridSum_map.
    rewrite (gridSum_ext _ (λ cl, if isBasin cl then 1 else 0)).
    2:{ intros r c cl _. simpl. by rewrite isBasin_cleanupCell. }
    erewrite gridSum_upd.
    2:{ rewrite cell_at_upd_ne; [exact He1|]. by apply node_pair_ne. }
    erewrite gridSum_upd by exact Hlv1.
    rewrite (applyTheta_gridSum _ _ _ _ _ _ Happ Hnd), gridSum_map.
    rewrite (gridSum_ext (_ ∘ copyCell) (λ cl, if isBasin cl then 1 else 0)) by done.
    cbn [thetaDelta]. rewrite cell_at_map, Hcle.
    cbn [fmap option_fmap option_map from_option negb].
    assert (thetaDelta (λ cl, if isBasin cl then 1 else 0) (Fin theta)
              (map (map copyCell) g) mid false = 0) as ->.
    { clear -Hmid. generalize false. induction mid as [|n mid IH]; intros b; [done|].
      cbn [thetaDelta]. rewrite IH by (intros; apply Hmid; by right).
      destruct (Hmid n) as (cl & a & Hcl & Hb & _); [left|].
      rewrite cell_at_map, Hcl. simpl. destruct b; simpl; rewrite ?Hb; lia. }
    simpl. rewrite Hnb, Hbl. lia.
Qed.

(** A pivot along the loop of a non-basic cell keeps the basis a spanning
    tree. *)
Lemma applyPivot_basis_inv rows cols g e mid h :
  basis_inv rows cols g → pivot_ready g e mid →
  alternating h (e :: mid ++ [e]) →
  ∃ g' theta, applyPivot g (e :: mid ++ [e]) = Ok (g', Fin theta) ∧
              basis_inv rows cols g'.
Proof.
  intros [Hwf Hrows Hcols Hcount Hconn _] Hready Halt.
  destruct (applyPivot_basis g e mid Hready)
    as (g' & theta & pre & lv & post & Hrun & Hsplit & He & Hlv & Hsame & Hcnt).
  exists g', theta. split; [done|].
  pose proof Hready as [_ Hnd Hodd Hmid].
  assert (wf_grid rows cols g') as Hwf' by (by eapply applyPivot_wf).
  assert (rtc (adjacent g') (RowN lv.1) (ColN lv.2)) as Hdetour.
  { subst mid. apply (loop_detour g' h e pre lv post Halt Hodd He).
    intros n Hn. apply NoDup_cons in Hnd as [Hnin Hnd].
    assert (n ∈ pre ++ lv :: post) as Hin.
    { rewrite elem_of_app, elem_of_cons. apply elem_of_app in Hn. tauto. }
    rewrite Hsame.
    - destruct (Hmid n Hin) as (cl & a & Hcl & Hb & _). unfold isBasicAt. by rewrite Hcl.
    - by intros ->.
    - intros ->. apply NoDup_app in Hnd as (_ & Hpre & Hpost).
      apply NoDup_cons in Hpost as [Hpost _].
      apply elem_of_app in Hn as [Hn|Hn]; [|done]. apply (Hpre lv Hn). left. }
  assert (∀ r c, isBasicAt g r c = true → rtc (adjacent g') (RowN r) (ColN c)) as Hedge.
  { intros r c Hb. destruct (decide ((r, c) = lv)) as [<-|Hne]; [done|].
    apply rtc_once. simpl. change (isBasicAt g' (r, c).1 (r, c).2 = true).
    rewrite (Hsame (r, c)); [done| |done].
    intros <-. destruct Hready as [(cl & Hcl & Hnb) _ _ _]. simpl in *.
    unfold isBasicAt in Hb. rewrite Hcl in Hb. congruence. }
  assert (∀ x y, rtc (adjacent g) x y → rtc (adjacent g') x y) as Hrtc.
  { intros x y Hxy. induction Hxy as [|x y z Hstep _ IH]; [done|].
    etrans; [|exact IH]. destruct x as [r|c], y as [r'|c']; simpl in Hstep; try done.
    - by apply Hedge.
    - by apply rtc_adjacent_sym, Hedge. }
  apply basis_inv_intro; try done; [lia|].
  intros x Hx. apply Hrtc, Hconn; [simpl; lia|done].
Qed.

(** After a pivot along a ready loop every basic cell carries an
    allocation. *)
Lemma applyPivot_basic_allocated g e mid g' theta :
  pivot_ready g e mid → applyPivot g (e :: mid ++ [e]) = Ok (g', theta) →
  basic_allocated g'.
Proof.
  intros Hready Hrun'.
  destruct (applyPivot_run g e mid Hready)
    as (t & k & lv & g1 & Hk & _ & _ & Happ & Hrun).
  pose proof (eq_trans (eq_sym Hrun') Hrun) as Heq. injection Heq as -> ->.
  destruct Hready as [(cle & Hcle & Hnb) Hnd Hodd Hmid].
  assert (lv ≠ e) as Hne.
  { intros ->. apply list_elem_of_lookup_2, everyOther_subseteq in Hk.
    by apply NoDup_cons in Hnd as [? _]. }
  pose (R := λ a b : Cell, allocation a ≠ None → allocation b ≠ None).
  assert (cells_rel R (map (map copyCell) g) g1) as Hrel.
  { apply (applyTheta_rel R (Fin t) _ (e :: mid) true); unfold R; try done. auto. }
  assert (∀ r c x, cell_at g1 r c = Some x → allocation x ≠ None) as Hg1.
  { intros r c x Hx. specialize (Hrel r c). rewrite Hx, cell_at_map in Hrel.
    destruct (cell_at g r c) as [y|]; simpl in Hrel; inversion Hrel as [? ? HR|]; subst.
    by apply HR. }
  intros r c cl. rewrite cell_at_map, cell_at_upd.
  case_decide as He.
  - rewrite cell_at_upd_ne.
    2:{ intros Heq. apply Hne. rewrite <- (node_eta lv), <- (node_eta e). congruence. }
    destruct (cell_at g1 r c) as [x|] eqn:Ex; [|done]. simpl. intros [= <-] _.
    unfold cleanupCell. simpl. by apply (Hg1 r c x).
  - rewrite cell_at_upd. case_decide as Hl.
    + destruct (cell_at g1 r c) as [x|]; [|done]. simpl. by intros [= <-].
    + destruct (cell_at g1 r c) as [x|] eqn:Ex; [|done]. simpl. intros [= <-].
      rewrite isBasin_cleanupCell. intros Hb. unfold cleanupCell. rewrite Hb.
      by apply (Hg1 r c x).
Qed.

Lemma pivot_ready_intro rows cols g e mid :
  wf_grid rows cols g → finite_allocations g → basic_allocated g →
  in_grid rows cols e → isBasicAt g e.1 e.2 = false →
  NoDup (e :: mid) → Nat.Odd (length mid) →
  (∀ n, n ∈ mid → isBasicAt g n.1 n.2 = true) →
  pivot_ready g e mid.
Proof.
  intros Hwf Hfin Halloc He Hnb Hnd Hodd Hb. constructor; try done.
  - destruct (cell_at_range rows cols g e.1 e.2 Hwf) as [_ [cl Hcl]]; [done|].
    exists cl. split; [done|]. unfold isBasicAt in Hnb. by rewrite Hcl in Hnb.
  - intros n Hn. specialize (Hb n Hn). unfold isBasicAt in Hb.
    destruct (cell_at g n.1 n.2) as [cl|] eqn:Hcl; [|done].
    destruct (Hfin _ _ _ Hcl) as [Hnone|[a Ha]]; [by destruct (Halloc _ _ _ Hcl Hb)|].
    by exists cl, a.
Qed.

(** * The basis of a non-degenerate least-cost start *)

Lemma npos_two l i j x y :
  zget l i = Some x → 0 < x → zget l j = Some y → 0 < y → i ≠ j → 2 ≤ npos l.
Proof.
  intros Hx Hpx Hy Hpy Hne.
  pose proof (npos_zalter (λ _, 0) i l x Hx) as Halt.
  assert (zget (zalter (λ _, 0) i l) j = Some y) as Hy'.
  { rewrite zget_zalter. by rewrite decide_False. }
  pose proof (npos_pos _ _ _ Hy' Hpy).
  apply Z.ltb_lt in Hpx. rewrite Hpx in Halt. simpl in Halt. lia.
Qed.

Lemma npos_full l i x : npos l = zlen l → zget l i = Some x → 0 < x.
Proof.
  intros Hfull Hx%zget_elem_of. revert Hfull Hx. unfold npos, zlen.
  induction l as [|y l IH]; intros Hfull Hx; [inversion Hx|].
  csimpl in Hfull. pose proof (npos_le_len l) as Hle. unfold npos, zlen in Hle.
  destruct (0 <? y) eqn:E.
  - apply elem_of_cons in Hx as [->|Hx]; [by apply Z.ltb_lt|]. apply IH; [lia|done].
  - lia.
Qed.

Lemma rtc_adjacent_mono g g' x y :
  (∀ r c, isBasicAt g r c = true → isBasicAt g' r c = true) →
  rtc (adjacent g) x y → rtc (adjacent g') x y.
Proof.
  intros Hmono Hxy. induction Hxy as [|x y z Hstep _ IH]; [done|].
  eapply rtc_l; [|exact IH]. destruct x, y; simpl in *; auto.
Qed.

Lemma allocStep_tree rows cols S0 D0 g s d cnt e g' s' d' cnt' :
  greedy_inv rows cols S0 D0 g s d cnt → tree_inv rows cols g s d cnt →
  0 ≤ er e < rows → 0 ≤ ec e < cols →
  allocStep (g, s, d, cnt) e = (g', s', d', cnt') →
  tree_inv rows cols g' s' d' cnt'.
Proof.
  intros Hinv Htree Hr Hc. destruct Hinv. unfold allocStep.
  assert (is_Some (zget s (er e))) as [sr Hsr] by (apply zget_is_Some; lia).
  assert (is_Some (zget d (ec e))) as [dc Hdc] by (apply zget_is_Some; lia).
  rewrite Hsr, Hdc. simpl.
  destruct ((0 <? sr) && (0 <? dc)) eqn:Epos; [|by intros [= <- <- <- <-]].
  apply andb_true_iff in Epos as [Es Ed].
  pose proof Es as Es'%Z.ltb_lt. pose proof Ed as Ed'%Z.ltb_lt.
  intros [= <- <- <- <-]. set (a := Z.min sr dc).
  set (g' := upd g (er e) (ec e) _).
  assert (is_Some (cell_at g (er e) (ec e))) as [cl Hcl]
    by (by apply (cell_at_range rows cols)).
  assert (∀ r c, isBasicAt g r c = true → isBasicAt g' r c = true) as Hmono.
  { intros r c. unfold g', isBasicAt. rewrite cell_at_upd. case_decide as Heq; [|done].
    injection Heq as <- <-. by rewrite Hcl. }
  assert (adjacent g' (RowN (er e)) (ColN (ec e))) as Hnew.
  { simpl. unfold g', isBasicAt. by rewrite cell_at_upd_eq, Hcl. }
  pose proof (npos_zalter (λ x, x - a) _ _ _ Hsr) as Hns.
  pose proof (npos_zalter (λ x, x - a) _ _ _ Hdc) as Hnd.
  rewrite Es in Hns. rewrite Ed in Hnd. cbn beta in Hns, Hnd.
  pose proof (npos_pos _ _ _ Hsr Es'). pose proof (npos_pos _ _ _ Hdc Ed').
  assert (zget (zalter (λ x, x - a) (er e) s) (er e) = Some (sr - a)) as Hsr'.
  { by rewrite zget_zalter, decide_True, Hsr. }
  assert (zget (zalter (λ x, x - a) (ec e) d) (ec e) = Some (dc - a)) as Hdc'.
  { by rewrite zget_zalter, decide_True, Hdc. }
  assert (∀ y, live s d y → y ≠ RowN (er e) → y ≠ ColN (ec e) →
               live (zalter (λ x, x - a) (er e) s) (zalter (λ x, x - a) (ec e) d) y)
    as Hlive.
  { intros [r|c] Hy Hne1 Hne2; simpl in *; rewrite zget_zalter, decide_False;
      done || congruence. }
  destruct Htree as [[Hsum HI]|[[HL _]|[[Hsum HL]|Hsum]]].
  - destruct (Z.lt_trichotomy sr dc) as [Hlt|[Heq|Hgt]].
    + (* the row is exhausted, the column is not *)
      assert (a = sr) as Ha by (unfold a; lia).
      assert ((0 <? sr - a) = false) as E1 by (apply Z.ltb_ge; lia).
      assert ((0 <? dc - a) = true) as E2 by (apply Z.ltb_lt; lia).
      rewrite E1 in Hns. rewrite E2 in Hnd. left. split; [lia|].
      intros x Hx. destruct (HI x Hx) as (y & Hy & Hxy).
      apply (rtc_adjacent_mono g g') in Hxy; [|done].
      destruct (decide (y = RowN (er e))) as [->|Hne1].
      { exists (ColN (ec e)). split; [|by eapply rtc_r]. simpl. exists (dc - a).
        split; [done|lia]. }
      destruct (decide (y = ColN (ec e))) as [->|Hne2].
      { exists (ColN (ec e)). split; [|done]. simpl. exists (dc - a). split; [done|lia]. }
      exists y. split; [by apply Hlive|done].
    + (* both are exhausted *)
      assert (a = sr) as Ha by (unfold a; lia).
      assert ((0 <? sr - a) = false) as E1 by (apply Z.ltb_ge; lia).
      assert ((0 <? dc - a) = false) as E2 by (apply Z.ltb_ge; lia).
      rewrite E1 in Hns. rewrite E2 in Hnd.
      destruct (decide (npos s + npos d = 2)) as [Htwo|Hmore];
        [|right; right; left; lia].
      right. left. split; [lia|].
      assert (∀ x, node_in rows cols x → rtc (adjacent g') x (RowN (er e))) as Hroot.
      { intros x Hx. destruct (HI x Hx) as (y & Hy & Hxy).
        apply (rtc_adjacent_mono g g') in Hxy; [|done].
        destruct y as [r|c]; simpl in Hy; destruct Hy as (q & Hq & Hpos).
        - destruct (decide (r = er e)) as [->|Hne]; [done|].
          pose proof (npos_two s r (er e) q sr Hq Hpos Hsr Es' Hne). lia.
        - destruct (decide (c = ec e)) as [->|Hne].
          + eapply rtc_r; [done|]. by apply adjacent_sym.
          + pose proof (npos_two d c (ec e) q dc Hq Hpos Hdc Ed' Hne). lia. }
      intros x y Hx Hy. etrans; [by apply Hroot|].
      by apply rtc_adjacent_sym, Hroot.
    + (* the column is exhausted, the row is not *)
      assert (a = dc) as Ha by (unfold a; lia).
      assert ((0 <? sr - a) = true) as E1 by (apply Z.ltb_lt; lia).
      assert ((0 <? dc - a) = false) as E2 by (apply Z.ltb_ge; lia).
      rewrite E1 in Hns. rewrite E2 in Hnd. left. split; [lia|].
      intros x Hx. destruct (HI x Hx) as (y & Hy & Hxy).
      apply (rtc_adjacent_mono g g') in Hxy; [|done].
      destruct (decide (y = ColN (ec e))) as [->|Hne1].
      { exists (RowN (er e)). split; [|eapply rtc_r; [done|by apply adjacent_sym]].
        simpl. exists (sr - a). split; [done|lia]. }
      destruct (decide (y = RowN (er e))) as [->|Hne2].
      { exists (RowN (er e)). split; [|done]. simpl. exists (sr - a). split; [done|lia]. }
      exists y. split; [by apply Hlive|done].
  - lia.
  - assert (sr - a = 0 ∨ dc - a = 0) as Hz by (unfold a; lia).
    destruct (0 <? sr - a) eqn:E1, (0 <? dc - a) eqn:E2;
      try (apply Z.ltb_lt in E1); try (apply Z.ltb_lt in E2); try lia.
    + right; right; left. lia.
    + right; right; left. lia.
    + right; right; right. lia.
  - right; right; right.
    assert (sr - a = 0 ∨ dc - a = 0) as Hz by (unfold a; lia).
    destruct (0 <? sr - a) eqn:E1, (0 <? dc - a) eqn:E2;
      try (apply Z.ltb_lt in E1); try (apply Z.ltb_lt in E2); lia.
Qed.

Lemma allocFold_tree rows cols S0 D0 l g s d cnt g' s' d' cnt' :
  greedy_inv rows cols S0 D0 g s d cnt → tree_inv rows cols g s d cnt →
  (∀ e, e ∈ l → 0 ≤ er e < rows ∧ 0 ≤ ec e < cols) →
  foldl allocStep (g, s, d, cnt) l = (g', s', d', cnt') →
  tree_inv rows cols g' s' d' cnt'.
Proof.
  revert g s d cnt. induction l as [|e l IH]; intros g s d cnt Hinv Htree Hrange; cbn [foldl].
  - by intros [= <- <- <- <-].
  - destruct (Hrange e) as [Hr Hc]; [left|].
    destruct (allocStep_inv _ _ _ _ _ _ _ _ e Hinv Hr Hc)
      as (g1 & s1 & d1 & cnt1 & Hstep & Hinv1 & _).
    rewrite Hstep. apply IH; [done| |intros; apply Hrange; by right].
    exact (allocStep_tree rows cols S0 D0 g s d cnt e g1 s1 d1 cnt1 Hinv Htree Hr Hc Hstep).
Qed.

Lemma tree_inv_initial rows cols cs S0 D0 :
  1 ≤ rows → 1 ≤ cols → zlen S0 = rows → zlen D0 = cols →
  tree_inv rows cols (createEmptyGrid rows cols cs) S0 D0 0.
Proof.
  intros Hr Hc Hs Hd.
  pose proof (npos_le_len S0). pose proof (npos_le_len D0).
  pose proof (npos_nonneg S0). pose proof (npos_nonneg D0).
  destruct (decide (npos S0 + npos D0 = rows + cols)) as [Hfull|Hless].
  - left. split; [lia|]. intros x Hx. exists x. split; [|done].
    destruct x as [r|c]; simpl in *.
    + assert (is_Some (zget S0 r)) as [q Hq] by (apply zget_is_Some; lia).
      exists q. split; [done|]. apply (npos_full S0 r); [lia|done].
    + assert (is_Some (zget D0 c)) as [q Hq] by (apply zget_is_Some; lia).
      exists q. split; [done|]. apply (npos_full D0 c); [lia|done].
  - destruct (decide (0 < npos S0 + npos D0)); [right; right; left|right; right; right]; lia.
Qed.

Lemma npos_all_zero l : (∀ i x, zget l i = Some x → x = 0) → npos l = 0.
Proof.
  intros H. unfold npos. rewrite (zsum_fmap_const _ _ 0); [lia|].
  intros x [i Hi]%elem_of_zget. by rewrite (H i x Hi).
Qed.

(** When the greedy pass alone allocates [rows + cols - 1] cells, they
    form a spanning tree, and [solveLeastCost] adds no zero cell. *)
Lemma solveLeastCost_tree p :
  problem_wf p → balanced p →
  (greedyPass p).2 = rowCount p + colCount p - 1 →
  basis_inv (rowCount p) (colCount p) (solveLeastCost p).
Proof.
  intros Hwf Hbal. destruct Hwf. unfold balanced in Hbal.
  set (rows := rowCount p) in *. set (cols := colCount p) in *.
  assert (∀ e, e ∈ cellsList p → 0 ≤ er e < rows ∧ 0 ≤ ec e < cols) as Hrange.
  { intros e (? & ? & _)%elem_of_cellsList. done. }
  assert (∀ r c, 0 ≤ r < rows → 0 ≤ c < cols →
                 mkEntry r c (costAt (costs p) r c) ∈ cellsList p) as Hcover.
  { intros r c Hr Hc. apply elem_of_cellsList. simpl. fold rows cols. lia. }
  unfold solveLeastCost, greedyPass. fold rows cols.
  rewrite pwf_initialSupply0, pwf_initialDemand0.
  pose proof (greedy_inv_initial rows cols (costs p) (supply p) (demand p)
                pwf_rows0 pwf_cols0 pwf_supply_len0 pwf_demand_len0
                pwf_supply_nonneg0 pwf_demand_nonneg0) as Hinit.
  pose proof (tree_inv_initial rows cols (costs p) (supply p) (demand p)
                pwf_rows0 pwf_cols0 pwf_supply_len0 pwf_demand_len0) as Htree0.
  destruct (allocFold_inv _ _ _ _ (cellsList p) _ _ _ _ Hinit Hrange)
    as (g1 & s1 & d1 & cnt & Hfold & Hinv & Hz & _ & _).
  pose proof (allocFold_tree _ _ _ _ _ _ _ _ _ _ _ _ _ Hinit Htree0 Hrange Hfold) as Htree.
  rewrite Hfold. cbn [snd]. intros Hcnt.
  destruct (greedy_exhausted _ _ _ _ _ _ _ _ Hinv Hbal) as [Hs0 Hd0].
  { intros r c Hr Hc. by apply (Hz (mkEntry r c (costAt (costs p) r c))), Hcover. }
  unfold tree_inv in Htree.
  rewrite (npos_all_zero s1 Hs0), (npos_all_zero d1 Hd0) in Htree.
  assert ((cnt <? rows + cols - 1) = false) as -> by (apply Z.ltb_ge; lia).
  destruct Hinv.
  destruct Htree as [[Hsum _]|[[_ Hconn]|[[_ HL]|Hsum]]]; try lia.
  constructor; try done.
  - lia.
  - eapply connected_count_acyclic; try done. lia.
Qed.

(** * The least-cost start of [stepProblem] *)

Lemma stepGrid_allocated : basic_allocated (solveLeastCost stepProblem).
Proof. apply basic_allocated_Forall. vm_compute. repeat constructor; done. Qed.

(** * [generateRandomProblem] *)

Lemma sumOf_zsum l : sumOf l = zsum l.
Proof.
  unfold sumOf. assert (∀ a, foldl Z.add a l = a + zsum l) as H.
  { induction l as [|x l IH]; intros a; simpl; [lia|]. rewrite IH. lia. }
  by rewrite H.
Qed.

Lemma zlen_seqZ n : 0 ≤ n → zlen (seqZ 0 n) = n.
Proof. intros. unfold zlen. rewrite length_seqZ. lia. Qed.

Lemma Forall_zalter {A} (P : A → Prop) f i (l : list A) :
  Forall P l → (∀ x, P x → P (f x)) → Forall P (zalter f i l).
Proof.
  intros Hl Hf. unfold zalter. case_decide; [|done].
  rewrite Forall_lookup in *. intros j x.
  destruct (decide (Z.to_nat i = j)) as [<-|Hne].
  - rewrite list_lookup_alter_eq. destruct (l !! Z.to_nat i) eqn:E; [|done].
    simpl. intros [= <-]. by eapply Hf, Hl.
  - rewrite list_lookup_alter_ne by done. apply Hl.
Qed.

(** What the generator returns for a table with at least one row and one
    column. *)
Lemma generateRandomProblem_spec dr rows cols :
  draws_ok dr → 1 ≤ rows → 1 ≤ cols →
  ∃ p, generateRandomProblem dr rows cols = Some p ∧
       problem_wf p ∧ balanced p ∧ rowCount p = rows ∧ colCount p = cols ∧
       costs p = (λ r, (λ c, costDraw dr r c + 2) <$> seqZ 0 cols) <$> seqZ 0 rows ∧
       Forall (λ x, 20 ≤ x) (supply p) ∧ Forall (λ x, 20 ≤ x) (demand p).
Proof.
  intros [Hc Hs Hd Hi] Hrows Hcols. unfold generateRandomProblem.
  set (cs := (λ r, (λ c, costDraw dr r c + 2) <$> seqZ 0 cols) <$> seqZ 0 rows).
  set (s := (λ r, supplyDraw dr r + 20) <$> seqZ 0 rows).
  set (d := (λ c, demandDraw dr c + 20) <$> seqZ 0 cols).
  assert (zlen cs = rows) as Hcs by (unfold cs; rewrite zlen_fmap, zlen_seqZ; lia).
  assert (Forall (λ l, zlen l = cols) cs) as Hcc.
  { unfold cs. apply Forall_fmap, Forall_forall. intros r _. simpl.
    rewrite zlen_fmap, zlen_seqZ; lia. }
  assert (zlen s = rows) as Hsl by (unfold s; rewrite zlen_fmap, zlen_seqZ; lia).
  assert (zlen d = cols) as Hdl by (unfold d; rewrite zlen_fmap, zlen_seqZ; lia).
  assert (Forall (λ x, 20 ≤ x) s) as Hs20.
  { unfold s. apply Forall_fmap, Forall_forall. intros r _. simpl. specialize (Hs r). lia. }
  assert (Forall (λ x, 20 ≤ x) d) as Hd20.
  { unfold d. apply Forall_fmap, Forall_forall. intros c _. simpl. specialize (Hd c). lia. }
  assert (∀ l, Forall (λ x, 20 ≤ x) l → Forall (λ x, 0 ≤ x) l) as Hnn.
  { intros l Hl. eapply Forall_impl; [exact Hl|]. intros; simpl in *; lia. }
  rewrite !sumOf_zsum.
  destruct (zsum d <? zsum s) eqn:E1; [|destruct (zsum s <? zsum d) eqn:E2].
  - apply Z.ltb_lt in E1. specialize (Hi cols Hcols).
    unfold addAt. rewrite decide_True by lia. simpl.
    assert (is_Some (zget d (indexDraw dr cols))) as [x Hx] by (apply zget_is_Some; lia).
    assert (Forall (λ x, 20 ≤ x) (zalter (λ x, x + (zsum s - zsum d)) (indexDraw dr cols) d))
      as Hd20' by (apply Forall_zalter; [done|intros; lia]).
    eexists. split; [done|]. split_and!; try done.
    + constructor; simpl; try done; [by rewrite zlen_zalter|by apply Hnn|by apply Hnn].
    + unfold balanced. simpl. rewrite (zsum_zalter _ _ _ _ Hx). lia.
  - apply Z.ltb_lt in E2. specialize (Hi rows Hrows).
    unfold addAt. rewrite decide_True by lia. simpl.
    assert (is_Some (zget s (indexDraw dr rows))) as [x Hx] by (apply zget_is_Some; lia).
    assert (Forall (λ x, 20 ≤ x) (zalter (λ x, x + (zsum d - zsum s)) (indexDraw dr rows) s))
      as Hs20' by (apply Forall_zalter; [done|intros; lia]).
    eexists. split; [done|]. split_and!; try done.
    + constructor; simpl; try done; [by rewrite zlen_zalter|by apply Hnn|by apply Hnn].
    + unfold balanced. simpl. rewrite (zsum_zalter _ _ _ _ Hx). lia.
  - apply Z.ltb_ge in E1, E2. eexists. split; [done|]. split_and!; try done.
    + constructor; simpl; try done; by apply Hnn.
    + unfold balanced. simpl. lia.
Qed.

(** Draws for the examples: all costs 7, supplies 25 and 30, demands 20. *)
Lemma constDraws_ok :
  draws_ok (mkDraws (λ _ _, 5) (λ r, if r =? 0 then 5 else 10) (λ _, 0) (λ _, 0)).
Proof. constructor; simpl; intros; try destruct (_ =? _); lia. Qed.

(** X1.  For a table with at least one source and one destination, whatever
    the generator draws, the problem it returns is balanced (total supply
    equals total demand), has [rows] supplies, [cols] demands and a [rows] x
    [cols] cost matrix, every unit cost is between 2 and 15, every supply and
    every demand is at least 20, and the working copies [initialSupply] and
    [initialDemand] equal the balanced [supply] and [demand]. *)
Theorem generateRandomProblem_balanced dr rows cols :
  draws_ok dr → 1 ≤ rows → 1 ≤ cols →
  ∃ p, generateRandomProblem dr rows cols = Some p ∧
       zsum (supply p) = zsum (demand p) ∧
       rowCount p = rows ∧ colCount p = cols ∧
       zlen (supply p) = rows ∧ zlen (demand p) = cols ∧
       zlen (costs p) = rows ∧ Forall (λ cs, zlen cs = cols) (costs p) ∧
       (∀ r c, 0 ≤ r < rows → 0 ≤ c < cols → 2 ≤ costAt (costs p) r c ≤ 15) ∧
       Forall (λ x, 20 ≤ x) (supply p) ∧ Forall (λ x, 20 ≤ x) (demand p) ∧
       initialSupply p = supply p ∧ initialDemand p = demand p.
Proof.
  intros Hdr Hrows Hcols.
  destruct (generateRandomProblem_spec dr rows cols Hdr Hrows Hcols)
    as (p & Hrun & Hwf & Hbal & Hr & Hc & Hcosts & Hs & Hd).
  destruct Hwf. exists p. split_and!; try done; try congruence.
  { by rewrite <- Hc. }
  intros r c Hr' Hc'. rewrite Hcosts. unfold costAt.
  rewrite zget_fmap, zget_seqZ, decide_True by done. simpl.
  rewrite zget_fmap, zget_seqZ, decide_True by done. simpl.
  destruct Hdr as [Hcd _ _ _]. specialize (Hcd r c). lia.
Qed.

Lemma generateRandomProblem_balanced_witness :
  draws_ok (mkDraws (λ _ _, 5) (λ r, if r =? 0 then 5 else 10) (λ _, 0) (λ _, 0)) ∧
  1 ≤ 2 ∧ 1 ≤ 3 ∧
  ∃ p, generateRandomProblem
         (mkDraws (λ _ _, 5) (λ r, if r =? 0 then 5 else 10) (λ _, 0) (λ _, 0)) 2 3
       = Some p ∧
       zsum (supply p) = zsum (demand p) ∧
       rowCount p = 2 ∧ colCount p = 3 ∧
       zlen (supply p) = 2 ∧ zlen (demand p) = 3 ∧
       zlen (costs p) = 2 ∧ Forall (λ cs, zlen cs = 3) (costs p) ∧
       (∀ r c, 0 ≤ r < 2 → 0 ≤ c < 3 → 2 ≤ costAt (costs p) r c ≤ 15) ∧
       Forall (λ x, 20 ≤ x) (supply p) ∧ Forall (λ x, 20 ≤ x) (demand p) ∧
       initialSupply p = supply p ∧ initialDemand p = demand p.
Proof.
  assert (1 ≤ 2) as H2 by lia. assert (1 ≤ 3) as H3 by lia.
  exact (conj constDraws_ok (conj H2 (conj H3
           (generateRandomProblem_balanced _ 2 3 constDraws_ok H2 H3)))).
Defined.

(** X2.  The generator and the least-cost start compose: on every generated
    problem [solveLeastCost] returns a [rows] x [cols] grid with exactly
    [rows + cols - 1] basic cells, every row of which ships exactly its supply
    and every column of which receives exactly its demand, with no
    allocation on a non-basic cell. *)
Theorem generated_problem_start dr rows cols :
  draws_ok dr → 1 ≤ rows → 1 ≤ cols →
  ∃ p, generateRandomProblem dr rows cols = Some p ∧
       wf_grid rows cols (solveLeastCost p) ∧
       count_basic (solveLeastCost p) = rows + cols - 1 ∧
       nonbasic_empty (solveLeastCost p) ∧
       (∀ r, 0 ≤ r < rows → zget (supply p) r = Some (rowTotal (solveLeastCost p) r)) ∧
       (∀ c, 0 ≤ c < cols → zget (demand p) c = Some (colTotal (solveLeastCost p) c)).
Proof.
  intros Hdr Hrows Hcols.
  destruct (generateRandomProblem_spec dr rows cols Hdr Hrows Hcols)
    as (p & Hrun & Hwf & Hbal & <- & <- & _).
  destruct (solveLeastCost_initial p Hwf Hbal). by exists p.
Qed.

Lemma generated_problem_start_witness :
  draws_ok (mkDraws (λ _ _, 5) (λ r, if r =? 0 then 5 else 10) (λ _, 0) (λ _, 0)) ∧
  1 ≤ 2 ∧ 1 ≤ 3 ∧
  ∃ p, generateRandomProblem
         (mkDraws (λ _ _, 5) (λ r, if r =? 0 then 5 else 10) (λ _, 0) (λ _, 0)) 2 3
       = Some p ∧
       wf_grid 2 3 (solveLeastCost p) ∧
       count_basic (solveLeastCost p) = 2 + 3 - 1 ∧
       nonbasic_empty (solveLeastCost p) ∧
       (∀ r, 0 ≤ r < 2 → zget (supply p) r = Some (rowTotal (solveLeastCost p) r)) ∧
       (∀ c, 0 ≤ c < 3 → zget (demand p) c = Some (colTotal (solveLeastCost p) c)).
Proof.
  assert (1 ≤ 2) as H2 by lia. assert (1 ≤ 3) as H3 by lia.
  exact (conj constDraws_ok (conj H2 (conj H3
           (generated_problem_start _ 2 3 constDraws_ok H2 H3)))).
Defined.

(** * [calculatePotentials] on an arbitrary basis *)

Lemma potStep_reach g u v ch rc :
  reach_inv g u v →
  reach_inv g (potStep g (u, v, ch) rc).1.1 (potStep g (u, v, ch) rc).1.2.
Proof.
  intros [Hu Hv]. unfold potStep.
  destruct (cell_at g rc.1 rc.2) as [cl|] eqn:Ecl; [|done].
  destruct (isBasin cl) eqn:Eb; [|done].
  assert (adjacent g (RowN rc.1) (ColN rc.2)) as Hadj.
  { simpl. unfold isBasicAt. by rewrite Ecl. }
  destruct (known u rc.1) as [ur|] eqn:Eu, (known v rc.2) as [vc|] eqn:Ev; try done.
  - split; [done|]. cbn [fst snd]. intros c. rewrite known_zset.
    case_decide as Hc; [|apply Hv]. destruct Hc as [<- _]. intros _.
    eapply rtc_r; [|exact Hadj]. apply Hu. by rewrite Eu.
  - split; [|done]. cbn [fst snd]. intros r. rewrite known_zset.
    case_decide as Hr; [|apply Hu]. destruct Hr as [<- _]. intros _.
    eapply rtc_r; [|apply adjacent_sym, Hadj]. apply Hv. by rewrite Ev.
Qed.

Lemma potFold_reach g l u v ch :
  reach_inv g u v →
  reach_inv g (foldl (potStep g) (u, v, ch) l).1.1 (foldl (potStep g) (u, v, ch) l).1.2.
Proof.
  revert u v ch. induction l as [|rc l IH]; intros u v ch Hinv; [done|].
  cbn [foldl]. pose proof (potStep_reach g u v ch rc Hinv) as H1.
  destruct (potStep g (u, v, ch) rc) as [[u1 v1] ch1]. by apply IH.
Qed.

Lemma potLoop_reach fuel g rows cols u v u' v' :
  reach_inv g u v → potLoop fuel g rows cols u v = Ok (u', v') → reach_inv g u' v'.
Proof.
  revert u v. induction fuel as [|fuel IH]; intros u v Hinv; [done|].
  cbn [potLoop]. unfold potPass.
  pose proof (potFold_reach g (scan rows cols) u v false Hinv) as H1.
  destruct (foldl (potStep g) (u, v, false) (scan rows cols)) as [[u1 v1] ch1].
  destruct ch1; [by apply IH|]. by intros [= <- <-].
Qed.

Lemma reach_inv_initial g rows cols :
  reach_inv g (initialU rows) (replicate (Z.to_nat cols) None).
Proof.
  split.
  - intros r [x Hx]. destruct (decide (r = 0)) as [->|Hne]; [done|]. exfalso.
    unfold known, zget, initialU in Hx. case_decide; [|done].
    destruct (Z.to_nat r) as [|n] eqn:E; [lia|]. simpl in Hx.
    destruct (replicate (Z.to_nat rows - 1) None !! n) as [o|] eqn:Eo; [|done].
    apply lookup_replicate in Eo as [-> _]. done.
  - intros c [x Hx]. exfalso. unfold known, zget in Hx. case_decide; [|done].
    destruct (replicate (Z.to_nat cols) None !! Z.to_nat c) as [o|] eqn:Eo; [|done].
    apply lookup_replicate in Eo as [-> _]. done.
Qed.

(** X3.  On every rectangular grid with at least one row the [while] loop
    of [calculatePotentials] terminates; it returns [rows] row potentials
    and [cols] column potentials with [u[0] = 0], and a potential is known
    exactly for the rows and columns that are joined to row 0 by a chain of
    basic cells: potentials of other parts of the basis stay [null]. *)
Theorem calculatePotentials_reach rows cols g :
  wf_grid rows cols g → 1 ≤ rows → 0 ≤ cols →
  ∃ u v, calculatePotentials g rows cols = Ok (u, v) ∧
         zlen u = rows ∧ zlen v = cols ∧ known u 0 = Some 0 ∧
         (∀ r, is_Some (known u r) ↔ rtc (adjacent g) (RowN 0) (RowN r)) ∧
         (∀ c, is_Some (known v c) ↔ rtc (adjacent g) (RowN 0) (ColN c)).
Proof.
  intros Hwf Hrows Hcols.
  destruct (calculatePotentials_total rows cols g Hwf Hrows Hcols)
    as (u & v & Hrun & Hinv & Hst).
  pose proof (potLoop_reach _ g rows cols _ _ u v (reach_inv_initial g rows cols) Hrun)
    as [Hu Hv].
  exists u, v. destruct Hinv as [Hul Hvl Hu0 Hused]. split_and!; try done.
  - intros r. split; [apply Hu|]. intros Hr.
    by apply (pot_known_reachable rows cols g u v (RowN r)).
  - intros c. split; [apply Hv|]. intros Hc.
    by apply (pot_known_reachable rows cols g u v (ColN c)).
Qed.

Lemma calculatePotentials_reach_witness :
  wf_grid 3 3 (solveLeastCost degenProblem) ∧ 1 ≤ 3 ∧ 0 ≤ 3 ∧
  ∃ u v, calculatePotentials (solveLeastCost degenProblem) 3 3 = Ok (u, v) ∧
         zlen u = 3 ∧ zlen v = 3 ∧ known u 0 = Some 0 ∧
         (∀ r, is_Some (known u r) ↔
               rtc (adjacent (solveLeastCost degenProblem)) (RowN 0) (RowN r)) ∧
         (∀ c, is_Some (known v c) ↔
               rtc (adjacent (solveLeastCost degenProblem)) (RowN 0) (ColN c)).
Proof.
  assert (wf_grid 3 3 (solveLeastCost degenProblem)) as H1.
  { split; [reflexivity|]. vm_compute. repeat constructor. }
  assert (1 ≤ 3) as H2 by lia.
  assert (0 ≤ 3) as H3 by lia.
  exact (conj H1 (conj H2 (conj H3
           (calculatePotentials_reach 3 3 (solveLeastCost degenProblem) H1 H2 H3)))).
Defined.

(** * [findLoop] on an arbitrary basis *)

Lemma alternating_short h (e : LoopNode) rest :
  alternating h (e :: rest ++ [e]) → (3 ≤ length rest)%nat.
Proof.
  destruct rest as [|a [|b [|c rest]]]; simpl; [..|lia];
    unfold move; destruct h; simpl; intuition congruence.
Qed.

(** X4.  On every rectangular grid, for a start cell inside the grid,
    [findLoop] neither throws nor runs forever, and it is a complete search:
    it returns [null] only when no closed path through the start cell exists
    that alternates row-moves and column-moves over distinct basic cells;
    otherwise it returns such a path, listing the start cell first and last
    and at least three basic cells in between. *)
Theorem findLoop_complete rows cols g e :
  wf_grid rows cols g → 1 ≤ rows → in_grid rows cols e →
  (findLoop e g = Ok None ∧
   ∀ h rest, alternating h (e :: rest ++ [e]) → NoDup (e :: rest) →
             ¬ (∀ m, m ∈ rest → isBasicAt g m.1 m.2 = true)) ∨
  (∃ h rest, findLoop e g = Ok (Some (e :: rest ++ [e])) ∧
             alternating h (e :: rest ++ [e]) ∧ NoDup (e :: rest) ∧
             (∀ m, m ∈ rest → isBasicAt g m.1 m.2 = true) ∧
             (3 ≤ length rest)%nat).
Proof.
  intros Hwf Hrows He.
  destruct (findLoop_total rows cols g e Hwf Hrows He)
    as [[Hnone Hno]|(h & rest & Hsome & Hcomp)].
  - left. split; [done|]. intros h rest Halt Hnd Hb. apply (Hno h rest).
    apply completion_top. split_and!; try done.
    pose proof (alternating_short h e rest Halt). lia.
  - right. exists h, rest. apply completion_top in Hcomp as (Halt & Hnd & Hb & _).
    split_and!; try done. by eapply alternating_short.
Qed.

Lemma findLoop_complete_witness :
  wf_grid 3 3 (solveLeastCost degenProblem) ∧ 1 ≤ 3 ∧ in_grid 3 3 (0, 2) ∧
  ((findLoop (0, 2) (solveLeastCost degenProblem) = Ok None ∧
    ∀ h rest, alternating h ((0, 2) :: rest ++ [(0, 2)]) → NoDup ((0, 2) :: rest) →
              ¬ (∀ m, m ∈ rest → isBasicAt (solveLeastCost degenProblem) m.1 m.2 = true)) ∨
   (∃ h rest, findLoop (0, 2) (solveLeastCost degenProblem)
                = Ok (Some ((0, 2) :: rest ++ [(0, 2)])) ∧
              alternating h ((0, 2) :: rest ++ [(0, 2)]) ∧ NoDup ((0, 2) :: rest) ∧
              (∀ m, m ∈ rest → isBasicAt (solveLeastCost degenProblem) m.1 m.2 = true) ∧
              (3 ≤ length rest)%nat)).
Proof.
  assert (wf_grid 3 3 (solveLeastCost degenProblem)) as H1.
  { split; [reflexivity|]. vm_compute. repeat constructor. }
  assert (1 ≤ 3) as H2 by lia.
  assert (in_grid 3 3 (0, 2)) as H3 by (unfold in_grid; simpl; lia).
  exact (conj H1 (conj H2 (conj H3
           (findLoop_complete 3 3 (solveLeastCost degenProblem) (0, 2) H1 H2 H3)))).
Defined.

Lemma rowCandidates_missing_row g (e : LoopNode) c cs :
  zget g e.1 = None → c ≠ e.2 → rowCandidates g e e (c :: cs) = TypeError.
Proof.
  intros Hrow Hne. cbn [rowCandidates].
  assert ((c =? e.2) = false) as -> by (by apply Z.eqb_neq).
  cbn [negb andb]. unfold cell_at. by rewrite Hrow.
Qed.

Lemma colCandidates_missing_col g (e : LoopNode) r rs :
  cell_at g r e.2 = None → r ≠ e.1 → colCandidates g e e (r :: rs) = TypeError.
Proof.
  intros Hcell Hne. cbn [colCandidates].
  assert ((r =? e.1) = false) as -> by (by apply Z.eqb_neq).
  cbn [negb andb]. by rewrite Hcell.
Qed.

(** X5.  A start cell outside the grid makes [findLoop] throw: when the row
    index is no row of the grid and the column index is no column of its
    first row, [findLoop] ends in a [TypeError] (it reads [isBasin] of a
    missing cell), on every grid, the empty one included.  This is what
    happens with the node [{r: -1, c: -1}] that the step logic passes when
    no cell is highlighted as entering. *)
Theorem findLoop_outside g e :
  zget g e.1 = None → (∀ cells0, head g = Some cells0 → zget cells0 e.2 = None) →
  findLoop e g = TypeError.
Proof.
  intros Hrow Hcol. destruct g as [|cells0 g']; [done|].
  specialize (Hcol cells0 eq_refl). unfold findLoop.
  set (g := cells0 :: g') in *. set (rows := zlen g). set (cols := zlen cells0).
  assert (0 < rows) as Hrows by (unfold rows, zlen; simpl; lia).
  assert (0 ≤ cols) as Hcols by (unfold cols, zlen; lia).
  assert (e.1 ≠ 0) as Hr0.
  { intros Heq. rewrite Heq in Hrow. done. }
  unfold searchFuel.
  replace (length (scan rows cols) + 3)%nat with (S (length (scan rows cols) + 2)) by lia.
  rewrite !(search_regular g rows cols e _ e _ [] ∅ eq_refl (NoDup_singleton e)).
  unfold nextNodes.
  destruct (decide (cols = 0)) as [Hc0|Hc0].
  - rewrite Hc0. cbn [seqZ Z.to_nat seq fmap list_fmap rowCandidates tryNexts].
    change (seqZ 0 0) with (@nil Z). cbn [rowCandidates tryNexts].
    rewrite (seqZ_cons 0 rows) by lia.
    rewrite colCandidates_missing_col; [done| |done].
    unfold cell_at. simpl. done.
  - rewrite (seqZ_cons 0 cols) by lia.
    rewrite rowCandidates_missing_row; [done|done|].
    intros Heq. assert (is_Some (zget cells0 0)) as [x Hx] by (apply zget_is_Some; lia).
    rewrite <- Heq in Hcol. congruence.
Qed.

Lemma findLoop_outside_witness :
  zget staleGrid (-1, -1).1 = None ∧
  (∀ cells0, head staleGrid = Some cells0 → zget cells0 (-1, -1).2 = None) ∧
  findLoop (-1, -1) staleGrid = TypeError.
Proof.
  assert (zget staleGrid (-1, -1).1 = None) as H1 by reflexivity.
  assert (∀ cells0, head staleGrid = Some cells0 → zget cells0 (-1, -1).2 = None) as H2.
  { by intros cells0 [= <-]. }
  exact (conj H1 (conj H2 (findLoop_outside staleGrid (-1, -1) H1 H2))).
Defined.

(** * Row and column totals under a pivot *)

Lemma rowSum_upd h g r c f cl r' :
  cell_at g r c = Some cl →
  rowSum h (upd g r c f) r' = rowSum h g r' + inRow r' (r, c) * (h (f cl) - h cl).
Proof.
  intros (cells & Hr & Hc)%cell_at_Some. unfold rowSum, upd, inRow. simpl.
  rewrite zget_zalter. destruct (decide (r = r')) as [<-|Hne]; [|lia].
  rewrite Hr. simpl. rewrite (zsum_fmap_zalter _ _ _ _ _ Hc). lia.
Qed.

Lemma colSum_upd h g r c f cl c' :
  cell_at g r c = Some cl →
  colSum h (upd g r c f) c' = colSum h g c' + inCol c' (r, c) * (h (f cl) - h cl).
Proof.
  intros (cells & Hr & Hc)%cell_at_Some. unfold colSum, upd, inCol. simpl.
  rewrite (zsum_fmap_zalter _ _ _ _ _ Hr). rewrite zget_zalter.
  destruct (decide (c = c')) as [<-|Hne]; [|lia].
  rewrite Hc. simpl. lia.
Qed.

Lemma rowSum_map h f (g : Grid) r : rowSum h (map (map f) g) r = rowSum (h ∘ f) g r.
Proof.
  unfold rowSum. change (map (map f) g) with (fmap (M:=list) (fmap (M:=list) f) g).
  rewrite zget_fmap. destruct (zget g r) as [cells|]; simpl; [|done].
  by rewrite <- list_fmap_compose.
Qed.

Lemma colSum_map h f (g : Grid) c : colSum h (map (map f) g) c = colSum (h ∘ f) g c.
Proof.
  unfold colSum. change (map (map f) g) with (fmap (M:=list) (fmap (M:=list) f) g).
  rewrite <- list_fmap_compose. apply zsum_fmap_ext. intros cells _. simpl.
  rewrite zget_fmap. by destruct (zget cells c).
Qed.

Lemma rowSum_ext h h' g r :
  (∀ c cl, cell_at g r c = Some cl → h cl = h' cl) → rowSum h g r = rowSum h' g r.
Proof.
  intros H. unfold rowSum. destruct (zget g r) as [cells|] eqn:E; [|done]. simpl.
  apply zsum_fmap_ext. intros cl [c Hc]%elem_of_zget. apply (H c).
  unfold cell_at. by rewrite E.
Qed.

Lemma colSum_ext h h' g c :
  (∀ r cl, cell_at g r c = Some cl → h cl = h' cl) → colSum h g c = colSum h' g c.
Proof.
  intros H. unfold colSum. apply zsum_fmap_ext. intros cells [r Hr]%elem_of_zget.
  destruct (zget cells c) as [cl|] eqn:E; [|done]. simpl. apply (H r).
  unfold cell_at. by rewrite Hr.
Qed.

Lemma weightedDelta_upd w h theta g r c f loop b :
  (r, c) ∉ loop →
  weightedDelta w h theta (upd g r c f) loop b = weightedDelta w h theta g loop b.
Proof.
  revert b. induction loop as [|n loop IH]; intros b Hnin; [done|].
  apply not_elem_of_cons in Hnin as [Hne Hnin]. cbn [weightedDelta].
  rewrite IH by done. rewrite cell_at_upd_ne; [done|].
  intros Heq. apply Hne. destruct n. simpl in *. done.
Qed.

Lemma applyTheta_rowSum h theta g loop b g1 r :
  applyTheta theta g loop b = Ok g1 → NoDup loop →
  rowSum h g1 r = rowSum h g r + weightedDelta (inRow r) h theta g loop b.
Proof.
  revert g b. induction loop as [|n loop IH]; intros g b Hrun Hnd.
  - injection Hrun as <-. simpl. lia.
  - apply NoDup_cons in Hnd as [Hn Hnd]. cbn [applyTheta weightedDelta] in *.
    destruct (cell_at g n.1 n.2) as [cl|] eqn:Ecl; [|done].
    rewrite (IH _ _ Hrun Hnd), (rowSum_upd h g n.1 n.2 _ cl r Ecl).
    rewrite weightedDelta_upd by (by destruct n). rewrite node_eta. simpl. lia.
Qed.

Lemma applyTheta_colSum h theta g loop b g1 c :
  applyTheta theta g loop b = Ok g1 → NoDup loop →
  colSum h g1 c = colSum h g c + weightedDelta (inCol c) h theta g loop b.
Proof.
  revert g b. induction loop as [|n loop IH]; intros g b Hrun Hnd.
  - injection Hrun as <-. simpl. lia.
  - apply NoDup_cons in Hnd as [Hn Hnd]. cbn [applyTheta weightedDelta] in *.
    destruct (cell_at g n.1 n.2) as [cl|] eqn:Ecl; [|done].
    rewrite (IH _ _ Hrun Hnd), (colSum_upd h g n.1 n.2 _ cl c Ecl).
    rewrite weightedDelta_upd by (by destruct n). rewrite node_eta. simpl. lia.
Qed.

Lemma basicQty_plus theta cl a :
  isBasin cl = true → allocation cl = Some (Fin a) →
  basicQty (plusCell (Fin theta) (copyCell cl)) - basicQty (copyCell cl) = theta.
Proof.
  destruct cl as [r c k al b hl oc]. simpl. intros -> ->.
  unfold basicQty, qty. simpl. lia.
Qed.

Lemma basicQty_minus theta cl a :
  isBasin cl = true → allocation cl = Some (Fin a) →
  basicQty (minusCell (Fin theta) (copyCell cl)) - basicQty (copyCell cl) = - theta.
Proof.
  destruct cl as [r c k al b hl oc]. simpl. intros -> ->.
  unfold basicQty, qty. simpl. lia.
Qed.

Lemma weightedDelta_basic w theta g loop b :
  (∀ n, n ∈ loop → ∃ cl a, cell_at g n.1 n.2 = Some cl ∧ isBasin cl = true ∧
                           allocation cl = Some (Fin a)) →
  weightedDelta w basicQty (Fin theta) (map (map copyCell) g) loop b =
  (if b then 1 else -1) * theta * altsum w loop.
Proof.
  revert b. induction loop as [|n loop IH]; intros b Hall; cbn [weightedDelta altsum]; [lia|].
  rewrite IH by (intros; apply Hall; by right).
  destruct (Hall n) as (cl & a & Hcl & Hb & Ha); [left|].
  rewrite cell_at_map, Hcl. cbn [fmap option_fmap option_map from_option].
  destruct b; cbn [negb].
  - rewrite (basicQty_plus theta cl a Hb Ha). lia.
  - rewrite (basicQty_minus theta cl a Hb Ha). lia.
Qed.

(** Around a loop the alternating sum of a quantity that depends on the row
    only, or on the column only, vanishes. *)
Lemma loop_altsum_zero (U V : Z → Z) h (e : LoopNode) mid :
  alternating h (e :: mid ++ [e]) → Nat.Odd (length mid) →
  altsum (λ n, U n.1 + V n.2) (e :: mid) = 0.
Proof.
  intros Halt Hodd.
  destruct (last (e :: mid)) as [z|] eqn:Hlast; [|by apply last_None in Hlast].
  change (e :: mid ++ [e]) with ((e :: mid) ++ [e]) in Halt.
  apply (alternating_snoc h (e :: mid) z e Hlast) in Halt as [Halt Hclose].
  apply Nat.odd_spec in Hodd.
  cbn [length] in Hclose. rewrite Nat.even_succ, Hodd in Hclose.
  rewrite (altsum_telescope U V mid e z h Halt Hlast).
  rewrite <- Nat.negb_odd, Hodd. simpl.
  unfold move in Hclose. destruct h; simpl in *; destruct Hclose as [-> _]; lia.
Qed.

(** The run of [applyPivot] on a ready loop, with the cells of the entering
    and of the leaving cell after the second loop. *)
Lemma applyPivot_run_cells g e mid :
  pivot_ready g e mid →
  ∃ theta (k : nat) lv g1 cle cll,
    everyOther true mid !! k = Some lv ∧ lv ∈ mid ∧ lv ≠ e ∧
    cell_at g e.1 e.2 = Some cle ∧ isBasin cle = false ∧
    cell_at g lv.1 lv.2 = Some cll ∧ isBasin cll = true ∧
    allocation cll = Some (Fin theta) ∧
    (∀ (i : nat) n a, everyOther true mid !! i = Some n →
                      allocAt g n = Some (Fin a) → theta ≤ a) ∧
    applyTheta (Fin theta) (map (map copyCell) g) (e :: mid) true = Ok g1 ∧
    cell_at g1 lv.1 lv.2 = Some (minusCell (Fin theta) (copyCell cll)) ∧
    cell_at g1 e.1 e.2 = Some (plusCell (Fin theta) (copyCell cle)) ∧
    applyPivot g (e :: mid ++ [e]) =
      Ok (map (map cleanupCell)
            (upd (upd g1 lv.1 lv.2 leaveCell) e.1 e.2 (set_isBasin true)), Fin theta).
Proof.
  intros Hready.
  destruct (applyPivot_run g e mid Hready)
    as (theta & k & lv & g1 & Hk & Hlv & Hmin & Happ & Hrun).
  destruct Hready as [(cle & Hcle & Hnb) Hnd Hodd Hmid].
  assert (lv ∈ mid) as Hlvmid.
  { apply list_elem_of_lookup_2 in Hk. by eapply everyOther_subseteq. }
  destruct (Hmid lv Hlvmid) as (cll & a & Hcll & Hbl & Hal).
  assert (a = theta) as ->.
  { unfold allocAt in Hlv. rewrite Hcll in Hlv. simpl in Hlv. congruence. }
  pose proof Hnd as [He Hndmid]%NoDup_cons.
  exists theta, k, lv, g1, cle, cll. split_and!; try done.
  - by intros ->.
  - intros i n a Hi Ha. by destruct (Hmin i n a Hi Ha).
  - destruct (everyOther_lookup mid k) as [_ Hev]. rewrite Hev in Hk.
    rewrite (applyTheta_cells _ _ _ _ _ (S (2 * k)) lv Happ Hnd Hk).
    rewrite Nat.even_succ, <- Nat.negb_even, Nat.even_mul. simpl.
    by rewrite cell_at_map, Hcll.
  - rewrite (applyTheta_cells _ _ _ _ _ 0%nat e Happ Hnd eq_refl). simpl.
    by rewrite cell_at_map, Hcle.
Qed.

Lemma qty_cleanupCell cl : qty (cleanupCell cl) = basicQty cl.
Proof. unfold basicQty, cleanupCell. by destruct (isBasin cl). Qed.

Lemma basicQty_copyCell cl :
  (isBasin cl = false → allocation cl = None) → basicQty (copyCell cl) = qty cl.
Proof.
  unfold basicQty, qty, copyCell. simpl.
  destruct (isBasin cl); [by destruct (allocation cl)|].
  by intros ->.
Qed.

(** A pivot along a ready alternating loop keeps every row total and every
    column total. *)
Lemma applyPivot_totals g e mid h g' theta :
  nonbasic_empty g → pivot_ready g e mid → alternating h (e :: mid ++ [e]) →
  applyPivot g (e :: mid ++ [e]) = Ok (g', theta) →
  (∀ r, rowTotal g' r = rowTotal g r) ∧ (∀ c, colTotal g' c = colTotal g c).
Proof.
  intros Hempty Hready Halt Hrun'.
  destruct (applyPivot_run_cells g e mid Hready)
    as (t & k & lv & g1 & cle & cll & Hk & Hlvmid & Hne & Hcle & Hnb & Hcll & Hbl & Hal
        & _ & Happ & Hlv1 & He1 & Hrun).
  pose proof (eq_trans (eq_sym Hrun') Hrun) as Heq. injection Heq as -> ->.
  destruct Hready as [_ Hnd Hodd Hmid].
  assert (allocation cle = None) as Hale by (by apply (Hempty e.1 e.2)).
  assert (cell_at (upd g1 lv.1 lv.2 leaveCell) e.1 e.2
          = Some (plusCell (Fin t) (copyCell cle))) as He2.
  { rewrite cell_at_upd_ne; [done|]. by apply node_pair_ne. }
  assert (∀ w, weightedDelta w basicQty (Fin t) (map (map copyCell) g) (e :: mid) true
               = t * altsum w (e :: mid)) as Hdelta.
  { intros w. cbn [weightedDelta altsum]. rewrite cell_at_map, Hcle.
    cbn [fmap option_fmap option_map from_option negb].
    rewrite (weightedDelta_basic w t g mid false Hmid).
    unfold basicQty, qty, plusCell, copyCell. simpl. rewrite Hnb, Hale. simpl. lia. }
  assert (basicQty (set_isBasin true (plusCell (Fin t) (copyCell cle)))
          - basicQty (plusCell (Fin t) (copyCell cle)) = 0) as Hz1
    by (unfold basicQty, qty; simpl; lia).
  assert (basicQty (leaveCell (minusCell (Fin t) (copyCell cll)))
          - basicQty (minusCell (Fin t) (copyCell cll)) = 0) as Hz2.
  { unfold basicQty, qty, leaveCell, minusCell, copyCell. simpl. rewrite Hbl, Hal.
    simpl. lia. }
  split.
  - intros r. change (rowSum qty (map (map cleanupCell)
                 (upd (upd g1 lv.1 lv.2 leaveCell) e.1 e.2 (set_isBasin true))) r
               = rowSum qty g r).
    rewrite rowSum_map.
    rewrite (rowSum_ext (qty ∘ cleanupCell) basicQty) by (intros; apply qty_cleanupCell).
    rewrite (rowSum_upd _ _ _ _ _ _ r He2), (rowSum_upd _ _ _ _ _ _ r Hlv1), Hz1, Hz2.
    rewrite (applyTheta_rowSum _ _ _ _ _ _ r Happ Hnd), rowSum_map, Hdelta.
    rewrite (rowSum_ext (basicQty ∘ copyCell) qty).
    2:{ intros c cl Hcl. apply basicQty_copyCell. by apply (Hempty r c). }
    rewrite (altsum_ext (inRow r) (λ n, inRow r (n.1, 0) + 0)) by (intros; unfold inRow; simpl; lia).
    rewrite (loop_altsum_zero (λ x, inRow r (x, 0)) (λ _, 0) h e mid Halt Hodd). lia.
  - intros c. change (colSum qty (map (map cleanupCell)
                 (upd (upd g1 lv.1 lv.2 leaveCell) e.1 e.2 (set_isBasin true))) c
               = colSum qty g c).
    rewrite colSum_map.
    rewrite (colSum_ext (qty ∘ cleanupCell) basicQty) by (intros; apply qty_cleanupCell).
    rewrite (colSum_upd _ _ _ _ _ _ c He2), (colSum_upd _ _ _ _ _ _ c Hlv1), Hz1, Hz2.
    rewrite (applyTheta_colSum _ _ _ _ _ _ c Happ Hnd), colSum_map, Hdelta.
    rewrite (colSum_ext (basicQty ∘ copyCell) qty).
    2:{ intros r cl Hcl. apply basicQty_copyCell. by apply (Hempty r c). }
    rewrite (altsum_ext (inCol c) (λ n, 0 + inCol c (0, n.2))) by (intros; unfold inCol; simpl; lia).
    rewrite (loop_altsum_zero (λ _, 0) (λ x, inCol c (0, x)) h e mid Halt Hodd). lia.
Qed.

Lemma nonneg_allocations_Forall g :
  Forall (λ cl, ∀ a, allocation cl = Some (Fin a) → 0 ≤ a) (concat g) →
  nonneg_allocations g.
Proof.
  intros H r c cl a Hcl. rewrite Forall_forall in H.
  apply H. by eapply cell_at_elem_of_concat.
Qed.

(** A pivot along a ready loop ships no negative quantity if none was
    shipped before: theta is the least quantity of the minus cells. *)
Lemma applyPivot_nonneg g e mid g' theta :
  pivot_ready g e mid → finite_allocations g → nonneg_allocations g →
  applyPivot g (e :: mid ++ [e]) = Ok (g', theta) →
  (∃ t, theta = Fin t ∧ 0 ≤ t) ∧ nonneg_allocations g'.
Proof.
  intros Hready Hfin Hnn Hrun'.
  destruct (applyPivot_run_cells g e mid Hready)
    as (t & k & lv & g1 & cle & cll & Hk & Hlvmid & Hne & Hcle & Hnb & Hcll & Hbl & Hal
        & Hmin & Happ & Hlv1 & He1 & Hrun).
  pose proof (eq_trans (eq_sym Hrun') Hrun) as Heq. injection Heq as -> ->.
  destruct Hready as [_ Hnd Hodd Hmid].
  assert (0 ≤ t) as Ht by (by apply (Hnn _ _ _ _ Hcll)).
  split; [by exists t|].
  assert (∀ cl a, (allocation cl = None ∨ ∃ a0, allocation cl = Some (Fin a0)) →
                  (∀ a0, allocation cl = Some (Fin a0) → 0 ≤ a0) →
                  default (Fin 0) (allocation cl) = Fin a → 0 ≤ a) as Hdef.
  { intros cl a [Hn|[a0 Ha0]] Hpos; rewrite ?Hn, ?Ha0; simpl; intros [= <-]; [lia|].
    by apply Hpos. }
  assert (∀ r c x a, cell_at g1 r c = Some x → allocation x = Some (Fin a) → 0 ≤ a) as Hg1.
  { intros r c x a. destruct (decide ((r, c) ∈ e :: mid)) as [Hin|Hnin].
    - pose proof Hin as [i Hi]%list_elem_of_lookup_1.
      change (cell_at g1 r c) with (cell_at g1 (r, c).1 (r, c).2).
      rewrite (applyTheta_cells _ _ _ _ _ i (r, c) Happ Hnd Hi), cell_at_map. simpl.
      destruct (cell_at g r c) as [cl|] eqn:Ecl; [|done]. simpl. intros [= <-].
      pose proof (Hfin _ _ _ Ecl) as Hf.
      assert (∀ a0, allocation cl = Some (Fin a0) → 0 ≤ a0) as Hp
        by (intros; by eapply Hnn).
      destruct (Nat.even i) eqn:Ei; simpl.
      + destruct (default (Fin 0) (allocation cl)) as [a0| | |] eqn:Ed; simpl; try done.
        intros [= <-]. pose proof (Hdef cl a0 Hf Hp Ed). lia.
      + destruct i as [|j]; [done|]. simpl in Hi.
        rewrite Nat.even_succ in Ei. apply (f_equal negb) in Ei.
        rewrite Nat.negb_odd in Ei. simpl in Ei.
        apply Nat.even_spec in Ei as [k' ->].
        destruct (everyOther_lookup mid k') as [_ Hev]. rewrite <- Hev in Hi.
        destruct (default (Fin 0) (allocation cl)) as [a0| | |] eqn:Ed; simpl; try done.
        intros [= <-].
        assert (allocation cl = Some (Fin a0)) as Hacl.
        { apply list_elem_of_lookup_2, everyOther_subseteq in Hi.
          destruct (Hmid _ Hi) as (cl' & a' & Hcl' & _ & Ha'). simpl in Hcl'.
          rewrite Ecl in Hcl'. injection Hcl' as <-. rewrite Ha' in Ed. simpl in Ed.
          congruence. }
        assert (t ≤ a0); [|lia]. apply (Hmin k' (r, c) a0 Hi).
        unfold allocAt. simpl. by rewrite Ecl.
    - rewrite (applyTheta_frame _ _ _ _ _ r c Happ Hnin), cell_at_map.
      destruct (cell_at g r c) as [cl|] eqn:Ecl; [|done]. simpl. intros [= <-]. simpl.
      intros [= Hd]. eapply (Hdef cl a); [by eapply Hfin| |done].
      intros; by eapply Hnn. }
  intros r c cl a. rewrite cell_at_map, !cell_at_upd.
  destruct (decide ((e.1, e.2) = (r, c))) as [Heq|Hner];
    destruct (decide ((lv.1, lv.2) = (r, c))) as [Heq'|Hnel];
    destruct (cell_at g1 r c) as [x|] eqn:Ex; simpl; try done; intros [= <-];
    unfold cleanupCell; simpl; try done.
  - intros Ha. by apply (Hg1 r c x a).
  - destruct (isBasin x); simpl; [|done]. intros Ha. by apply (Hg1 r c x a).
Qed.

Lemma stepGrid_nonneg : nonneg_allocations (solveLeastCost stepProblem).
Proof.
  apply nonneg_allocations_Forall. set (l := concat _). vm_compute in l. subst l.
  repeat (apply Forall_cons_2; [intros a Ha; simpl in Ha; simplify_eq; lia|]).
  apply Forall_nil_2.
Qed.

(** X6.  A pivot keeps the plan feasible.  On a tableau with finite,
    non-negative allocations and none on a non-basic cell, along a loop
    [e :: mid ++ [e]] of distinct cells ([e] non-basic, [mid] an odd number of
    basic cells, row-moves and column-moves in turn), [applyPivot] returns a
    theta that is not negative, leaves the total of every row and of every
    column unchanged, ships no negative quantity, and leaves no allocation on
    a non-basic cell. *)
Theorem applyPivot_feasible g e mid h :
  nonbasic_empty g → finite_allocations g → nonneg_allocations g →
  pivot_ready g e mid → alternating h (e :: mid ++ [e]) →
  ∃ g' theta,
    applyPivot g (e :: mid ++ [e]) = Ok (g', Fin theta) ∧ 0 ≤ theta ∧
    (∀ r, rowTotal g' r = rowTotal g r) ∧ (∀ c, colTotal g' c = colTotal g c) ∧
    nonneg_allocations g' ∧ nonbasic_empty g'.
Proof.
  intros Hempty Hfin Hnn Hready Halt.
  destruct (applyPivot_run g e mid Hready) as (t & k & lv & g1 & _ & _ & _ & _ & Hrun).
  destruct (applyPivot_nonneg g e mid _ _ Hready Hfin Hnn Hrun) as [(t' & Heq & Ht) Hnn'].
  injection Heq as Heq. subst t'.
  destruct (applyPivot_totals g e mid h _ _ Hempty Hready Halt Hrun) as [Hrows Hcols].
  eexists _, t. split; [exact Hrun|]. split_and!; try done.
  by eapply applyPivot_nonbasic_empty.
Qed.

Lemma applyPivot_feasible_witness :
  nonbasic_empty (solveLeastCost stepProblem) ∧
  finite_allocations (solveLeastCost stepProblem) ∧
  nonneg_allocations (solveLeastCost stepProblem) ∧
  pivot_ready (solveLeastCost stepProblem) (1, 0) stepMid ∧
  alternating true ((1, 0) :: stepMid ++ [(1, 0)]) ∧
  ∃ g' theta,
    applyPivot (solveLeastCost stepProblem) ((1, 0) :: stepMid ++ [(1, 0)])
      = Ok (g', Fin theta) ∧ 0 ≤ theta ∧
    (∀ r, rowTotal g' r = rowTotal (solveLeastCost stepProblem) r) ∧
    (∀ c, colTotal g' c = colTotal (solveLeastCost stepProblem) c) ∧
    nonneg_allocations g' ∧ nonbasic_empty g'.
Proof.
  assert (alternating true ((1, 0) :: stepMid ++ [(1, 0)])) as Halt.
  { simpl. unfold move. simpl. intuition congruence. }
  exact (conj stepGrid_nonbasic_empty (conj stepGrid_finite (conj stepGrid_nonneg
           (conj stepGrid_ready (conj Halt
              (applyPivot_feasible (solveLeastCost stepProblem) (1, 0) stepMid true
                 stepGrid_nonbasic_empty stepGrid_finite stepGrid_nonneg
                 stepGrid_ready Halt)))))).
Defined.

(** * Valid tableaux under a full iteration *)

Lemma rowSum_cells rows cols h g r :
  wf_grid rows cols g →
  rowSum h g r = zsum ((λ c, from_option h 0 (cell_at g r c)) <$> seqZ 0 cols).
Proof.
  intros [Hlen Hall]. unfold rowSum, cell_at.
  destruct (zget g r) as [cells|] eqn:E; simpl.
  - rewrite (fmap_zget_seqZ h 0 cells).
    rewrite Forall_forall in Hall. rewrite (Hall cells); [done|]. by eapply zget_elem_of.
  - rewrite (zsum_fmap_const _ _ 0); [lia|done].
Qed.

Lemma colSum_cells rows cols h g c :
  wf_grid rows cols g →
  colSum h g c = zsum ((λ r, from_option h 0 (cell_at g r c)) <$> seqZ 0 rows).
Proof.
  intros [Hlen Hall]. unfold colSum, cell_at.
  rewrite (fmap_zget_seqZ _ 0 g), Hlen. apply zsum_fmap_ext. intros r _. simpl.
  by destruct (zget g r).
Qed.

Section same_plan.
Context (rows cols : Z) (g g' : Grid).
Context (Hwf : wf_grid rows cols g) (Hwf' : wf_grid rows cols g').
Context (Hsame : same_plan g g').

Lemma same_plan_cell_at r c cl' :
  cell_at g' r c = Some cl' → ∃ cl, cell_at g r c = Some cl ∧ same_plan_cell cl cl'.
Proof.
  intros Hcl'. specialize (Hsame r c). rewrite Hcl' in Hsame.
  inversion Hsame as [cl x HR Hcl Hx|]; subst. by exists cl.
Qed.

Lemma same_plan_cell_at_l r c cl :
  cell_at g r c = Some cl → ∃ cl', cell_at g' r c = Some cl' ∧ same_plan_cell cl cl'.
Proof.
  intros Hcl. specialize (Hsame r c). rewrite Hcl in Hsame.
  inversion Hsame as [x cl' HR Hx Hcl'|]; subst. by exists cl'.
Qed.

Lemma same_plan_basic r c : isBasicAt g' r c = isBasicAt g r c.
Proof.
  unfold isBasicAt. specialize (Hsame r c).
  destruct Hsame as [cl cl' (Hb & _)|]; done.
Qed.

Lemma same_plan_sum (h : Cell → Z) :
  (∀ a b, same_plan_cell a b → h b = h a) →
  gridSum h g' = gridSum h g ∧
  (∀ r, rowSum h g' r = rowSum h g r) ∧ (∀ c, colSum h g' c = colSum h g c).
Proof.
  intros Hh.
  assert (∀ r c, from_option h 0 (cell_at g' r c) = from_option h 0 (cell_at g r c)) as Hc.
  { intros r c. specialize (Hsame r c). destruct Hsame as [a b HR|]; simpl; [|done].
    by apply Hh. }
  split_and!.
  - rewrite (gridSum_scan rows cols h g' Hwf'), (gridSum_scan rows cols h g Hwf).
    apply zsum_fmap_ext. intros rc _. apply Hc.
  - intros r. rewrite (rowSum_cells rows cols h g' r Hwf'), (rowSum_cells rows cols h g r Hwf).
    apply zsum_fmap_ext. intros c _. apply Hc.
  - intros c. rewrite (colSum_cells rows cols h g' c Hwf'), (colSum_cells rows cols h g c Hwf).
    apply zsum_fmap_ext. intros r _. apply Hc.
Qed.

Lemma same_plan_tableau : tableau_ok rows cols g → tableau_ok rows cols g'.
Proof.
  intros [[_ Hrows Hcols Hcount Hconn _] Hempty Hfin Halloc Hnn].
  assert (connected rows cols g') as Hconn'.
  { eapply connected_ext; [|exact Hconn]. apply same_plan_basic. }
  assert (count_basic g' = rows + cols - 1) as Hcount'.
  { rewrite <- Hcount. apply (count_basic_ext rows cols); try done. apply same_plan_basic. }
  constructor.
  - constructor; try done. by eapply connected_count_acyclic.
  - intros r c cl' (cl & Hcl & Hb & Ha & _)%same_plan_cell_at. rewrite Hb, Ha.
    by apply (Hempty r c).
  - intros r c cl' (cl & Hcl & Hb & Ha & _)%same_plan_cell_at. rewrite Ha.
    by apply (Hfin r c).
  - intros r c cl' (cl & Hcl & Hb & Ha & _)%same_plan_cell_at. rewrite Hb, Ha.
    by apply (Halloc r c).
  - intros r c cl' a (cl & Hcl & Hb & Ha & _)%same_plan_cell_at. rewrite Ha.
    by apply (Hnn r c).
Qed.

Lemma same_plan_dual u v rc : dual_eq g u v rc → dual_eq g' u v rc.
Proof.
  intros (cl & ur & vc & Hcl & Hb & Hu & Hv & Hsum).
  destruct (same_plan_cell_at_l _ _ _ Hcl) as (cl' & Hcl' & Hb' & _ & Hc').
  exists cl', ur, vc. split_and!; try done; congruence.
Qed.

Lemma same_plan_delta u v rc : deltaAt u v g' rc = deltaAt u v g rc.
Proof.
  unfold deltaAt. specialize (Hsame rc.1 rc.2).
  destruct Hsame as [a b (Hb & _ & Hc)|]; [|done]. simpl.
  unfold deltaOf. by rewrite Hb, Hc.
Qed.

End same_plan.

Lemma same_plan_annotate g g1 u v :
  (∀ r c, cell_at g1 r c = annotate u v r c <$> cell_at g r c) → same_plan g g1.
Proof.
  intros H r c. rewrite H. destruct (cell_at g r c); by constructor.
Qed.

Lemma same_plan_clean g : same_plan g (map (map cleanCell) g).
Proof. by apply cells_rel_map. Qed.

Lemma shipCost_same_plan a b : same_plan_cell a b → shipCost b = shipCost a.
Proof. intros (_ & Ha & Hc). unfold shipCost, qty. by rewrite Ha, Hc. Qed.

Lemma qty_same_plan a b : same_plan_cell a b → qty b = qty a.
Proof. intros (_ & Ha & _). unfold qty. by rewrite Ha. Qed.

(** One pivot on a valid tableau, for an entering cell with opportunity cost
    [d] under potentials that satisfy the dual equation on the basis. *)
Lemma tableau_pivot rows cols g e u v d :
  tableau_ok rows cols g → in_grid rows cols e → deltaAt u v g e = Some d →
  (∀ r c, isBasicAt g r c = true → dual_eq g u v (r, c)) →
  ∃ mid g' theta,
    findLoop e g = Ok (Some (e :: mid ++ [e])) ∧
    applyPivot g (e :: mid ++ [e]) = Ok (g', Fin theta) ∧
    tableau_ok rows cols g' ∧ 0 ≤ theta ∧
    gridSum shipCost g' = gridSum shipCost g + theta * d ∧
    (∀ r, rowTotal g' r = rowTotal g r) ∧ (∀ c, colTotal g' c = colTotal g c).
Proof.
  intros [Hinv Hempty Hfin Halloc Hnn] He Hd Hdual.
  pose proof Hinv as [Hwf Hrows Hcols _ Hconn Hacyc].
  assert (isBasicAt g e.1 e.2 = false) as Hnb.
  { unfold deltaAt, deltaOf, isBasicAt in *. destruct (cell_at g e.1 e.2) as [cl|]; [|done].
    simpl in Hd. by destruct (isBasin cl). }
  destruct (findLoop_found rows cols g e Hwf Hrows He) as (mid & Hloop & Hcomp).
  { by apply (connected_completion rows cols). }
  destruct (completion_odd g e mid Hacyc Hcomp) as [Hodd _].
  apply completion_top in Hcomp as (Halt & Hnd & Hb & _).
  assert (pivot_ready g e mid) as Hready by (by eapply pivot_ready_intro).
  destruct (applyPivot_basis_inv rows cols g e mid true Hinv Hready Halt)
    as (g' & theta & Hrun & Hinv').
  destruct (applyPivot_gridSum g e mid Hempty Hready) as (g'' & theta' & Hrun' & Hsum).
  pose proof (eq_trans (eq_sym Hrun') Hrun) as Heq. injection Heq as -> ->.
  destruct (applyPivot_nonneg g e mid _ _ Hready Hfin Hnn Hrun) as [(t' & Heq & Ht) Hnn'].
  injection Heq as Heq. subst t'.
  destruct (applyPivot_totals g e mid true _ _ Hempty Hready Halt Hrun) as [Hrt Hct].
  exists mid, g', theta. split_and!; try done.
  - constructor; try done.
    + by eapply applyPivot_nonbasic_empty.
    + by eapply applyPivot_finite.
    + by eapply applyPivot_basic_allocated.
  - rewrite Hsum. f_equal. f_equal.
    rewrite (loop_altsum g e mid true u v Halt Hodd).
    2:{ intros n Hn. rewrite <- (node_eta n). apply Hdual. by apply Hb. }
    unfold deltaAt, deltaOf, cellCost, potAt in *.
    destruct (cell_at g e.1 e.2) as [cl|]; [|done]. simpl in *.
    destruct (isBasin cl); [done|].
    destruct (known u e.1), (known v e.2); simpl in *; try done.
    injection Hd as <-. lia.
Qed.

Lemma stepGrid_tableau : tableau_ok 2 2 (solveLeastCost stepProblem).
Proof.
  constructor.
  - exact stepGrid_basis.
  - exact stepGrid_nonbasic_empty.
  - exact stepGrid_finite.
  - exact stepGrid_allocated.
  - exact stepGrid_nonneg.
Qed.

(** One full iteration on a valid tableau: the optimal case and the pivot
    case, with what each keeps. *)
Lemma performFullIteration_cases rows cols g :
  tableau_ok rows cols g →
  ∃ before, calculateTotalCost g = Fin before ∧
    ((∃ g1, performFullIteration g rows cols = Ok (IsOptimal g1 (Fin before)) ∧
            same_plan g g1) ∨
     (∃ g' after theta,
        performFullIteration g rows cols = Ok (Pivoted g' (Fin after) (Fin theta)) ∧
        tableau_ok rows cols g' ∧ calculateTotalCost g' = Fin after ∧
        0 ≤ theta ∧ after ≤ before ∧ (0 < theta → after < before) ∧
        (∀ r, rowTotal g' r = rowTotal g r) ∧ (∀ c, colTotal g' c = colTotal g c))).
Proof.
  intros Hok. pose proof Hok as [Hinv Hempty Hfin Halloc Hnn].
  pose proof Hinv as [Hwf Hrows Hcols Hcount Hconn Hacyc].
  destruct (calculatePotentials_tree rows cols g Hwf Hrows Hcols Hcount Hconn)
    as (u & v & Hpot & _ & _ & _ & _ & _ & Hdual).
  destruct (calculateOpportunityCosts_run rows cols g u v Hwf)
    as (g1 & m & e & Hrun & Hwf1 & Hcells & He).
  pose proof (same_plan_annotate g g1 u v Hcells) as Hsame.
  pose proof (same_plan_tableau rows cols g g1 Hwf Hwf1 Hsame Hok) as Hok1.
  destruct (same_plan_sum rows cols g g1 Hwf Hwf1 Hsame shipCost shipCost_same_plan)
    as (Hcost1 & _ & _).
  destruct (same_plan_sum rows cols g g1 Hwf Hwf1 Hsame qty qty_same_plan)
    as (_ & Hrow1 & Hcol1).
  exists (gridSum shipCost g). split; [by apply calculateTotalCost_gridSum|].
  unfold performFullIteration. rewrite Hpot. cbn [rbind]. rewrite Hrun.
  destruct (nge m (Fin 0)) eqn:Hge.
  - left. exists g1. split; [|done].
    by rewrite (calculateTotalCost_gridSum g1 (tb_finite _ _ _ Hok1)), Hcost1.
  - right. destruct e as [e|]; [|by subst m].
    destruct He as (d & -> & Hin & Hd). simpl in Hge. apply Z.leb_gt in Hge.
    destruct (tableau_pivot rows cols g1 e u v d Hok1 Hin)
      as (mid & g2 & theta & Hloop & Hpivot & Hok2 & Ht & Hcost2 & Hrow2 & Hcol2).
    { by rewrite (same_plan_delta g g1 Hsame). }
    { intros r c Hb. apply (same_plan_dual g g1 Hsame), Hdual.
      by rewrite <- (same_plan_basic g g1 Hsame). }
    rewrite Hloop. cbn [rbind]. rewrite Hpivot. cbn [rbind].
    pose proof (tb_basis _ _ _ Hok2) as [Hwf2 _ _ _ _ _].
    assert (wf_grid rows cols (map (map cleanCell) g2)) as Hwf3 by (by apply wf_grid_map).
    pose proof (same_plan_clean g2) as Hsame3.
    pose proof (same_plan_tableau rows cols g2 _ Hwf2 Hwf3 Hsame3 Hok2) as Hok3.
    destruct (same_plan_sum rows cols g2 _ Hwf2 Hwf3 Hsame3 shipCost shipCost_same_plan)
      as (Hcost3 & _ & _).
    destruct (same_plan_sum rows cols g2 _ Hwf2 Hwf3 Hsame3 qty qty_same_plan)
      as (_ & Hrow3 & Hcol3).
    rewrite (calculateTotalCost_gridSum _ (tb_finite _ _ _ Hok3)).
    eexists _, _, theta. split; [done|]. split_and!; try done.
    + by apply calculateTotalCost_gridSum, (tb_finite _ _ _ Hok3).
    + rewrite Hcost3, Hcost2, Hcost1. nia.
    + intros Hpos. rewrite Hcost3, Hcost2, Hcost1. nia.
    + intros r. unfold rowTotal. fold (rowSum qty (map (map cleanCell) g2) r).
      rewrite Hrow3. fold (rowSum qty g r). rewrite <- Hrow1. apply Hrow2.
    + intros c. unfold colTotal. fold (colSum qty (map (map cleanCell) g2) c).
      rewrite Hcol3. fold (colSum qty g c). rewrite <- Hcol1. apply Hcol2.
Qed.

(** X7.  One full iteration keeps a valid tableau valid.  On a tableau whose
    basis is a spanning tree, with finite non-negative allocations on the
    basic cells and none elsewhere, [performFullIteration] never returns an
    error: either it declares the grid optimal, returning it with its
    allocations and its cost unchanged, or it pivots, and then the new grid is
    again a valid tableau with the same row and column totals, theta is not
    negative, and the new cost is not above the old one (strictly below it
    when theta is positive). *)
Theorem performFullIteration_tableau rows cols g :
  tableau_ok rows cols g →
  ∃ before, calculateTotalCost g = Fin before ∧
    ((∃ g1, performFullIteration g rows cols = Ok (IsOptimal g1 (Fin before)) ∧
            same_plan g g1) ∨
     (∃ g' after theta,
        performFullIteration g rows cols = Ok (Pivoted g' (Fin after) (Fin theta)) ∧
        tableau_ok rows cols g' ∧ calculateTotalCost g' = Fin after ∧
        0 ≤ theta ∧ after ≤ before ∧ (0 < theta → after < before) ∧
        (∀ r, rowTotal g' r = rowTotal g r) ∧ (∀ c, colTotal g' c = colTotal g c))).
Proof. exact (performFullIteration_cases rows cols g). Qed.

Lemma performFullIteration_tableau_witness :
  tableau_ok 2 2 (solveLeastCost stepProblem) ∧
  ∃ before, calculateTotalCost (solveLeastCost stepProblem) = Fin before ∧
    ((∃ g1, performFullIteration (solveLeastCost stepProblem) 2 2
              = Ok (IsOptimal g1 (Fin before)) ∧
            same_plan (solveLeastCost stepProblem) g1) ∨
     (∃ g' after theta,
        performFullIteration (solveLeastCost stepProblem) 2 2
          = Ok (Pivoted g' (Fin after) (Fin theta)) ∧
        tableau_ok 2 2 g' ∧ calculateTotalCost g' = Fin after ∧
        0 ≤ theta ∧ after ≤ before ∧ (0 < theta → after < before) ∧
        (∀ r, rowTotal g' r = rowTotal (solveLeastCost stepProblem) r) ∧
        (∀ c, colTotal g' c = colTotal (solveLeastCost stepProblem) c))).
Proof.
  exact (conj stepGrid_tableau
           (performFullIteration_tableau 2 2 (solveLeastCost stepProblem) stepGrid_tableau)).
Defined.

(** * Optimality *)

Lemma calculateOpportunityCosts_min rows cols g u v g1 m e :
  wf_grid rows cols g → calculateOpportunityCosts g u v = (g1, m, e) →
  nge m (Fin 0) = true →
  ∀ rc d, deltaAt u v g rc = Some d → 0 ≤ d.
Proof.
  intros Hwf. unfold calculateOpportunityCosts. rewrite (scan_of_grid rows cols g Hwf).
  destruct (oppFold_spec u v (scan rows cols) g PInf None) as (g' & Hrun & _).
  destruct (minScan_spec (deltaAt u v g) (scan rows cols)) as (m' & e' & Hmin & Hspec).
  rewrite Hmin in Hrun. cbn [fst snd] in Hrun. rewrite Hrun. intros [= <- <- <-] Hge rc d Hd.
  assert (rc ∈ scan rows cols) as Hin.
  { destruct rc as [r c]. apply elem_of_scan, (cell_at_range rows cols g r c Hwf).
    unfold deltaAt in Hd. simpl in Hd. by destruct (cell_at g r c). }
  destruct e' as [key|].
  - destruct Hspec as (i & d0 & -> & _ & _ & Hall). simpl in Hge. apply Z.leb_le in Hge.
    apply list_elem_of_lookup_1 in Hin as [j Hj]. destruct (Hall j rc d Hj Hd). lia.
  - destruct Hspec as [_ Hall]. rewrite (Hall rc Hin) in Hd. done.
Qed.

Lemma zsum_fmap_add {A} (f f' : A → Z) (l : list A) :
  zsum ((λ x, f x + f' x) <$> l) = zsum (f <$> l) + zsum (f' <$> l).
Proof. induction l as [|x l IH]; csimpl; lia. Qed.

Lemma zsum_fmap_scale {A} k (f : A → Z) (l : list A) :
  zsum ((λ x, k * f x) <$> l) = k * zsum (f <$> l).
Proof. induction l as [|x l IH]; csimpl; lia. Qed.

Lemma zsum_fmap_mono {A} (f f' : A → Z) (l : list A) :
  (∀ x, x ∈ l → f x ≤ f' x) → zsum (f <$> l) ≤ zsum (f' <$> l).
Proof.
  induction l as [|x l IH]; intros H; csimpl; [lia|].
  pose proof (H x ltac:(left)). pose proof (IH ltac:(intros; apply H; by right)). lia.
Qed.

Lemma zsum_swap {A B} (f : A → B → Z) (la : list A) (lb : list B) :
  zsum ((λ a, zsum ((λ b, f a b) <$> lb)) <$> la) =
  zsum ((λ b, zsum ((λ a, f a b) <$> la)) <$> lb).
Proof.
  induction la as [|a la IH]; csimpl.
  - rewrite (zsum_fmap_const _ _ 0); [lia|done].
  - rewrite IH. by rewrite <- zsum_fmap_add.
Qed.

(** Potentials weigh a plan by its row and column totals only. *)
Lemma potential_sum rows cols (G : Grid) (U V : Z → Z) :
  wf_grid rows cols G →
  zsum ((λ rc, (U rc.1 + V rc.2) * from_option qty 0 (cell_at G rc.1 rc.2))
          <$> scan rows cols) =
  zsum ((λ r, U r * rowTotal G r) <$> seqZ 0 rows) +
  zsum ((λ c, V c * colTotal G c) <$> seqZ 0 cols).
Proof.
  intros Hwf. rewrite zsum_scan. cbn [fst snd].
  rewrite (zsum_fmap_ext _ (λ r, U r * rowTotal G r
             + zsum ((λ c, V c * from_option qty 0 (cell_at G r c)) <$> seqZ 0 cols))).
  2:{ intros r _. simpl.
      change (rowTotal G r) with (rowSum qty G r).
      rewrite (rowSum_cells rows cols qty G r Hwf), <- zsum_fmap_scale, <- zsum_fmap_add.
      apply zsum_fmap_ext. intros c _. simpl. lia. }
  rewrite zsum_fmap_add. f_equal.
  rewrite (zsum_swap (λ r c, V c * from_option qty 0 (cell_at G r c))).
  apply zsum_fmap_ext. intros c _. simpl.
  change (colTotal G c) with (colSum qty G c).
  by rewrite (colSum_cells rows cols qty G c Hwf), <- zsum_fmap_scale.
Qed.

(** Weak duality: on a tableau declared optimal the potentials price every
    feasible plan from below, and the tableau itself exactly. *)
Lemma optimal_minimal_aux rows cols g g1 cost1 plan :
  tableau_ok rows cols g →
  performFullIteration g rows cols = Ok (IsOptimal g1 cost1) →
  wf_grid rows cols plan →
  (∀ r c, 0 ≤ r < rows → 0 ≤ c < cols →
          cost <$> cell_at plan r c = cost <$> cell_at g r c) →
  finite_allocations plan → nonneg_allocations plan →
  (∀ r, 0 ≤ r < rows → rowTotal plan r = rowTotal g r) →
  (∀ c, 0 ≤ c < cols → colTotal plan c = colTotal g c) →
  gridSum shipCost g ≤ gridSum shipCost plan.
Proof.
  intros Hok Hrun Hwfp Hcosts Hfinp Hnnp Hrows Hcols.
  pose proof Hok as [Hinv Hempty Hfin Halloc Hnn].
  pose proof Hinv as [Hwf Hr1 Hc1 Hcount Hconn Hacyc].
  destruct (calculatePotentials_tree rows cols g Hwf Hr1 Hc1 Hcount Hconn)
    as (u & v & Hpot & _ & _ & Hu & Hv & _ & Hdual).
  unfold performFullIteration in Hrun. rewrite Hpot in Hrun. cbn [rbind] in Hrun.
  destruct (calculateOpportunityCosts g u v) as [[g1' m] e] eqn:Hopp.
  assert (nge m (Fin 0) = true) as Hge.
  { destruct (nge m (Fin 0)); [done|]. destruct e as [e|]; [|done].
    destruct (findLoop e g1') as [[loop|]| |]; simpl in Hrun; try done.
    destruct (applyPivot g1' loop) as [[? ?]| |]; simpl in Hrun; done. }
  pose proof (calculateOpportunityCosts_min rows cols g u v g1' m e Hwf Hopp Hge) as Hmin.
  set (U := λ r, default 0 (known u r)). set (V := λ c, default 0 (known v c)).
  (* reduced costs: zero on the basis, not negative elsewhere *)
  assert (∀ r c cl, cell_at g r c = Some cl →
            (isBasin cl = true → cost cl = U r + V c) ∧ U r + V c ≤ cost cl) as Hred.
  { intros r c cl Hcl. destruct (isBasin cl) eqn:Eb.
    - destruct (Hdual r c) as (cl' & ur & vc & Hcl' & _ & Hur & Hvc & Hsum).
      { unfold isBasicAt. by rewrite Hcl. }
      simpl in *. rewrite Hcl in Hcl'. injection Hcl' as <-.
      unfold U, V. rewrite Hur, Hvc. simpl. split; [lia|lia].
    - split; [done|].
      destruct (cell_at_range rows cols g r c Hwf) as [[Hrr Hcc] _]; [by rewrite Hcl|].
      destruct (Hu r Hrr) as [ur Hur]. destruct (Hv c Hcc) as [vc Hvc].
      assert (0 ≤ cost cl - (ur + vc)); [|unfold U, V; rewrite Hur, Hvc; simpl; lia].
      apply (Hmin (r, c)). unfold deltaAt, deltaOf. simpl.
      by rewrite Hcl; simpl; rewrite Eb, Hur, Hvc. }
  rewrite (gridSum_scan rows cols shipCost g Hwf).
  rewrite (gridSum_scan rows cols shipCost plan Hwfp).
  trans (zsum ((λ rc, (U rc.1 + V rc.2) * from_option qty 0 (cell_at plan rc.1 rc.2))
                  <$> scan rows cols)).
  - rewrite (potential_sum rows cols plan U V Hwfp).
    rewrite (zsum_fmap_ext _ (λ r, U r * rowTotal g r) (seqZ 0 rows))
      by (intros r Hr%elem_of_seqZ; rewrite Hrows; [done|lia]).
    rewrite (zsum_fmap_ext _ (λ c, V c * colTotal g c) (seqZ 0 cols))
      by (intros c Hc%elem_of_seqZ; rewrite Hcols; [done|lia]).
    rewrite <- (potential_sum rows cols g U V Hwf).
    apply Z.eq_le_incl, zsum_fmap_ext. intros [r c] _. simpl.
    destruct (cell_at g r c) as [cl|] eqn:Hcl; simpl; [|lia].
    destruct (Hred r c cl Hcl) as [Hb _]. unfold shipCost, qty.
    destruct (isBasin cl) eqn:Eb.
    + rewrite (Hb eq_refl). lia.
    + rewrite (Hempty r c cl Hcl Eb). lia.
  - apply zsum_fmap_mono. intros [r c] [Hrr Hcc]%elem_of_scan. simpl.
    specialize (Hcosts r c Hrr Hcc).
    destruct (cell_at plan r c) as [pl|] eqn:Hpl; simpl; [|lia].
    destruct (cell_at g r c) as [cl|] eqn:Hcl; simpl in Hcosts; [|done].
    injection Hcosts as Hcost. destruct (Hred r c cl Hcl) as [_ Hle].
    unfold shipCost. rewrite Hcost.
    assert (0 ≤ qty pl); [|nia].
    unfold qty. destruct (allocation pl) as [[a| | |]|] eqn:Ea; try lia.
    by apply (Hnnp r c pl a).
Qed.

(** X8.  The optimality test is sound.  When [performFullIteration] declares
    a valid tableau optimal, no feasible plan is cheaper: every grid of the
    same shape and unit costs, with finite non-negative allocations, the same
    row totals and the same column totals, costs at least as much. *)
Theorem optimal_is_minimal rows cols g g1 cost1 plan :
  tableau_ok rows cols g →
  performFullIteration g rows cols = Ok (IsOptimal g1 cost1) →
  wf_grid rows cols plan →
  (∀ r c, 0 ≤ r < rows → 0 ≤ c < cols →
          cost <$> cell_at plan r c = cost <$> cell_at g r c) →
  finite_allocations plan → nonneg_allocations plan →
  (∀ r, 0 ≤ r < rows → rowTotal plan r = rowTotal g r) →
  (∀ c, 0 ≤ c < cols → colTotal plan c = colTotal g c) →
  ∃ a b, calculateTotalCost g = Fin a ∧ calculateTotalCost plan = Fin b ∧ a ≤ b.
Proof.
  intros Hok Hrun Hwfp Hcosts Hfinp Hnnp Hrows Hcols.
  exists (gridSum shipCost g), (gridSum shipCost plan).
  split; [by apply calculateTotalCost_gridSum, (tb_finite _ _ _ Hok)|].
  split; [by apply calculateTotalCost_gridSum|].
  by apply (optimal_minimal_aux rows cols g g1 cost1 plan).
Qed.

Lemma optGrid_tableau : tableau_ok 2 2 optGrid.
Proof.
  constructor.
  - apply basis_inv_intro; try done.
    + split; [done|]. by repeat constructor.
    + assert (adjacent optGrid (RowN 0) (ColN 1)) as H01 by reflexivity.
      assert (adjacent optGrid (ColN 1) (RowN 1)) as H11 by reflexivity.
      assert (adjacent optGrid (RowN 1) (ColN 0)) as H10 by reflexivity.
      intros [r|c] Hx; simpl in Hx.
      * assert (r = 0 ∨ r = 1) as [-> | ->] by lia; [done|].
        eapply rtc_l; [exact H01|]. by eapply rtc_once.
      * assert (c = 0 ∨ c = 1) as [-> | ->] by lia; [|by eapply rtc_once].
        eapply rtc_l; [exact H01|]. eapply rtc_l; [exact H11|]. by eapply rtc_once.
  - apply nonbasic_empty_Forall. simpl. repeat constructor; done.
  - apply finite_allocations_Forall. simpl.
    repeat (apply Forall_cons_2; [simpl; eauto|]). apply Forall_nil_2.
  - apply basic_allocated_Forall. simpl. repeat constructor; done.
  - apply nonneg_allocations_Forall. simpl.
    repeat (apply Forall_cons_2; [intros a Ha; simpl in Ha; simplify_eq; lia|]).
    apply Forall_nil_2.
Qed.

Lemma optimal_is_minimal_witness :
  ∃ g1 cost1,
    tableau_ok 2 2 optGrid ∧
    performFullIteration optGrid 2 2 = Ok (IsOptimal g1 cost1) ∧
    wf_grid 2 2 (solveLeastCost stepProblem) ∧
    (∀ r c, 0 ≤ r < 2 → 0 ≤ c < 2 →
            cost <$> cell_at (solveLeastCost stepProblem) r c = cost <$> cell_at optGrid r c) ∧
    finite_allocations (solveLeastCost stepProblem) ∧
    nonneg_allocations (solveLeastCost stepProblem) ∧
    (∀ r, 0 ≤ r < 2 → rowTotal (solveLeastCost stepProblem) r = rowTotal optGrid r) ∧
    (∀ c, 0 ≤ c < 2 → colTotal (solveLeastCost stepProblem) c = colTotal optGrid c) ∧
    ∃ a b, calculateTotalCost optGrid = Fin a ∧
           calculateTotalCost (solveLeastCost stepProblem) = Fin b ∧ a ≤ b.
Proof.
  assert (∃ g1 cost1, performFullIteration optGrid 2 2 = Ok (IsOptimal g1 cost1))
    as (g1 & cost1 & Hrun) by (eexists _, _; vm_compute; reflexivity).
  assert (wf_grid 2 2 (solveLeastCost stepProblem)) as Hwf
    by (apply (bi_wf _ _ _ stepGrid_basis)).
  assert (∀ r c, 0 ≤ r < 2 → 0 ≤ c < 2 →
            cost <$> cell_at (solveLeastCost stepProblem) r c = cost <$> cell_at optGrid r c)
    as Hcosts.
  { intros r c Hr Hc. assert (r = 0 ∨ r = 1) as [-> | ->] by lia;
      (assert (c = 0 ∨ c = 1) as [-> | ->] by lia); reflexivity. }
  assert (∀ r, 0 ≤ r < 2 → rowTotal (solveLeastCost stepProblem) r = rowTotal optGrid r)
    as Hrows.
  { intros r Hr. assert (r = 0 ∨ r = 1) as [-> | ->] by lia; reflexivity. }
  assert (∀ c, 0 ≤ c < 2 → colTotal (solveLeastCost stepProblem) c = colTotal optGrid c)
    as Hcols.
  { intros c Hc. assert (c = 0 ∨ c = 1) as [-> | ->] by lia; reflexivity. }
  exists g1, cost1.
  exact (conj optGrid_tableau (conj Hrun (conj Hwf (conj Hcosts (conj stepGrid_finite
           (conj stepGrid_nonneg (conj Hrows (conj Hcols
              (optimal_is_minimal 2 2 optGrid g1 cost1 (solveLeastCost stepProblem)
                 optGrid_tableau Hrun Hwf Hcosts stepGrid_finite stepGrid_nonneg
                 Hrows Hcols))))))))).
Defined.

(** * What the solver never changes *)

Lemma same_static_trans x y z : same_static x y → same_static y z → same_static x z.
Proof.
  unfold same_static. intros (? & ? & ? & ? & ?) (? & ? & ? & ? & ?). split_and!; congruence.
Qed.

Lemma allocFold_rel (R : Cell → Cell → Prop) l g s d cnt :
  (∀ cl, R cl cl) → (∀ x y z, R x y → R y z → R x z) →
  (∀ a cl, 0 < a → R cl (set_isBasin true (set_allocation (Some (Fin a)) cl))) →
  cells_rel R g (foldl allocStep (g, s, d, cnt) l).1.1.1.
Proof.
  intros Hrefl Htrans Hstep. revert g s d cnt.
  induction l as [|e l IH]; intros g s d cnt; cbn [foldl]; [by apply cells_rel_refl|].
  destruct (allocStep (g, s, d, cnt) e) as [[[g1 s1] d1] cnt1] eqn:E.
  eapply cells_rel_trans; [done| |apply IH].
  unfold allocStep in E.
  destruct ((0 <? default 0 (zget s (er e))) && (0 <? default 0 (zget d (ec e)))) eqn:Hpos.
  - injection E as <- _ _ _. apply cells_rel_upd; [done|]. intros cl. apply Hstep.
    apply andb_prop in Hpos as [?%Z.ltb_lt ?%Z.ltb_lt]. lia.
  - injection E as <- _ _ _. by apply cells_rel_refl.
Qed.

Lemma fillFold_rel (R : Cell → Cell → Prop) l g needed :
  (∀ cl, R cl cl) → (∀ x y z, R x y → R y z → R x z) →
  (∀ cl, R cl (set_allocation (Some (Fin 0)) (set_isBasin true cl))) →
  cells_rel R g (foldl fillStep (g, needed) l).1.
Proof.
  intros Hrefl Htrans Hstep. revert g needed.
  induction l as [|e l IH]; intros g needed; cbn [foldl]; [by apply cells_rel_refl|].
  destruct (fillStep (g, needed) e) as [g1 n1] eqn:E.
  eapply cells_rel_trans; [done| |apply IH].
  unfold fillStep in E. destruct (needed <=? 0).
  - injection E as <- _. by apply cells_rel_refl.
  - destruct (negb (isBasicAt g (er e) (ec e))).
    + injection E as <- _. by apply cells_rel_upd.
    + injection E as <- _. by apply cells_rel_refl.
Qed.

(** Every cell of the least-cost start comes from the cell of the empty grid
    by steps that mark it basic with a positive quantity or with zero. *)
Lemma solveLeastCost_rel (R : Cell → Cell → Prop) p :
  (∀ cl, R cl cl) → (∀ x y z, R x y → R y z → R x z) →
  (∀ a cl, 0 < a → R cl (set_isBasin true (set_allocation (Some (Fin a)) cl))) →
  (∀ cl, R cl (set_allocation (Some (Fin 0)) (set_isBasin true cl))) →
  cells_rel R (createEmptyGrid (rowCount p) (colCount p) (costs p)) (solveLeastCost p).
Proof.
  intros Hrefl Htrans Halloc Hfill. unfold solveLeastCost.
  pose proof (allocFold_rel R (cellsList p)
                (createEmptyGrid (rowCount p) (colCount p) (costs p))
                (initialSupply p) (initialDemand p) 0 Hrefl Htrans Halloc) as H1.
  destruct (foldl allocStep _ (cellsList p)) as [[[g1 s1] d1] cnt1]. simpl in H1.
  destruct (cnt1 <? rowCount p + colCount p - 1); [|done].
  eapply cells_rel_trans; [done|exact H1|]. by apply fillFold_rel.
Qed.

Lemma solveLeastCost_nonneg p : nonneg_allocations (solveLeastCost p).
Proof.
  pose proof (solveLeastCost_rel
                (λ a b, (∀ z, allocation a = Some (Fin z) → 0 ≤ z) →
                        (∀ z, allocation b = Some (Fin z) → 0 ≤ z)) p) as H.
  intros r c cl a Hcl Ha.
  specialize (H (λ cl H, H) (λ x y z Hxy Hyz H, Hyz (Hxy H))).
  simpl in H.
  specialize (H ltac:(intros a0 cl0 Ha0 _ z [= <-]; lia)
                ltac:(intros cl0 _ z [= <-]; lia) r c).
  rewrite Hcl, cell_at_createEmptyGrid in H. case_decide; inversion H as [x y HR|]; subst.
  apply HR; [|done]. by intros z.
Qed.

(** X9.  The least-cost start shows the problem it solves: the cell at row
    [r] and column [c] of the grid of [solveLeastCost] carries the
    coordinates [r] and [c] and the unit cost [costs[r][c]], no highlight and
    no opportunity cost, and its allocation, when it has one, is a finite
    quantity that is not negative. *)
Theorem solveLeastCost_cells p r c :
  problem_wf p → 0 ≤ r < rowCount p → 0 ≤ c < colCount p →
  ∃ cl, cell_at (solveLeastCost p) r c = Some cl ∧
    row cl = r ∧ col cl = c ∧ cost cl = costAt (costs p) r c ∧
    highlight cl = HNone ∧ opportunityCost cl = None ∧
    (∀ x, allocation cl = Some x → ∃ z, x = Fin z ∧ 0 ≤ z).
Proof.
  intros _ Hr Hc.
  set (ok := λ cl : Cell, ∀ x, allocation cl = Some x → ∃ z, x = Fin z ∧ 0 ≤ z).
  set (R := λ a b : Cell, same_static a b ∧ (ok a → ok b)).
  assert (∀ cl, R cl cl) as Hrefl by (intros cl; split; [by unfold same_static|done]).
  assert (∀ x y z, R x y → R y z → R x z) as Htrans.
  { intros x y z [Hs1 H1] [Hs2 H2]. split; [|eauto]. unfold same_static in *.
    destruct Hs1 as (? & ? & ? & ? & ?), Hs2 as (? & ? & ? & ? & ?). split_and!; congruence. }
  assert (∀ a cl, 0 < a → R cl (set_isBasin true (set_allocation (Some (Fin a)) cl)))
    as Halloc.
  { intros a cl Ha. split; [by unfold same_static|].
    intros _ x [= <-]. exists a. split; [done|lia]. }
  assert (∀ cl, R cl (set_allocation (Some (Fin 0)) (set_isBasin true cl))) as Hfill.
  { intros cl. split; [by unfold same_static|]. intros _ x [= <-]. by exists 0. }
  pose proof (solveLeastCost_rel R p Hrefl Htrans Halloc Hfill r c) as H.
  rewrite cell_at_createEmptyGrid, decide_True in H by done.
  inversion H as [x cl [(Hrow & Hcol & Hcost & Hhl & Hopp) Hok] Hx Hcl|]; subst.
  simpl in *. exists cl. split_and!; try done. by apply Hok.
Qed.

Lemma solveLeastCost_cells_witness :
  problem_wf stepProblem ∧ 0 ≤ 1 < rowCount stepProblem ∧ 0 ≤ 0 < colCount stepProblem ∧
  ∃ cl, cell_at (solveLeastCost stepProblem) 1 0 = Some cl ∧
    row cl = 1 ∧ col cl = 0 ∧ cost cl = costAt (costs stepProblem) 1 0 ∧
    highlight cl = HNone ∧ opportunityCost cl = None ∧
    (∀ x, allocation cl = Some x → ∃ z, x = Fin z ∧ 0 ≤ z).
Proof.
  assert (0 ≤ 1 < rowCount stepProblem) as Hr by (simpl; lia).
  assert (0 ≤ 0 < colCount stepProblem) as Hc by (simpl; lia).
  exact (conj stepProblem_wf (conj Hr (conj Hc
           (solveLeastCost_cells stepProblem 1 0 stepProblem_wf Hr Hc)))).
Defined.

Lemma solveLeastCost_fresh p : fresh_grid (solveLeastCost p).
Proof.
  pose proof (solveLeastCost_rel same_static p) as H.
  intros r c cl Hcl.
  specialize (H ltac:(by unfold same_static) same_static_trans
                ltac:(by unfold same_static) ltac:(by unfold same_static) r c).
  rewrite Hcl, cell_at_createEmptyGrid in H.
  case_decide; inversion H as [x y (Hrow & Hcol & _ & Hhl & Hopp)|]; subst. done.
Qed.

Lemma solveLeastCost_costs p r c cl :
  cell_at (solveLeastCost p) r c = Some cl → cost cl = costAt (costs p) r c.
Proof.
  pose proof (solveLeastCost_rel same_static p) as H.
  intros Hcl.
  specialize (H ltac:(by unfold same_static) same_static_trans
                ltac:(by unfold same_static) ltac:(by unfold same_static) r c).
  rewrite Hcl, cell_at_createEmptyGrid in H.
  case_decide; inversion H as [x y (_ & _ & Hcost & _)|]; subst. done.
Qed.

(** A pivot of the full iteration keeps the shape of the grid and, in every
    cell, the coordinates and the unit cost; it leaves no highlight and no
    opportunity cost. *)
Lemma performFullIteration_static rows cols g g' cost1 theta :
  wf_grid rows cols g →
  performFullIteration g rows cols = Ok (Pivoted g' cost1 theta) →
  wf_grid rows cols g' ∧
  cells_rel (λ a b, row b = row a ∧ col b = col a ∧ cost b = cost a ∧
                    highlight b = HNone ∧ opportunityCost b = None) g g'.
Proof.
  intros Hwf Hrun. unfold performFullIteration in Hrun.
  destruct (calculatePotentials g rows cols) as [[u v]| |]; simpl in Hrun; [|done..].
  destruct (calculateOpportunityCosts_run rows cols g u v Hwf)
    as (g1 & m & e & Hopp & Hwf1 & Hcells & _).
  rewrite Hopp in Hrun. destruct (nge m (Fin 0)); [done|].
  destruct e as [e|]; [|done].
  destruct (findLoop e g1) as [[loop|]| |]; simpl in Hrun; [|done..].
  destruct (applyPivot g1 loop) as [[g2 t]| |] eqn:Hpivot; simpl in Hrun; [|done..].
  injection Hrun as <- _ _. split.
  - apply wf_grid_map. by eapply applyPivot_wf.
  - intros r c. rewrite cell_at_map.
    pose proof (applyPivot_static g1 loop g2 t Hpivot r c) as H. rewrite Hcells in H.
    destruct (cell_at g r c) as [cl|]; simpl in H; inversion H as [x y Hs|]; subst;
      constructor.
    destruct Hs as (Hrow & Hcol & Hcost & _). simpl in *. done.
Qed.

(** X10.  [performFullIteration] never changes a unit cost or a coordinate.
    When it declares a rectangular grid optimal, the grid it returns differs
    from the given one in the opportunity costs only; when it pivots, the
    grid it returns has the same shape and, in every cell, the same
    coordinates and unit cost, and carries no highlight and no opportunity
    cost. *)
Theorem performFullIteration_keeps_costs rows cols g result :
  wf_grid rows cols g →
  performFullIteration g rows cols = Ok result →
  match result with
  | IsOptimal g1 _ =>
      wf_grid rows cols g1 ∧
      ∀ r c cl, cell_at g r c = Some cl →
        ∃ cl1, cell_at g1 r c = Some cl1 ∧
               set_opportunityCost None cl1 = set_opportunityCost None cl
  | Pivoted g' _ _ =>
      wf_grid rows cols g' ∧
      ∀ r c cl, cell_at g r c = Some cl →
        ∃ cl', cell_at g' r c = Some cl' ∧
          row cl' = row cl ∧ col cl' = col cl ∧ cost cl' = cost cl ∧
          highlight cl' = HNone ∧ opportunityCost cl' = None
  | IsError _ => True
  end.
Proof.
  intros Hwf Hrun. destruct result as [g1 c1|msg|g' c' t]; [|done|].
  - unfold performFullIteration in Hrun.
    destruct (calculatePotentials g rows cols) as [[u v]| |]; simpl in Hrun; [|done..].
    destruct (calculateOpportunityCosts_run rows cols g u v Hwf)
      as (g2 & m & e & Hopp & Hwf1 & Hcells & _).
    rewrite Hopp in Hrun. destruct (nge m (Fin 0)).
    + injection Hrun as <- _. split; [done|]. intros r c cl Hcl.
      rewrite Hcells, Hcl. simpl. eexists. split; [done|]. by destruct cl.
    + destruct e as [e|]; [|done].
      destruct (findLoop e g2) as [[loop|]| |]; simpl in Hrun; [|done..].
      destruct (applyPivot g2 loop) as [[g3 t]| |]; simpl in Hrun; done.
  - destruct (performFullIteration_static rows cols g g' c' t Hwf Hrun) as [Hwf' Hrel].
    split; [done|]. intros r c cl Hcl. specialize (Hrel r c). rewrite Hcl in Hrel.
    inversion Hrel as [x cl' HR Hx Hcl'|]; subst. by exists cl'.
Qed.

Lemma performFullIteration_keeps_costs_witness :
  ∃ result,
    wf_grid 2 2 (solveLeastCost stepProblem) ∧
    performFullIteration (solveLeastCost stepProblem) 2 2 = Ok result ∧
    match result with
    | IsOptimal g1 _ =>
        wf_grid 2 2 g1 ∧
        ∀ r c cl, cell_at (solveLeastCost stepProblem) r c = Some cl →
          ∃ cl1, cell_at g1 r c = Some cl1 ∧
                 set_opportunityCost None cl1 = set_opportunityCost None cl
    | Pivoted g' _ _ =>
        wf_grid 2 2 g' ∧
        ∀ r c cl, cell_at (solveLeastCost stepProblem) r c = Some cl →
          ∃ cl', cell_at g' r c = Some cl' ∧
            row cl' = row cl ∧ col cl' = col cl ∧ cost cl' = cost cl ∧
            highlight cl' = HNone ∧ opportunityCost cl' = None
    | IsError _ => True
    end.
Proof.
  assert (∃ result, performFullIteration (solveLeastCost stepProblem) 2 2 = Ok result)
    as [result Hrun] by (eexists; vm_compute; reflexivity).
  assert (wf_grid 2 2 (solveLeastCost stepProblem)) as Hwf
    by (apply (bi_wf _ _ _ stepGrid_basis)).
  exists result.
  exact (conj Hwf (conj Hrun
           (performFullIteration_keeps_costs 2 2 (solveLeastCost stepProblem) result Hwf Hrun))).
Defined.

(** * The handlers of [App] *)

(** ** Highlights and opportunity costs play no part in the search or the pivot *)

Lemma zalter_fmap {A B} (f : A → B) (h : B → B) (h' : A → A) i (l : list A) :
  (∀ x, f (h' x) = h (f x)) → f <$> zalter h' i l = zalter h i (f <$> l).
Proof.
  intros Hc. unfold zalter. case_decide; [|done].
  apply list_fmap_alter, Forall_forall. eauto.
Qed.

Lemma upd_map (f h h' : Cell → Cell) g r c :
  (∀ cl, f (h' cl) = h (f cl)) →
  map (map f) (upd g r c h') = upd (map (map f) g) r c h.
Proof.
  intros Hc. unfold upd.
  change (map (map f)) with (fmap (M:=list) (fmap (M:=list) f)).
  apply zalter_fmap. intros cells. by apply zalter_fmap.
Qed.

Lemma upd_id g r c h : (∀ cl, h cl = cl) → upd g r c h = g.
Proof.
  intros Hid. unfold upd, zalter. case_decide; [|done].
  apply list_alter_id. intros cells. case_decide; [|done]. by apply list_alter_id.
Qed.

Lemma clean_upd_highlight g r c x :
  map (map cleanCell) (upd g r c (set_highlight x)) = map (map cleanCell) g.
Proof.
  rewrite (upd_map cleanCell (λ cl, cl) (set_highlight x)) by done. by apply upd_id.
Qed.

Lemma findTheta_clean g loop b theta lv :
  findTheta (map (map cleanCell) g) loop b theta lv = findTheta g loop b theta lv.
Proof.
  revert b theta lv. induction loop as [|n loop IH]; intros b theta lv; simpl; [done|].
  destruct b; [|done]. rewrite cell_at_map.
  destruct (cell_at g n.1 n.2) as [cl|]; simpl; [|done].
  destruct (allocation cl); [|done]. by destruct (nlt _ _).
Qed.

Lemma applyTheta_clean theta g loop b :
  applyTheta theta (map (map cleanCell) g) loop b =
  (g1 ←ᵣ applyTheta theta g loop b; Ok (map (map cleanCell) g1)).
Proof.
  revert g b. induction loop as [|n loop IH]; intros g b; simpl; [done|].
  rewrite cell_at_map. destruct (cell_at g n.1 n.2) as [cl|]; simpl; [|done].
  rewrite <- IH. f_equal. symmetry. apply upd_map. intros cl'. by destruct b.
Qed.

Lemma applyPivot_clean g loop :
  applyPivot (map (map cleanCell) g) loop =
  ('(g', theta) ←ᵣ applyPivot g loop; Ok (map (map cleanCell) g', theta)).
Proof.
  unfold applyPivot. rewrite findTheta_clean.
  destruct (findTheta g loop false PInf None) as [[theta lv]| |]; simpl; [|done..].
  assert (map (map copyCell) (map (map cleanCell) g) =
          map (map cleanCell) (map (map copyCell) g)) as ->.
  { rewrite !map_map. apply map_ext. intros cells. rewrite !map_map. by apply map_ext. }
  rewrite applyTheta_clean.
  destruct (applyTheta theta (map (map copyCell) g) _ true) as [g1| |]; simpl; [|done..].
  assert (leaveGrid lv (map (map cleanCell) g1) = map (map cleanCell) (leaveGrid lv g1))
    as ->.
  { destruct lv as [n|]; simpl; [|done]. symmetry. by apply upd_map. }
  destruct loop as [|start rest]; [done|]. rewrite cell_at_map.
  destruct (cell_at (leaveGrid lv g1) start.1 start.2) as [cl|]; simpl; [|done].
  f_equal. f_equal.
  rewrite <- (upd_map cleanCell (set_isBasin true) (set_isBasin true)) by done.
  rewrite !map_map. apply map_ext. intros cells. rewrite !map_map. apply map_ext.
  intros cl'. unfold cleanupCell. simpl. by destruct (isBasin cl').
Qed.

Lemma rowCandidates_clean g start current cs :
  rowCandidates (map (map cleanCell) g) start current cs = rowCandidates g start current cs.
Proof.
  induction cs as [|c cs IH]; simpl; [done|]. rewrite IH, cell_at_map.
  by destruct (cell_at g current.1 c).
Qed.

Lemma colCandidates_clean g start current rs :
  colCandidates (map (map cleanCell) g) start current rs = colCandidates g start current rs.
Proof.
  induction rs as [|r rs IH]; simpl; [done|]. rewrite IH, cell_at_map.
  by destruct (cell_at g r current.2).
Qed.

Lemma tryNexts_ext rec rec' start current nexts path visited :
  (∀ n p v, rec n p v = rec' n p v) →
  tryNexts rec start current nexts path visited =
  tryNexts rec' start current nexts path visited.
Proof.
  intros Hrec. revert path visited.
  induction nexts as [|n nexts IH]; intros path visited; simpl; [done|].
  rewrite Hrec. destruct (match path with _ :: prev :: _ => sameNode prev n | _ => false end);
    [done|].
  destruct (negb (bool_decide (n ∈ visited)) || sameNode n start); [|done].
  by destruct (rec' n path visited).
Qed.

Lemma search_clean fuel g rows cols start current isH path visited :
  search fuel (map (map cleanCell) g) rows cols start current isH path visited =
  search fuel g rows cols start current isH path visited.
Proof.
  revert current isH path visited.
  induction fuel as [|fuel IH]; intros current isH path visited; simpl; [done|].
  destruct ((4 <=? zlen (current :: path)) && sameNode current start); [done|].
  destruct ((1 <? zlen (current :: path)) && sameNode current start); [done|].
  assert (nextNodes (map (map cleanCell) g) rows cols start current isH =
          nextNodes g rows cols start current isH) as ->.
  { unfold nextNodes. destruct isH; [apply rowCandidates_clean|apply colCandidates_clean]. }
  destruct (nextNodes g rows cols start current isH); [|done..].
  apply tryNexts_ext. intros. apply IH.
Qed.

Lemma findLoop_clean e g : findLoop e (map (map cleanCell) g) = findLoop e g.
Proof.
  destruct g as [|cells0 g]; [done|]. unfold findLoop.
  change (map (map cleanCell) (cells0 :: g))
    with (map cleanCell cells0 :: map (map cleanCell) g).
  cbv beta iota. rewrite <- (search_clean _ (cells0 :: g)).
  assert (zlen (map cleanCell cells0 :: map (map cleanCell) g) = zlen (cells0 :: g)) as ->.
  { unfold zlen. simpl. by rewrite length_map. }
  assert (zlen (map cleanCell cells0) = zlen cells0) as ->.
  { unfold zlen. by rewrite length_map. }
  rewrite <- (search_clean _ (cells0 :: g) _ _ e e false). done.
Qed.

(** ** Marking the loop *)

Lemma markLoop_rel (R : Cell → Cell → Prop) g loop idx g' :
  (∀ cl, R cl cl) → (∀ x y z, R x y → R y z → R x z) →
  (∀ x cl, x ≠ HEntering → R cl (set_highlight x cl)) →
  markLoop g loop idx = Ok g' → cells_rel R g g'.
Proof.
  intros Hrefl Htrans Hmark. revert g idx.
  induction loop as [|n loop IH]; intros g idx; simpl.
  - intros [= <-]. by apply cells_rel_refl.
  - destruct (idx =? 0); [by apply IH|].
    destruct (cell_at g n.1 n.2); [|done]. intros Hrun%IH.
    eapply cells_rel_trans; [done| |exact Hrun].
    apply cells_rel_upd; [done|]. intros cl. apply Hmark. by destruct (idx mod 2 =? 0).
Qed.

Lemma markLoop_clean g loop idx g' :
  markLoop g loop idx = Ok g' → map (map cleanCell) g' = map (map cleanCell) g.
Proof.
  revert g idx. induction loop as [|n loop IH]; intros g idx; simpl.
  - by intros [= <-].
  - destruct (idx =? 0); [by apply IH|].
    destruct (cell_at g n.1 n.2); [|done]. intros Hrun%IH.
    by rewrite Hrun, clean_upd_highlight.
Qed.

Lemma markLoop_Ok g loop idx :
  (∀ n, n ∈ loop → is_Some (cell_at g n.1 n.2)) → ∃ g', markLoop g loop idx = Ok g'.
Proof.
  revert g idx. induction loop as [|n loop IH]; intros g idx Hin; simpl; [eauto|].
  assert (∀ n', n' ∈ loop → is_Some (cell_at g n'.1 n'.2)) as Hin'
    by (intros; apply Hin; by right).
  destruct (idx =? 0); [by apply IH|].
  destruct (Hin n ltac:(left)) as [cl ->]. apply IH. intros n' Hn'.
  rewrite cell_at_upd. case_decide; [|by apply Hin'].
  apply fmap_is_Some. by apply Hin'.
Qed.

(** A node marked by [markLoop] no longer carries the entering highlight. *)
Lemma markLoop_marked g loop idx g' n :
  0 < idx → markLoop g loop idx = Ok g' → n ∈ loop →
  ∃ cl, cell_at g' n.1 n.2 = Some cl ∧ highlight cl ≠ HEntering.
Proof.
  revert g idx. induction loop as [|m loop IH]; intros g idx Hidx; simpl.
  - by intros _ ?%elem_of_nil.
  - rewrite (proj2 (Z.eqb_neq idx 0)) by lia.
    destruct (cell_at g m.1 m.2) as [cl|] eqn:Hcl; [|done]. intros Hrun Hn.
    destruct (decide (n ∈ loop)) as [Hin|Hnin].
    { by apply (IH _ (idx + 1) ltac:(lia) Hrun). }
    apply elem_of_cons in Hn as [->|Hn]; [|done].
    pose proof (markLoop_rel (λ a b, highlight a ≠ HEntering → highlight b ≠ HEntering)
                  _ _ _ _ (λ cl H, H) (λ x y z Hxy Hyz H, Hyz (Hxy H))
                  (λ x cl Hx _, Hx) Hrun m.1 m.2) as H.
    rewrite cell_at_upd_eq, Hcl in H. simpl in H.
    inversion H as [x y HR|]; subst. exists y. split; [done|].
    apply HR. simpl. by destruct (idx mod 2 =? 0).
Qed.

(** ** Looking for the entering highlight *)

Lemma elem_of_concat_cell_at (g : Grid) cl :
  cl ∈ concat g → ∃ r c, cell_at g r c = Some cl.
Proof.
  intros (cells & Hcells & Hcl)%list_elem_of_In%in_concat.
  apply list_elem_of_In in Hcells, Hcl.
  apply elem_of_zget in Hcells as [r Hr]. apply elem_of_zget in Hcl as [c Hc].
  exists r, c. unfold cell_at. by rewrite Hr.
Qed.

Lemma findEntering_concat g :
  findEntering g =
  foldl (λ node cl, match highlight cl with HEntering => (row cl, col cl) | _ => node end)
    (-1, -1) (concat g).
Proof.
  unfold findEntering. generalize (-1, -1). induction g as [|cells g IH]; intros n; simpl.
  - done.
  - by rewrite foldl_app, IH.
Qed.

Lemma findEntering_fold (l : list Cell) (e n : LoopNode) :
  (∀ cl, cl ∈ l → highlight cl = HEntering → (row cl, col cl) = e) →
  let out := foldl (λ node cl,
                      match highlight cl with HEntering => (row cl, col cl) | _ => node end)
               n l in
  out = e ∨ (out = n ∧ ∀ cl, cl ∈ l → highlight cl ≠ HEntering).
Proof.
  revert n. induction l as [|cl l IH]; intros n Hall; simpl.
  - right. split; [done|]. by intros cl ?%elem_of_nil.
  - assert (∀ cl', cl' ∈ l → highlight cl' = HEntering → (row cl', col cl') = e) as Hall'
      by (intros; apply Hall; [by right|done]).
    destruct (highlight cl) eqn:Hh.
    + destruct (IH (row cl, col cl) Hall') as [H|[H _]]; [by left|].
      left. simpl in H. rewrite H. apply Hall; [left|done].
    + destruct (IH n Hall') as [H|[H Hno]]; [by left|]. right. split; [done|].
      intros cl' [->|Hin]%elem_of_cons; [congruence|by apply Hno].
    + destruct (IH n Hall') as [H|[H Hno]]; [by left|]. right. split; [done|].
      intros cl' [->|Hin]%elem_of_cons; [congruence|by apply Hno].
    + destruct (IH n Hall') as [H|[H Hno]]; [by left|]. right. split; [done|].
      intros cl' [->|Hin]%elem_of_cons; [congruence|by apply Hno].
    + destruct (IH n Hall') as [H|[H Hno]]; [by left|]. right. split; [done|].
      intros cl' [->|Hin]%elem_of_cons; [congruence|by apply Hno].
Qed.

(** No entering highlight: the sentinel [{r: -1, c: -1}] stays. *)
Lemma findEntering_none g :
  (∀ r c cl, cell_at g r c = Some cl → highlight cl ≠ HEntering) →
  findEntering g = (-1, -1).
Proof.
  intros Hno. rewrite findEntering_concat.
  destruct (findEntering_fold (concat g) (-1, -1) (-1, -1)) as [H|[H _]]; try done.
  intros cl (r & c & Hcl)%elem_of_concat_cell_at Hh. by destruct (Hno r c cl Hcl).
Qed.

(** One entering highlight, on a cell that carries its own coordinates. *)
Lemma findEntering_unique g (e : LoopNode) cle :
  cell_at g e.1 e.2 = Some cle → highlight cle = HEntering →
  (∀ r c cl, cell_at g r c = Some cl → highlight cl = HEntering → (row cl, col cl) = e) →
  findEntering g = e.
Proof.
  intros Hcle Hhe Hall. rewrite findEntering_concat.
  destruct (findEntering_fold (concat g) e (-1, -1)) as [H|[_ Hno]]; [|done|].
  - intros cl (r & c & Hcl)%elem_of_concat_cell_at Hh. by eapply Hall.
  - destruct (Hno cle); [|done]. by eapply cell_at_elem_of_concat.
Qed.

(** ** The full iteration, step by step *)

(** What a pivot of [performFullIteration] on a rectangular grid went
    through. *)
Lemma performFullIteration_pivot_inv rows cols g g' cost1 theta :
  wf_grid rows cols g → 1 ≤ rows →
  performFullIteration g rows cols = Ok (Pivoted g' cost1 theta) →
  ∃ u v gd m e rest g2,
    calculatePotentials g rows cols = Ok (u, v) ∧
    calculateOpportunityCosts g u v = (gd, m, Some e) ∧ nge m (Fin 0) = false ∧
    wf_grid rows cols gd ∧
    (∀ r c, cell_at gd r c = annotate u v r c <$> cell_at g r c) ∧
    in_grid rows cols e ∧
    findLoop e gd = Ok (Some (e :: rest ++ [e])) ∧
    (∀ n, n ∈ e :: rest ++ [e] → is_Some (cell_at gd n.1 n.2)) ∧
    applyPivot gd (e :: rest ++ [e]) = Ok (g2, theta) ∧
    g' = map (map cleanCell) g2 ∧ cost1 = calculateTotalCost g'.
Proof.
  intros Hwf Hrows Hrun. unfold performFullIteration in Hrun.
  destruct (calculatePotentials g rows cols) as [[u v]| |]; simpl in Hrun; [|done..].
  destruct (calculateOpportunityCosts_run rows cols g u v Hwf)
    as (gd & m & e & Hopp & Hwf1 & Hcells & He).
  rewrite Hopp in Hrun. destruct (nge m (Fin 0)) eqn:Hge; [done|].
  destruct e as [e|]; [|done]. destruct He as (d & _ & Hin & _).
  destruct (findLoop_total rows cols gd e Hwf1 Hrows Hin)
    as [[Hnone _]|(isH & rest & Hloop & Hcomp)].
  { by rewrite Hnone in Hrun. }
  rewrite Hloop in Hrun. simpl in Hrun.
  destruct (applyPivot gd (e :: rest ++ [e])) as [[g2 t]| |] eqn:Hpivot; simpl in Hrun;
    [|done..].
  injection Hrun as <- <- <-. exists u, v, gd, m, e, rest, g2. split_and!; try done.
  intros n Hn. by eapply completion_in_grid.
Qed.

(** The grid with the entering cell highlighted: the search finds the same
    loop on it, the highlight is found again, and once the loop is marked no
    entering highlight is left. *)
Lemma entering_marked rows cols g u v gd (e : LoopNode) rest :
  fresh_grid g →
  (∀ r c, cell_at gd r c = annotate u v r c <$> cell_at g r c) →
  (∀ n, n ∈ e :: rest ++ [e] → is_Some (cell_at gd n.1 n.2)) →
  wf_grid rows cols gd →
  let gd' := upd gd e.1 e.2 (set_highlight HEntering) in
  findEntering gd' = e ∧ findLoop e gd' = findLoop e gd ∧
  ∃ gl, markLoop gd' (e :: rest ++ [e]) 0 = Ok gl ∧ findEntering gl = (-1, -1) ∧
        map (map cleanCell) gl = map (map cleanCell) gd.
Proof.
  intros Hfresh Hcells Hin Hwf gd'.
  assert (∀ r c cl, cell_at gd r c = Some cl →
            row cl = r ∧ col cl = c ∧ highlight cl = HNone) as Hgd.
  { intros r c cl. rewrite Hcells. destruct (cell_at g r c) as [cl0|] eqn:Hcl0; [|done].
    intros [= <-]. destruct (Hfresh r c cl0 Hcl0) as (? & ? & ? & _). done. }
  destruct (Hin e ltac:(left)) as [cle Hcle].
  split; [|split].
  - apply (findEntering_unique gd' e (set_highlight HEntering cle)).
    + unfold gd'. by rewrite cell_at_upd_eq, Hcle.
    + done.
    + intros r c cl. unfold gd'. rewrite cell_at_upd. case_decide as Hrc.
      * injection Hrc as <- <-. rewrite Hcle. intros [= <-] _. simpl.
        destruct (Hgd _ _ _ Hcle) as (-> & -> & _). by destruct e.
      * intros Hcl Hh. destruct (Hgd _ _ _ Hcl) as (_ & _ & Hn). congruence.
  - rewrite <- (findLoop_clean e gd'), <- (findLoop_clean e gd). unfold gd'.
    by rewrite clean_upd_highlight.
  - destruct (markLoop_Ok gd' (e :: rest ++ [e]) 0) as [gl Hmark].
    { intros n Hn. unfold gd'. rewrite cell_at_upd. case_decide; [|by apply Hin].
      apply fmap_is_Some. by apply Hin. }
    exists gl. split; [done|]. split.
    + apply findEntering_none. intros r c cl Hcl.
      destruct (decide ((r, c) = e)) as [<-|Hne].
      * assert (markLoop gd' (rest ++ [(r, c)]) 1 = Ok gl) as Hmark' by exact Hmark.
        destruct (markLoop_marked gd' (rest ++ [(r, c)]) 1 gl (r, c) ltac:(lia) Hmark')
          as (cl' & Hcl' & Hh).
        { apply elem_of_app. right. left. }
        simpl in Hcl'. by rewrite Hcl in Hcl'; injection Hcl' as <-.
      * pose proof (markLoop_rel
                      (λ a b, highlight a ≠ HEntering → highlight b ≠ HEntering)
                      _ _ _ _ (λ cl H, H) (λ x y z Hxy Hyz H, Hyz (Hxy H))
                      (λ x cl Hx _, Hx) Hmark r c) as H.
        rewrite Hcl in H. unfold gd' in H. rewrite cell_at_upd_ne in H.
        2:{ intros Heq. apply Hne. by destruct e; simplify_eq/=. }
        inversion H as [x y HR Hx|]; subst. apply HR.
        symmetry in Hx. destruct (Hgd _ _ _ Hx) as (_ & _ & ->). done.
    + rewrite (markLoop_clean _ _ _ _ Hmark). unfold gd'. apply clean_upd_highlight.
Qed.

Lemma stepProblem_pivots :
  performFullIteration (solveLeastCost stepProblem) 2 2 = Ok (Pivoted optGrid (Fin 85) (Fin 5)).
Proof. by vm_compute. Qed.

(** X11.  The step-by-step mode cannot complete a pivot.  From a ['ready']
    state with a rectangular grid of clean cells (each carrying its own
    coordinates, no highlight and no opportunity cost), whenever the full
    iteration would pivot, three single steps reach ['loop'] with no cell left
    highlighted as entering -- marking the loop overwrites the highlight of
    the entering cell, which closes the loop -- and the fourth step throws a
    [TypeError]. *)
Theorem handleNextStep_pivot_throws p prev g' cost1 theta :
  wf_grid (rowCount p) (colCount p) (grid prev) → 1 ≤ rowCount p →
  fresh_grid (grid prev) → status prev = SReady →
  performFullIteration (grid prev) (rowCount p) (colCount p) = Ok (Pivoted g' cost1 theta) →
  (∃ s3, stepTimes p 3 prev = Ok s3 ∧ status s3 = SLoop ∧
         findEntering (grid s3) = (-1, -1)) ∧
  stepTimes p 4 prev = TypeError.
Proof.
  intros Hwf Hrows Hfresh Hst Hrun.
  destruct (performFullIteration_pivot_inv _ _ _ _ _ _ Hwf Hrows Hrun)
    as (u & v & gd & m & e & rest & g2 & Hpot & Hopp & Hge & Hwf1 & Hcells & He & Hloop &
        Hin & _).
  destruct (entering_marked _ _ _ u v gd e rest Hfresh Hcells Hin Hwf1)
    as (Hfind & Hsame & gl & Hmark & Hnone & _).
  destruct prev as [g pu pv tc st it]. cbn [grid status] in *. subst st.
  set (gd' := upd gd e.1 e.2 (set_highlight HEntering)) in *.
  assert (handleNextStep p (mkSolver g pu pv tc SReady it)
          = Ok (mkSolver g u v tc SPotentials it)) as H1.
  { unfold handleNextStep. cbn [status grid]. by rewrite Hpot. }
  assert (handleNextStep p (mkSolver g u v tc SPotentials it)
          = Ok (mkSolver gd' u v tc SDeltas it)) as H2.
  { unfold handleNextStep. cbn [status grid pot_u pot_v]. by rewrite Hopp, Hge. }
  assert (handleNextStep p (mkSolver gd' u v tc SDeltas it)
          = Ok (mkSolver gl u v tc SLoop it)) as H3.
  { unfold handleNextStep. cbn [status grid]. rewrite Hfind, Hsame, Hloop.
    cbn [rbind]. by rewrite Hmark. }
  assert (handleNextStep p (mkSolver gl u v tc SLoop it) = TypeError) as H4.
  { unfold handleNextStep. cbn [status grid]. by rewrite Hnone, findLoop_no_entering. }
  split.
  - exists (mkSolver gl u v tc SLoop it). cbn [stepTimes rbind].
    rewrite H1. cbn [rbind]. rewrite H2. cbn [rbind]. by rewrite H3.
  - cbn [stepTimes rbind].
    rewrite H1. cbn [rbind]. rewrite H2. cbn [rbind]. rewrite H3. cbn [rbind]. exact H4.
Qed.

Lemma handleNextStep_pivot_throws_witness :
  wf_grid (rowCount stepProblem) (colCount stepProblem) (grid (handleStart stepProblem)) ∧
  1 ≤ rowCount stepProblem ∧
  fresh_grid (grid (handleStart stepProblem)) ∧
  status (handleStart stepProblem) = SReady ∧
  performFullIteration (grid (handleStart stepProblem))
    (rowCount stepProblem) (colCount stepProblem) = Ok (Pivoted optGrid (Fin 85) (Fin 5)) ∧
  (∃ s3, stepTimes stepProblem 3 (handleStart stepProblem) = Ok s3 ∧ status s3 = SLoop ∧
         findEntering (grid s3) = (-1, -1)) ∧
  stepTimes stepProblem 4 (handleStart stepProblem) = TypeError.
Proof.
  assert (wf_grid (rowCount stepProblem) (colCount stepProblem)
            (grid (handleStart stepProblem))) as Hwf
    by (apply (bi_wf _ _ _ stepGrid_basis)).
  assert (1 ≤ rowCount stepProblem) as Hrows by (simpl; lia).
  exact (conj Hwf (conj Hrows (conj (solveLeastCost_fresh stepProblem) (conj eq_refl
           (conj stepProblem_pivots
              (handleNextStep_pivot_throws stepProblem (handleStart stepProblem)
                 optGrid (Fin 85) (Fin 5) Hwf Hrows (solveLeastCost_fresh stepProblem)
                 eq_refl stepProblem_pivots)))))).
Defined.

(** ** [handleNextIteration] against [performFullIteration] *)

(** The run of [handleNextIteration] from the result of the full iteration
    on the same grid. *)
Lemma handleNextIteration_run p solver result :
  wf_grid (rowCount p) (colCount p) (grid solver) → 1 ≤ rowCount p →
  performFullIteration (grid solver) (rowCount p) (colCount p) = Ok result →
  ∃ states, handleNextIteration p solver = (states, Ok ()) ∧
    match result with
    | IsOptimal g1 cost1 =>
        ∃ u v, calculatePotentials (grid solver) (rowCount p) (colCount p) = Ok (u, v) ∧
          last states = Some (mkSolver g1 u v cost1 SOptimal (iteration solver))
    | Pivoted g' cost' _ =>
        last states =
          Some (mkSolver g'
                  (replicate (Z.to_nat (rowCount p)) None)
                  (replicate (Z.to_nat (colCount p)) None)
                  cost' SReady (iteration solver + 1))
    | IsError _ =>
        ∃ s, last states = Some s ∧ status s = SLoop ∧
             iteration s = iteration solver ∧ totalCost s = totalCost solver
    end.
Proof.
  intros Hwf Hrows Hrun. unfold handleNextIteration, performFullIteration in *.
  destruct (calculatePotentials (grid solver) (rowCount p) (colCount p))
    as [[u v]| |] eqn:Hpot; cbn [rbind andThen] in *; [|done..].
  destruct (calculateOpportunityCosts_run _ _ (grid solver) u v Hwf)
    as (gd & m & e & Hopp & Hwf1 & Hcells & He).
  rewrite Hopp in *. cbn [pot_u pot_v iteration totalCost].
  destruct (nge m (Fin 0)) eqn:Hge.
  { injection Hrun as <-. eexists. split; [done|]. by exists u, v. }
  destruct e as [e|].
  2:{ injection Hrun as <-. eexists. split; [done|]. eexists. by split. }
  destruct He as (d & _ & Hin & _).
  assert (is_Some (cell_at gd e.1 e.2)) as [cle Hcle]
    by (by apply (cell_at_range _ _ gd e.1 e.2 Hwf1)).
  assert (findLoop e (upd gd e.1 e.2 (set_highlight HEntering)) = findLoop e gd) as Hsame.
  { rewrite <- (findLoop_clean e (upd _ _ _ _)), <- (findLoop_clean e gd).
    by rewrite clean_upd_highlight. }
  unfold identifyLoop. rewrite Hcle, Hsame.
  destruct (findLoop_total _ _ gd e Hwf1 Hrows Hin)
    as [[Hnone _]|(isH & rest & Hloop & Hcomp)].
  { rewrite Hnone in *. cbn [rbind andThen] in *. injection Hrun as <-.
    eexists. split; [done|]. eexists. by split. }
  rewrite Hloop in *. cbn [rbind] in *.
  destruct (markLoop_Ok (upd gd e.1 e.2 (set_highlight HEntering)) (e :: rest ++ [e]) 0)
    as [gl Hmark].
  { intros n Hn. rewrite cell_at_upd. case_decide.
    - apply fmap_is_Some. by eapply completion_in_grid.
    - by eapply completion_in_grid. }
  rewrite Hmark. cbn [rbind andThen].
  assert (map (map cleanCell) gl = map (map cleanCell) gd) as Hclean
    by (by rewrite (markLoop_clean _ _ _ _ Hmark), clean_upd_highlight).
  pose proof (applyPivot_clean gl (e :: rest ++ [e])) as Hgl.
  rewrite Hclean, applyPivot_clean in Hgl.
  destruct (applyPivot gd (e :: rest ++ [e])) as [[g2 t]| |]; cbn [rbind] in *; [|done..].
  destruct (applyPivot gl (e :: rest ++ [e])) as [[g2' t']| |]; cbn [rbind andThen] in *;
    [|done..].
  injection Hgl as Hg2 <-. injection Hrun as <-. rewrite <- Hg2.
  eexists. split; [done|]. done.
Qed.

(** X12.  The animated iteration ends where the full iteration does.  On a
    rectangular grid, whenever [performFullIteration] returns a result,
    [handleNextIteration] runs to its end without throwing, and the last
    state it installs is the one that result describes: ['optimal'] with the
    annotated grid and its cost; or ['ready'] with the grid after the pivot,
    its cost, fresh potentials and the next iteration number; or, when no
    loop is found, ['loop'] with the cost and iteration number unchanged. *)
Theorem handleNextIteration_agrees p solver result :
  wf_grid (rowCount p) (colCount p) (grid solver) → 1 ≤ rowCount p →
  performFullIteration (grid solver) (rowCount p) (colCount p) = Ok result →
  ∃ states, handleNextIteration p solver = (states, Ok ()) ∧
    match result with
    | IsOptimal g1 cost1 =>
        ∃ u v, calculatePotentials (grid solver) (rowCount p) (colCount p) = Ok (u, v) ∧
          last states = Some (mkSolver g1 u v cost1 SOptimal (iteration solver))
    | Pivoted g' cost' _ =>
        last states =
          Some (mkSolver g'
                  (replicate (Z.to_nat (rowCount p)) None)
                  (replicate (Z.to_nat (colCount p)) None)
                  cost' SReady (iteration solver + 1))
    | IsError _ =>
        ∃ s, last states = Some s ∧ status s = SLoop ∧
             iteration s = iteration solver ∧ totalCost s = totalCost solver
    end.
Proof. exact (handleNextIteration_run p solver result). Qed.

Lemma handleNextIteration_agrees_witness :
  wf_grid (rowCount stepProblem) (colCount stepProblem) (grid (handleStart stepProblem)) ∧
  1 ≤ rowCount stepProblem ∧
  performFullIteration (grid (handleStart stepProblem))
    (rowCount stepProblem) (colCount stepProblem) = Ok (Pivoted optGrid (Fin 85) (Fin 5)) ∧
  ∃ states, handleNextIteration stepProblem (handleStart stepProblem) = (states, Ok ()) ∧
    last states =
      Some (mkSolver optGrid
              (replicate (Z.to_nat (rowCount stepProblem)) None)
              (replicate (Z.to_nat (colCount stepProblem)) None)
              (Fin 85) SReady (iteration (handleStart stepProblem) + 1)).
Proof.
  assert (wf_grid (rowCount stepProblem) (colCount stepProblem)
            (grid (handleStart stepProblem))) as Hwf
    by (apply (bi_wf _ _ _ stepGrid_basis)).
  assert (1 ≤ rowCount stepProblem) as Hrows by (simpl; lia).
  exact (conj Hwf (conj Hrows (conj stepProblem_pivots
           (handleNextIteration_agrees stepProblem (handleStart stepProblem)
              (Pivoted optGrid (Fin 85) (Fin 5)) Hwf Hrows stepProblem_pivots)))).
Defined.

(** * From the least-cost start to the optimum *)

Lemma rowTotal_rowSum g r : rowTotal g r = rowSum qty g r.
Proof. done. Qed.

Lemma colTotal_colSum g c : colTotal g c = colSum qty g c.
Proof. done. Qed.

(** A grid with the allocations, basis and costs of a feasible plan of the
    same shape is a feasible plan. *)
Lemma feasible_plan_same p g g' :
  wf_grid (rowCount p) (colCount p) g' → same_plan g g' →
  feasible_plan p g → feasible_plan p g'.
Proof.
  intros Hwf' Hsame [Hwf Hcosts Hfin Hnn Hrows Hcols].
  destruct (same_plan_sum _ _ g g' Hwf Hwf' Hsame qty qty_same_plan) as (_ & Hr & Hc).
  constructor; try done.
  - intros r c cl' (cl & Hcl & _ & _ & Hcost)%(same_plan_cell_at g g' Hsame).
    rewrite Hcost. by eapply Hcosts.
  - intros r c cl' (cl & Hcl & _ & Ha & _)%(same_plan_cell_at g g' Hsame).
    rewrite Ha. by eapply Hfin.
  - intros r c cl' a (cl & Hcl & _ & Ha & _)%(same_plan_cell_at g g' Hsame).
    rewrite Ha. by eapply Hnn.
  - intros r Hrr. by rewrite rowTotal_rowSum, Hr, <- rowTotal_rowSum, <- Hrows.
  - intros c Hcc. by rewrite colTotal_colSum, Hc, <- colTotal_colSum, <- Hcols.
Qed.

(** The least-cost start is a feasible plan. *)
Lemma solveLeastCost_plan p :
  problem_wf p → balanced p → feasible_plan p (solveLeastCost p).
Proof.
  intros Hwf Hbal. destruct (solveLeastCost_initial p Hwf Hbal).
  constructor; try done.
  - intros r c cl. apply solveLeastCost_costs.
  - apply solveLeastCost_nonneg.
Qed.

(** One full iteration on a valid tableau that is a feasible plan. *)
Lemma iteration_step p g :
  tableau_ok (rowCount p) (colCount p) g → feasible_plan p g →
  ∃ result, performFullIteration g (rowCount p) (colCount p) = Ok result ∧
    match result with
    | IsOptimal g1 cost1 =>
        tableau_ok (rowCount p) (colCount p) g1 ∧ feasible_plan p g1 ∧
        ∃ a, cost1 = Fin a ∧ calculateTotalCost g1 = Fin a ∧ calculateTotalCost g = Fin a ∧
             ∀ plan, feasible_plan p plan →
                     ∃ b, calculateTotalCost plan = Fin b ∧ a ≤ b
    | Pivoted g' cost' _ =>
        tableau_ok (rowCount p) (colCount p) g' ∧ feasible_plan p g' ∧
        ∃ a a0, cost' = Fin a ∧ calculateTotalCost g' = Fin a ∧
                calculateTotalCost g = Fin a0 ∧ a ≤ a0
    | IsError _ => False
    end.
Proof.
  intros Hok Hplan. pose proof Hplan as [Hwf Hcosts Hfin Hnn Hrows Hcols].
  destruct (performFullIteration_cases _ _ g Hok)
    as (before & Hbefore &
        [(g1 & Hrun & Hsame)|(g' & after & theta & Hrun & Hok' & Hafter & _ & Hle & _ &
                              Hrt & Hct)]).
  - exists (IsOptimal g1 (Fin before)). split; [done|].
    assert (wf_grid (rowCount p) (colCount p) g1) as Hwf1.
    { unfold performFullIteration in Hrun.
      destruct (calculatePotentials g _ _) as [[u v]| |]; simpl in Hrun; [|done..].
      destruct (calculateOpportunityCosts_run _ _ g u v Hwf)
        as (gd & m & e & Hopp & Hwf1 & _).
      rewrite Hopp in Hrun. destruct (nge m (Fin 0)); [by injection Hrun as <-|].
      destruct e as [e|]; [|done].
      destruct (findLoop e gd) as [[loop|]| |]; simpl in Hrun; [|done..].
      destruct (applyPivot gd loop) as [[? ?]| |]; simpl in Hrun; done. }
    pose proof (same_plan_tableau _ _ g g1 Hwf Hwf1 Hsame Hok) as Hok1.
    pose proof (feasible_plan_same p g g1 Hwf1 Hsame Hplan) as Hplan1.
    split; [done|]. split; [done|]. exists before. split; [done|].
    destruct (same_plan_sum _ _ g g1 Hwf Hwf1 Hsame shipCost shipCost_same_plan)
      as (Hcost1 & _ & _).
    rewrite (calculateTotalCost_gridSum g Hfin) in Hbefore. injection Hbefore as <-.
    split; [by rewrite (calculateTotalCost_gridSum g1 (tb_finite _ _ _ Hok1)), Hcost1|].
    split; [by apply calculateTotalCost_gridSum|].
    intros plan [Hwfp Hcostsp Hfinp Hnnp Hrowsp Hcolsp].
    exists (gridSum shipCost plan). split; [by apply calculateTotalCost_gridSum|].
    apply (optimal_minimal_aux (rowCount p) (colCount p) g g1 (Fin (gridSum shipCost g)) plan);
      try done.
    + intros r c Hr Hc.
      destruct (proj2 (cell_at_range _ _ plan r c Hwfp) (conj Hr Hc)) as [pl Hpl].
      destruct (proj2 (cell_at_range _ _ g r c Hwf) (conj Hr Hc)) as [cl Hcl].
      rewrite Hpl, Hcl. simpl. by rewrite (Hcostsp _ _ _ Hpl), (Hcosts _ _ _ Hcl).
    + intros r Hr. pose proof (Hrows r Hr) as H1. rewrite (Hrowsp r Hr) in H1.
      by injection H1.
    + intros c Hc. pose proof (Hcols c Hc) as H1. rewrite (Hcolsp c Hc) in H1.
      by injection H1.
  - exists (Pivoted g' (Fin after) (Fin theta)). split; [done|].
    destruct (performFullIteration_static _ _ g g' _ _ Hwf Hrun) as [Hwf' Hrel].
    split; [done|]. split.
    + constructor; try done.
      * intros r c cl' Hcl'. specialize (Hrel r c). rewrite Hcl' in Hrel.
        inversion Hrel as [cl x (_ & _ & Hcost & _) Hcl Hx|]; subst.
        rewrite Hcost. by eapply Hcosts.
      * apply (tb_finite _ _ _ Hok').
      * apply (tb_nonneg _ _ _ Hok').
      * intros r Hr. by rewrite Hrt, <- Hrows.
      * intros c Hc. by rewrite Hct, <- Hcols.
    + by exists after, before.
Qed.

(** Pivots of the full iteration keep a valid tableau that is a feasible
    plan such. *)
Lemma pivots_inv p g g' :
  rtc (pivots (rowCount p) (colCount p)) g g' →
  tableau_ok (rowCount p) (colCount p) g ∧ feasible_plan p g →
  tableau_ok (rowCount p) (colCount p) g' ∧ feasible_plan p g'.
Proof.
  induction 1 as [g|g g' g'' (c & t & Hpiv) _ IH]; [done|].
  intros [Hok Hfeas]. apply IH.
  destruct (iteration_step p g Hok Hfeas) as (result & Hres & Hcase).
  rewrite Hpiv in Hres. injection Hres as <-. by destruct Hcase as (? & ? & _).
Qed.

Lemma stepProblem_plan : feasible_plan stepProblem (solveLeastCost stepProblem).
Proof. apply solveLeastCost_plan; [exact stepProblem_wf|reflexivity]. Qed.

Lemma optGrid_optimal :
  ∃ g1, performFullIteration optGrid 2 2 = Ok (IsOptimal g1 (Fin 85)).
Proof. eexists. vm_compute. reflexivity. Qed.

(** X13.  When the solver announces an optimum, it is one.  Start from the
    least-cost solution of a balanced problem whose basis is a spanning tree
    (as it is when the greedy pass alone allocates [rows + cols - 1] cells),
    and pivot with [performFullIteration] any number of times.  If
    [performFullIteration] then declares the grid optimal, the grid it
    returns is a feasible plan of the problem -- its unit costs, every supply
    shipped, every demand met, no negative quantity -- the cost it returns is
    the cost of that plan, and no feasible plan of the problem is cheaper. *)
Theorem solver_optimum p g g1 cost1 plan :
  problem_wf p → balanced p →
  basis_inv (rowCount p) (colCount p) (solveLeastCost p) →
  rtc (pivots (rowCount p) (colCount p)) (solveLeastCost p) g →
  performFullIteration g (rowCount p) (colCount p) = Ok (IsOptimal g1 cost1) →
  feasible_plan p plan →
  feasible_plan p g1 ∧
  ∃ a b, cost1 = Fin a ∧ calculateTotalCost g1 = Fin a ∧
         calculateTotalCost plan = Fin b ∧ a ≤ b.
Proof.
  intros Hwf Hbal Hbasis Hreach Hrun Hplan.
  assert (tableau_ok (rowCount p) (colCount p) g ∧ feasible_plan p g) as [Hok Hfeas].
  { assert (tableau_ok (rowCount p) (colCount p) (solveLeastCost p) ∧
            feasible_plan p (solveLeastCost p)) as Hstart.
    { split; [|by apply solveLeastCost_plan].
      destruct (solveLeastCost_initial p Hwf Hbal). constructor; try done.
      apply solveLeastCost_nonneg. }
    by apply (pivots_inv p _ g Hreach). }
  destruct (iteration_step p g Hok Hfeas) as (result & Hres & Hcase).
  rewrite Hrun in Hres. injection Hres as <-.
  destruct Hcase as (_ & Hfeas1 & a & -> & Hcost1 & _ & Hmin). split; [done|].
  destruct (Hmin plan Hplan) as (b & Hb & Hle). by exists a, b.
Qed.

Lemma solver_optimum_witness :
  ∃ g1,
    problem_wf stepProblem ∧ balanced stepProblem ∧
    basis_inv (rowCount stepProblem) (colCount stepProblem) (solveLeastCost stepProblem) ∧
    rtc (pivots (rowCount stepProblem) (colCount stepProblem))
      (solveLeastCost stepProblem) optGrid ∧
    performFullIteration optGrid (rowCount stepProblem) (colCount stepProblem)
      = Ok (IsOptimal g1 (Fin 85)) ∧
    feasible_plan stepProblem (solveLeastCost stepProblem) ∧
    feasible_plan stepProblem g1 ∧
    ∃ a b, Fin 85 = Fin a ∧ calculateTotalCost g1 = Fin a ∧
           calculateTotalCost (solveLeastCost stepProblem) = Fin b ∧ a ≤ b.
Proof.
  destruct optGrid_optimal as [g1 Hopt].
  assert (balanced stepProblem) as Hbal by reflexivity.
  assert (rtc (pivots (rowCount stepProblem) (colCount stepProblem))
            (solveLeastCost stepProblem) optGrid) as Hreach.
  { apply rtc_once. exists (Fin 85), (Fin 5). exact stepProblem_pivots. }
  exists g1.
  exact (conj stepProblem_wf (conj Hbal (conj stepGrid_basis (conj Hreach (conj Hopt
           (conj stepProblem_plan
              (solver_optimum stepProblem optGrid g1 (Fin 85) (solveLeastCost stepProblem)
                 stepProblem_wf Hbal stepGrid_basis Hreach Hopt stepProblem_plan))))))).
Defined.

(** ** The same for the handlers *)

(** What holds of every state reached from [handleStart] by runs of
    [handleNextIteration]. *)
Lemma nextIteration_inv p s s' :
  1 ≤ rowCount p →
  rtc (nextIteration p) s s' →
  tableau_ok (rowCount p) (colCount p) (grid s) ∧ feasible_plan p (grid s) ∧
  (status s = SReady ∨ status s = SOptimal) ∧
  (∃ a, totalCost s = Fin a ∧ calculateTotalCost (grid s) = Fin a ∧
        (status s = SOptimal →
         ∀ plan, feasible_plan p plan → ∃ b, calculateTotalCost plan = Fin b ∧ a ≤ b)) →
  tableau_ok (rowCount p) (colCount p) (grid s') ∧ feasible_plan p (grid s') ∧
  (status s' = SReady ∨ status s' = SOptimal) ∧
  (∃ a, totalCost s' = Fin a ∧ calculateTotalCost (grid s') = Fin a ∧
        (status s' = SOptimal →
         ∀ plan, feasible_plan p plan → ∃ b, calculateTotalCost plan = Fin b ∧ a ≤ b)).
Proof.
  intros Hrows. induction 1 as [s|s s' s'' (states & Hrun & Hlast) _ IH]; [done|].
  intros (Hok & Hfeas & _ & _). apply IH. clear IH.
  destruct (iteration_step p (grid s) Hok Hfeas) as (result & Hres & Hcase).
  destruct (handleNextIteration_run p s result (fp_wf _ _ Hfeas) Hrows Hres)
    as (states' & Hrun' & Hlast').
  rewrite Hrun in Hrun'. injection Hrun' as <-.
  destruct result as [g1 cost1|msg|g' cost' theta]; [| done |].
  - destruct Hlast' as (u & v & _ & Hlast'). rewrite Hlast in Hlast'.
    injection Hlast' as ->. cbn [grid status totalCost].
    destruct Hcase as (Hok1 & Hfeas1 & a & -> & Hcost1 & _ & Hmin).
    split_and!; try done; [by right|]. exists a. done.
  - rewrite Hlast in Hlast'. injection Hlast' as ->. cbn [grid status totalCost].
    destruct Hcase as (Hok1 & Hfeas1 & a & a0 & -> & Hcost1 & _).
    split_and!; try done; [by left|]. exists a. done.
Qed.

(** X14.  What the application shows is sound.  Take a balanced problem
    whose least-cost start has a spanning tree for a basis, the state
    [handleStart] installs for it, and any number of runs of
    [handleNextIteration].  In every state reached, the grid is a feasible
    plan of the problem, the total cost shown is the cost of that plan, the
    status is ['ready'] or ['optimal'], and one more run returns without
    throwing; and when the status is ['optimal'], no feasible plan of the
    problem costs less than the total shown. *)
Theorem app_optimum p s plan :
  problem_wf p → balanced p →
  basis_inv (rowCount p) (colCount p) (solveLeastCost p) →
  rtc (nextIteration p) (handleStart p) s →
  feasible_plan p plan →
  feasible_plan p (grid s) ∧
  (status s = SReady ∨ status s = SOptimal) ∧
  (∃ s', nextIteration p s s') ∧
  ∃ a b, totalCost s = Fin a ∧ calculateTotalCost (grid s) = Fin a ∧
         calculateTotalCost plan = Fin b ∧ (status s = SOptimal → a ≤ b).
Proof.
  intros Hwf Hbal Hbasis Hreach Hplan.
  pose proof (solveLeastCost_plan p Hwf Hbal) as Hstart.
  destruct (nextIteration_inv p (handleStart p) s (pwf_rows _ Hwf) Hreach)
    as (Hok & Hfeas & Hst & a & Hcost & Hgrid & Hmin).
  { cbn [handleStart grid status totalCost]. split_and!; try done.
    - destruct (solveLeastCost_initial p Hwf Hbal). constructor; try done.
      apply solveLeastCost_nonneg.
    - by left.
    - exists (gridSum shipCost (solveLeastCost p)).
      rewrite (calculateTotalCost_gridSum _ (fp_finite _ _ Hstart)). done. }
  split; [done|]. split; [done|]. split.
  - destruct (iteration_step p (grid s) Hok Hfeas) as (result & Hres & Hcase).
    destruct (handleNextIteration_run p s result (fp_wf _ _ Hfeas) (pwf_rows _ Hwf) Hres)
      as (states & Hrun & Hlast).
    destruct result as [g1 cost1|msg|g' cost' theta]; [| done |].
    + destruct Hlast as (u & v & _ & Hlast). eexists. by exists states.
    + eexists. by exists states.
  - exists a, (gridSum shipCost plan). split_and!; try done.
    + by apply calculateTotalCost_gridSum, (fp_finite _ _ Hplan).
    + intros Hopt. destruct (Hmin Hopt plan Hplan) as (b & Hb & Hle).
      rewrite (calculateTotalCost_gridSum _ (fp_finite _ _ Hplan)) in Hb.
      by injection Hb as <-.
Qed.

Lemma stepProblem_runs :
  ∃ u v g1,
    rtc (nextIteration stepProblem) (handleStart stepProblem)
      (mkSolver g1 u v (Fin 85) SOptimal 2).
Proof.
  eexists _, _, _. eapply rtc_l; [|eapply rtc_once].
  - eexists. split; [vm_compute; reflexivity|]. simpl. reflexivity.
  - eexists. split; [vm_compute; reflexivity|]. simpl. reflexivity.
Qed.

Lemma app_optimum_witness :
  ∃ s,
    problem_wf stepProblem ∧ balanced stepProblem ∧
    basis_inv (rowCount stepProblem) (colCount stepProblem) (solveLeastCost stepProblem) ∧
    rtc (nextIteration stepProblem) (handleStart stepProblem) s ∧
    feasible_plan stepProblem (solveLeastCost stepProblem) ∧
    status s = SOptimal ∧
    feasible_plan stepProblem (grid s) ∧
    (status s = SReady ∨ status s = SOptimal) ∧
    (∃ s', nextIteration stepProblem s s') ∧
    ∃ a b, totalCost s = Fin a ∧ calculateTotalCost (grid s) = Fin a ∧
           calculateTotalCost (solveLeastCost stepProblem) = Fin b ∧
           (status s = SOptimal → a ≤ b).
Proof.
  destruct stepProblem_runs as (u & v & g1 & Hreach).
  assert (balanced stepProblem) as Hbal by reflexivity.
  exists (mkSolver g1 u v (Fin 85) SOptimal 2).
  exact (conj stepProblem_wf (conj Hbal (conj stepGrid_basis (conj Hreach
           (conj stepProblem_plan (conj eq_refl
              (app_optimum stepProblem (mkSolver g1 u v (Fin 85) SOptimal 2)
                 (solveLeastCost stepProblem) stepProblem_wf Hbal stepGrid_basis
                 Hreach stepProblem_plan))))))).
Defined.

(** * The least-cost rule *)

Lemma insertByCost_sorted x l :
  StronglySorted (λ a b, ecost a ≤ ecost b) l →
  StronglySorted (λ a b, ecost a ≤ ecost b) (insertByCost x l).
Proof.
  induction 1 as [|y l Hl IH Hy]; simpl.
  - by repeat constructor.
  - destruct (ecost x <=? ecost y) eqn:E.
    + apply Z.leb_le in E. constructor; [by constructor|].
      constructor; [done|]. eapply Forall_impl; [exact Hy|]. simpl. lia.
    + apply Z.leb_gt in E. constructor; [done|].
      rewrite insertByCost_perm. constructor; [lia|done].
Qed.

Lemma sortByCost_sorted l : StronglySorted (λ a b, ecost a ≤ ecost b) (sortByCost l).
Proof.
  induction l as [|x l IH]; simpl; [constructor|]. by apply insertByCost_sorted.
Qed.

(** The allocation loop leaves alone the cells it has not come to. *)
Lemma allocFold_untouched l g s d cnt r c :
  (∀ y, y ∈ l → (er y, ec y) ≠ (r, c)) →
  cell_at (foldl allocStep (g, s, d, cnt) l).1.1.1 r c = cell_at g r c.
Proof.
  revert g s d cnt. induction l as [|e l IH]; intros g s d cnt Hne; cbn [foldl]; [done|].
  destruct (allocStep (g, s, d, cnt) e) as [[[g1 s1] d1] cnt1] eqn:E.
  rewrite IH by (intros; apply Hne; by right).
  unfold allocStep in E.
  destruct ((0 <? default 0 (zget s (er e))) && (0 <? default 0 (zget d (ec e)))).
  - injection E as <- _ _ _. apply cell_at_upd_ne, Hne. left.
  - by injection E as <- _ _ _.
Qed.

(** Once a supply is exhausted, the loop leaves its row alone. *)
Lemma allocFold_row_done l g s d cnt r c :
  default 0 (zget s r) ≤ 0 →
  cell_at (foldl allocStep (g, s, d, cnt) l).1.1.1 r c = cell_at g r c.
Proof.
  revert g s d cnt. induction l as [|e l IH]; intros g s d cnt Hs; cbn [foldl]; [done|].
  destruct (allocStep (g, s, d, cnt) e) as [[[g1 s1] d1] cnt1] eqn:E.
  unfold allocStep in E.
  destruct ((0 <? default 0 (zget s (er e))) && (0 <? default 0 (zget d (ec e)))) eqn:Hpos.
  - injection E as <- <- _ _. apply andb_prop in Hpos as [Hsr%Z.ltb_lt _].
    assert (er e ≠ r) as Hne by (intros Heq; rewrite Heq in Hsr; lia).
    rewrite IH by (by rewrite zget_zalter_ne).
    apply cell_at_upd_ne. congruence.
  - injection E as <- <- _ _. by apply IH.
Qed.

(** Once a demand is met, the loop leaves its column alone. *)
Lemma allocFold_col_done l g s d cnt r c :
  default 0 (zget d c) ≤ 0 →
  cell_at (foldl allocStep (g, s, d, cnt) l).1.1.1 r c = cell_at g r c.
Proof.
  revert g s d cnt. induction l as [|e l IH]; intros g s d cnt Hd; cbn [foldl]; [done|].
  destruct (allocStep (g, s, d, cnt) e) as [[[g1 s1] d1] cnt1] eqn:E.
  unfold allocStep in E.
  destruct ((0 <? default 0 (zget s (er e))) && (0 <? default 0 (zget d (ec e)))) eqn:Hpos.
  - injection E as <- _ <- _. apply andb_prop in Hpos as [_ Hdc%Z.ltb_lt].
    assert (ec e ≠ c) as Hne by (intros Heq; rewrite Heq in Hdc; lia).
    rewrite IH by (by rewrite zget_zalter_ne).
    apply cell_at_upd_ne. congruence.
  - injection E as <- _ <- _. by apply IH.
Qed.

(** After its turn a cell has its supply exhausted or its demand met. *)
Lemma allocStep_exhausts g s d cnt e g' s' d' cnt' :
  allocStep (g, s, d, cnt) e = (g', s', d', cnt') →
  default 0 (zget s' (er e)) ≤ 0 ∨ default 0 (zget d' (ec e)) ≤ 0.
Proof.
  unfold allocStep.
  destruct ((0 <? default 0 (zget s (er e))) && (0 <? default 0 (zget d (ec e)))) eqn:Hpos.
  - intros [= _ <- <- _]. rewrite !zget_zalter_eq.
    destruct (zget s (er e)) as [sr|], (zget d (ec e)) as [dc|]; simpl in *; lia.
  - intros [= _ <- <- _].
    apply andb_false_iff in Hpos as [H%Z.ltb_ge|H%Z.ltb_ge]; [by left|by right].
Qed.

(** X15.  The least-cost rule.  In the grid of [solveLeastCost], for every
    cell of the table, no costlier cell of its row ships anything, or no
    costlier cell of its column does: when the cell had its turn, in the order
    of the unit costs, its supply was exhausted or its demand was met, and
    nothing was allocated in that row, or in that column, afterwards. *)
Theorem solveLeastCost_rule p r c :
  problem_wf p → 0 ≤ r < rowCount p → 0 ≤ c < colCount p →
  (∀ c', 0 ≤ c' < colCount p → costAt (costs p) r c < costAt (costs p) r c' →
         from_option qty 0 (cell_at (solveLeastCost p) r c') = 0) ∨
  (∀ r', 0 ≤ r' < rowCount p → costAt (costs p) r c < costAt (costs p) r' c →
         from_option qty 0 (cell_at (solveLeastCost p) r' c) = 0).
Proof.
  intros _ Hr Hc.
  set (e := mkEntry r c (costAt (costs p) r c)).
  assert (e ∈ cellsList p) as He by (apply elem_of_cellsList; simpl; lia).
  apply list_elem_of_split in He as (l1 & l2 & HL).
  pose proof (sortByCost_sorted
                ((λ rc, mkEntry rc.1 rc.2 (costAt (costs p) rc.1 rc.2))
                   <$> scan (rowCount p) (colCount p))) as Hsorted.
  fold (cellsList p) in Hsorted. rewrite HL in Hsorted.
  (* an entry that costs more than [e] comes after it *)
  assert (∀ y, y ∈ l1 ++ [e] → ecost y ≤ ecost e) as Hbefore.
  { intros y [Hy| ->%list_elem_of_singleton]%elem_of_app; [|done].
    apply (StronglySorted_app_1_elem_of _ _ _ y e Hsorted Hy). left. }
  set (g0 := createEmptyGrid (rowCount p) (colCount p) (costs p)).
  assert (∀ r' c', 0 ≤ r' < rowCount p → 0 ≤ c' < colCount p →
            costAt (costs p) r c < costAt (costs p) r' c' →
            cell_at (foldl allocStep (g0, initialSupply p, initialDemand p, 0)
                       (l1 ++ [e])).1.1.1 r' c'
            = Some (mkCell r' c' (costAt (costs p) r' c') None false HNone None)) as Hnew.
  { intros r' c' Hr' Hc' Hlt. rewrite allocFold_untouched.
    - unfold g0. by rewrite cell_at_createEmptyGrid, decide_True.
    - intros y Hy [= Hyr Hyc]. pose proof (Hbefore y Hy) as Hle.
      assert (y ∈ cellsList p) as Hin.
      { rewrite HL. apply elem_of_app in Hy as [Hy| ->%list_elem_of_singleton];
          apply elem_of_app; [by left|right; left]. }
      apply elem_of_cellsList in Hin as (_ & _ & Hcost).
      rewrite Hcost, Hyr, Hyc in Hle. simpl in Hle. lia. }
  (* the degeneracy loop ships nothing *)
  assert (∀ r' c',
            from_option qty 0
              (cell_at (foldl allocStep (g0, initialSupply p, initialDemand p, 0)
                          (cellsList p)).1.1.1 r' c') = 0 →
            from_option qty 0 (cell_at (solveLeastCost p) r' c') = 0) as Hfill.
  { intros r' c'. unfold solveLeastCost. fold g0.
    destruct (foldl allocStep (g0, initialSupply p, initialDemand p, 0) (cellsList p))
      as [[[g1 s1] d1] cnt1]. cbn [fst].
    destruct (cnt1 <? rowCount p + colCount p - 1); [|done].
    pose proof (fillFold_rel (λ a b, qty a = 0 → qty b = 0) (cellsList p) g1
                  (rowCount p + colCount p - 1 - cnt1)
                  (λ cl H, H) (λ x y z Hxy Hyz H, Hyz (Hxy H)) (λ cl _, eq_refl) r' c') as H.
    destruct H as [a b HR|]; simpl; [exact HR|done]. }
  rewrite HL in Hfill.
  replace (l1 ++ e :: l2) with ((l1 ++ [e]) ++ l2) in Hfill by (by rewrite <- app_assoc).
  rewrite !foldl_app in Hfill. rewrite foldl_app in Hnew.
  destruct (foldl allocStep (g0, initialSupply p, initialDemand p, 0) l1)
    as [[[g1 s1] d1] cnt1].
  cbn [foldl] in Hfill, Hnew.
  destruct (allocStep (g1, s1, d1, cnt1) e) as [[[g2 s2] d2] cnt2] eqn:Hstep.
  cbn [fst] in Hnew.
  destruct (allocStep_exhausts _ _ _ _ _ _ _ _ _ Hstep) as [Hs|Hd]; cbn [er ec e] in *.
  - left. intros c' Hc' Hlt. apply Hfill.
    rewrite (allocFold_row_done l2 g2 s2 d2 cnt2 r c' Hs), (Hnew r c' Hr Hc' Hlt). done.
  - right. intros r' Hr' Hlt. apply Hfill.
    rewrite (allocFold_col_done l2 g2 s2 d2 cnt2 r' c Hd), (Hnew r' c Hr' Hc Hlt). done.
Qed.

Lemma solveLeastCost_rule_witness :
  problem_wf stepProblem ∧ 0 ≤ 0 < rowCount stepProblem ∧ 0 ≤ 0 < colCount stepProblem ∧
  ((∀ c', 0 ≤ c' < colCount stepProblem →
          costAt (costs stepProblem) 0 0 < costAt (costs stepProblem) 0 c' →
          from_option qty 0 (cell_at (solveLeastCost stepProblem) 0 c') = 0) ∨
   (∀ r', 0 ≤ r' < rowCount stepProblem →
          costAt (costs stepProblem) 0 0 < costAt (costs stepProblem) r' 0 →
          from_option qty 0 (cell_at (solveLeastCost stepProblem) r' 0) = 0)).
Proof.
  assert (0 ≤ 0 < rowCount stepProblem) as Hr by (simpl; lia).
  assert (0 ≤ 0 < colCount stepProblem) as Hc by (simpl; lia).
  exact (conj stepProblem_wf (conj Hr (conj Hc
           (solveLeastCost_rule stepProblem 0 0 stepProblem_wf Hr Hc)))).
Defined.

(** * Where the code leaves the specification *)

(** ** The explicit error results are never returned *)

(** A non-basic cell whose row and column are joined by basic cells closes a
    loop. *)
Lemma joined_completion g e :
  rtc (adjacent g) (RowN e.1) (ColN e.2) → isBasicAt g e.1 e.2 = false →
  ∃ rest, completion g e [e] true rest.
Proof.
  intros Hjoin Hnb.
  destruct (simple_walk (adjacent g) (RowN e.1) (ColN e.2)) as (l & Hlink & Hlast & Hnd);
    [done|].
  assert (2 ≤ length l)%nat as Hlen.
  { destruct l as [|y l]; [done|]. destruct l as [|y2 l]; [|simpl; lia].
    simpl in Hlast. injection Hlast as ->. cbn [linked] in Hlink.
    destruct Hlink as [Hb _]. simpl in Hb. congruence. }
  pose proof (walk_parity g _ _ _ Hlink Hlast) as Hpar. simpl in Hpar.
  destruct (cells_of_last g _ _ _ Hlink Hlast Hlen) as (r & Hlastc & Hrin).
  pose proof Hnd as [Hx Hnd']%NoDup_cons.
  exists (cells_of (RowN e.1) l), e. split_and!; [done| | | |].
  - change (e :: cells_of (RowN e.1) l ++ [e])
      with ((e :: cells_of (RowN e.1) l) ++ [e]).
    apply (alternating_snoc true (e :: cells_of (RowN e.1) l) (r, e.2) e).
    { destruct (cells_of (RowN e.1) l); [done|]. by rewrite last_cons_cons. }
    cbn [length]. rewrite length_cells_of, Nat.even_succ, <- Nat.negb_even, Hpar.
    split.
    + pose proof (cells_of_alternating g _ _ Hlink Hnd) as Halt.
      destruct l as [|y l]; [done|]. cbn [cells_of alternating is_col] in *.
      split; [|done]. cbn [linked] in Hlink. destruct Hlink as [Hxy _].
      destruct y as [|c1]; [done|]. simpl. split; [done|]. intros Heq.
      rewrite last_cons_cons in Hlast.
      apply NoDup_cons in Hnd' as [Hy _]. apply Hy.
      destruct l as [|y2 l]; [simpl in Hlen; lia|].
      rewrite last_cons_cons in Hlast. apply last_elem_of in Hlast. by rewrite Heq in Hlast.
    + simpl. split; [done|]. intros Heq. simpl in Heq. subst r. done.
  - by eapply cells_of_NoDup.
  - intros m Hm. pose proof (cells_of_basic g _ _ m Hlink Hm) as Hb. split; [|done].
    intros ->%list_elem_of_singleton. congruence.
  - rewrite length_cells_of. simpl. lia.
Qed.

(** An opportunity cost is evaluated only where both potentials are known,
    that is where row and column are joined to row 0, hence to each other: the
    loop search cannot fail for the entering cell, and a negative minimum
    always has its cell.  Neither error result can be returned. *)
Lemma performFullIteration_never_error rows cols g msg :
  wf_grid rows cols g → 1 ≤ rows →
  performFullIteration g rows cols ≠ Ok (IsError msg).
Proof.
  intros Hwf Hrows Hrun.
  assert (0 ≤ cols) as Hcols.
  { destruct Hwf as [Hlen Hall]. destruct g as [|cells0 g]; [unfold zlen in Hlen; simpl in *; lia|].
    apply Forall_cons in Hall as [<- _]. unfold zlen. lia. }
  destruct (calculatePotentials_total rows cols g Hwf Hrows Hcols) as (u & v & Hpot & _).
  pose proof (potLoop_reach _ g rows cols _ _ u v (reach_inv_initial g rows cols) Hpot)
    as [Hu Hv].
  unfold performFullIteration in Hrun. rewrite Hpot in Hrun. cbn [rbind] in Hrun.
  destruct (calculateOpportunityCosts_run rows cols g u v Hwf)
    as (gd & m & e & Hopp & Hwf1 & Hcells & He).
  rewrite Hopp in Hrun. destruct (nge m (Fin 0)) eqn:Hge; [done|].
  destruct e as [e|]; [|by subst m].
  destruct He as (d & -> & Hin & Hd).
  assert (isBasicAt g e.1 e.2 = false ∧ is_Some (known u e.1) ∧ is_Some (known v e.2))
    as (Hnb & Hue & Hve).
  { unfold deltaAt, deltaOf, isBasicAt in *. destruct (cell_at g e.1 e.2) as [cl|]; [|done].
    simpl in Hd. destruct (isBasin cl); [done|].
    destruct (known u e.1), (known v e.2); simpl in *; try done. }
  destruct (joined_completion gd e) as [rest Hcomp].
  { apply (rtc_adjacent_mono g gd).
    - intros r c. by rewrite (isBasicAt_annotate g u v gd Hcells).
    - etrans; [apply rtc_adjacent_sym, Hu, Hue|apply Hv, Hve]. }
  { by rewrite (isBasicAt_annotate g u v gd Hcells). }
  destruct (findLoop_total rows cols gd e Hwf1 Hrows Hin)
    as [[_ Hno]|(isH & rest' & Hloop & _)].
  { by apply (Hno true rest). }
  rewrite Hloop in Hrun. cbn [rbind] in Hrun.
  destruct (applyPivot gd (e :: rest' ++ [e])) as [[g2 t]| |]; simpl in Hrun; done.
Qed.

(** ** The two problems *)

Lemma costAt_bounds (P : Z → Prop) cs r c :
  P 0 → Forall (Forall P) cs → P (costAt cs r c).
Proof.
  intros H0 Hall. unfold costAt.
  destruct (zget cs r) as [cells|] eqn:Hr; [|done]. simpl.
  destruct (zget cells c) as [x|] eqn:Hc; [|done]. simpl.
  apply zget_elem_of in Hr, Hc. rewrite Forall_forall in Hall.
  specialize (Hall cells Hr). rewrite Forall_forall in Hall. by apply Hall.
Qed.

Lemma zget_bounds (P : Z → Prop) l i : P 0 → Forall P l → P (default 0 (zget l i)).
Proof.
  intros H0 Hall. destruct (zget l i) as [x|] eqn:Hi; [|done]. simpl.
  apply zget_elem_of in Hi. rewrite Forall_forall in Hall. by apply Hall.
Qed.

Lemma falseOptDraws_ok : draws_ok falseOptDraws.
Proof.
  constructor; simpl.
  - intros r c. apply (costAt_bounds (λ x, 0 ≤ x < 14)); [lia|].
    repeat (constructor; [repeat (constructor; [lia|]); constructor|]). constructor.
  - intros r. apply (zget_bounds (λ x, 0 ≤ x < 50)); [lia|].
    repeat (constructor; [lia|]). constructor.
  - intros c. apply (zget_bounds (λ x, 0 ≤ x < 50)); [lia|].
    repeat (constructor; [lia|]). constructor.
  - intros n Hn. destruct (n =? 3) eqn:E; [apply Z.eqb_eq in E|]; lia.
Qed.

Lemma badPivotDraws_ok : draws_ok badPivotDraws.
Proof.
  constructor; simpl.
  - intros r c. apply (costAt_bounds (λ x, 0 ≤ x < 14)); [lia|].
    repeat (constructor; [repeat (constructor; [lia|]); constructor|]). constructor.
  - intros r. apply (zget_bounds (λ x, 0 ≤ x < 50)); [lia|].
    repeat (constructor; [lia|]). constructor.
  - intros c. apply (zget_bounds (λ x, 0 ≤ x < 50)); [lia|].
    repeat (constructor; [lia|]). constructor.
  - intros n Hn. destruct (n =? 4) eqn:E; [apply Z.eqb_eq in E|]; lia.
Qed.

Lemma falseOptProblem_wf : problem_wf falseOptProblem.
Proof. constructor; try done; simpl; repeat constructor; lia. Qed.

Lemma badPivotProblem_wf : problem_wf badPivotProblem.
Proof. constructor; try done; simpl; repeat constructor; lia. Qed.

(** The basic cells (0,1), (0,2), (2,2), (2,1) of the least-cost start of
    [falseOptProblem] form a cycle. *)
Lemma falseOptProblem_cycle :
  basis_cycle (solveLeastCost falseOptProblem) [(0, 1); (0, 2); (2, 2); (2, 1)].
Proof.
  split_and!.
  - done.
  - apply NoDup_ListNoDup. repeat constructor; simpl; intuition congruence.
  - intros n Hn. repeat (apply elem_of_cons in Hn as [->|Hn]; [reflexivity|]).
    inversion Hn.
  - by exists 2%nat.
  - simpl. unfold move. simpl. intuition congruence.
Qed.

(** The basic cells (0,0), (0,2), (2,2), (2,0) of the least-cost start of
    [badPivotProblem] form a cycle. *)
Lemma badPivotProblem_cycle :
  basis_cycle (solveLeastCost badPivotProblem) [(0, 0); (0, 2); (2, 2); (2, 0)].
Proof.
  split_and!.
  - done.
  - apply NoDup_ListNoDup. repeat constructor; simpl; intuition congruence.
  - intros n Hn. repeat (apply elem_of_cons in Hn as [->|Hn]; [reflexivity|]).
    inversion Hn.
  - by exists 2%nat.
  - simpl. unfold move. simpl. intuition congruence.
Qed.

Lemma cheaperPlan_feasible : feasible_plan falseOptProblem cheaperPlan.
Proof.
  assert (wf_grid 3 4 cheaperPlan) as Hwf.
  { split; [reflexivity|]. repeat constructor. }
  constructor.
  - exact Hwf.
  - intros r c cl Hcl.
    destruct (proj1 (cell_at_range 3 4 cheaperPlan r c Hwf)) as [Hr Hc]; [by rewrite Hcl|].
    assert (r = 0 ∨ r = 1 ∨ r = 2) as [-> | [-> | ->]] by lia;
      (assert (c = 0 ∨ c = 1 ∨ c = 2 ∨ c = 3) as [-> | [-> | [-> | ->]]] by lia);
      vm_compute in Hcl; injection Hcl as <-; reflexivity.
  - apply finite_allocations_Forall. simpl.
    repeat (apply Forall_cons_2; [simpl; eauto|]). apply Forall_nil_2.
  - apply nonneg_allocations_Forall. simpl.
    repeat (apply Forall_cons_2; [intros a Ha; simpl in Ha; simplify_eq; lia|]).
    apply Forall_nil_2.
  - intros r Hr. simpl in Hr.
    assert (r = 0 ∨ r = 1 ∨ r = 2) as [-> | [-> | ->]] by lia; reflexivity.
  - intros c Hc. simpl in Hc.
    assert (c = 0 ∨ c = 1 ∨ c = 2 ∨ c = 3) as [-> | [-> | [-> | ->]]] by lia; reflexivity.
Qed.

(** C1.  [solveLeastCost] keeps its contract as long as the greedy pass alone
    allocates [rows + cols - 1] cells: the basis is then a spanning tree.
    When it allocates fewer, the degeneracy loop restores the count only, with
    the cheapest empty cells, whatever their position.  On two 3 x 4 problems
    that [generateRandomProblem] can draw, the six basic cells contain a
    cycle, so that the grid returned does not satisfy the basis invariant.
    On the second one the iteration that follows pivots along a loop with an
    even number of basic cells: the cost rises from 1108 to 1207, row 2 ships
    58 against a supply of 47 and column 3 receives 46 against a demand of
    35. *)
Theorem solveLeastCost_breaks_basis :
  (∀ p, problem_wf p → balanced p →
        (greedyPass p).2 = rowCount p + colCount p - 1 →
        basis_inv (rowCount p) (colCount p) (solveLeastCost p)) ∧
  (draws_ok falseOptDraws ∧
   generateRandomProblem falseOptDraws 3 4 = Some falseOptProblem ∧
   problem_wf falseOptProblem ∧ balanced falseOptProblem ∧
   (greedyPass falseOptProblem).2 = 5 ∧
   count_basic (solveLeastCost falseOptProblem) = 3 + 4 - 1 ∧
   basis_cycle (solveLeastCost falseOptProblem) [(0, 1); (0, 2); (2, 2); (2, 1)] ∧
   ¬ basis_inv 3 4 (solveLeastCost falseOptProblem)) ∧
  (draws_ok badPivotDraws ∧
   generateRandomProblem badPivotDraws 3 4 = Some badPivotProblem ∧
   problem_wf badPivotProblem ∧ balanced badPivotProblem ∧
   (greedyPass badPivotProblem).2 = 5 ∧
   count_basic (solveLeastCost badPivotProblem) = 3 + 4 - 1 ∧
   basis_cycle (solveLeastCost badPivotProblem) [(0, 0); (0, 2); (2, 2); (2, 0)] ∧
   ¬ basis_inv 3 4 (solveLeastCost badPivotProblem) ∧
   calculateTotalCost (solveLeastCost badPivotProblem) = Fin 1108 ∧
   ∃ g', performFullIteration (solveLeastCost badPivotProblem) 3 4
           = Ok (Pivoted g' (Fin 1207) (Fin 11)) ∧
         rowTotal g' 2 = 58 ∧ zget (supply badPivotProblem) 2 = Some 47 ∧
         colTotal g' 3 = 46 ∧ zget (demand badPivotProblem) 3 = Some 35).
Proof.
  split; [exact solveLeastCost_tree|]. split.
  - split_and!.
    + exact falseOptDraws_ok.
    + reflexivity.
    + exact falseOptProblem_wf.
    + reflexivity.
    + reflexivity.
    + reflexivity.
    + exact falseOptProblem_cycle.
    + intros [_ _ _ _ _ Hacyc]. exact (Hacyc _ falseOptProblem_cycle).
  - split_and!.
    + exact badPivotDraws_ok.
    + reflexivity.
    + exact badPivotProblem_wf.
    + reflexivity.
    + reflexivity.
    + reflexivity.
    + exact badPivotProblem_cycle.
    + intros [_ _ _ _ _ Hacyc]. exact (Hacyc _ badPivotProblem_cycle).
    + reflexivity.
    + eexists. split; [vm_compute; reflexivity|]. split_and!; reflexivity.
Qed.

(** C7.  [performFullIteration] reports no invariant violation.  On a
    rectangular grid it never returns either of its error results: an
    opportunity cost is evaluated only where both potentials are known, and
    there the loop search succeeds.  A basis that is no spanning tree and
    potentials left unknown are not looked for.  On the least-cost start of
    [falseOptProblem], a problem [generateRandomProblem] can draw, the basis
    contains a cycle and [u[1]], [v[0]] and [v[3]] stay unknown; every
    non-basic cell lies in row 1 or in column 0 or 3 and is skipped, so that
    no opportunity cost is evaluated and the minimum stays [Infinity]; the
    grid is declared optimal at a cost of 1230, while [cheaperPlan] is a
    feasible plan of the problem that costs 1095.  The same happens in the
    application: [handleNextIteration], run in the state [handleStart]
    installs, ends in ['optimal'] with that cost. *)
Theorem performFullIteration_never_reports :
  (∀ rows cols g msg, wf_grid rows cols g → 1 ≤ rows →
                      performFullIteration g rows cols ≠ Ok (IsError msg)) ∧
  draws_ok falseOptDraws ∧
  generateRandomProblem falseOptDraws 3 4 = Some falseOptProblem ∧
  ¬ basis_inv 3 4 (solveLeastCost falseOptProblem) ∧
  calculatePotentials (solveLeastCost falseOptProblem) 3 4
    = Ok ([Some 0; None; Some (-2)], [None; Some 5; Some 14; None]) ∧
  (∃ g1, calculateOpportunityCosts (solveLeastCost falseOptProblem)
           [Some 0; None; Some (-2)] [None; Some 5; Some 14; None] = (g1, PInf, None) ∧
         performFullIteration (solveLeastCost falseOptProblem) 3 4
           = Ok (IsOptimal g1 (Fin 1230))) ∧
  (∃ states s, handleNextIteration falseOptProblem (handleStart falseOptProblem)
                 = (states, Ok ()) ∧
               last states = Some s ∧ status s = SOptimal ∧ totalCost s = Fin 1230) ∧
  feasible_plan falseOptProblem cheaperPlan ∧
  calculateTotalCost cheaperPlan = Fin 1095.
Proof.
  split_and!.
  - exact performFullIteration_never_error.
  - exact falseOptDraws_ok.
  - reflexivity.
  - intros [_ _ _ _ _ Hacyc]. exact (Hacyc _ falseOptProblem_cycle).
  - vm_compute. reflexivity.
  - eexists. split; vm_compute; reflexivity.
  - eexists _, _. split; [vm_compute; reflexivity|]. split_and!; reflexivity.
  - exact cheaperPlan_feasible.
  - reflexivity.
Qed.
